(** * torch-fem: the solid, planar and truss problem classes

    A shallow embedding of [src/torchfem/solid.py] (class [Solid]) and of the
    constructors and the element routines [D], [compute_k] and [compute_f]
    of [src/torchfem/planar.py] and [src/torchfem/truss.py].  The plotting
    methods draw through matplotlib and pyvista and are not embedded.

    Conventions of the embedding.
    - A torch float tensor is a list (vector) or a list of rows (matrix) of
      exact rationals [Qc]: rounding is idealised away, every operation is
      the exact one.  Where the float32 code is decided by rounding alone
      (the determinant, the inverse and the dense solve of an exactly
      singular matrix) the embedding does not speak for it: the theorems
      about the Jacobian guard and about [solve] assume determinants that
      are not zero and a reduced stiffness that is not singular, or that the
      call returned.
    - A Python exception is an [Err] result; the constructors of [error]
      carry the names of the exceptions the code raises.
    - Tensor shape mismatches, which torch reports as a RuntimeError, are
      outside the model: the list operations truncate or pad there, and the
      theorems that depend on shapes state them as hypotheses.
    - Node, element and degree-of-freedom indices are natural numbers;
      Python's negative indices, which count from the end, are not
      modelled. *)

From Stdlib Require Import QArith Qcanon List Lia.
From stdpp Require Import base option list numbers gmap.

Open Scope Qc_scope.

(** ** Exceptions and results *)

Inductive error : Type :=
| AttributeError   (* an attribute that was never assigned is read *)
| IndexError       (* an index is out of range *)
| TypeError        (* an object of a kind the operation does not accept *)
| ValueError       (* "Element type not supported." *)
| NegativeJacobian (* Exception("Negative Jacobian. Check element numbering.") *)
| LinAlgError.     (* torch.linalg.solve on a singular matrix *)

Inductive result (A : Type) : Type :=
| Ok (a : A)
| Err (e : error).
Arguments Ok {A} a.
Arguments Err {A} e.

#[global] Instance result_ret : MRet result := fun A a => Ok a.
#[global] Instance result_bind : MBind result := fun A B f m =>
  match m with
  | Ok a => f a
  | Err e => Err e
  end.

#[global] Instance error_eq_dec : EqDecision error.
Proof. solve_decision. Defined.

Definition of_option {A} (e : error) (o : option A) : result A :=
  match o with
  | Some a => Ok a
  | None => Err e
  end.

(** [for x in xs: acc = body(acc, x)], stopping at the first exception. *)
Fixpoint for_each {A S} (body : S -> A -> result S) (xs : list A) (acc : S)
  : result S :=
  match xs with
  | [] => Ok acc
  | x :: xs' =>
      match body acc x with
      | Ok acc' => for_each body xs' acc'
      | Err e => Err e
      end
  end.

(** ** Tensors over exact rationals *)

Abbreviation vec := (list Qc) (only parsing).
Abbreviation mat := (list (list Qc)) (only parsing).

Definition Qc_leb (x y : Qc) : bool := Qle_bool x y.

Definition zeros (n : nat) : vec := replicate n 0.
Definition zeros2 (r c : nat) : mat := replicate r (zeros c).

Definition vnth (v : vec) (i : nat) : Qc := nth i v 0.
Definition entry (A : mat) (i j : nat) : Qc := vnth (nth i A []) j.

Definition vadd (a b : vec) : vec := zip_with Qcplus a b.
Definition vsub (a b : vec) : vec := zip_with Qcminus a b.
Definition vscale (s : Qc) (a : vec) : vec := map (Qcmult s) a.
Definition vscale_r (a : vec) (s : Qc) : vec := map (fun x => x * s) a.
Definition madd (A B : mat) : mat := zip_with vadd A B.
Definition mscale (s : Qc) (A : mat) : mat := map (vscale s) A.
Definition mscale_r (A : mat) (s : Qc) : mat := map (fun r => vscale_r r s) A.

Definition vsum (a : vec) : Qc := foldr Qcplus 0 a.
Definition dot (a b : vec) : Qc := vsum (zip_with Qcmult a b).

Definition ncols (A : mat) : nat :=
  match A with
  | [] => 0%nat
  | r :: _ => length r
  end.
Definition col (j : nat) (A : mat) : vec := map (fun r => vnth r j) A.

(** The products below pair the entries of their arguments position by
    position and stop at the shorter one; torch raises a RuntimeError when
    the inner dimensions differ, so the theorems state the shapes. *)

(** [A.T] *)
Definition transpose (A : mat) : mat := map (fun j => col j A) (seq 0 (ncols A)).
(** [A @ x] for a vector [x] *)
Definition matvec (A : mat) (x : vec) : vec := map (fun r => dot r x) A.
(** [A @ B] *)
Definition matmul (A B : mat) : mat :=
  map (fun r => map (fun j => dot r (col j B)) (seq 0 (ncols B))) A.

(** [t.ravel()] of a matrix, and [t.reshape((-1, 3))] of a vector whose
    length is a multiple of three. *)
Definition ravel {A} (t : list (list A)) : list A := concat t.
Fixpoint reshape3 {A} (n : nat) (v : list A) : list (list A) :=
  match n with
  | O => []
  | S n' => take 3 v :: reshape3 n' (drop 3 v)
  end.

(** [torch.linalg.det], by expansion along the first row: the exact
    determinant, of which the float32 one is a rounding. *)
Fixpoint remove_at {A} (j : nat) (l : list A) : list A :=
  match l, j with
  | [], _ => []
  | _ :: t, O => t
  | h :: t, S j' => h :: remove_at j' t
  end.

Fixpoint det_fuel (fuel : nat) (A : mat) : Qc :=
  match fuel with
  | O => 1
  | S fuel' =>
      match A with
      | [] => 1
      | r0 :: rest =>
          vsum (imap (fun j a =>
                  (if Nat.even j then a else - a)
                  * det_fuel fuel' (map (remove_at j) rest)) r0)
      end
  end.
Definition det (A : mat) : Qc := det_fuel (length A) A.

(** [torch.linalg.inv] of a matrix with non-zero determinant: the transposed
    cofactor matrix over the determinant.  (On a singular matrix torch
    raises or returns a rounding artefact; the theorems that use the inverse
    assume a non-zero determinant.) *)
Definition cofactor (A : mat) (i j : nat) : Qc :=
  (if Nat.even (i + j) then 1 else - (1))
  * det (map (remove_at j) (remove_at i A)).
Definition inv (A : mat) : mat :=
  let n := length A in
  let d := det A in
  map (fun i => map (fun j => cofactor A j i / d) (seq 0 n)) (seq 0 n).

(** [torch.linalg.solve(A, b)] for a square [A] and a vector [b]: Gaussian
    elimination on the equations [(row, rhs)].  Any row with a non-zero
    leading coefficient serves as pivot (LAPACK takes the largest one, which
    in exact arithmetic leads to the same solution); when a column holds no
    pivot the matrix is singular and the solve raises.  (In float32 the
    factorisation of a singular matrix finds a zero pivot or not depending
    on rounding; the theorems about a returned solution assume a
    non-singular matrix or that the solve returned.) *)
Abbreviation equation := (list Qc * Qc)%type (only parsing).

Fixpoint find_pivot (eqs : list equation) : option (equation * list equation) :=
  match eqs with
  | [] => None
  | e :: rest =>
      if decide (vnth e.1 0 = 0)
      then match find_pivot rest with
           | Some (p, others) => Some (p, e :: others)
           | None => None
           end
      else Some (e, rest)
  end.

Definition eliminate (a : Qc) (ps : vec) (pb : Qc) (e : equation) : equation :=
  let m := vnth e.1 0 / a in
  (vsub (tail e.1) (vscale m ps), e.2 - m * pb).

Fixpoint gauss (n : nat) (eqs : list equation) : option vec :=
  match n with
  | O => Some []
  | S n' =>
      match find_pivot eqs with
      | None => None
      | Some ((prow, pb), others) =>
          let a := vnth prow 0 in
          let ps := tail prow in
          match gauss n' (map (eliminate a ps pb) others) with
          | None => None
          | Some x' => Some ((pb - dot ps x') / a :: x')
          end
      end
  end.

Definition linalg_solve (A : mat) (b : vec) : result vec :=
  of_option LinAlgError (gauss (length A) (zip A b)).

(** ** Indexing *)

(** A comprehension [[f(x) for x in xs]] whose body may raise. *)
Fixpoint map_result {A B} (f : A -> result B) (xs : list A) : result (list B) :=
  match xs with
  | [] => Ok []
  | x :: xs' =>
      match f x with
      | Err e => Err e
      | Ok y =>
          match map_result f xs' with
          | Ok ys => Ok (y :: ys)
          | Err e => Err e
          end
      end
  end.

(** [t[idx, :]] and [v[idx]] with a list of indices: a new tensor. *)
Definition gather_rows {A} (t : list A) (idx : list nat) : result (list A) :=
  map_result (fun i => of_option IndexError (t !! i)) idx.

(** Selection by indices that are in range by construction (they come from
    [torch.nonzero] of a mask of the same shape). *)
Definition select (v : vec) (idx : list nat) : vec := map (vnth v) idx.
Definition select_cols (A : mat) (idx : list nat) : mat :=
  map (fun r => select r idx) A.
Definition select_rows (A : mat) (idx : list nat) : mat :=
  map (fun i => nth i A []) idx.

(** [torch.nonzero(mask).ravel()] of a flat boolean mask. *)
Fixpoint nonzero_from (i : nat) (mask : list bool) : list nat :=
  match mask with
  | [] => []
  | b :: mask' =>
      if b then i :: nonzero_from (S i) mask' else nonzero_from (S i) mask'
  end.
Definition nonzero (mask : list bool) : list nat := nonzero_from 0 mask.

(** [v[idx] = vals]: element-wise assignment in index order. *)
Definition vput (v : vec) (idx : list nat) (vals : vec) : vec :=
  fold_left (fun acc iv => <[iv.1 := iv.2]> acc) (zip idx vals) v.

(** [K[x, y] = v] for one entry. *)
Definition mset (K : mat) (x y : nat) (v : Qc) : mat :=
  <[x := <[y := v]> (nth x K [])]> K.

(** [K[(X, Y)]] for index matrices of one shape: the matrix of the entries
    [K[X[r][c], Y[r][c]]]. *)
Definition gather2_row (K : mat) (xs ys : list nat) : result vec :=
  map_result (fun xy => of_option IndexError (K !! xy.1 ≫= (fun r => r !! xy.2)))
             (zip xs ys).
Definition gather2 (K : mat) (X Y : list (list nat)) : result mat :=
  map_result (fun xy => gather2_row K xy.1 xy.2) (zip X Y).

(** [K[(X, Y)] = V]: the entries are written one after the other, row by
    row (for a repeated target the last write stays). *)
Definition index_put2_row (K : mat) (xs ys : list nat) (vs : vec) : mat :=
  fold_left (fun acc xyv => mset acc xyv.1.1 xyv.1.2 xyv.2) (zip (zip xs ys) vs) K.
Definition index_put2 (K : mat) (X Y : list (list nat)) (V : mat) : mat :=
  fold_left (fun acc xyv => index_put2_row acc xyv.1.1 xyv.1.2 xyv.2)
            (zip (zip X Y) V) K.

(** [F[X]] and [F[X] = V] for a vector [F] and an index matrix [X]. *)
Definition gather1 (F : vec) (X : list (list nat)) : result mat :=
  map_result (gather_rows F) X.
Definition index_put1 (F : vec) (X : list (list nat)) (V : mat) : vec :=
  fold_left (fun acc xv => vput acc xv.1 xv.2) (zip X V) F.

(** [torch.meshgrid(a, b, indexing="xy")]: both outputs have [len(b)] rows
    and [len(a)] columns; the first repeats [a] along the rows, the second
    holds [b[r]] throughout row [r]. *)
Definition meshgrid_xy (a b : list nat) : list (list nat) * list (list nat) :=
  (map (fun _ => a) b, map (fun y => map (fun _ => y) a) b).

(** ** Element descriptors (module [elements]) *)

(** The interface every element class offers: the number of nodes, the
    gradient matrix of the shape functions at a reference point, and the
    quadrature rule. *)
Record element : Type := {
  et_nodes : nat;
  et_B : vec -> mat;
  et_ipoints : list vec;
  et_iweights : list Qc
}.

(** Modelled from the spec: class [Tetra1] of the module [elements], which
    is not among the sources.  The spec describes it as the 4-node
    tetrahedron with a shape-function-gradient matrix (3 x 4) and a standard
    Gauss rule; this is the linear tetrahedron with shape functions
    [1 - x - y - z, x, y, z] and the one-point rule of weight 1/6 at the
    centroid. *)
Definition Tetra1 : element := {|
  et_nodes := 4;
  et_B := fun _ => [[- (1); 1; 0; 0]; [- (1); 0; 1; 0]; [- (1); 0; 0; 1]];
  et_ipoints := [[Q2Qc (1 # 4); Q2Qc (1 # 4); Q2Qc (1 # 4)]];
  et_iweights := [Q2Qc (1 # 6)]
|}.

(** ** Class [Solid] (solid.py) *)

Module Solid.

(** The attributes of an instance.  [etype] is [None] when [__init__]
    assigned no element type; [strains] is Python's [None] or a tensor
    with one row per element. *)
Record t : Type := {
  nodes : mat;
  n_dofs : nat;
  elements : list (list nat);
  n_elem : nat;
  forces : mat;
  displacements : mat;
  constraints : list (list bool);
  etype : option element;
  C : mat;
  strains : option mat;
  global_indices : list (list (list nat) * list (list nat))
}.

(** [[3 * n + i for n in element for i in range(3)]] *)
Definition dof_indices (element : list nat) : list nat :=
  n ← element; i ← seq 0 3; [(3 * n + i)%nat].

Section Init.
(** Class [Hexa1] of the module [elements] is not among the sources and
    its Gauss points are irrational; the constructor takes it as given. *)
Variable Hexa1 : element.

(** [Solid.__init__] *)
Definition init (nodes0 : mat) (elements0 : list (list nat))
    (forces0 displacements0 : mat) (constraints0 : list (list bool))
    (C0 : mat) (strains0 : option mat) : result t :=
  first ← of_option IndexError (elements0 !! 0%nat);
  let etype0 :=
    if decide (length first = 8%nat) then Some Hexa1
    else if decide (length first = 4%nat) then Some Tetra1
    else None in
  Ok {| nodes := nodes0;
        n_dofs := length (ravel nodes0);
        elements := elements0;
        n_elem := length elements0;
        forces := forces0;
        displacements := displacements0;
        constraints := constraints0;
        etype := etype0;
        C := C0;
        strains := strains0;
        global_indices :=
          map (fun element =>
                 let indices := dof_indices element in
                 meshgrid_xy indices indices) elements0 |}.
End Init.

(** [self.etype], an AttributeError when it was never assigned. *)
Definition get_etype (self : t) : result element :=
  of_option AttributeError (etype self).

(** The quadrature loop header [zip(self.etype.iweights(), self.etype.ipoints())]. *)
Definition quadrature (et : element) : list (Qc * vec) :=
  zip (et_iweights et) (et_ipoints et).

(** [Solid.volumes] *)
Definition volume_of (et : element) (nodes0 : mat) : Qc :=
  fold_left (fun volume wq =>
               let Jm := matmul (et_B et wq.2) nodes0 in
               let detJ := det Jm in
               volume + wq.1 * detJ) (quadrature et) 0.

Definition volumes (self : t) : result vec :=
  for_each (fun vols je =>
              nodes0 ← gather_rows (nodes self) je.2;
              et ← get_etype self;
              if decide (je.1 < length vols)%nat
              then Ok (<[je.1 := volume_of et nodes0]> vols)
              else Err IndexError)
           (imap (fun j e => (j, e)) (elements self))
           (zeros (n_elem self)).

(** [Solid.J] *)
Definition J (self : t) (q : vec) (nodes0 : mat) : result (mat * Qc) :=
  et ← get_etype self;
  let Jm := matmul (et_B et q) nodes0 in
  let detJ := det Jm in
  if Qc_leb detJ 0 then Err NegativeJacobian else Ok (Jm, detJ).

(** [torch.stack(vs, dim=-1).ravel()]: the vectors [vs] interleaved. *)
Definition stack_ravel (vs : list vec) : vec := ravel (transpose vs).

(** [Solid.D] *)
Definition D (self : t) (B : mat) : result mat :=
  et ← get_etype self;
  let zeros := zeros (et_nodes et) in
  let B0 := nth 0 B [] in
  let B1 := nth 1 B [] in
  let B2 := nth 2 B [] in
  let D0 := stack_ravel [B0; zeros; zeros] in
  let D1 := stack_ravel [zeros; B1; zeros] in
  let D2 := stack_ravel [zeros; zeros; B2] in
  let D3 := stack_ravel [zeros; B2; B1] in
  let D4 := stack_ravel [B2; zeros; B0] in
  let D5 := stack_ravel [B1; B0; zeros] in
  Ok [D0; D1; D2; D3; D4; D5].

(** [Solid.k]; the update is [k += ((w * D.T) @ C) @ D * detJ], as Python
    groups [w * D.T @ self.C @ D * detJ]. *)
Definition k_step (self : t) (nodes0 : mat) (k0 : mat) (wq : Qc * vec)
  : result mat :=
  '(Jm, detJ) ← J self wq.2 nodes0;
  et ← get_etype self;
  let B := matmul (inv Jm) (et_B et wq.2) in
  Dm ← D self B;
  Ok (madd k0 (mscale_r
                 (matmul (matmul (mscale wq.1 (transpose Dm)) (C self)) Dm)
                 detJ)).

Definition k (self : t) (j : nat) : result mat :=
  element ← of_option IndexError (elements self !! j);
  nodes0 ← gather_rows (nodes self) element;
  et ← get_etype self;
  for_each (k_step self nodes0) (quadrature et)
           (zeros2 (3 * et_nodes et) (3 * et_nodes et)).

(** [Solid.f]; the update is [f += ((w * D.T) @ C) @ epsilon * detJ]. *)
Definition f_step (self : t) (nodes0 : mat) (epsilon : vec) (f0 : vec)
    (wq : Qc * vec) : result vec :=
  '(Jm, detJ) ← J self wq.2 nodes0;
  et ← get_etype self;
  let B := matmul (inv Jm) (et_B et wq.2) in
  Dm ← D self B;
  Ok (vadd f0 (vscale_r
                 (matvec (matmul (mscale wq.1 (transpose Dm)) (C self)) epsilon)
                 detJ)).

Definition f (self : t) (j : nat) (epsilon : vec) : result vec :=
  element ← of_option IndexError (elements self !! j);
  nodes0 ← gather_rows (nodes self) element;
  et ← get_etype self;
  for_each (f_step self nodes0 epsilon) (quadrature et)
           (zeros (3 * et_nodes et)).

(** [Solid.stiffness]; [K[idx] += k] reads [K[idx]], evaluates [k], adds
    and writes the sum back at [idx]. *)
Definition stiffness_step (self : t) (K : mat) (j : nat) : result mat :=
  idx ← of_option IndexError (global_indices self !! j);
  G ← gather2 K idx.1 idx.2;
  kj ← k self j;
  Ok (index_put2 K idx.1 idx.2 (madd G kj)).

Definition stiffness (self : t) : result mat :=
  for_each (stiffness_step self) (seq 0 (length (elements self)))
           (zeros2 (n_dofs self) (n_dofs self)).

(** The loop of [solve] over [enumerate(self.strains)];
    [F[X] + f] adds [f] to every row of [F[X]]. *)
Definition force_step (self : t) (F : vec) (je : nat * vec) : result vec :=
  idx ← of_option IndexError (global_indices self !! je.1);
  G ← gather1 F idx.1;
  fj ← f self je.1 je.2;
  Ok (index_put1 F idx.1 (map (fun g => vadd g fj) G)).

Definition inelastic_forces (self : t) : result vec :=
  let F := zeros (n_dofs self) in
  match strains self with
  | None => Ok F
  | Some eps => for_each (force_step self) (imap (fun j e => (j, e)) eps) F
  end.

(** [Solid.solve] *)
Definition solve (self : t) : result (mat * mat) :=
  K ← stiffness self;
  F ← inelastic_forces self;
  let con := nonzero (ravel (constraints self)) in
  let uncon := nonzero (map negb (ravel (constraints self))) in
  let f_d := matvec (select_cols K con) (select (ravel (displacements self)) con) in
  let K_red := select_cols (select_rows K uncon) uncon in
  let f_red := select (vadd (vsub (ravel (forces self)) f_d) F) uncon in
  u_red ← linalg_solve K_red f_red;
  let u := ravel (displacements self) in
  let u := vput u uncon u_red in
  let f0 := matvec K u in
  Ok (reshape3 (length u / 3) u, reshape3 (length f0 / 3) f0).

End Solid.

(** ** Constructors of [Truss] (truss.py) and [Planar] (planar.py)

    Both classes derive from [FEM] (module [base]) and take a [Material]
    (module [materials]); neither module is among the sources, nor are the
    element classes.  The constructors are embedded over them: the base
    object, the base constructor (which may raise) and the element classes
    are given. *)
Section Families.
Variables (material base : Type).
Variable FEM_init : mat -> list (list nat) -> material -> result base.
Variable base_n_elem : base -> nat.
Variables Bar1 Bar2 Tria1 Tria2 Quad1 Quad2 : element.

Record Truss : Type := {
  truss_base : base;
  areas : vec;
  truss_etype : element;
  truss_n_strains : nat;
  truss_n_int : nat;
  truss_ext_strain : mat
}.

(** [Truss.__init__] *)
Definition Truss_init (nodes0 : mat) (elements0 : list (list nat))
    (m : material) : result Truss :=
  b ← FEM_init nodes0 elements0 m;
  let areas0 := replicate (length elements0) 1 in
  first ← of_option IndexError (elements0 !! 0%nat);
  et ← (if decide (length first = 2%nat) then Ok Bar1
        else if decide (length first = 3%nat) then Ok Bar2
        else Err ValueError);
  Ok {| truss_base := b;
        areas := areas0;
        truss_etype := et;
        truss_n_strains := 1;
        truss_n_int := length (et_iweights et);
        truss_ext_strain := zeros2 (base_n_elem b) 1 |}.

Record Planar : Type := {
  planar_base : base;
  thickness : vec;
  planar_etype : element;
  planar_n_strains : nat;
  planar_n_int : nat;
  planar_ext_strain : mat
}.

(** [Planar.__init__] *)
Definition Planar_init (nodes0 : mat) (elements0 : list (list nat))
    (m : material) : result Planar :=
  b ← FEM_init nodes0 elements0 m;
  let thickness0 := replicate (base_n_elem b) 1 in
  first ← of_option IndexError (elements0 !! 0%nat);
  et ← (if decide (length first = 3%nat) then Ok Tria1
        else if decide (length first = 4%nat) then Ok Quad1
        else if decide (length first = 6%nat) then Ok Tria2
        else if decide (length first = 8%nat) then Ok Quad2
        else Err ValueError);
  Ok {| planar_base := b;
        thickness := thickness0;
        planar_etype := et;
        planar_n_strains := 3;
        planar_n_int := length (et_iweights et);
        planar_ext_strain := zeros2 (base_n_elem b) 3 |}.
End Families.

(** ** Statements in the words of the specification *)

(** The solid strain operator entry by entry: row [r], column [c] of the
    operator built from the Cartesian gradients [B], for the strain order
    (xx, yy, zz, yz, zx, xy). *)
Definition strain_operator_entry (B : mat) (r c : nat) : Qc :=
  let n := (c / 3)%nat in
  match r, (c mod 3)%nat with
  | 0%nat, 0%nat => entry B 0 n
  | 1%nat, 1%nat => entry B 1 n
  | 2%nat, 2%nat => entry B 2 n
  | 3%nat, 1%nat => entry B 2 n
  | 3%nat, 2%nat => entry B 1 n
  | 4%nat, 0%nat => entry B 2 n
  | 4%nat, 2%nat => entry B 0 n
  | 5%nat, 0%nat => entry B 1 n
  | 5%nat, 1%nat => entry B 0 n
  | _, _ => 0
  end.

(** The coordinates of the nodes of an element. *)
Definition node_coordinates (nodes0 : mat) (element : list nat) : mat :=
  map (fun n => nth n nodes0 []) element.

(** The quadrature sum of [w * det(B_ref(q) @ nodes)]. *)
Definition quadrature_volume (et : element) (nodes0 : mat) : Qc :=
  vsum (map (fun wq => wq.1 * det (matmul (et_B et wq.2) nodes0))
            (Solid.quadrature et)).

(** Every node index of every element is a row of the node array. *)
Definition nodes_in_range (self : Solid.t) : Prop :=
  Forall (Forall (fun n => (n < length (Solid.nodes self))%nat))
         (Solid.elements self).

(** ** Meshes used in the examples *)

Definition half : Qc := Q2Qc (1 # 2).

(** The unit tetrahedron and the same nodes with one more. *)
Definition tet_nodes : mat := [[0; 0; 0]; [1; 0; 0]; [0; 1; 0]; [0; 0; 1]].
Definition five_nodes : mat := tet_nodes ++ [[1; 1; 1]].

(** The isotropic constitutive tensor for Young's modulus 1 and Poisson ratio 0. *)
Definition C_iso : mat :=
  [[1; 0; 0; 0; 0; 0]; [0; 1; 0; 0; 0; 0]; [0; 0; 1; 0; 0; 0];
   [0; 0; 0; half; 0; 0]; [0; 0; 0; 0; half; 0]; [0; 0; 0; 0; 0; half]].

Definition zero_field (n : nat) : mat := replicate n [0; 0; 0].
Definition free_mask (n : nat) : list (list bool) := replicate n [false; false; false].
(** Nodes 0, 1 and 2 clamped, node 3 free. *)
Definition clamp3_mask : list (list bool) :=
  replicate 3 [true; true; true] ++ [[false; false; false]].

(** The instance [Solid(tet_nodes, [[0, 1, 2, 3]], forces, displacements,
    constraints, C_iso, strains)], as [Solid.init] builds it. *)
Definition tet_solid (forces0 displacements0 : mat) (constraints0 : list (list bool))
    (strains0 : option mat) : Solid.t :=
  {| Solid.nodes := tet_nodes;
     Solid.n_dofs := 12;
     Solid.elements := [[0; 1; 2; 3]%nat];
     Solid.n_elem := 1;
     Solid.forces := forces0;
     Solid.displacements := displacements0;
     Solid.constraints := constraints0;
     Solid.etype := Some Tetra1;
     Solid.C := C_iso;
     Solid.strains := strains0;
     Solid.global_indices :=
       [meshgrid_xy (Solid.dof_indices [0; 1; 2; 3]%nat)
                    (Solid.dof_indices [0; 1; 2; 3]%nat)] |}.

(** The same tetrahedron with nodes 1 and 2 exchanged: inverted. *)
Definition inverted_solid : Solid.t :=
  {| Solid.nodes := tet_nodes;
     Solid.n_dofs := 12;
     Solid.elements := [[0; 2; 1; 3]%nat];
     Solid.n_elem := 1;
     Solid.forces := zero_field 4;
     Solid.displacements := zero_field 4;
     Solid.constraints := clamp3_mask;
     Solid.etype := Some Tetra1;
     Solid.C := C_iso;
     Solid.strains := None;
     Solid.global_indices :=
       [meshgrid_xy (Solid.dof_indices [0; 2; 1; 3]%nat)
                    (Solid.dof_indices [0; 2; 1; 3]%nat)] |}.

(** The clamped tetrahedron without load, and with an inelastic strain in the
    z direction. *)
Definition tet_clamped : Solid.t :=
  tet_solid (zero_field 4) (zero_field 4) clamp3_mask None.
Definition tet_strained : Solid.t :=
  tet_solid (zero_field 4) (zero_field 4) clamp3_mask (Some [[0; 0; 1; 0; 0; 0]]).

(** Its stiffness matrix and inelastic force vector, as the code computes them. *)
Definition tet_K : mat :=
  match Solid.stiffness tet_clamped with
  | Ok K => K
  | Err _ => []
  end.
Definition tet_F : list Qc :=
  match Solid.inelastic_forces tet_strained with
  | Ok F => F
  | Err _ => []
  end.

(** ** Auxiliary notions *)

(** A matrix of [r] rows and [c] columns. *)
Definition is_mat (r c : nat) (A : mat) : Prop :=
  length A = r /\ Forall (fun row => length row = c) A.

Definition symmetric (A : mat) : Prop := forall i j, entry A i j = entry A j i.

(** The sum of [f 0 .. f (n - 1)]. *)
Fixpoint sumn (n : nat) (f : nat -> Qc) : Qc :=
  match n with
  | O => 0
  | S n' => sumn n' f + f n'
  end.

(** The position of the last occurrence of [p] in [idx]. *)
Fixpoint lastpos (idx : list nat) (p : nat) : option nat :=
  match idx with
  | [] => None
  | x :: rest =>
      match lastpos rest p with
      | Some c => Some (S c)
      | None => if decide (x = p) then Some 0%nat else None
      end
  end.

(** The body of the loop of [Solid.volumes]. *)
Definition volumes_body (self : Solid.t) (vols : vec) (je : nat * list nat)
  : result vec :=
  nodes0 ← gather_rows (Solid.nodes self) je.2;
  et ← Solid.get_etype self;
  if decide (je.1 < length vols)%nat
  then Ok (<[je.1 := Solid.volume_of et nodes0]> vols)
  else Err IndexError.

(** Replacing the constitutive tensor and the inelastic strains of an
    instance. *)
Definition with_material (self : Solid.t) (C0 : mat) (strains0 : option mat)
  : Solid.t :=
  {| Solid.nodes := Solid.nodes self;
     Solid.n_dofs := Solid.n_dofs self;
     Solid.elements := Solid.elements self;
     Solid.n_elem := Solid.n_elem self;
     Solid.forces := Solid.forces self;
     Solid.displacements := Solid.displacements self;
     Solid.constraints := Solid.constraints self;
     Solid.etype := Solid.etype self;
     Solid.C := C0;
     Solid.strains := strains0;
     Solid.global_indices := Solid.global_indices self |}.


(** The shape of the shape-function gradients an element class returns. *)
Definition element_ok (et : element) : Prop :=
  forall q, is_mat 3 (et_nodes et) (et_B et q).

(** The six rows [Solid.D] stacks, for an element class of [n] nodes. *)
Definition D_rows (n : nat) (B : mat) : mat :=
  let z := zeros n in
  let B0 := nth 0 B [] in
  let B1 := nth 1 B [] in
  let B2 := nth 2 B [] in
  [Solid.stack_ravel [B0; z; z]; Solid.stack_ravel [z; B1; z];
   Solid.stack_ravel [z; z; B2]; Solid.stack_ravel [z; B2; B1];
   Solid.stack_ravel [B2; z; B0]; Solid.stack_ravel [B1; B0; z]].

(** The Jacobian, the Cartesian gradients and the integrands at a quadrature
    point, as [Solid.k] and [Solid.f] compute them once the guard of
    [Solid.J] has passed. *)
Definition jacobian (et : element) (nodes0 : mat) (q : list Qc) : mat :=
  matmul (et_B et q) nodes0.
Definition gradients (et : element) (nodes0 : mat) (q : list Qc) : mat :=
  matmul (inv (jacobian et nodes0 q)) (et_B et q).
Definition k_integrand (et : element) (C0 nodes0 : mat) (wq : Qc * list Qc) : mat :=
  let Dm := D_rows (et_nodes et) (gradients et nodes0 wq.2) in
  mscale_r (matmul (matmul (mscale wq.1 (transpose Dm)) C0) Dm)
           (det (jacobian et nodes0 wq.2)).
Definition f_integrand (et : element) (C0 nodes0 : mat) (epsilon : list Qc)
    (wq : Qc * list Qc) : list Qc :=
  let Dm := D_rows (et_nodes et) (gradients et nodes0 wq.2) in
  vscale_r (matvec (matmul (mscale wq.1 (transpose Dm)) C0) epsilon)
           (det (jacobian et nodes0 wq.2)).

(** Some quadrature point of the element with nodes [nodes0] has a
    non-positive Jacobian determinant. *)
Definition degenerate (et : element) (nodes0 : mat) : Prop :=
  Exists (fun wq => det (jacobian et nodes0 wq.2) <= 0) (Solid.quadrature et).

(** The class invariants [Solid.__init__] establishes for a mesh whose
    elements all have the arity of the element class and refer to existing
    nodes, with one row of three coordinates per node. *)
Record well_formed (self : Solid.t) (et : element) : Prop := {
  wf_etype : Solid.etype self = Some et;
  wf_element : element_ok et;
  wf_nodes : Forall (fun r => length r = 3%nat) (Solid.nodes self);
  wf_n_dofs : Solid.n_dofs self = length (ravel (Solid.nodes self));
  wf_arity : Forall (fun e => length e = et_nodes et) (Solid.elements self);
  wf_range : nodes_in_range self;
  wf_indices :
    Solid.global_indices self
    = map (fun e => meshgrid_xy (Solid.dof_indices e) (Solid.dof_indices e))
          (Solid.elements self)
}.

(** The body of the assembly loop once the indices are known to be in range. *)
Definition scatter_add (K : mat) (idx : list nat) (kj : mat) : mat :=
  index_put2 K (map (fun _ => idx) idx) (map (fun y => map (fun _ => y) idx) idx)
             (madd (map (fun y => map (fun x => entry K x y) idx) idx) kj).

(** Element [j] of the mesh is degenerate. *)
Definition degenerate_at (self : Solid.t) (et : element) (j : nat) : Prop :=
  exists e, Solid.elements self !! j = Some e
            /\ degenerate et (node_coordinates (Solid.nodes self) e).

(** Every quadrature point of every element has a positive Jacobian
    determinant. *)
Definition positive_jacobians (self : Solid.t) (et : element) : Prop :=
  Forall (fun e =>
            Forall (fun wq =>
                      0 < det (jacobian et (node_coordinates (Solid.nodes self) e) wq.2))
                   (Solid.quadrature et))
         (Solid.elements self).

(** The square matrix [A] has the zero vector as its only null vector. *)
Definition nonsingular (A : mat) : Prop :=
  forall y, length y = length A -> matvec A y = zeros (length A) ->
            y = zeros (length A).

(** The vector [x] satisfies every equation. *)
Definition solves (eqs : list (list Qc * Qc)) (x : list Qc) : Prop :=
  Forall (fun e => dot e.1 x = e.2) eqs.

(** The entries of [v] selected by a boolean mask. *)
Fixpoint mask_filter (mask : list bool) (v : list Qc) : list Qc :=
  match mask, v with
  | b :: mask', x :: v' =>
      if b then x :: mask_filter mask' v' else mask_filter mask' v'
  | _, _ => []
  end.

(** The constrained and the free DOFs, as [solve] computes them. *)
Definition constrained_dofs (self : Solid.t) : list nat :=
  nonzero (ravel (Solid.constraints self)).
Definition free_dofs (self : Solid.t) : list nat :=
  nonzero (map negb (ravel (Solid.constraints self))).

(** "Reduced stiffness: K_red = K[U,U]." *)
Definition reduced_stiffness (K : mat) (U : list nat) : mat :=
  map (fun i => map (fun j => entry K i j) U) U.

(** "Reduced load: f_red = (externalForce + inelasticForce −
    K[:,C]·prescribedDisplacement[C])[U]." *)
Definition reduced_load (external inelastic : list Qc) (K : mat)
    (prescribed : list Qc) (C0 U : list nat) : list Qc :=
  map (fun i => vnth external i + vnth inelastic i
                - vsum (map (fun j => entry K i j * vnth prescribed j) C0)) U.

(** The boundary arrays have one row of three entries per node. *)
Record boundary_ok (self : Solid.t) : Prop := {
  bc_forces : Forall (fun r => length r = 3%nat) (Solid.forces self);
  bc_displacements : Forall (fun r => length r = 3%nat) (Solid.displacements self);
  bc_constraints : Forall (fun r => length r = 3%nat) (Solid.constraints self);
  bc_forces_len : (3 * length (Solid.forces self))%nat = Solid.n_dofs self;
  bc_displacements_len : (3 * length (Solid.displacements self))%nat = Solid.n_dofs self;
  bc_constraints_len : (3 * length (Solid.constraints self))%nat = Solid.n_dofs self
}.

(** Every entry is zero. *)
Definition all_zero (v : list Qc) : Prop := Forall (fun x => x = 0) v.

(** The inelastic strains are absent or zero. *)
Definition strains_zero (self : Solid.t) : Prop :=
  match Solid.strains self with
  | None => True
  | Some eps => Forall all_zero eps
  end.

(** The rigid translation along x as a DOF vector: 1 at the x DOF of every
    node, 0 elsewhere. *)
Definition tx (q : nat) : Qc := if decide (q mod 3 = 0)%nat then 1 else 0.
Definition translation_x (n : nat) : list Qc := map tx (seq 0 n).

(** The shape functions of an element class sum to one, so that their
    gradients sum to zero over the nodes. *)
Definition partition_of_unity (et : element) : Prop :=
  forall q i, (i < 3)%nat -> sumn (et_nodes et) (fun a => entry (et_B et q) i a) = 0.

(** ** Class [Solid] over a store of mutable objects

    Tensors and lists are mutable Python objects: an attribute holds a
    reference, and an in-place operation ([K[idx] += ...], [u[uncon] = ...])
    changes the object for every holder of a reference.  This second
    embedding of [stiffness], [k], [f] and [solve] makes that explicit: the
    instance and the objects its attributes refer to live in a heap, every
    tensor that is the target of an in-place operation is allocated there,
    and the new contents are computed by the step functions of [Solid].
    Temporaries that are never written to stay values. *)
Module Imperative.

Definition loc : Type := nat.

(** The attributes of an instance: references, and immutable values. *)
Record instance : Type := {
  nodes : loc;
  n_dofs : nat;
  elements : loc;
  n_elem : nat;
  forces : loc;
  displacements : loc;
  constraints : loc;
  etype : option element;
  C : loc;
  strains : option loc;
  global_indices : loc
}.

Inductive cell : Type :=
| Matrix (m : mat)
| Vector (v : list Qc)
| Bools (b : list (list bool))
| Ints (e : list (list nat))
| Grids (g : list (list (list nat) * list (list nat)))
| Instance (i : instance).

Abbreviation heap := (gmap loc cell).

Definition as_matrix (c : cell) : option mat :=
  match c with Matrix m => Some m | _ => None end.
Definition as_vector (c : cell) : option (list Qc) :=
  match c with Vector v => Some v | _ => None end.
Definition as_bools (c : cell) : option (list (list bool)) :=
  match c with Bools b => Some b | _ => None end.
Definition as_ints (c : cell) : option (list (list nat)) :=
  match c with Ints e => Some e | _ => None end.
Definition as_grids (c : cell) : option (list (list (list nat) * list (list nat))) :=
  match c with Grids g => Some g | _ => None end.
Definition as_instance (c : cell) : option instance :=
  match c with Instance i => Some i | _ => None end.

(** Reading an object of a given kind. *)
Definition get {T} (proj : cell -> option T) (h : heap) (l : loc) : option T :=
  h !! l ≫= proj.

(** The values of all attributes of the instance at [self]. *)
Definition read_instance (h : heap) (self : loc) : option Solid.t :=
  i ← get as_instance h self;
  nodes0 ← get as_matrix h (nodes i);
  elements0 ← get as_ints h (elements i);
  forces0 ← get as_matrix h (forces i);
  displacements0 ← get as_matrix h (displacements i);
  constraints0 ← get as_bools h (constraints i);
  C0 ← get as_matrix h (C i);
  strains0 ← match strains i with
             | None => Some None
             | Some r => Some <$> get as_matrix h r
             end;
  grids0 ← get as_grids h (global_indices i);
  Some {| Solid.nodes := nodes0;
          Solid.n_dofs := n_dofs i;
          Solid.elements := elements0;
          Solid.n_elem := n_elem i;
          Solid.forces := forces0;
          Solid.displacements := displacements0;
          Solid.constraints := constraints0;
          Solid.etype := etype i;
          Solid.C := C0;
          Solid.strains := strains0;
          Solid.global_indices := grids0 |}.

(** Computations that may raise and that read and write the heap. *)
Definition M (A : Type) : Type := heap -> result A * heap.

#[global] Instance M_ret : MRet M := fun A a h => (Ok a, h).
#[global] Instance M_bind : MBind M := fun A B f m h =>
  match m h with
  | (Ok a, h') => f a h'
  | (Err e, h') => (Err e, h')
  end.

Definition lift {A} (r : result A) : M A := fun h => (r, h).
Definition alloc (c : cell) : M loc :=
  fun h => let l := fresh (dom h) in (Ok l, <[l := c]> h).
Definition load {T} (proj : cell -> option T) (l : loc) : M T :=
  fun h => (of_option TypeError (get proj h l), h).
Definition store (l : loc) (c : cell) : M unit :=
  fun h => (Ok tt, <[l := c]> h).
Definition snapshot (self : loc) : M Solid.t :=
  fun h => (of_option TypeError (read_instance h self), h).

Fixpoint for_in {A} (xs : list A) (body : A -> M unit) : M unit :=
  match xs with
  | [] => mret tt
  | x :: xs' => body x ≫= fun _ => for_in xs' body
  end.

(** A flat vector cut into rows as long as those of [shape]: writing through
    the view [t.ravel()] changes [t] itself. *)
Fixpoint unravel_like (shape : mat) (flat : list Qc) : mat :=
  match shape with
  | [] => []
  | r :: shape' => take (length r) flat :: unravel_like shape' (drop (length r) flat)
  end.

(** [Solid.k]: [k] is allocated and updated in place by [k[:, :] += ...]. *)
Definition k (self : loc) (j : nat) : M loc :=
  s ← snapshot self;
  element ← lift (of_option IndexError (Solid.elements s !! j));
  nodes0 ← lift (gather_rows (Solid.nodes s) element);
  et ← lift (Solid.get_etype s);
  kref ← alloc (Matrix (zeros2 (3 * et_nodes et) (3 * et_nodes et)));
  _ ← for_in (Solid.quadrature et) (fun wq =>
         s' ← snapshot self;
         k0 ← load as_matrix kref;
         k1 ← lift (Solid.k_step s' nodes0 k0 wq);
         store kref (Matrix k1));
  mret kref.

(** [Solid.f] *)
Definition f (self : loc) (j : nat) (epsilon : list Qc) : M loc :=
  s ← snapshot self;
  element ← lift (of_option IndexError (Solid.elements s !! j));
  nodes0 ← lift (gather_rows (Solid.nodes s) element);
  et ← lift (Solid.get_etype s);
  fref ← alloc (Vector (zeros (3 * et_nodes et)));
  _ ← for_in (Solid.quadrature et) (fun wq =>
         s' ← snapshot self;
         f0 ← load as_vector fref;
         f1 ← lift (Solid.f_step s' nodes0 epsilon f0 wq);
         store fref (Vector f1));
  mret fref.

(** [Solid.stiffness]: [K[idx] += self.k(j)] reads [K[idx]], calls [k],
    and writes into [K]. *)
Definition stiffness (self : loc) : M loc :=
  s ← snapshot self;
  Kref ← alloc (Matrix (zeros2 (Solid.n_dofs s) (Solid.n_dofs s)));
  _ ← for_in (seq 0 (length (Solid.elements s))) (fun j =>
         s' ← snapshot self;
         idx ← lift (of_option IndexError (Solid.global_indices s' !! j));
         K0 ← load as_matrix Kref;
         G ← lift (gather2 K0 idx.1 idx.2);
         kref ← k self j;
         kj ← load as_matrix kref;
         K1 ← load as_matrix Kref;
         store Kref (Matrix (index_put2 K1 idx.1 idx.2 (madd G kj))));
  mret Kref.

(** The loop of [solve] over the inelastic strains. *)
Definition inelastic_forces (self : loc) : M loc :=
  s ← snapshot self;
  Fref ← alloc (Vector (zeros (Solid.n_dofs s)));
  _ ← match Solid.strains s with
      | None => mret tt
      | Some eps =>
          for_in (imap (fun j e => (j, e)) eps) (fun je =>
            s' ← snapshot self;
            idx ← lift (of_option IndexError (Solid.global_indices s' !! je.1));
            F0 ← load as_vector Fref;
            G ← lift (gather1 F0 idx.1);
            fref ← f self je.1 je.2;
            fj ← load as_vector fref;
            F1 ← load as_vector Fref;
            store Fref (Vector (index_put1 F1 idx.1 (map (fun g => vadd g fj) G))))
      end;
  mret Fref.

(** [t.clone()]: a new object with the contents of [t]. *)
Definition clone (l : loc) : M loc :=
  m ← load as_matrix l;
  alloc (Matrix m).

(** [Solid.solve], over the way [u] is obtained from
    [self.displacements]: the source takes [.clone().ravel()]. *)
Definition solve_with (obtain : loc -> M loc) (self : loc) : M (mat * mat) :=
  Kref ← stiffness self;
  Fref ← inelastic_forces self;
  s ← snapshot self;
  K ← load as_matrix Kref;
  F ← load as_vector Fref;
  let con := nonzero (ravel (Solid.constraints s)) in
  let uncon := nonzero (map negb (ravel (Solid.constraints s))) in
  let f_d := matvec (select_cols K con) (select (ravel (Solid.displacements s)) con) in
  let K_red := select_cols (select_rows K uncon) uncon in
  let f_red := select (vadd (vsub (ravel (Solid.forces s)) f_d) F) uncon in
  u_red ← lift (linalg_solve K_red f_red);
  i ← load as_instance self;
  uref ← obtain (displacements i);
  u0 ← load as_matrix uref;
  _ ← store uref (Matrix (unravel_like u0 (vput (ravel u0) uncon u_red)));
  u1 ← load as_matrix uref;
  let u := ravel u1 in
  let f0 := matvec K u in
  mret (reshape3 (length u / 3) u, reshape3 (length f0 / 3) f0).

Definition solve (self : loc) : M (mat * mat) := solve_with clone self.

(** The variant without [.clone()]: [u] is a view of [self.displacements]. *)
Definition solve_without_clone (self : loc) : M (mat * mat) :=
  solve_with (fun l => mret l) self.

End Imperative.

(** The stateful computation [m], started in [h], returns what the pure
    computation [p] returns (related by [Q]) or raises what it raises, and
    leaves every object of [h] as it was. *)
Definition refines {A B} (m : Imperative.M A) (h : gmap nat Imperative.cell)
    (p : result B) (Q : A -> B -> gmap nat Imperative.cell -> Prop) : Prop :=
  match p with
  | Ok b => exists a h', m h = (Ok a, h') /\ h ⊆ h' /\ Q a b h'
  | Err e => exists h', m h = (Err e, h') /\ h ⊆ h'
  end.

(** The strained tetrahedron as objects in a heap: the instance at address 0,
    the objects its attributes refer to at the addresses 1 to 8. *)
Definition tet_instance : Imperative.instance :=
  {| Imperative.nodes := 1%nat;
     Imperative.n_dofs := 12;
     Imperative.elements := 2%nat;
     Imperative.n_elem := 1;
     Imperative.forces := 3%nat;
     Imperative.displacements := 4%nat;
     Imperative.constraints := 5%nat;
     Imperative.etype := Some Tetra1;
     Imperative.C := 6%nat;
     Imperative.strains := Some 8%nat;
     Imperative.global_indices := 7%nat |}.

Definition tet_heap : gmap nat Imperative.cell :=
  list_to_map
    [(0%nat, Imperative.Instance tet_instance);
     (1%nat, Imperative.Matrix tet_nodes);
     (2%nat, Imperative.Ints [[0; 1; 2; 3]%nat]);
     (3%nat, Imperative.Matrix (zero_field 4));
     (4%nat, Imperative.Matrix (zero_field 4));
     (5%nat, Imperative.Bools clamp3_mask);
     (6%nat, Imperative.Matrix C_iso);
     (7%nat, Imperative.Grids (Solid.global_indices tet_strained));
     (8%nat, Imperative.Matrix [[0; 0; 1; 0; 0; 0]])].

(** ** Further notions for the properties of [Solid] *)

(** An instance with other node coordinates. *)
Definition with_nodes (self : Solid.t) (nodes0 : mat) : Solid.t :=
  {| Solid.nodes := nodes0;
     Solid.n_dofs := Solid.n_dofs self;
     Solid.elements := Solid.elements self;
     Solid.n_elem := Solid.n_elem self;
     Solid.forces := Solid.forces self;
     Solid.displacements := Solid.displacements self;
     Solid.constraints := Solid.constraints self;
     Solid.etype := Solid.etype self;
     Solid.C := Solid.C self;
     Solid.strains := Solid.strains self;
     Solid.global_indices := Solid.global_indices self |}.

(** An instance with other external forces. *)
Definition with_forces (self : Solid.t) (forces0 : mat) : Solid.t :=
  {| Solid.nodes := Solid.nodes self;
     Solid.n_dofs := Solid.n_dofs self;
     Solid.elements := Solid.elements self;
     Solid.n_elem := Solid.n_elem self;
     Solid.forces := forces0;
     Solid.displacements := Solid.displacements self;
     Solid.constraints := Solid.constraints self;
     Solid.etype := Solid.etype self;
     Solid.C := Solid.C self;
     Solid.strains := Solid.strains self;
     Solid.global_indices := Solid.global_indices self |}.

(** The global DOF that local DOF [r] of an element addresses: component
    [r mod 3] of the node at position [r / 3]. *)
Definition global_dof (element : list nat) (r : nat) : nat :=
  (3 * nth (r / 3) element 0 + r mod 3)%nat.

(** The rigid translation by the vector [t] as a DOF vector: entry [q] is
    the component [q mod 3] of [t]. *)
Definition tr (t : vec) (q : nat) : Qc := vnth t (q mod 3).
Definition translation (t : vec) (n : nat) : vec := map (tr t) (seq 0 n).

(** The sum over the nodes of component [i] of a nodal field. *)
Definition resultant (f : mat) (i : nat) : Qc := vsum (col i f).

Definition identity3 : mat := [[1; 0; 0]; [0; 1; 0]; [0; 0; 1]].

(** What element [element] with element matrix [kj] adds to the entry
    [(p, q)] of the assembled matrix: [kj[a][b]] goes to the row of the
    global DOF of [b] and the column of the global DOF of [a]. *)
Definition element_contribution (element : list nat) (kj : mat) (p q : nat) : Qc :=
  sumn (3 * length element) (fun a =>
    sumn (3 * length element) (fun b =>
      if decide (global_dof element b = p /\ global_dof element a = q)
      then entry kj a b else 0)).

(** What element [element] with element vector [fj] adds to the entry [p]
    of the assembled inelastic force. *)
Definition element_load (element : list nat) (fj : vec) (p : nat) : Qc :=
  sumn (3 * length element) (fun a =>
    if decide (global_dof element a = p) then vnth fj a else 0).

(** The element matrix and the element vector where [Solid.k] and [Solid.f]
    return, the empty tensor where they raise. *)
Definition k_of (self : Solid.t) (j : nat) : mat :=
  match Solid.k self j with
  | Ok kj => kj
  | Err _ => []
  end.
Definition f_of (self : Solid.t) (j : nat) (epsilon : vec) : vec :=
  match Solid.f self j epsilon with
  | Ok fj => fj
  | Err _ => []
  end.

(** The quadratic form of [A] is nowhere negative on vectors of length [n]. *)
Definition positive_semidefinite (n : nat) (A : mat) : Prop :=
  forall x, length x = n -> 0 <= dot x (matvec A x).

(** Two tetrahedra sharing the face of the nodes 1, 2 and 3: the unit
    tetrahedron and the one that the node (1, 1, 1) closes.  The nodes 0, 1
    and 2 are clamped and the last node carries the load [load]. *)
Definition two_tets (load : vec) (strains0 : option mat) : Solid.t :=
  {| Solid.nodes := five_nodes;
     Solid.n_dofs := 15;
     Solid.elements := [[0; 1; 2; 3]%nat; [1; 2; 3; 4]%nat];
     Solid.n_elem := 2;
     Solid.forces := zero_field 4 ++ [load];
     Solid.displacements := zero_field 5;
     Solid.constraints := replicate 3 [true; true; true]
                          ++ replicate 2 [false; false; false];
     Solid.etype := Some Tetra1;
     Solid.C := C_iso;
     Solid.strains := strains0;
     Solid.global_indices :=
       [meshgrid_xy (Solid.dof_indices [0; 1; 2; 3]%nat)
                    (Solid.dof_indices [0; 1; 2; 3]%nat);
        meshgrid_xy (Solid.dof_indices [1; 2; 3; 4]%nat)
                    (Solid.dof_indices [1; 2; 3; 4]%nat)] |}.

(** The engineering strain (xx, yy, zz, yz, zx, xy) of a displacement
    gradient [G], where [G[i][j]] is the derivative of the displacement
    component [j] along the coordinate [i]. *)
Definition engineering_strain (G : mat) : vec :=
  [entry G 0 0; entry G 1 1; entry G 2 2;
   entry G 2 1 + entry G 1 2; entry G 2 0 + entry G 0 2;
   entry G 1 0 + entry G 0 1].

(** The gradient of the simple shear [u = (y, 0, 0)] and of the
    infinitesimal rotation about the z axis [u = (- y, x, 0)]. *)
Definition shear_xy : mat := [[0; 1; 0]; [0; 0; 0]; [0; 0; 0]].
Definition rotation_z : mat := [[0; - (1); 0]; [1; 0; 0]; [0; 0; 0]].

(** ** Methods of [Planar] (planar.py) and [Truss] (truss.py)

    A batch of matrices, one per element, is a list of matrices.  As for
    [Solid], shape mismatches are outside the model; the theorems state the
    shapes as hypotheses. *)

(** [t.reshape(n, -1)] of a tensor whose entries in memory order are
    [flat]: [n] rows of [len(flat) / n] entries. *)
Definition reshape_rows {A} (n : nat) (flat : list A) : list (list A) :=
  let c := (length flat / n)%nat in
  map (fun i => take c (drop (i * c) flat)) (seq 0 n).

(** [B[:, i, :]] and [nodes[:, i]] for a batch: row [i] of every matrix. *)
Definition batch_row (i : nat) (B : list mat) : result mat :=
  map_result (fun Be => of_option IndexError (Be !! i)) B.

(** The entries in memory order of [torch.stack([X, Z], dim=-1)] for two
    batches of vectors: element by element, the vectors interleaved. *)
Definition stack_last (X Z : mat) : vec :=
  concat (zip_with (fun x z => Solid.stack_ravel [x; z]) X Z).

(** [torch.stack([D0, D1, D2], dim=1)] for three batches of vectors. *)
Definition stack_dim1 (D0 D1 D2 : mat) : list mat :=
  zip_with (fun d0 d12 => [d0; d12.1; d12.2]) D0 (zip D1 D2).

(** [torch.einsum("j,j,jkl->jkl", t, detJ, DCD)] *)
Definition einsum_j_j_jkl (t detJ : vec) (DCD : list mat) : list mat :=
  zip_with (fun td M => map (map (fun x => td.1 * td.2 * x)) M) (zip t detJ) DCD.

(** [torch.einsum("j,j,jkl,jk->jl", t, detJ, D, S)] *)
Definition einsum_j_j_jkl_jk (t detJ : vec) (D : list mat) (S : mat) : mat :=
  zip_with (fun td DS =>
              map (fun l =>
                     vsum (zip_with (fun Dk Sk => td.1 * td.2 * vnth Dk l * Sk)
                                    DS.1 DS.2))
                  (seq 0 (ncols DS.1)))
           (zip t detJ) (zip D S).

(** [torch.einsum("ijk,il->ijkl", B, cs)], in memory order. *)
Definition einsum_ijk_il (B : list mat) (cs : mat) : vec :=
  concat (zip_with (fun Bi ci =>
                      concat (map (fun Bij =>
                                     concat (map (fun b => map (fun c => b * c) ci) Bij))
                                  Bi))
                   B cs).

Section Methods.
Variable base : Type.
(** The attribute [n_elem] that [FEM.__init__] sets. *)
Variable base_n_elem : base -> nat.
(** [torch.linalg.norm(v, dim=-1)], the Euclidean length of a vector; in
    general it is irrational, and it is given. *)
Variable norm : vec -> Qc.

(** [Planar.D]; the second argument is not used. *)
Definition Planar_D (self : Planar base) (B : list mat) (_ : list mat)
  : result (list mat) :=
  let n_elem := base_n_elem (planar_base base self) in
  let zeros := zeros2 n_elem (et_nodes (planar_etype base self)) in
  B0 ← batch_row 0 B;
  let D0 := reshape_rows n_elem (stack_last B0 zeros) in
  B1 ← batch_row 1 B;
  let D1 := reshape_rows n_elem (stack_last zeros B1) in
  let D2 := reshape_rows n_elem (stack_last B1 B0) in
  Ok (stack_dim1 D0 D1 D2).

(** [Planar.compute_k] and [Planar.compute_f] *)
Definition Planar_compute_k (self : Planar base) (detJ : vec) (DCD : list mat)
  : list mat :=
  einsum_j_j_jkl (thickness base self) detJ DCD.
Definition Planar_compute_f (self : Planar base) (detJ : vec) (D : list mat)
    (S : mat) : mat :=
  einsum_j_j_jkl_jk (thickness base self) detJ D S.

(** [Truss.D]; for a bar of length zero torch divides by zero and returns
    nan or inf, where the rationals give 0: the theorems take the lengths
    to be non-zero. *)
Definition Truss_D (self : Truss base) (B : list mat) (nodes0 : list mat)
  : result (list mat) :=
  x1 ← batch_row 1 nodes0;
  x0 ← batch_row 0 nodes0;
  let dx := zip_with vsub x1 x0 in
  let l0 := map norm dx in
  let cs := zip_with (fun d l => map (fun x => x / l) d) dx l0 in
  Ok (map (fun r => [r])
          (reshape_rows (base_n_elem (truss_base base self))
                        (einsum_ijk_il B cs))).

(** [Truss.compute_k] and [Truss.compute_f] *)
Definition Truss_compute_k (self : Truss base) (detJ : vec) (DCD : list mat)
  : list mat :=
  einsum_j_j_jkl (areas base self) detJ DCD.
Definition Truss_compute_f (self : Truss base) (detJ : vec) (D : list mat)
    (S : mat) : mat :=
  einsum_j_j_jkl_jk (areas base self) detJ D S.
End Methods.

(** The plane engineering strain (xx, yy, xy) of a displacement gradient. *)
Definition plane_strain (G : mat) : vec :=
  [entry G 0 0; entry G 1 1; entry G 1 0 + entry G 0 1].

(** The square root of a rational whose numerator and denominator are
    squares, and the Euclidean norm it gives. *)
Definition sqrt_exact (x : Qc) : Qc :=
  Q2Qc (Z.sqrt (Qnum x) # Pos.sqrt (Qden x)).
Definition norm_exact (v : vec) : Qc := sqrt_exact (dot v v).

(** The three rows [Planar.D] stacks for one element of [n] nodes. *)
Definition planar_D_rows (n : nat) (Be : mat) : mat :=
  let z := zeros n in
  let B0 := nth 0 Be [] in
  let B1 := nth 1 Be [] in
  [Solid.stack_ravel [B0; z]; Solid.stack_ravel [z; B1]; Solid.stack_ravel [B1; B0]].

(** The data of a linear elastic element state: the strain operator [D],
    the constitutive tensor [C] and the nodal displacements [u]; its
    stress [C D u] and its stiffness integrand [D.T C D]. *)
Definition state_D (s : mat * mat * vec) : mat := s.1.1.
Definition state_u (s : mat * mat * vec) : vec := s.2.
Definition state_stress (s : mat * mat * vec) : vec :=
  matvec s.1.2 (matvec s.1.1 s.2).
Definition state_DCD (s : mat * mat * vec) : mat :=
  matmul (matmul (transpose s.1.1) s.1.2) s.1.1.
Definition state_ok (p m : nat) (s : mat * mat * vec) : Prop :=
  is_mat p m s.1.1 /\ is_mat p p s.1.2 /\ length s.2 = m.

(** A three-node triangle and a two-node bar for the examples, with
    instances of [Planar] and [Truss] of one element over a base object
    that is its number of elements. *)
Definition tria : element := {|
  et_nodes := 3;
  et_B := fun _ => [[- (1); 1; 0]; [- (1); 0; 1]];
  et_ipoints := [[Q2Qc (1 # 3); Q2Qc (1 # 3)]];
  et_iweights := [half]
|}.
Definition bar : element := {|
  et_nodes := 2;
  et_B := fun _ => [[- half; half]];
  et_ipoints := [[0]];
  et_iweights := [1 + 1]
|}.
Definition one_planar : Planar nat := {|
  planar_base := 1%nat;
  thickness := [half];
  planar_etype := tria;
  planar_n_strains := 3;
  planar_n_int := 1;
  planar_ext_strain := [[0; 0; 0]]
|}.
Definition one_truss : Truss nat := {|
  truss_base := 1%nat;
  areas := [1 + 1];
  truss_etype := bar;
  truss_n_strains := 1;
  truss_n_int := 1;
  truss_ext_strain := [[0]]
|}.


(** ** Signs of the Jacobian determinants, quadrature sums, DOF sets

    The embedding computes determinants, inverses and the dense solve
    exactly.  On an exactly singular matrix the code's float32 routines are
    decided by rounding (the rounded determinant of a singular Jacobian can
    come out positive, the LU factorisation of a singular stiffness can find
    no zero pivot); the statements about the guard of [Solid.J] and about
    [solve] therefore leave the exactly singular case out by hypothesis. *)




(** "The quadrature sum over (weight w, point q) of
    w · det(B_ref(q) · nodeCoordinates(j))": the sum over the positions [i]
    of the rule of the [i]-th weight times the determinant at the [i]-th
    point. *)
Definition quadrature_sum (et : element) (nodes0 : mat) : Qc :=
  sumn (Nat.min (length (et_iweights et)) (length (et_ipoints et)))
       (fun i => nth i (et_iweights et) 0
                 * det (matmul (et_B et (nth i (et_ipoints et) [])) nodes0)).

(** The DOFs whose constraint flag is [b], in increasing order: the
    constrained DOF set C for [true], the free DOF set U for [false]. *)
Definition dofs_with_flag (b : bool) (flags : list bool) : list nat :=
  filter (fun i => flags !! i = Some b) (seq 0 (length flags)).


(** The clamped tetrahedron with the prescribed displacement (1/2, 0, 1) at
    the clamped node 1 and the external force (0, 1, 1) at the free node 3. *)
Definition tet_loaded : Solid.t :=
  tet_solid [[0; 0; 0]; [0; 0; 0]; [0; 0; 0]; [0; 1; 1]]
            [[0; 0; 0]; [half; 0; 1]; [0; 0; 0]; [0; 0; 0]]
            clamp3_mask None.
(** * Properties *)

(** ** The result monad and loops *)


(** An exception leaving a loop was raised by its body. *)
Lemma for_each_err {A S} (body : S -> A -> result S) xs acc e :
  for_each body xs acc = Err e ->
  exists acc' x, x ∈ xs /\ body acc' x = Err e.
Proof.
  revert acc. induction xs as [|x xs IH]; intros acc; simpl; [done|].
  destruct (body acc x) as [acc'|e'] eqn:Hb.
  - intros H. destruct (IH _ H) as (a & y & Hy & Hby).
    exists a, y. split; [by right | done].
  - intros [= ->]. exists acc, x. split; [by left | done].
Qed.

(** A loop whose body raises [e] on the elements satisfying [P] and returns
    on the others raises [e] exactly when some element satisfies [P]. *)
Lemma for_each_guard {A S} (body : S -> A -> result S) (P : A -> Prop) e xs acc :
  (forall a x, x ∈ xs ->
     (P x /\ body a x = Err e) \/ (~ P x /\ exists a', body a x = Ok a')) ->
  (Exists P xs /\ for_each body xs acc = Err e) \/
  (~ Exists P xs /\ exists a', for_each body xs acc = Ok a').
Proof.
  revert acc. induction xs as [|x xs IH]; intros acc Hbody.
  - right. split; [by intros ?%Exists_nil | by exists acc].
  - simpl. destruct (Hbody acc x (list_elem_of_here _ _)) as [[HP Hx] | [HnP [a' Hx]]];
      rewrite Hx.
    + left. split; [by left | done].
    + destruct (IH a') as [[Hex Hr] | [Hne Hr]].
      * intros a y Hy. apply Hbody. by right.
      * left. split; [by right | done].
      * right. split; [|done]. by intros [?|?]%Exists_cons.
Qed.

(** ** Construction *)

Lemma tet_solid_init Hexa1 forces0 displacements0 constraints0 strains0 :
  Solid.init Hexa1 tet_nodes [[0; 1; 2; 3]%nat] forces0 displacements0
             constraints0 C_iso strains0
  = Ok (tet_solid forces0 displacements0 constraints0 strains0).
Proof. reflexivity. Qed.

Lemma inverted_solid_init Hexa1 :
  Solid.init Hexa1 tet_nodes [[0; 2; 1; 3]%nat] (zero_field 4) (zero_field 4)
             clamp3_mask C_iso None
  = Ok inverted_solid.
Proof. reflexivity. Qed.

Section Families_facts.
Context {material base : Type}.
Variable FEM_init : mat -> list (list nat) -> material -> result base.
Variable base_n_elem : base -> nat.
Variables Bar1 Bar2 Tria1 Tria2 Quad1 Quad2 : element.

(** [Truss.__init__] raises the ValueError for a first element of an
    arity other than 2 or 3, once the base constructor has returned. *)
Lemma Truss_init_unsupported nodes0 elements0 m b first :
  FEM_init nodes0 elements0 m = Ok b ->
  elements0 !! 0%nat = Some first ->
  length first <> 2%nat -> length first <> 3%nat ->
  Truss_init material base FEM_init base_n_elem Bar1 Bar2 nodes0 elements0 m
  = Err ValueError.
Proof.
  intros Hb Hf H2 H3. unfold Truss_init. rewrite Hb, Hf. simpl.
  by repeat case_decide.
Qed.

(** [Planar.__init__] raises the ValueError for a first element of an
    arity other than 3, 4, 6 or 8, once the base constructor has returned. *)
Lemma Planar_init_unsupported nodes0 elements0 m b first :
  FEM_init nodes0 elements0 m = Ok b ->
  elements0 !! 0%nat = Some first ->
  length first <> 3%nat -> length first <> 4%nat ->
  length first <> 6%nat -> length first <> 8%nat ->
  Planar_init material base FEM_init base_n_elem Tria1 Tria2 Quad1 Quad2
              nodes0 elements0 m
  = Err ValueError.
Proof.
  intros Hb Hf H3 H4 H6 H8. unfold Planar_init. rewrite Hb, Hf. simpl.
  by repeat case_decide.
Qed.
End Families_facts.

(** [Solid.__init__] has no [else] branch: for a first element of an arity
    other than 4 or 8 it returns an instance without [etype]. *)
Lemma Solid_init_unsupported Hexa1 nodes0 elements0 forces0 displacements0
    constraints0 C0 strains0 first :
  elements0 !! 0%nat = Some first ->
  length first <> 8%nat -> length first <> 4%nat ->
  exists self,
    Solid.init Hexa1 nodes0 elements0 forces0 displacements0 constraints0 C0 strains0
    = Ok self /\ Solid.etype self = None.
Proof.
  intros Hf H8 H4. unfold Solid.init. rewrite Hf. simpl.
  repeat case_decide; try done. eexists. split; [reflexivity | done].
Qed.

(** C1. Constructing a problem whose first element has an unsupported node
    count is claimed to raise the configuration error in every family.
    [Solid.__init__] does not: for the five-node element [[0, 1, 2, 3, 4]]
    it returns an instance, whose [etype] was never assigned; the first
    method that reads it raises an AttributeError. *)
Theorem Solid_init_arity_five_returns (Hexa1 : element) :
  exists self,
    Solid.init Hexa1 five_nodes [[0; 1; 2; 3; 4]%nat] (zero_field 5) (zero_field 5)
               (free_mask 5) C_iso None = Ok self
    /\ Solid.etype self = None
    /\ Solid.volumes self = Err AttributeError
    /\ Solid.stiffness self = Err AttributeError.
Proof.
  eexists. split; [reflexivity|]. split; [reflexivity|].
  split; vm_compute; reflexivity.
Qed.

(** ** The strain operator *)

Lemma vnth_zeros n i : vnth (zeros n) i = 0.
Proof.
  unfold vnth, zeros. revert i. induction n as [|n IH]; intros [|i]; simpl; auto.
Qed.

Lemma length_zeros n : length (zeros n) = n.
Proof. apply length_replicate. Qed.

Lemma stack_ravel_3 (a b c : vec) :
  Solid.stack_ravel [a; b; c]
  = concat (map (fun j => [vnth a j; vnth b j; vnth c j]) (seq 0 (length a))).
Proof. reflexivity. Qed.

Lemma vnth_concat_triples (g : nat -> vec) s n m i :
  (forall j, length (g j) = 3%nat) -> (m < n)%nat -> (i < 3)%nat ->
  vnth (concat (map g (seq s n))) (3 * m + i) = vnth (g (s + m)%nat) i.
Proof.
  intros Hg. revert s m. induction n as [|n IH]; intros s m Hm Hi; [lia|].
  cbn [seq map concat]. unfold vnth in *. destruct m as [|m].
  - replace (s + 0)%nat with s by lia. replace (3 * 0 + i)%nat with i by lia.
    rewrite app_nth1; [done | rewrite Hg; lia].
  - rewrite app_nth2; rewrite Hg; [|lia].
    replace (3 * S m + i - 3)%nat with (3 * m + i)%nat by lia.
    rewrite IH by lia. f_equal. f_equal. lia.
Qed.

Lemma length_concat_triples (g : nat -> vec) s n :
  (forall j, length (g j) = 3%nat) ->
  length (concat (map g (seq s n))) = (3 * n)%nat.
Proof.
  intros Hg. revert s. induction n as [|n IH]; intros s; simpl; [done|].
  rewrite length_app, Hg, IH. lia.
Qed.

(** Interleaving three vectors of one length [n]: entry [3 m + i] is entry
    [m] of the [i]-th vector. *)
Lemma vnth_stack_ravel (a b c : vec) m i :
  (m < length a)%nat -> (i < 3)%nat ->
  vnth (Solid.stack_ravel [a; b; c]) (3 * m + i)
  = vnth (nth i [a; b; c] []) m.
Proof.
  intros Hm Hi. rewrite stack_ravel_3.
  rewrite vnth_concat_triples by (done || lia). simpl.
  destruct i as [|[|[|i]]]; try lia; reflexivity.
Qed.

Lemma length_stack_ravel (a b c : vec) :
  length (Solid.stack_ravel [a; b; c]) = (3 * length a)%nat.
Proof. rewrite stack_ravel_3. by apply length_concat_triples. Qed.

Lemma D_ok (self : Solid.t) (et : element) (B : mat) :
  Solid.etype self = Some et ->
  Solid.D self B = Ok (D_rows (et_nodes et) B).
Proof. intros Het. unfold Solid.D, Solid.get_etype. by rewrite Het. Qed.

Lemma is_mat_D_rows n B :
  length (nth 0 B []) = n -> length (nth 1 B []) = n -> length (nth 2 B []) = n ->
  is_mat 6 (3 * n) (D_rows n B).
Proof.
  intros H0 H1 H2. split; [done|]. unfold D_rows. cbv zeta.
  repeat match goal with |- Forall _ _ => constructor end;
    rewrite length_stack_ravel, ?length_zeros; congruence.
Qed.

(** C7. For Cartesian gradients [B] with three rows of one entry per node,
    [Solid.D] returns six rows of [3 * nodes] columns, for the strains
    (xx, yy, zz, yz, zx, xy) in this order: at node [n] row 0 holds
    [B[0,n]] in column [3n], row 1 [B[1,n]] in column [3n+1], row 2
    [B[2,n]] in column [3n+2], row 3 [B[2,n]] in column [3n+1] and [B[1,n]]
    in column [3n+2], row 4 [B[2,n]] in column [3n] and [B[0,n]] in column
    [3n+2], row 5 [B[1,n]] in column [3n] and [B[0,n]] in column [3n+1];
    every other entry is zero. *)
Theorem D_is_the_strain_operator (self : Solid.t) (et : element) (B : mat) :
  Solid.etype self = Some et ->
  length (nth 0 B []) = et_nodes et ->
  length (nth 1 B []) = et_nodes et ->
  length (nth 2 B []) = et_nodes et ->
  exists Dm,
    Solid.D self B = Ok Dm
    /\ length Dm = 6%nat
    /\ Forall (fun r => length r = (3 * et_nodes et)%nat) Dm
    /\ forall r c, (r < 6)%nat -> (c < 3 * et_nodes et)%nat ->
         entry Dm r c = strain_operator_entry B r c.
Proof.
  intros Het H0 H1 H2. rewrite (D_ok self et B Het).
  eexists. split; [reflexivity|]. split; [reflexivity|]. split.
  - by apply is_mat_D_rows.
  - intros r c Hr Hc.
    assert (Hm : (c / 3 < et_nodes et)%nat) by (apply Nat.Div0.div_lt_upper_bound; lia).
    assert (Hi : (c mod 3 < 3)%nat) by (apply Nat.mod_upper_bound; lia).
    unfold strain_operator_entry.
    rewrite (Nat.div_mod_eq c 3) at 1.
    generalize dependent (c mod 3)%nat. generalize dependent (c / 3)%nat.
    intros m Hm i Hi. unfold entry at 1, D_rows. cbv zeta.
    destruct r as [|[|[|[|[|[|r]]]]]]; try lia; simpl nth;
      (rewrite vnth_stack_ravel; [| rewrite ?length_zeros; lia | done]);
      destruct i as [|[|[|i]]]; try lia; simpl; rewrite ?vnth_zeros; reflexivity.
Qed.

Lemma D_is_the_strain_operator_witness :
  exists Dm,
    Solid.D (tet_solid (zero_field 4) (zero_field 4) clamp3_mask None)
            (et_B Tetra1 []) = Ok Dm
    /\ length Dm = 6%nat
    /\ Forall (fun r => length r = (3 * et_nodes Tetra1)%nat) Dm
    /\ forall r c, (r < 6)%nat -> (c < 3 * et_nodes Tetra1)%nat ->
         entry Dm r c = strain_operator_entry (et_B Tetra1 []) r c.
Proof.
  apply (D_is_the_strain_operator
           (tet_solid (zero_field 4) (zero_field 4) clamp3_mask None) Tetra1
           (et_B Tetra1 [])); reflexivity.
Defined.

(** ** Volumes *)

Lemma map_result_ok {A B} (f : A -> result B) (g : A -> B) xs :
  Forall (fun x => f x = Ok (g x)) xs -> map_result f xs = Ok (map g xs).
Proof.
  induction 1 as [|x xs Hx _ IH]; simpl; [done|]. by rewrite Hx, IH.
Qed.

Lemma map_result_err {A B} (f : A -> result B) xs e :
  map_result f xs = Err e -> exists x, x ∈ xs /\ f x = Err e.
Proof.
  induction xs as [|x xs IH]; simpl; [done|].
  destruct (f x) as [y|e'] eqn:Hx.
  - destruct (map_result f xs) as [ys|e'] eqn:Hxs; [done|].
    intros [= ->]. destruct IH as (z & Hz & Hfz); [done|].
    exists z. split; [by right | done].
  - intros [= ->]. exists x. split; [by left | done].
Qed.

Lemma gather_rows_ok {A} (t : list A) (d : A) idx :
  Forall (fun n => (n < length t)%nat) idx ->
  gather_rows t idx = Ok (map (fun n => nth n t d) idx).
Proof.
  intros H. apply map_result_ok. eapply Forall_impl; [exact H|].
  intros n Hn. simpl. destruct (lookup_lt_is_Some_2 t n Hn) as [x Hx].
  rewrite Hx. simpl. f_equal. symmetry. by apply nth_lookup_Some with (d := d).
Qed.

Lemma gather_rows_err {A} (t : list A) idx e :
  gather_rows t idx = Err e -> e = IndexError.
Proof.
  intros (n & _ & Hn)%map_result_err. destruct (t !! n); simpl in Hn; congruence.
Qed.

Lemma gather_nodes_ok (nodes0 : mat) element :
  Forall (fun n => (n < length nodes0)%nat) element ->
  gather_rows nodes0 element = Ok (node_coordinates nodes0 element).
Proof. apply gather_rows_ok. Qed.

Lemma fold_left_sum {A} (g : A -> Qc) xs a :
  fold_left (fun v x => v + g x) xs a = a + vsum (map g xs).
Proof.
  revert a. induction xs as [|x xs IH]; intros a; simpl.
  - ring.
  - rewrite IH. ring.
Qed.

(** The accumulation loop of [volumes] computes the quadrature sum. *)
Lemma volume_of_quadrature et nodes0 :
  Solid.volume_of et nodes0 = quadrature_volume et nodes0.
Proof.
  unfold Solid.volume_of, quadrature_volume.
  rewrite (fold_left_sum (fun wq => wq.1 * det (matmul (et_B et wq.2) nodes0))).
  ring.
Qed.

Lemma volumes_unfold self :
  Solid.volumes self =
  for_each (volumes_body self) (imap (fun j e => (j, e)) (Solid.elements self))
           (zeros (Solid.n_elem self)).
Proof. reflexivity. Qed.

Lemma volumes_body_ok self et vols j e :
  Solid.etype self = Some et ->
  Forall (fun n => (n < length (Solid.nodes self))%nat) e ->
  (j < length vols)%nat ->
  volumes_body self vols (j, e)
  = Ok (<[j := quadrature_volume et (node_coordinates (Solid.nodes self) e)]> vols).
Proof.
  intros Het He Hj. unfold volumes_body, Solid.get_etype. cbn [fst snd].
  rewrite (gather_nodes_ok _ _ He), Het. cbn [mbind result_bind of_option].
  rewrite decide_True by done. by rewrite volume_of_quadrature.
Qed.

Lemma volumes_loop self et es pre post :
  Solid.etype self = Some et ->
  Forall (Forall (fun n => (n < length (Solid.nodes self))%nat)) es ->
  for_each (volumes_body self) (imap (fun j e => (length pre + j, e)%nat) es)
           (pre ++ zeros (length es) ++ post)
  = Ok (pre ++ map (fun e => quadrature_volume et
                               (node_coordinates (Solid.nodes self) e)) es ++ post).
Proof.
  intros Het Hes. revert pre. induction Hes as [|e es He _ IH]; intros pre; [done|].
  cbn [imap for_each].
  rewrite (volumes_body_ok self et) by (done || rewrite length_app; simpl; lia).
  change (zeros (length (e :: es))) with (0 :: zeros (length es)).
  rewrite insert_app_r. change (<[0%nat := ?x]> ((0 :: ?zs) ++ ?p)) with (x :: zs ++ p).
  specialize (IH (pre ++ [quadrature_volume et (node_coordinates (Solid.nodes self) e)])).
  rewrite <- !app_assoc in IH. cbn [app] in IH. cbn [map app]. rewrite <- IH.
  f_equal. apply imap_ext. intros j x _. simpl.
  rewrite length_app. simpl. f_equal. lia.
Qed.

Lemma volumes_ok self et :
  Solid.etype self = Some et ->
  Solid.n_elem self = length (Solid.elements self) ->
  nodes_in_range self ->
  Solid.volumes self
  = Ok (map (fun e => quadrature_volume et (node_coordinates (Solid.nodes self) e))
            (Solid.elements self)).
Proof.
  intros Het Hn Hr. rewrite volumes_unfold, Hn.
  pose proof (volumes_loop self et (Solid.elements self) [] [] Het Hr) as H.
  rewrite !app_nil_r in H. exact H.
Qed.

Lemma volumes_with_material self C0 strains0 :
  Solid.volumes (with_material self C0 strains0) = Solid.volumes self.
Proof. reflexivity. Qed.

Lemma volumes_err self e :
  Solid.volumes self = Err e -> e = IndexError \/ e = AttributeError.
Proof.
  rewrite volumes_unfold. intros (vols & je & _ & Hb)%for_each_err.
  unfold volumes_body in Hb.
  destruct (gather_rows (Solid.nodes self) je.2) as [nodes0|e'] eqn:Hg.
  - cbn [mbind result_bind] in Hb. unfold Solid.get_etype in Hb.
    destruct (Solid.etype self); cbn [mbind result_bind of_option] in Hb.
    + case_decide; [done|]. left. congruence.
    + right. congruence.
  - cbn [mbind result_bind] in Hb. left.
    apply gather_rows_err in Hg. congruence.
Qed.

(** Equality of rationals in canonical form is decided on the fractions. *)
Ltac Qc_compute :=
  repeat match goal with
         | |- Ok _ = Ok _ => f_equal
         | |- (_, _) = (_, _) => f_equal
         | |- _ :: _ = _ :: _ => f_equal
         | |- @eq Qc _ _ => apply Qc_is_canon; vm_compute; reflexivity
         end; try reflexivity.

(** The inverted tetrahedron has a negative volume, which [volumes] reports;
    the stiffness integration of the same element raises. *)
Lemma inverted_solid_volumes :
  Solid.volumes inverted_solid = Ok [- Q2Qc (1 # 6)]
  /\ Solid.k inverted_solid 0 = Err NegativeJacobian.
Proof.
  split.
  - assert (H : exists v, Solid.volumes inverted_solid = Ok [v] /\ v = - Q2Qc (1 # 6)).
    { eexists. split; [vm_compute; reflexivity|]. Qc_compute. }
    destruct H as (v & -> & ->). reflexivity.
  - vm_compute. reflexivity.
Qed.

(** ** Vectors and matrices *)

Lemma vnth_lookup (v : vec) i x : v !! i = Some x -> vnth v i = x.
Proof. intros H. unfold vnth. by apply nth_lookup_Some. Qed.

Lemma vnth_ge (v : vec) i : (length v <= i)%nat -> vnth v i = 0.
Proof. intros H. unfold vnth. by apply nth_overflow. Qed.

Lemma vnth_nil i : vnth [] i = 0.
Proof. by destruct i. Qed.

Lemma entry_row_ge (A : mat) i j : (length A <= i)%nat -> entry A i j = 0.
Proof. intros H. unfold entry. rewrite nth_overflow by done. apply vnth_nil. Qed.

Lemma is_mat_row r c A i : is_mat r c A -> (i < r)%nat -> length (nth i A []) = c.
Proof.
  intros [Hr Hc] Hi. rewrite Forall_forall in Hc. apply Hc.
  apply list_elem_of_In, nth_In. lia.
Qed.

Lemma entry_col_ge r c (A : mat) i j :
  is_mat r c A -> (c <= j)%nat -> entry A i j = 0.
Proof.
  intros HA Hj. destruct (decide (i < r)%nat) as [Hi|Hi].
  - unfold entry. apply vnth_ge. by rewrite (is_mat_row r c A i).
  - apply entry_row_ge. destruct HA. lia.
Qed.

Lemma is_mat_zeros2 r c : is_mat r c (zeros2 r c).
Proof.
  split; [apply length_replicate|]. apply Forall_forall.
  intros row Hrow%elem_of_replicate. destruct Hrow as [-> _]. apply length_zeros.
Qed.

Lemma entry_zeros2 r c i j : entry (zeros2 r c) i j = 0.
Proof.
  unfold entry, zeros2. destruct (decide (i < r)%nat) as [Hi|Hi].
  - rewrite (nth_lookup_Some _ _ _ (zeros c)) by (by apply lookup_replicate_2).
    apply vnth_zeros.
  - rewrite nth_overflow by (rewrite length_replicate; lia). apply vnth_nil.
Qed.

Lemma symmetric_zeros2 n : symmetric (zeros2 n n).
Proof. intros i j. by rewrite !entry_zeros2. Qed.

Lemma length_vadd a b : length a = length b -> length (vadd a b) = length a.
Proof. intros H. unfold vadd. rewrite length_zip_with. lia. Qed.

Lemma vnth_zip_with (op : Qc -> Qc -> Qc) a b i :
  op 0 0 = 0 -> length a = length b ->
  vnth (zip_with op a b) i = op (vnth a i) (vnth b i).
Proof.
  intros H0. unfold vnth.
  revert b i. induction a as [|x a IH]; intros [|y b] [|i] Hl;
    simpl in *; try done; try lia.
  apply IH. lia.
Qed.

Lemma vnth_vadd a b i :
  length a = length b -> vnth (vadd a b) i = vnth a i + vnth b i.
Proof. apply vnth_zip_with. ring. Qed.

Lemma vnth_vsub a b i :
  length a = length b -> vnth (vsub a b) i = vnth a i - vnth b i.
Proof. apply vnth_zip_with. ring. Qed.

Lemma vnth_map (g : Qc -> Qc) a i : g 0 = 0 -> vnth (map g a) i = g (vnth a i).
Proof.
  intros H0. unfold vnth.
  revert i. induction a as [|x a IH]; intros [|i]; simpl; auto.
Qed.

Lemma vnth_vscale s a i : vnth (vscale s a) i = s * vnth a i.
Proof. apply (vnth_map (Qcmult s)). ring. Qed.

Lemma vnth_vscale_r s a i : vnth (vscale_r a s) i = vnth a i * s.
Proof. apply (vnth_map (fun x => x * s)). ring. Qed.

Lemma nth_map_nil {A B} (g : list A -> list B) (M : list (list A)) i :
  g [] = [] -> nth i (map g M) [] = g (nth i M []).
Proof.
  intros Hg. revert i. induction M as [|r M IH]; intros [|i]; simpl; auto.
Qed.

Lemma entry_mscale s A i j : entry (mscale s A) i j = s * entry A i j.
Proof.
  unfold entry, mscale. rewrite (nth_map_nil (vscale s)) by done. apply vnth_vscale.
Qed.

Lemma entry_mscale_r s A i j : entry (mscale_r A s) i j = entry A i j * s.
Proof.
  unfold entry, mscale_r. rewrite (nth_map_nil (fun r => vscale_r r s)) by done.
  apply vnth_vscale_r.
Qed.

Lemma is_mat_mscale r c s A : is_mat r c A -> is_mat r c (mscale s A).
Proof.
  intros [Hr Hc]. split; unfold mscale; [by rewrite length_map|].
  apply Forall_map. eapply Forall_impl; [exact Hc|].
  intros row Hrow. simpl. unfold vscale. by rewrite length_map.
Qed.

Lemma is_mat_mscale_r r c s A : is_mat r c A -> is_mat r c (mscale_r A s).
Proof.
  intros [Hr Hc]. split; unfold mscale_r; [by rewrite length_map|].
  apply Forall_map. eapply Forall_impl; [exact Hc|].
  intros row Hrow. simpl. unfold vscale_r. by rewrite length_map.
Qed.

Lemma is_mat_madd r c A B : is_mat r c A -> is_mat r c B -> is_mat r c (madd A B).
Proof.
  intros [HrA HcA] [HrB HcB]. split; unfold madd.
  - rewrite length_zip_with. lia.
  - subst r. revert B HrB HcB. induction HcA as [|a A Ha _ IH]; intros [|b B] HrB HcB;
      simpl in *; try done.
    apply Forall_cons_1 in HcB as [Hb HcB]. constructor.
    + rewrite length_vadd; congruence.
    + apply IH; [lia | done].
Qed.

Lemma entry_madd r c A B i j :
  is_mat r c A -> is_mat r c B ->
  entry (madd A B) i j = entry A i j + entry B i j.
Proof.
  intros [HrA HcA] [HrB HcB]. subst r. unfold entry, madd.
  revert B i HrB HcB. induction HcA as [|a A Ha _ IH]; intros [|b B] i HrB HcB;
    simpl in *; try done.
  - destruct i; rewrite !vnth_nil; ring.
  - apply Forall_cons_1 in HcB as [Hb HcB]. destruct i as [|i].
    + apply vnth_vadd. congruence.
    + apply IH; [lia | done].
Qed.

Lemma length_col j A : length (col j A) = length A.
Proof. unfold col. by rewrite length_map. Qed.

Lemma vnth_col j A i : vnth (col j A) i = entry A i j.
Proof.
  unfold col, entry, vnth.
  revert i. induction A as [|r A IH]; intros [|i]; simpl; auto; by destruct j.
Qed.

Lemma is_mat_transpose A : is_mat (ncols A) (length A) (transpose A).
Proof.
  split; unfold transpose; [by rewrite length_map, length_seq|].
  apply Forall_map, Forall_forall. intros j _. simpl. apply length_col.
Qed.

Lemma nth_map_seq {B} (g : nat -> B) d n i :
  (i < n)%nat -> nth i (map g (seq 0 n)) d = g i.
Proof.
  intros Hi. rewrite (nth_indep _ d (g 0%nat)) by (rewrite length_map, length_seq; lia).
  rewrite (map_nth g), seq_nth by lia. done.
Qed.

Lemma entry_transpose A i j : (i < ncols A)%nat -> entry (transpose A) i j = entry A j i.
Proof.
  intros Hi. unfold entry at 1, transpose. rewrite nth_map_seq by done. apply vnth_col.
Qed.

Lemma is_mat_matmul A B : is_mat (length A) (ncols B) (matmul A B).
Proof.
  split; unfold matmul; [by rewrite length_map|].
  apply Forall_map, Forall_forall. intros r _. simpl. by rewrite length_map, length_seq.
Qed.

Lemma entry_matmul A B i j :
  (i < length A)%nat -> (j < ncols B)%nat ->
  entry (matmul A B) i j = dot (nth i A []) (col j B).
Proof.
  intros Hi Hj. unfold entry, matmul.
  rewrite (nth_indep _ [] ((fun r => map (fun j => dot r (col j B)) (seq 0 (ncols B))) []))
    by (by rewrite length_map).
  rewrite (map_nth (fun r => map (fun j => dot r (col j B)) (seq 0 (ncols B)))).
  unfold vnth. by rewrite nth_map_seq.
Qed.

Lemma is_mat_ncols r c A : is_mat r c A -> (0 < r)%nat -> ncols A = c.
Proof.
  intros [Hr Hc] Hpos. destruct A as [|row A]; simpl in *; [lia|].
  by apply Forall_cons_1 in Hc as [? _].
Qed.

(** *** Indexed sums *)

Lemma sumn_ext n f g : (forall k, (k < n)%nat -> f k = g k) -> sumn n f = sumn n g.
Proof.
  induction n as [|n IH]; intros H; simpl; [done|].
  rewrite IH by (intros; apply H; lia). by rewrite H by lia.
Qed.

Lemma sumn_shift n f : sumn (S n) f = f 0%nat + sumn n (fun k => f (S k)).
Proof.
  induction n as [|n IH]; simpl in *; [ring|]. rewrite IH. ring.
Qed.

Lemma sumn_zero n : sumn n (fun _ => 0) = 0.
Proof. induction n as [|n IH]; simpl; [done|]. rewrite IH. ring. Qed.

Lemma sumn_plus n f g : sumn n (fun k => f k + g k) = sumn n f + sumn n g.
Proof. induction n as [|n IH]; simpl; [ring|]. rewrite IH. ring. Qed.

Lemma sumn_mul_r n f c : sumn n f * c = sumn n (fun k => f k * c).
Proof. induction n as [|n IH]; simpl; [ring|]. rewrite <- IH. ring. Qed.

Lemma sumn_mul_l n f c : c * sumn n f = sumn n (fun k => c * f k).
Proof. induction n as [|n IH]; simpl; [ring|]. rewrite <- IH. ring. Qed.

Lemma sumn_exchange n m (f : nat -> nat -> Qc) :
  sumn n (fun i => sumn m (fun j => f i j)) = sumn m (fun j => sumn n (fun i => f i j)).
Proof.
  induction n as [|n IH]; simpl.
  - by rewrite sumn_zero.
  - rewrite IH. by rewrite <- sumn_plus.
Qed.

Lemma dot_sumn a b n :
  length a = n -> length b = n ->
  dot a b = sumn n (fun k => vnth a k * vnth b k).
Proof.
  revert b n. induction a as [|x a IH]; intros [|y b] [|n] Ha Hb; try discriminate.
  - reflexivity.
  - rewrite sumn_shift. change (dot (x :: a) (y :: b)) with (x * y + dot a b).
    rewrite (IH b n) by (simpl in *; lia). reflexivity.
Qed.

(** ** The determinant and the inverse on Jacobians

    The Jacobians of [Solid] are 3 by 3.  On them [det] is the rule of
    Sarrus and [inv] is a two-sided inverse whenever the determinant does
    not vanish, which is what [torch.linalg.det] and [torch.linalg.inv]
    compute. *)

Lemma det_3x3 (a b c d e f g h i : Qc) :
  det [[a; b; c]; [d; e; f]; [g; h; i]]
  = a * (e * i - f * h) - b * (d * i - f * g) + c * (d * h - e * g).
Proof.
  cbv [det det_fuel length imap map remove_at take drop app vsum fold_right
       Nat.even compose Nat.succ].
  ring.
Qed.

Lemma inv_3x3 (a b c d e f g h i : Qc) :
  let A := [[a; b; c]; [d; e; f]; [g; h; i]] in
  det A <> 0 ->
  matmul A (inv A) = [[1; 0; 0]; [0; 1; 0]; [0; 0; 1]]
  /\ matmul (inv A) A = [[1; 0; 0]; [0; 1; 0]; [0; 0; 1]].
Proof.
  intros A. subst A. rewrite det_3x3. intros Hd.
  unfold inv. rewrite det_3x3.
  set (dd := a * (e * i - f * h) - b * (d * i - f * g) + c * (d * h - e * g)) in *.
  cbv [matmul matvec transpose dot cofactor det det_fuel length imap map remove_at take drop app vsum fold_right
       Nat.even compose Nat.succ seq Nat.add zip_with hd tl col ncols vnth nth
       entry head default from_option id].
  assert (H1 : 1 = (a * (e * i - f * h) - b * (d * i - f * g)
                    + c * (d * h - e * g)) / dd)
    by (fold dd; field; exact Hd).
  clearbody dd.
  split; repeat (f_equal; try (field; exact Hd));
    (etransitivity; [| symmetry; exact H1]); field; exact Hd.
Qed.


(** ** Indexed reads and writes *)

Lemma nth_insert {A} (l : list A) i j x d :
  nth j (<[i:=x]> l) d = if decide (i = j /\ (i < length l)%nat) then x else nth j l d.
Proof. rewrite !nth_lookup, list_lookup_insert. by case_decide. Qed.

Lemma lastpos_Some idx p c :
  lastpos idx p = Some c -> (c < length idx)%nat /\ nth c idx 0%nat = p.
Proof.
  revert c. induction idx as [|x idx IH]; intros c; simpl; [done|].
  destruct (lastpos idx p) as [c'|].
  - intros [= <-]. destruct (IH c' eq_refl). split; [lia | done].
  - case_decide; [|done]. intros [= <-]. split; [lia | done].
Qed.

Lemma lastpos_None idx p : lastpos idx p = None -> p ∉ idx.
Proof.
  induction idx as [|x idx IH]; simpl; [intros _; apply not_elem_of_nil|].
  destruct (lastpos idx p); [done|]. case_decide; [done|]. intros _.
  apply not_elem_of_cons. split; [congruence | by apply IH].
Qed.

Lemma length_vput v idx vals : length (vput v idx vals) = length v.
Proof.
  unfold vput. generalize (zip idx vals). intros ws. revert v.
  induction ws as [|w ws IH]; intros v; simpl; [done|].
  by rewrite IH, length_insert.
Qed.

(** After [v[idx] = vals] an entry holds the value written last at its
    index, or its old value. *)
Lemma vnth_vput v idx vals p :
  Forall (fun i => (i < length v)%nat) idx -> length vals = length idx ->
  vnth (vput v idx vals) p =
  match lastpos idx p with
  | Some c => vnth vals c
  | None => vnth v p
  end.
Proof.
  intros Hidx. revert v vals Hidx.
  induction idx as [|x idx IH]; intros v [|a vals] Hidx Hl; simpl in Hl; try done.
  apply Forall_cons_1 in Hidx as [Hx Hidx].
  change (vput v (x :: idx) (a :: vals)) with (vput (<[x:=a]> v) idx vals).
  rewrite IH; [| by rewrite length_insert | lia].
  simpl. destruct (lastpos idx p) as [c|]; [done|].
  unfold vnth. rewrite nth_insert. repeat case_decide; intuition (congruence || lia).
Qed.

Lemma is_mat_mset r c K x y v : is_mat r c K -> is_mat r c (mset K x y v).
Proof.
  intros HK. unfold mset. destruct (decide (x < r)%nat) as [Hx|Hx].
  - pose proof (is_mat_row r c K x HK Hx) as Hrow. destruct HK as [Hr Hc].
    split; [by rewrite length_insert|].
    apply Forall_insert; [done|]. by rewrite length_insert.
  - rewrite list_insert_ge; [done|]. destruct HK. lia.
Qed.

Lemma entry_mset r c K x y v p q :
  is_mat r c K -> (x < r)%nat -> (y < c)%nat ->
  entry (mset K x y v) p q = if decide (p = x /\ q = y) then v else entry K p q.
Proof.
  intros HK Hx Hy. pose proof (is_mat_row r c K x HK Hx) as Hrow.
  destruct HK as [Hr Hc]. unfold entry, mset, vnth. rewrite nth_insert.
  destruct (decide (x = p /\ (x < length K)%nat)) as [[<- _]|Hn].
  - rewrite nth_insert. repeat case_decide; intuition (congruence || lia).
  - rewrite decide_False; [done|]. intros [-> _]. apply Hn. split; [done | lia].
Qed.

Lemma index_put2_row_cons K x xs y ys v vs :
  index_put2_row K (x :: xs) (y :: ys) (v :: vs)
  = index_put2_row (mset K x y v) xs ys vs.
Proof. reflexivity. Qed.

Lemma is_mat_index_put2_row r c K xs ys vs :
  is_mat r c K -> is_mat r c (index_put2_row K xs ys vs).
Proof.
  unfold index_put2_row. generalize (zip (zip xs ys) vs). intros ws. revert K.
  induction ws as [|w ws IH]; intros K HK; simpl; [done|].
  apply IH. by apply is_mat_mset.
Qed.

Lemma is_mat_index_put2 r c K X Y V :
  is_mat r c K -> is_mat r c (index_put2 K X Y V).
Proof.
  unfold index_put2. generalize (zip (zip X Y) V). intros ws. revert K.
  induction ws as [|w ws IH]; intros K HK; simpl; [done|].
  apply IH. by apply is_mat_index_put2_row.
Qed.

(** One row of the scatter: column [y] of [K] receives [vs] at the rows
    [idx]; for a repeated row index the last value stays. *)
Lemma entry_index_put2_row n K idx y vs p q :
  is_mat n n K -> Forall (fun i => (i < n)%nat) idx -> (y < n)%nat ->
  length vs = length idx ->
  entry (index_put2_row K idx (map (fun _ => y) idx) vs) p q =
  if decide (q = y)
  then match lastpos idx p with
       | Some c => vnth vs c
       | None => entry K p q
       end
  else entry K p q.
Proof.
  intros HK Hidx Hy. revert K vs HK.
  induction Hidx as [|x idx Hx _ IH]; intros K [|v vs] HK Hl; simpl in Hl; try done.
  - by case_decide.
  - cbn [map]. rewrite index_put2_row_cons.
    rewrite IH; [| by apply is_mat_mset | lia].
    rewrite (entry_mset n n) by done. simpl.
    destruct (lastpos idx p) as [c|]; repeat case_decide; try done;
      intuition (congruence || lia).
Qed.

Lemma index_put2_cons K xs X ys Y vs V :
  index_put2 K (xs :: X) (ys :: Y) (vs :: V)
  = index_put2 (index_put2_row K xs ys vs) X Y V.
Proof. reflexivity. Qed.

(** The scatter through a mesh grid of [idx] and [ys]: entry [(p, q)]
    receives the value of the last grid position that addresses it. *)
Lemma entry_index_put2 n K idx ys V p q :
  is_mat n n K -> Forall (fun i => (i < n)%nat) idx -> Forall (fun i => (i < n)%nat) ys ->
  is_mat (length ys) (length idx) V ->
  entry (index_put2 K (map (fun _ => idx) ys)
                      (map (fun y => map (fun _ => y) idx) ys) V) p q =
  match lastpos ys q with
  | Some r =>
      match lastpos idx p with
      | Some c => entry V r c
      | None => entry K p q
      end
  | None => entry K p q
  end.
Proof.
  intros HK Hidx Hys. revert K V HK.
  induction Hys as [|y ys Hy _ IH]; intros K V HK [Hl HV]; [done|].
  destruct V as [|vs V]; simpl in Hl; [done|].
  apply Forall_cons_1 in HV as [Hvs HV].
  cbn [map]. rewrite index_put2_cons.
  rewrite IH; [| by apply is_mat_index_put2_row | split; [lia | done]].
  rewrite (entry_index_put2_row n) by done. simpl.
  destruct (lastpos ys q) as [r|]; destruct (lastpos idx p) as [c|];
    repeat case_decide; try done; intuition (congruence || lia).
Qed.

Lemma lookup_entry r c (K : mat) x y :
  is_mat r c K -> (x < r)%nat -> (y < c)%nat ->
  K !! x ≫= (fun row => row !! y) = Some (entry K x y).
Proof.
  intros HK Hx Hy. pose proof (is_mat_row r c K x HK Hx) as Hrow.
  destruct HK as [Hr Hc]. unfold entry, vnth.
  destruct (nth_lookup_or_length K x []) as [HKx|?]; [|lia].
  rewrite HKx. simpl.
  destruct (nth_lookup_or_length (nth x K []) y 0) as [Hxy|?]; [done | lia].
Qed.

Lemma gather2_row_meshgrid n K idx y :
  is_mat n n K -> Forall (fun i => (i < n)%nat) idx -> (y < n)%nat ->
  gather2_row K idx (map (fun _ => y) idx) = Ok (map (fun x => entry K x y) idx).
Proof.
  intros HK Hidx Hy. unfold gather2_row.
  induction Hidx as [|x idx Hx _ IH]; [done|].
  cbn [map zip zip_with map_result fst snd].
  rewrite (lookup_entry n n) by done. simpl. by rewrite IH.
Qed.

Lemma gather2_meshgrid n K idx ys :
  is_mat n n K -> Forall (fun i => (i < n)%nat) idx -> Forall (fun i => (i < n)%nat) ys ->
  gather2 K (map (fun _ => idx) ys) (map (fun y => map (fun _ => y) idx) ys)
  = Ok (map (fun y => map (fun x => entry K x y) idx) ys).
Proof.
  intros HK Hidx Hys. unfold gather2.
  induction Hys as [|y ys Hy _ IH]; [done|].
  cbn [map zip zip_with map_result fst snd].
  rewrite (gather2_row_meshgrid n) by done. by rewrite IH.
Qed.

Lemma entry_gathered (K : mat) idx ys r c :
  (r < length ys)%nat -> (c < length idx)%nat ->
  entry (map (fun y => map (fun x => entry K x y) idx) ys) r c
  = entry K (nth c idx 0%nat) (nth r ys 0%nat).
Proof.
  intros Hr Hc. unfold entry at 1, vnth.
  rewrite (nth_indep _ [] ((fun y => map (fun x => entry K x y) idx) 0%nat))
    by (by rewrite length_map).
  rewrite (map_nth (fun y => map (fun x => entry K x y) idx)).
  rewrite (nth_indep _ 0 ((fun x => entry K x (nth r ys 0%nat)) 0%nat))
    by (by rewrite length_map).
  by rewrite (map_nth (fun x => entry K x (nth r ys 0%nat))).
Qed.

Lemma is_mat_gathered (K : mat) idx ys :
  is_mat (length ys) (length idx) (map (fun y => map (fun x => entry K x y) idx) ys).
Proof.
  split; [by rewrite length_map|]. apply Forall_map, Forall_forall.
  intros y _. simpl. by rewrite length_map.
Qed.

(** ** Element stiffness *)

Lemma length_matmul A B : length (matmul A B) = length A.
Proof. unfold matmul. by rewrite length_map. Qed.

Lemma length_mscale s A : length (mscale s A) = length A.
Proof. unfold mscale. by rewrite length_map. Qed.

Lemma length_transpose A : length (transpose A) = ncols A.
Proof. unfold transpose. by rewrite length_map, length_seq. Qed.

(** The integrand [((w * D.T) @ C) @ D * detJ] of the stiffness. *)
Lemma is_mat_integrand p m w (Dm C0 : mat) detJ :
  (0 < p)%nat -> is_mat p m Dm ->
  is_mat m m (mscale_r (matmul (matmul (mscale w (transpose Dm)) C0) Dm) detJ).
Proof.
  intros Hp HD. apply is_mat_mscale_r.
  pose proof (is_mat_matmul (matmul (mscale w (transpose Dm)) C0) Dm) as H.
  rewrite length_matmul, length_mscale, length_transpose in H.
  by rewrite (is_mat_ncols p m Dm HD Hp) in H.
Qed.

Lemma entry_integrand p m w (Dm C0 : mat) detJ a b :
  (0 < p)%nat -> is_mat p m Dm -> is_mat p p C0 -> (a < m)%nat -> (b < m)%nat ->
  entry (mscale_r (matmul (matmul (mscale w (transpose Dm)) C0) Dm) detJ) a b
  = sumn p (fun s => sumn p (fun t => w * entry Dm t a * entry C0 t s) * entry Dm s b)
    * detJ.
Proof.
  intros Hp HD HC Ha Hb.
  pose proof (is_mat_ncols p m Dm HD Hp) as HnD.
  pose proof (is_mat_ncols p p C0 HC Hp) as HnC.
  assert (HW : is_mat m p (mscale w (transpose Dm))).
  { apply is_mat_mscale. pose proof (is_mat_transpose Dm) as H.
    rewrite HnD in H. by rewrite (proj1 HD) in H. }
  assert (HM : is_mat m p (matmul (mscale w (transpose Dm)) C0)).
  { pose proof (is_mat_matmul (mscale w (transpose Dm)) C0) as H.
    by rewrite (proj1 HW), HnC in H. }
  rewrite entry_mscale_r. f_equal.
  rewrite entry_matmul by (rewrite ?(proj1 HM), ?HnD; done).
  rewrite (dot_sumn _ _ p);
    [| by apply (is_mat_row m p) | by rewrite length_col, (proj1 HD)].
  apply sumn_ext. intros s Hs. rewrite vnth_col. f_equal.
  change (vnth (nth a (matmul (mscale w (transpose Dm)) C0) []) s)
    with (entry (matmul (mscale w (transpose Dm)) C0) a s).
  rewrite entry_matmul by (rewrite ?(proj1 HW), ?HnC; done).
  rewrite (dot_sumn _ _ p);
    [| by apply (is_mat_row m p) | by rewrite length_col, (proj1 HC)].
  apply sumn_ext. intros t Ht. rewrite vnth_col.
  change (vnth (nth a (mscale w (transpose Dm)) []) t)
    with (entry (mscale w (transpose Dm)) a t).
  rewrite entry_mscale, entry_transpose by (by rewrite HnD). ring.
Qed.

Lemma symmetric_integrand p m w (Dm C0 : mat) detJ :
  (0 < p)%nat -> is_mat p m Dm -> is_mat p p C0 -> symmetric C0 ->
  symmetric (mscale_r (matmul (matmul (mscale w (transpose Dm)) C0) Dm) detJ).
Proof.
  intros Hp HD HC Hsym a b.
  pose proof (is_mat_integrand p m w Dm C0 detJ Hp HD) as HT.
  destruct (decide (a < m)%nat) as [Ha|Ha]; [destruct (decide (b < m)%nat) as [Hb|Hb]|].
  - rewrite !(entry_integrand p m) by done. f_equal.
    transitivity (sumn p (fun s => sumn p (fun t =>
                    w * entry Dm t a * entry C0 t s * entry Dm s b))).
    { apply sumn_ext. intros s _. apply sumn_mul_r. }
    rewrite sumn_exchange.
    apply sumn_ext. intros t _. rewrite sumn_mul_r.
    apply sumn_ext. intros s _. rewrite (Hsym t s). ring.
  - rewrite (entry_col_ge m m) by (done || lia).
    rewrite (entry_row_ge _ b) by (rewrite (proj1 HT); lia). done.
  - rewrite (entry_row_ge _ a) by (rewrite (proj1 HT); lia).
    rewrite (entry_col_ge m m) by (done || lia). done.
Qed.

Lemma symmetric_madd n A B :
  is_mat n n A -> is_mat n n B -> symmetric A -> symmetric B -> symmetric (madd A B).
Proof.
  intros HA HB HsA HsB i j. rewrite !(entry_madd n n) by done.
  by rewrite (HsA i j), (HsB i j).
Qed.

(** A loop keeps what every iteration keeps. *)
Lemma for_each_inv {A S} (body : S -> A -> result S) (I : S -> Prop) xs acc r :
  (forall a x a', I a -> body a x = Ok a' -> I a') ->
  I acc -> for_each body xs acc = Ok r -> I r.
Proof.
  intros Hstep. revert acc. induction xs as [|x xs IH]; intros acc Hacc; simpl.
  - by intros [= <-].
  - destruct (body acc x) as [acc'|e] eqn:Hb; [|done]. apply IH. by eapply Hstep.
Qed.

Lemma Tetra1_ok : element_ok Tetra1.
Proof. intros q. split; [done | by repeat constructor]. Qed.

Lemma Qc_leb_le x y : Qc_leb x y = true <-> x <= y.
Proof. unfold Qc_leb, Qcle. apply Qle_bool_iff. Qed.

(** [Solid.J] raises exactly when the determinant is not positive. *)
Lemma J_unfold self et q nodes0 :
  Solid.etype self = Some et ->
  Solid.J self q nodes0 =
  if Qc_leb (det (jacobian et nodes0 q)) 0 then Err NegativeJacobian
  else Ok (jacobian et nodes0 q, det (jacobian et nodes0 q)).
Proof. intros Het. unfold Solid.J, Solid.get_etype. by rewrite Het. Qed.

Lemma k_step_unfold self et nodes0 k0 wq :
  Solid.etype self = Some et ->
  Solid.k_step self nodes0 k0 wq =
  if Qc_leb (det (jacobian et nodes0 wq.2)) 0 then Err NegativeJacobian
  else Ok (madd k0 (k_integrand et (Solid.C self) nodes0 wq)).
Proof.
  intros Het. unfold Solid.k_step. rewrite (J_unfold self et) by done.
  destruct (Qc_leb _ _); [done|]. cbn [mbind result_bind].
  unfold Solid.get_etype. rewrite Het. cbn [mbind result_bind of_option].
  by rewrite (D_ok self et).
Qed.

Lemma f_step_unfold self et nodes0 epsilon f0 wq :
  Solid.etype self = Some et ->
  Solid.f_step self nodes0 epsilon f0 wq =
  if Qc_leb (det (jacobian et nodes0 wq.2)) 0 then Err NegativeJacobian
  else Ok (vadd f0 (f_integrand et (Solid.C self) nodes0 epsilon wq)).
Proof.
  intros Het. unfold Solid.f_step. rewrite (J_unfold self et) by done.
  destruct (Qc_leb _ _); [done|]. cbn [mbind result_bind].
  unfold Solid.get_etype. rewrite Het. cbn [mbind result_bind of_option].
  by rewrite (D_ok self et).
Qed.

Lemma k_unfold self et j element :
  Solid.etype self = Some et ->
  Solid.elements self !! j = Some element ->
  Forall (fun n => (n < length (Solid.nodes self))%nat) element ->
  Solid.k self j =
  for_each (Solid.k_step self (node_coordinates (Solid.nodes self) element))
           (Solid.quadrature et) (zeros2 (3 * et_nodes et) (3 * et_nodes et)).
Proof.
  intros Het Hj He. unfold Solid.k, Solid.get_etype.
  rewrite Hj, Het. cbn [mbind result_bind of_option].
  by rewrite (gather_nodes_ok _ _ He).
Qed.

Lemma f_unfold self et j element epsilon :
  Solid.etype self = Some et ->
  Solid.elements self !! j = Some element ->
  Forall (fun n => (n < length (Solid.nodes self))%nat) element ->
  Solid.f self j epsilon =
  for_each (Solid.f_step self (node_coordinates (Solid.nodes self) element) epsilon)
           (Solid.quadrature et) (zeros (3 * et_nodes et)).
Proof.
  intros Het Hj He. unfold Solid.f, Solid.get_etype.
  rewrite Hj, Het. cbn [mbind result_bind of_option].
  by rewrite (gather_nodes_ok _ _ He).
Qed.

(** The integration loops raise the negative-Jacobian exception when the
    element is degenerate and return otherwise. *)
Lemma k_guard self et j element :
  Solid.etype self = Some et ->
  Solid.elements self !! j = Some element ->
  Forall (fun n => (n < length (Solid.nodes self))%nat) element ->
  let nodes0 := node_coordinates (Solid.nodes self) element in
  (degenerate et nodes0 /\ Solid.k self j = Err NegativeJacobian)
  \/ (~ degenerate et nodes0 /\ exists k0, Solid.k self j = Ok k0).
Proof.
  intros Het Hj He nodes0. rewrite (k_unfold self et j element) by done.
  apply for_each_guard. intros a wq _. rewrite (k_step_unfold self et) by done.
  destruct (Qc_leb _ _) eqn:Hd.
  - left. split; [by apply Qc_leb_le | done].
  - right. split; [|by eauto]. intros Hle%Qc_leb_le. fold nodes0 in Hd. congruence.
Qed.

Lemma f_guard self et j element epsilon :
  Solid.etype self = Some et ->
  Solid.elements self !! j = Some element ->
  Forall (fun n => (n < length (Solid.nodes self))%nat) element ->
  let nodes0 := node_coordinates (Solid.nodes self) element in
  (degenerate et nodes0 /\ Solid.f self j epsilon = Err NegativeJacobian)
  \/ (~ degenerate et nodes0 /\ exists f0, Solid.f self j epsilon = Ok f0).
Proof.
  intros Het Hj He nodes0. rewrite (f_unfold self et j element) by done.
  apply for_each_guard. intros a wq _. rewrite (f_step_unfold self et) by done.
  destruct (Qc_leb _ _) eqn:Hd.
  - left. split; [by apply Qc_leb_le | done].
  - right. split; [|by eauto]. intros Hle%Qc_leb_le. fold nodes0 in Hd. congruence.
Qed.

(** ** Assembly *)

Lemma for_each_guard_inv {A S} (body : S -> A -> result S) (P : A -> Prop)
    (I : S -> Prop) e xs acc :
  I acc ->
  (forall a x, x ∈ xs -> I a ->
     (P x /\ body a x = Err e) \/ (~ P x /\ exists a', body a x = Ok a' /\ I a')) ->
  (Exists P xs /\ for_each body xs acc = Err e) \/
  (~ Exists P xs /\ exists a', for_each body xs acc = Ok a' /\ I a').
Proof.
  revert acc. induction xs as [|x xs IH]; intros acc Hacc Hbody.
  - right. split; [by intros ?%Exists_nil | by exists acc].
  - simpl.
    destruct (Hbody acc x (list_elem_of_here _ _) Hacc)
      as [[HP Hx] | [HnP (a' & Hx & Ha')]]; rewrite Hx.
    + left. split; [by left | done].
    + destruct (IH a' Ha') as [[Hex Hr] | [Hne Hr]].
      * intros a y Hy. apply Hbody. by right.
      * left. split; [by right | done].
      * right. split; [|done]. by intros [?|?]%Exists_cons.
Qed.

Lemma length_ravel_3 {A} (t : list (list A)) :
  Forall (fun r => length r = 3%nat) t -> length (ravel t) = (3 * length t)%nat.
Proof.
  unfold ravel. induction 1 as [|r t Hr _ IH]; simpl; [done|].
  rewrite length_app, Hr, IH. lia.
Qed.

Lemma dof_indices_cons n e :
  Solid.dof_indices (n :: e)
  = [(3 * n + 0)%nat; (3 * n + 1)%nat; (3 * n + 2)%nat] ++ Solid.dof_indices e.
Proof. reflexivity. Qed.

Lemma length_dof_indices e : length (Solid.dof_indices e) = (3 * length e)%nat.
Proof.
  induction e as [|n e IH]; [done|].
  rewrite dof_indices_cons, length_app, IH. simpl. lia.
Qed.

Lemma dof_indices_in_range N e :
  Forall (fun n => (n < N)%nat) e ->
  Forall (fun i => (i < 3 * N)%nat) (Solid.dof_indices e).
Proof.
  induction 1 as [|n e Hn _ IH]; [constructor|].
  rewrite dof_indices_cons. apply Forall_app. split; [|done].
  repeat constructor; lia.
Qed.

Lemma wf_dofs self et :
  well_formed self et -> Solid.n_dofs self = (3 * length (Solid.nodes self))%nat.
Proof. intros Hwf. rewrite (wf_n_dofs _ _ Hwf). apply length_ravel_3, Hwf. Qed.

Lemma wf_element_at self et j e :
  well_formed self et -> Solid.elements self !! j = Some e ->
  length e = et_nodes et /\ Forall (fun n => (n < length (Solid.nodes self))%nat) e.
Proof.
  intros Hwf Hj. split.
  - by apply (Forall_lookup_1 _ _ _ _ (wf_arity _ _ Hwf) Hj).
  - by apply (Forall_lookup_1 _ _ _ _ (wf_range _ _ Hwf) Hj).
Qed.

(** The element stiffness is a square matrix over the element's DOFs, and
    symmetric for a symmetric constitutive tensor. *)
Lemma is_mat_gradients et nodes0 q :
  element_ok et -> is_mat 3 (et_nodes et) (gradients et nodes0 q).
Proof.
  intros Hok. destruct (Hok q) as [HB _].
  pose proof (is_mat_matmul (inv (jacobian et nodes0 q)) (et_B et q)) as H.
  unfold inv in H at 1. rewrite length_map, length_seq in H.
  unfold jacobian in H at 1. rewrite length_matmul, HB in H.
  by rewrite (is_mat_ncols 3 (et_nodes et) _ (Hok q)) in H by lia.
Qed.

Lemma is_mat_strain_rows et nodes0 q :
  element_ok et ->
  is_mat 6 (3 * et_nodes et) (D_rows (et_nodes et) (gradients et nodes0 q)).
Proof.
  intros Hok. pose proof (is_mat_gradients et nodes0 q Hok) as HB.
  apply is_mat_D_rows; apply (is_mat_row 3 (et_nodes et)); (done || lia).
Qed.

Lemma is_mat_k_integrand et C0 nodes0 wq :
  element_ok et ->
  is_mat (3 * et_nodes et) (3 * et_nodes et) (k_integrand et C0 nodes0 wq).
Proof.
  intros Hok. unfold k_integrand. cbv zeta.
  apply (is_mat_integrand 6); [lia | by apply is_mat_strain_rows].
Qed.

Lemma symmetric_k_integrand et C0 nodes0 wq :
  element_ok et -> is_mat 6 6 C0 -> symmetric C0 ->
  symmetric (k_integrand et C0 nodes0 wq).
Proof.
  intros Hok HC Hsym. unfold k_integrand. cbv zeta.
  apply (symmetric_integrand 6 (3 * et_nodes et));
    [lia | by apply is_mat_strain_rows | done | done].
Qed.

Lemma k_shape self et j kj :
  Solid.etype self = Some et -> element_ok et ->
  Solid.k self j = Ok kj ->
  is_mat (3 * et_nodes et) (3 * et_nodes et) kj
  /\ (is_mat 6 6 (Solid.C self) -> symmetric (Solid.C self) -> symmetric kj).
Proof.
  intros Het Hok. unfold Solid.k, Solid.get_etype.
  destruct (Solid.elements self !! j) as [e|]; [|done].
  cbn [mbind result_bind of_option].
  destruct (gather_rows (Solid.nodes self) e) as [nodes0|]; [|done].
  rewrite Het. cbn [mbind result_bind of_option]. intros Hk.
  set (n := (3 * et_nodes et)%nat) in *. split.
  - eapply (for_each_inv _ (is_mat n n)); [| apply is_mat_zeros2 | exact Hk].
    intros a wq a' Ha. rewrite (k_step_unfold self et) by done.
    destruct (Qc_leb _ _); [done|]. intros [= <-].
    apply is_mat_madd; [done | by apply is_mat_k_integrand].
  - intros HC Hsym.
    assert (H : is_mat n n kj /\ symmetric kj); [|by destruct H].
    eapply (for_each_inv _ (fun a => is_mat n n a /\ symmetric a));
      [| split; [apply is_mat_zeros2 | apply symmetric_zeros2] | exact Hk].
    intros a wq a' [Ha Hs]. rewrite (k_step_unfold self et) by done.
    destruct (Qc_leb _ _); [done|]. intros [= <-]. split.
    + apply is_mat_madd; [done | by apply is_mat_k_integrand].
    + apply (symmetric_madd n); try done.
      * by apply is_mat_k_integrand.
      * by apply symmetric_k_integrand.
Qed.

(** The assembly step for element [j]. *)
Lemma stiffness_step_unfold self et K j e :
  well_formed self et -> is_mat (Solid.n_dofs self) (Solid.n_dofs self) K ->
  Solid.elements self !! j = Some e ->
  Solid.stiffness_step self K j =
  match Solid.k self j with
  | Ok kj => Ok (scatter_add K (Solid.dof_indices e) kj)
  | Err err => Err err
  end.
Proof.
  intros Hwf HK Hj. unfold Solid.stiffness_step.
  rewrite (wf_indices _ _ Hwf), list_lookup_fmap, Hj.
  cbn [fmap option_fmap option_map mbind result_bind of_option meshgrid_xy fst snd].
  destruct (wf_element_at self et j e Hwf Hj) as [_ Hrange].
  assert (Hidx : Forall (fun i => (i < Solid.n_dofs self)%nat) (Solid.dof_indices e)).
  { rewrite (wf_dofs self et Hwf). by apply dof_indices_in_range. }
  rewrite (gather2_meshgrid (Solid.n_dofs self)) by done.
  cbn [mbind result_bind]. by destruct (Solid.k self j).
Qed.

Lemma is_mat_scatter_add n K idx kj : is_mat n n K -> is_mat n n (scatter_add K idx kj).
Proof. apply is_mat_index_put2. Qed.

(** Scatter-adding a symmetric element matrix keeps the global matrix
    symmetric. *)
Lemma symmetric_scatter_add n K idx kj :
  is_mat n n K -> Forall (fun i => (i < n)%nat) idx ->
  is_mat (length idx) (length idx) kj ->
  symmetric K -> symmetric kj -> symmetric (scatter_add K idx kj).
Proof.
  intros HK Hidx Hkj HsK Hskj p q. unfold scatter_add.
  assert (HV : is_mat (length idx) (length idx)
                 (madd (map (fun y => map (fun x => entry K x y) idx) idx) kj)).
  { apply is_mat_madd; [apply is_mat_gathered | done]. }
  rewrite !(entry_index_put2 n) by done.
  destruct (lastpos idx q) as [r|] eqn:Hq; destruct (lastpos idx p) as [c|] eqn:Hp;
    try apply HsK.
  apply lastpos_Some in Hq as [Hr Hqr]. apply lastpos_Some in Hp as [Hc Hpc].
  rewrite !(entry_madd (length idx) (length idx)) by (done || apply is_mat_gathered).
  rewrite !entry_gathered by done. rewrite Hqr, Hpc.
  by rewrite (HsK p q), (Hskj r c).
Qed.

Lemma stiffness_shape self K :
  Solid.stiffness self = Ok K -> is_mat (Solid.n_dofs self) (Solid.n_dofs self) K.
Proof.
  unfold Solid.stiffness.
  apply (for_each_inv _ (is_mat (Solid.n_dofs self) (Solid.n_dofs self)));
    [| apply is_mat_zeros2].
  intros a j a' Ha. unfold Solid.stiffness_step.
  destruct (Solid.global_indices self !! j) as [idx|]; [|done].
  cbn [mbind result_bind of_option].
  destruct (gather2 a idx.1 idx.2); [|done]. cbn [mbind result_bind].
  destruct (Solid.k self j); [|done]. cbn [mbind result_bind].
  intros [= <-]. by apply is_mat_index_put2.
Qed.

Lemma stiffness_symmetric self et K :
  well_formed self et -> is_mat 6 6 (Solid.C self) -> symmetric (Solid.C self) ->
  Solid.stiffness self = Ok K -> symmetric K.
Proof.
  intros Hwf HC Hsym HK.
  set (n := Solid.n_dofs self).
  assert (H : is_mat n n K /\ symmetric K); [|by destruct H].
  eapply (for_each_inv _ (fun a => is_mat n n a /\ symmetric a));
    [| split; [apply is_mat_zeros2 | apply symmetric_zeros2] | exact HK].
  intros a j a' [Ha Hs].
  destruct (Solid.elements self !! j) as [e|] eqn:Hj.
  - rewrite (stiffness_step_unfold self et a j e) by done.
    destruct (Solid.k self j) as [kj|] eqn:Hk; [|done]. intros [= <-].
    destruct (wf_element_at self et j e Hwf Hj) as [Harity Hrange].
    destruct (k_shape self et j kj (wf_etype _ _ Hwf) (wf_element _ _ Hwf) Hk)
      as [Hkj Hskj].
    split; [by apply is_mat_scatter_add|].
    apply (symmetric_scatter_add n); try done.
    + unfold n. rewrite (wf_dofs self et Hwf). by apply dof_indices_in_range.
    + by rewrite length_dof_indices, Harity.
    + by apply Hskj.
  - unfold Solid.stiffness_step.
    by rewrite (wf_indices _ _ Hwf), list_lookup_fmap, Hj.
Qed.

Lemma stiffness_guard self et :
  well_formed self et ->
  (Exists (degenerate_at self et) (seq 0 (length (Solid.elements self)))
   /\ Solid.stiffness self = Err NegativeJacobian)
  \/ (~ Exists (degenerate_at self et) (seq 0 (length (Solid.elements self)))
      /\ exists K, Solid.stiffness self = Ok K
                   /\ is_mat (Solid.n_dofs self) (Solid.n_dofs self) K).
Proof.
  intros Hwf. unfold Solid.stiffness.
  apply for_each_guard_inv; [apply is_mat_zeros2|].
  intros a j Hj Ha. apply elem_of_seq in Hj as [_ Hj].
  destruct (lookup_lt_is_Some_2 (Solid.elements self) j) as [e He]; [lia|].
  rewrite (stiffness_step_unfold self et a j e) by done.
  destruct (wf_element_at self et j e Hwf He) as [_ Hrange].
  destruct (k_guard self et j e (wf_etype _ _ Hwf) He Hrange) as [[Hd Hk]|[Hd [kj Hk]]];
    rewrite Hk.
  - left. split; [by exists e | done].
  - right. split.
    + intros (e' & He' & Hd'). rewrite He in He'. by injection He' as <-.
    + eexists. split; [done|]. by apply is_mat_scatter_add.
Qed.

Lemma not_degenerate_positive et nodes0 :
  ~ degenerate et nodes0 <->
  Forall (fun wq => 0 < det (jacobian et nodes0 wq.2)) (Solid.quadrature et).
Proof.
  unfold degenerate. rewrite <- Forall_Exists_neg.
  apply Forall_iff. intros wq. split.
  - intros H. by apply Qcnot_le_lt.
  - intros H. by apply Qclt_not_le.
Qed.

Lemma positive_not_degenerate_at self et :
  positive_jacobians self et ->
  ~ Exists (degenerate_at self et) (seq 0 (length (Solid.elements self))).
Proof.
  intros Hpos (j & _ & e & He & Hd)%Exists_exists.
  revert Hd. apply not_degenerate_positive.
  by apply (Forall_lookup_1 _ _ _ _ Hpos He).
Qed.


(** [Solid.__init__] establishes the class invariants for a mesh of elements
    of one supported arity that refer to existing nodes. *)
Lemma init_well_formed Hexa1 nodes0 elements0 forces0 displacements0 constraints0
    C0 strains0 first :
  elements0 !! 0%nat = Some first ->
  length first = 4%nat \/ length first = 8%nat ->
  element_ok Hexa1 -> et_nodes Hexa1 = 8%nat ->
  Forall (fun r => length r = 3%nat) nodes0 ->
  Forall (fun e => length e = length first) elements0 ->
  Forall (Forall (fun n => (n < length nodes0)%nat)) elements0 ->
  exists self et,
    Solid.init Hexa1 nodes0 elements0 forces0 displacements0 constraints0 C0 strains0
    = Ok self
    /\ well_formed self et.
Proof.
  intros Hfirst Harity Hok H8 Hnodes Hsame Hrange. unfold Solid.init.
  rewrite Hfirst. cbn [of_option mbind result_bind].
  eexists _, (if decide (length first = 8%nat) then Hexa1 else Tetra1).
  split; [reflexivity|]. split; cbn; try done.
  - repeat case_decide; (done || lia).
  - case_decide; [done | apply Tetra1_ok].
  - eapply Forall_impl; [exact Hsame|]. intros e ->. simpl.
    case_decide; [congruence|]. destruct Harity; [done | lia].
Qed.

Lemma transpose_symmetric n K : is_mat n n K -> symmetric K -> transpose K = K.
Proof.
  intros HK Hs. destruct (decide (n = 0)%nat) as [->|Hn].
  { destruct HK as [HK _]. by destruct K. }
  pose proof (is_mat_ncols n n K HK ltac:(lia)) as Hc.
  pose proof (is_mat_transpose K) as HT. rewrite Hc, (proj1 HK) in HT.
  apply (nth_ext _ _ [] []); [by rewrite (proj1 HT), (proj1 HK)|].
  intros i Hi. rewrite (proj1 HT) in Hi.
  apply (nth_ext _ _ 0 0);
    [by rewrite (is_mat_row n n _ i HT), (is_mat_row n n _ i HK)|].
  intros j Hj. change (entry (transpose K) i j = entry K i j).
  rewrite entry_transpose by lia. apply Hs.
Qed.






(** C6. For a mesh with positive Jacobian determinants and a symmetric
    constitutive tensor, [stiffness] returns a matrix that equals its
    transpose, entry by entry. *)
Theorem stiffness_is_symmetric (self : Solid.t) (et : element) :
  well_formed self et ->
  is_mat 6 6 (Solid.C self) -> symmetric (Solid.C self) ->
  positive_jacobians self et ->
  exists K,
    Solid.stiffness self = Ok K
    /\ (forall i j, entry K i j = entry K j i)
    /\ transpose K = K.
Proof.
  intros Hwf HC Hsym Hpos.
  destruct (stiffness_guard self et Hwf) as [[Hex _]|[_ (K & HK & Hshape)]].
  { by apply positive_not_degenerate_at in Hex. }
  pose proof (stiffness_symmetric self et K Hwf HC Hsym HK) as Hs.
  exists K. split; [done|]. split; [done|].
  by apply (transpose_symmetric (Solid.n_dofs self)).
Qed.

(** ** The linear solver *)

Lemma dot_cons x a y b : dot (x :: a) (y :: b) = x * y + dot a b.
Proof. reflexivity. Qed.

Lemma dot_nil_l b : dot [] b = 0.
Proof. reflexivity. Qed.

Lemma dot_nil_r a : dot a [] = 0.
Proof. by destruct a. Qed.

Lemma dot_vscale m p x : dot (vscale m p) x = m * dot p x.
Proof.
  revert x. induction p as [|a p IH]; intros [|y x]; simpl;
    rewrite ?dot_nil_l, ?dot_nil_r, ?dot_cons; try ring.
  change (map (Qcmult m) p) with (vscale m p). rewrite IH. ring.
Qed.

Lemma dot_vsub u v x :
  length u = length v -> dot (vsub u v) x = dot u x - dot v x.
Proof.
  revert v x. induction u as [|a u IH]; intros [|b v] [|y x] Hl; simpl in Hl;
    try done; rewrite ?dot_nil_l, ?dot_nil_r; try ring.
  change (vsub (a :: u) (b :: v)) with ((a - b) :: vsub u v).
  rewrite !dot_cons, IH by lia. ring.
Qed.

Lemma dot_zeros_r a n : dot a (zeros n) = 0.
Proof.
  revert n. induction a as [|x a IH]; intros [|n]; try done.
  change (zeros (S n)) with (0 :: zeros n). rewrite dot_cons, IH. ring.
Qed.

Lemma find_pivot_Some eqs p others :
  find_pivot eqs = Some (p, others) ->
  vnth p.1 0 <> 0 /\ eqs ≡ₚ p :: others.
Proof.
  revert p others. induction eqs as [|e eqs IH]; intros p others; simpl; [done|].
  case_decide as He.
  - destruct (find_pivot eqs) as [[p' others']|]; [|done].
    intros [= <- <-]. destruct (IH p' others' eq_refl) as [Hp Hperm].
    split; [done|]. rewrite Hperm. apply Permutation_swap.
  - intros [= <- <-]. done.
Qed.

Lemma find_pivot_None eqs :
  find_pivot eqs = None -> Forall (fun e => vnth e.1 0 = 0) eqs.
Proof.
  induction eqs as [|e eqs IH]; simpl; [constructor|].
  case_decide as He; [|done].
  destruct (find_pivot eqs) as [[p' others']|]; [done|].
  intros _. constructor; [done | by apply IH].
Qed.

(** A row of [S n] coefficients. *)
Lemma row_S (r : list Qc) n : length r = S n -> r = vnth r 0 :: tail r /\ length (tail r) = n.
Proof. destruct r as [|c r]; simpl; [done|]. intros [= <-]. done. Qed.

Lemma length_eliminate a ps pb e n :
  length ps = n -> length e.1 = S n -> length (eliminate a ps pb e).1 = n.
Proof.
  intros Hps He. unfold eliminate. simpl. unfold vsub, vscale.
  rewrite length_zip_with, length_map, Hps.
  destruct (row_S _ n He) as [_ ->]. lia.
Qed.

(** Eliminating the first unknown: [(x1 :: x')] satisfies an equation iff
    [x'] satisfies the reduced one, given that it satisfies the pivot
    equation. *)
Lemma eliminate_solves a ps pb e n x1 x' :
  a <> 0 -> length ps = n -> length e.1 = S n ->
  a * x1 + dot ps x' = pb ->
  dot e.1 (x1 :: x') = e.2 <-> dot (eliminate a ps pb e).1 x' = (eliminate a ps pb e).2.
Proof.
  intros Ha Hps He Hpiv. destruct e as [r b]. simpl in *.
  destruct (row_S r n He) as [Hr Ht]. rewrite Hr at 1. rewrite dot_cons.
  unfold eliminate. simpl.
  rewrite dot_vsub by (unfold vscale; rewrite length_map; congruence).
  rewrite dot_vscale. rewrite <- Hpiv.
  set (c := vnth r 0). set (s := dot (tail r) x'). set (t := dot ps x').
  split; intros H.
  - assert (Hs : s = b - c * x1) by (rewrite <- H; ring). rewrite Hs. by field.
  - assert (Hs : s = b - c / a * (a * x1 + t) + c / a * t) by (rewrite <- H; ring).
    rewrite Hs. by field.
Qed.

Lemma solves_perm eqs eqs' x : eqs ≡ₚ eqs' -> solves eqs x -> solves eqs' x.
Proof. intros Hp. unfold solves. by rewrite Hp. Qed.

(** Elimination returns a solution of a square system, and the only one. *)
Lemma gauss_sound n eqs x :
  length eqs = n -> Forall (fun e => length e.1 = n) eqs ->
  gauss n eqs = Some x ->
  length x = n /\ solves eqs x /\ forall y, length y = n -> solves eqs y -> y = x.
Proof.
  revert eqs x. induction n as [|n IH]; intros eqs x Hlen Hrows; simpl.
  - intros [= <-]. destruct eqs; [|done]. split; [done|]. split; [constructor|].
    by intros [|] ?.
  - destruct (find_pivot eqs) as [[[prow pb] others]|] eqn:Hp; [|done].
    destruct (find_pivot_Some _ _ _ Hp) as [Ha Hperm]. simpl in Ha.
    assert (Hrows' : Forall (fun e => length e.1 = S n) ((prow, pb) :: others))
      by (by rewrite <- Hperm).
    apply Forall_cons_1 in Hrows' as [Hprow Hothers]. simpl in Hprow.
    destruct (row_S prow n Hprow) as [Hpr Hps].
    assert (Hlo : length others = n).
    { apply Permutation_length in Hperm. simpl in Hperm. lia. }
    set (a := vnth prow 0) in *. set (ps := tail prow) in *.
    destruct (gauss n (map (eliminate a ps pb) others)) as [x'|] eqn:Hg; [|done].
    intros [= <-].
    destruct (IH (map (eliminate a ps pb) others) x') as (Hx' & Hsol & Huniq).
    { by rewrite length_map. }
    { apply Forall_map. eapply Forall_impl; [exact Hothers|].
      intros e He. by apply (length_eliminate a ps pb e n). }
    { done. }
    assert (Hpiv : a * ((pb - dot ps x') / a) + dot ps x' = pb) by (by field).
    split; [simpl; lia|]. split.
    + apply (solves_perm ((prow, pb) :: others)); [done|]. constructor.
      * simpl. rewrite Hpr, dot_cons. exact Hpiv.
      * unfold solves in Hsol. rewrite Forall_map in Hsol.
        apply Forall_forall. intros e He.
        rewrite Forall_forall in Hsol, Hothers.
        apply (eliminate_solves a ps pb e n _ x' Ha Hps (Hothers e He) Hpiv).
        by apply Hsol.
    + intros [|y1 y'] Hy Hys; simpl in Hy; [done|].
      apply (solves_perm _ ((prow, pb) :: others)) in Hys; [|done].
      apply Forall_cons_1 in Hys as [Hy0 Hys]. simpl in Hy0.
      rewrite Hpr, dot_cons in Hy0. fold a ps in Hy0.
      assert (Hy' : y' = x').
      { apply Huniq; [lia|]. unfold solves. rewrite Forall_map.
        apply Forall_forall. intros e He.
        rewrite Forall_forall in Hys, Hothers.
        apply (eliminate_solves a ps pb e n y1 y' Ha Hps (Hothers e He) Hy0).
        by apply Hys. }
      subst y'. f_equal. rewrite <- Hy0. by field.
Qed.

Lemma Qc_1_neq_0 : (1 : Qc) <> 0.
Proof. intros H. apply (f_equal this) in H. discriminate. Qed.

(** Elimination succeeds on a square system whose homogeneous part has the
    zero vector as only solution. *)
Lemma gauss_complete n eqs :
  length eqs = n -> Forall (fun e => length e.1 = n) eqs ->
  (forall y, length y = n -> Forall (fun e => dot e.1 y = 0) eqs -> y = zeros n) ->
  exists x, gauss n eqs = Some x.
Proof.
  revert eqs. induction n as [|n IH]; intros eqs Hlen Hrows Hinj; simpl; [by eauto|].
  destruct (find_pivot eqs) as [[[prow pb] others]|] eqn:Hp.
  - destruct (find_pivot_Some _ _ _ Hp) as [Ha Hperm]. simpl in Ha.
    assert (Hrows' : Forall (fun e => length e.1 = S n) ((prow, pb) :: others))
      by (by rewrite <- Hperm).
    apply Forall_cons_1 in Hrows' as [Hprow Hothers]. simpl in Hprow.
    destruct (row_S prow n Hprow) as [Hpr Hps].
    assert (Hlo : length others = n).
    { apply Permutation_length in Hperm. simpl in Hperm. lia. }
    set (a := vnth prow 0) in *. set (ps := tail prow) in *.
    destruct (IH (map (eliminate a ps pb) others)) as [x' Hx'].
    { by rewrite length_map. }
    { apply Forall_map. eapply Forall_impl; [exact Hothers|].
      intros e He. by apply (length_eliminate a ps pb e n). }
    { intros y' Hy' Hhom.
      set (y1 := - dot ps y' / a).
      assert (Hpiv : a * y1 + dot ps y' = 0) by (unfold y1; by field).
      assert (Hy : y1 :: y' = zeros (S n)); [|by injection Hy].
      apply Hinj; [simpl; lia|]. rewrite Hperm. constructor.
      - simpl. rewrite Hpr, dot_cons. exact Hpiv.
      - rewrite Forall_map in Hhom. apply Forall_forall. intros e He.
        rewrite Forall_forall in Hhom, Hothers.
        apply (eliminate_solves a ps 0 (e.1, 0) n y1 y' Ha Hps (Hothers e He) Hpiv).
        simpl. specialize (Hhom e He). simpl in Hhom. rewrite Hhom. ring. }
    rewrite Hx'. by eauto.
  - exfalso. apply find_pivot_None in Hp.
    assert (Hy : 1 :: zeros n = zeros (S n)).
    { apply Hinj; [simpl; by rewrite length_zeros|].
      apply Forall_forall. intros e He.
      rewrite Forall_forall in Hp, Hrows.
      destruct (row_S e.1 n (Hrows e He)) as [Hr _]. rewrite Hr, dot_cons.
      rewrite (Hp e He), dot_zeros_r. ring. }
    injection Hy as Hy. by apply Qc_1_neq_0.
Qed.

Lemma solves_zip A b x :
  length A = length b -> solves (zip A b) x <-> matvec A x = b.
Proof.
  revert b. induction A as [|r A IH]; intros [|c b] Hl; simpl in Hl; try done.
  - split; [done | constructor].
  - cbn [zip zip_with]. unfold solves in *. rewrite Forall_cons. simpl.
    change (map (fun r0 => dot r0 x) A) with (matvec A x).
    rewrite IH by lia. split.
    + intros [-> ->]. done.
    + intros [= -> ->]. done.
Qed.

Lemma zip_rows n A (b : list Qc) :
  is_mat n n A -> Forall (fun e : list Qc * Qc => length e.1 = n) (zip A b).
Proof.
  intros [_ HA]. revert b. induction HA as [|r A Hr _ IH]; intros [|c b]; simpl;
    constructor; [done | apply IH].
Qed.

(** [torch.linalg.solve] returns the solution of the system, which is the
    only one. *)
Lemma linalg_solve_sound n A b x :
  is_mat n n A -> length b = n -> linalg_solve A b = Ok x ->
  length x = n /\ matvec A x = b /\
  forall y, length y = n -> matvec A y = b -> y = x.
Proof.
  intros HA Hb. unfold linalg_solve.
  destruct (gauss (length A) (zip A b)) as [x'|] eqn:Hg; [|done].
  intros [= <-]. rewrite (proj1 HA) in Hg.
  destruct (gauss_sound n (zip A b) x') as (Hx & Hsol & Huniq); try done.
  { rewrite length_zip_with, (proj1 HA). lia. }
  { by apply zip_rows. }
  split; [done|]. split.
  - apply solves_zip; [rewrite (proj1 HA); lia | done].
  - intros y Hy HAy. apply Huniq; [done|].
    apply solves_zip; [rewrite (proj1 HA); lia | done].
Qed.


Lemma hom_zip A (b y : list Qc) :
  length b = length A ->
  Forall (fun e : list Qc * Qc => dot e.1 y = 0) (zip A b) ->
  solves (zip A (zeros (length A))) y.
Proof.
  unfold solves. revert b. induction A as [|r A IH]; intros [|c b] Hl Hhom;
    simpl in Hl; try done.
  cbn [zip zip_with] in Hhom. apply Forall_cons_1 in Hhom as [Hr Hhom].
  change (zeros (length (r :: A))) with (0 :: zeros (length A)).
  constructor; [done|]. apply (IH b); [lia | done].
Qed.

(** [torch.linalg.solve] returns for every non-singular matrix. *)
Lemma linalg_solve_complete n A b :
  is_mat n n A -> length b = n -> nonsingular A ->
  exists x, linalg_solve A b = Ok x.
Proof.
  intros HA Hb Hns. unfold linalg_solve. rewrite (proj1 HA).
  destruct (gauss_complete n (zip A b)) as [x Hx].
  - rewrite length_zip_with, (proj1 HA). lia.
  - by apply zip_rows.
  - intros y Hy Hhom. rewrite <- (proj1 HA). apply Hns; [by rewrite (proj1 HA)|].
    rewrite (proj1 HA).
    apply (solves_zip A (zeros n) y); [by rewrite length_zeros, (proj1 HA)|].
    rewrite <- (proj1 HA). apply (hom_zip A b); [by rewrite (proj1 HA) | done].
  - rewrite Hx. by eauto.
Qed.

(** ** Constrained and free DOFs *)

Lemma elem_of_nonzero_from s mask i :
  i ∈ nonzero_from s mask <-> (s <= i)%nat /\ mask !! (i - s)%nat = Some true.
Proof.
  revert s. induction mask as [|b mask IH]; intros s; simpl.
  - rewrite elem_of_nil, lookup_nil. intuition discriminate.
  - assert (Hrec : i ∈ nonzero_from (S s) mask <->
                   (s < i)%nat /\ mask !! (i - S s)%nat = Some true).
    { rewrite IH. done. }
    destruct b; rewrite ?elem_of_cons, Hrec; split.
    + intros [->|[Hlt Hm]].
      * split; [lia|]. by rewrite Nat.sub_diag.
      * split; [lia|]. by replace (i - s)%nat with (S (i - S s)) by lia.
    + intros [Hle Hm]. destruct (decide (i = s)) as [->|Hne]; [by left|right].
      split; [lia|]. by replace (i - s)%nat with (S (i - S s)) in Hm by lia.
    + intros [Hlt Hm]. split; [lia|].
      by replace (i - s)%nat with (S (i - S s)) by lia.
    + intros [Hle Hm]. destruct (decide (i = s)) as [->|Hne].
      * by rewrite Nat.sub_diag in Hm.
      * split; [lia|]. by replace (i - s)%nat with (S (i - S s)) in Hm by lia.
Qed.

Lemma elem_of_nonzero mask i : i ∈ nonzero mask <-> mask !! i = Some true.
Proof.
  unfold nonzero. rewrite elem_of_nonzero_from, Nat.sub_0_r. intuition lia.
Qed.

Lemma nonzero_in_range mask :
  Forall (fun i => (i < length mask)%nat) (nonzero mask).
Proof.
  apply Forall_forall. intros i Hi%elem_of_nonzero. by apply lookup_lt_Some in Hi.
Qed.

Lemma NoDup_nonzero_from s mask : NoDup (nonzero_from s mask).
Proof.
  revert s. induction mask as [|b mask IH]; intros s; simpl; [constructor|].
  destruct b; [|apply IH]. constructor; [|apply IH].
  rewrite elem_of_nonzero_from. lia.
Qed.

Lemma select_nonzero_from (v : list Qc) s mask :
  (s + length mask <= length v)%nat ->
  select v (nonzero_from s mask) = mask_filter mask (drop s v).
Proof.
  revert s. induction mask as [|b mask IH]; intros s Hl; simpl in *.
  - by destruct (drop s v).
  - destruct (drop s v) as [|x v'] eqn:Hd.
    { apply (f_equal length) in Hd. rewrite length_drop in Hd. simpl in Hd. lia. }
    assert (Hx : vnth v s = x).
    { apply vnth_lookup. rewrite <- (Nat.add_0_r s), <- lookup_drop, Hd. done. }
    assert (Hv' : drop (S s) v = v').
    { replace (S s) with (s + 1)%nat by lia. by rewrite <- drop_drop, Hd. }
    destruct b; simpl; rewrite IH by lia; rewrite Hv'; [by rewrite Hx | done].
Qed.

Lemma select_nonzero (v : list Qc) mask :
  length v = length mask -> select v (nonzero mask) = mask_filter mask v.
Proof. intros Hl. unfold nonzero. rewrite select_nonzero_from by lia. done. Qed.

(** A scalar product splits over the free and the constrained entries. *)
Lemma dot_partition mask (r u : list Qc) :
  length r = length mask -> length u = length mask ->
  dot r u = dot (mask_filter (map negb mask) r) (mask_filter (map negb mask) u)
            + dot (mask_filter mask r) (mask_filter mask u).
Proof.
  revert r u. induction mask as [|b mask IH]; intros [|x r] [|y u] Hr Hu;
    simpl in Hr, Hu; try done.
  rewrite dot_cons, (IH r u) by lia. destruct b; simpl; rewrite ?dot_cons; ring.
Qed.

Lemma lastpos_NoDup idx c :
  NoDup idx -> (c < length idx)%nat -> lastpos idx (nth c idx 0%nat) = Some c.
Proof.
  intros Hnd. revert c. induction Hnd as [|x idx Hx Hnd IH]; intros c Hc; simpl in Hc;
    [lia|].
  destruct c as [|c]; simpl.
  - destruct (lastpos idx x) as [c'|] eqn:Hl.
    + apply lastpos_Some in Hl as [Hc' Hn]. exfalso. apply Hx.
      rewrite <- Hn. apply list_elem_of_In, nth_In. done.
    + by rewrite decide_True.
  - by rewrite IH by lia.
Qed.

Lemma vnth_select v idx c :
  (c < length idx)%nat -> vnth (select v idx) c = vnth v (nth c idx 0%nat).
Proof.
  intros Hc. unfold select, vnth at 1.
  rewrite (nth_indep _ 0 (vnth v 0%nat)) by (by rewrite length_map).
  by rewrite (map_nth (vnth v)).
Qed.

Lemma length_select v idx : length (select v idx) = length idx.
Proof. unfold select. by rewrite length_map. Qed.

(** After [u[U] = u_red] the entries at [U] are [u_red] ... *)
Lemma select_vput_same v idx vals :
  NoDup idx -> Forall (fun i => (i < length v)%nat) idx -> length vals = length idx ->
  select (vput v idx vals) idx = vals.
Proof.
  intros Hnd Hr Hl. apply (nth_ext _ _ 0 0); [by rewrite length_select|].
  intros c Hc. rewrite length_select in Hc.
  change (vnth (select (vput v idx vals) idx) c = vnth vals c).
  rewrite vnth_select by done. rewrite vnth_vput by done.
  by rewrite lastpos_NoDup.
Qed.

(** ... and the entries elsewhere are unchanged. *)
Lemma vnth_vput_other v idx vals p :
  Forall (fun i => (i < length v)%nat) idx -> length vals = length idx ->
  p ∉ idx -> vnth (vput v idx vals) p = vnth v p.
Proof.
  intros Hr Hl Hp. rewrite vnth_vput by done.
  destruct (lastpos idx p) as [c|] eqn:Hc; [|done].
  apply lastpos_Some in Hc as [Hc <-]. exfalso. apply Hp.
  apply list_elem_of_In, nth_In. done.
Qed.

Lemma select_vput_other v idx vals idx' :
  Forall (fun i => (i < length v)%nat) idx -> length vals = length idx ->
  Forall (fun p => p ∉ idx) idx' ->
  select (vput v idx vals) idx' = select v idx'.
Proof.
  intros Hr Hl Hd. unfold select. apply map_ext_Forall.
  eapply Forall_impl; [exact Hd|]. intros p Hp. by apply vnth_vput_other.
Qed.

Lemma free_not_constrained mask :
  Forall (fun p => p ∉ nonzero (map negb mask)) (nonzero mask).
Proof.
  apply Forall_forall. intros p Hp%elem_of_nonzero Hn%elem_of_nonzero.
  rewrite list_lookup_fmap, Hp in Hn. done.
Qed.

Lemma free_position mask i :
  mask !! i = Some false ->
  exists c, (c < length (nonzero (map negb mask)))%nat
            /\ nth c (nonzero (map negb mask)) 0%nat = i.
Proof.
  intros Hi.
  assert (Hin : i ∈ nonzero (map negb mask)).
  { apply elem_of_nonzero. by rewrite list_lookup_fmap, Hi. }
  apply list_elem_of_In, (In_nth _ _ 0%nat) in Hin. done.
Qed.

Lemma ravel_reshape3 {A} n (v : list A) :
  length v = (3 * n)%nat -> ravel (reshape3 n v) = v.
Proof.
  unfold ravel. revert v. induction n as [|n IH]; intros v Hl; simpl.
  - by destruct v.
  - rewrite IH by (rewrite length_drop; lia). apply take_drop.
Qed.

(** ** The boundary reduction *)

Lemma length_index_put1 F X V : length (index_put1 F X V) = length F.
Proof.
  unfold index_put1. generalize (zip X V). intros ws. revert F.
  induction ws as [|w ws IH]; intros F; simpl; [done|].
  by rewrite IH, length_vput.
Qed.

Lemma inelastic_forces_shape self F :
  Solid.inelastic_forces self = Ok F -> length F = Solid.n_dofs self.
Proof.
  unfold Solid.inelastic_forces.
  destruct (Solid.strains self) as [eps|]; [|intros [= <-]; apply length_zeros].
  apply (for_each_inv _ (fun F => length F = Solid.n_dofs self)); [|apply length_zeros].
  intros a je a' Ha. unfold Solid.force_step.
  destruct (Solid.global_indices self !! je.1) as [idx|]; [|done].
  cbn [mbind result_bind of_option].
  destruct (gather1 a idx.1); [|done]. cbn [mbind result_bind].
  destruct (Solid.f self je.1 je.2); [|done]. cbn [mbind result_bind].
  intros [= <-]. by rewrite length_index_put1.
Qed.

Lemma length_matvec A x : length (matvec A x) = length A.
Proof. unfold matvec. by rewrite length_map. Qed.

Lemma vnth_matvec A x i : (i < length A)%nat -> vnth (matvec A x) i = dot (nth i A []) x.
Proof.
  intros Hi. unfold matvec, vnth.
  rewrite (nth_indep _ 0 ((fun r => dot r x) [])) by (by rewrite length_map).
  by rewrite (map_nth (fun r => dot r x)).
Qed.

Lemma nth_map_lt {A B} (g : A -> B) (l : list A) i d d' :
  (i < length l)%nat -> nth i (map g l) d' = g (nth i l d).
Proof.
  intros Hi. rewrite (nth_indep _ d' (g d)) by (by rewrite length_map).
  apply map_nth.
Qed.

Lemma source_reduced_stiffness K U :
  select_cols (select_rows K U) U = reduced_stiffness K U.
Proof.
  unfold select_cols, select_rows, reduced_stiffness, select. by rewrite map_map.
Qed.

Lemma is_mat_reduced_stiffness K U :
  is_mat (length U) (length U) (reduced_stiffness K U).
Proof.
  split; unfold reduced_stiffness; [by rewrite length_map|].
  apply Forall_map, Forall_forall. intros i _. simpl. by rewrite length_map.
Qed.

Lemma dot_select r d idx :
  dot (select r idx) (select d idx) = vsum (map (fun j => vnth r j * vnth d j) idx).
Proof.
  unfold dot, select. induction idx as [|j idx IH]; [done|]. simpl. by rewrite IH.
Qed.

Section Reduction.
Variable self : Solid.t.
Variables (K : mat) (F : list Qc).
Hypothesis Hbc : boundary_ok self.
Hypothesis HK : is_mat (Solid.n_dofs self) (Solid.n_dofs self) K.
Hypothesis HF : length F = Solid.n_dofs self.

Let n := Solid.n_dofs self.
Let mask := ravel (Solid.constraints self).
Let d := ravel (Solid.displacements self).
Let ext := ravel (Solid.forces self).
Let C0 := constrained_dofs self.
Let U := free_dofs self.
Let f_d := matvec (select_cols K C0) (select d C0).

Lemma length_mask : length mask = n.
Proof.
  unfold mask, n. rewrite length_ravel_3 by apply Hbc. apply Hbc.
Qed.

Lemma length_prescribed : length d = n.
Proof. unfold d, n. rewrite length_ravel_3 by apply Hbc. apply Hbc. Qed.

Lemma length_external : length ext = n.
Proof. unfold ext, n. rewrite length_ravel_3 by apply Hbc. apply Hbc. Qed.

Lemma length_f_d : length f_d = n.
Proof.
  unfold f_d. rewrite length_matvec. unfold select_cols. rewrite length_map.
  apply HK.
Qed.

Lemma free_in_range : Forall (fun i => (i < n)%nat) U.
Proof.
  unfold U, free_dofs. rewrite <- length_mask. fold mask.
  rewrite <- (length_map negb mask). apply nonzero_in_range.
Qed.

Lemma constrained_in_range : Forall (fun i => (i < n)%nat) C0.
Proof. unfold C0, constrained_dofs. rewrite <- length_mask. apply nonzero_in_range. Qed.

Lemma vnth_f_d i :
  (i < n)%nat -> vnth f_d i = vsum (map (fun j => entry K i j * vnth d j) C0).
Proof.
  intros Hi. unfold f_d. rewrite vnth_matvec
    by (unfold select_cols; rewrite length_map, (proj1 HK); done).
  unfold select_cols. rewrite (nth_map_lt _ _ _ []) by (by rewrite (proj1 HK)).
  apply dot_select.
Qed.

(** The reduced load of the source is the one of the specification. *)
Lemma source_reduced_load :
  select (vadd (vsub ext f_d) F) U = reduced_load ext F K d C0 U.
Proof.
  unfold select, reduced_load. apply map_ext_Forall.
  eapply Forall_impl; [exact free_in_range|]. intros i Hi. simpl.
  rewrite vnth_vadd
    by (unfold vsub; rewrite length_zip_with, length_external, length_f_d, HF; lia).
  rewrite vnth_vsub by (by rewrite length_external, length_f_d).
  rewrite vnth_f_d by done. ring.
Qed.

Lemma length_reduced_load : length (reduced_load ext F K d C0 U) = length U.
Proof. unfold reduced_load. by rewrite length_map. Qed.

Variable u_red : list Qc.
Hypothesis Hlen : length u_red = length U.

Let u := vput d U u_red.

Lemma length_u : length u = n.
Proof. unfold u. by rewrite length_vput, length_prescribed. Qed.

Lemma free_in_range_d : Forall (fun i => (i < length d)%nat) U.
Proof. rewrite length_prescribed. apply free_in_range. Qed.

(** The reconstructed vector holds the solved values at the free DOFs
    and the prescribed values at the constrained ones. *)
Lemma u_free : select u U = u_red.
Proof.
  unfold u. apply select_vput_same; [apply NoDup_nonzero_from | apply free_in_range_d | done].
Qed.

Lemma u_constrained i : i ∈ C0 -> vnth u i = vnth d i.
Proof.
  intros Hi. unfold u. apply vnth_vput_other; [apply free_in_range_d | done |].
  pose proof (free_not_constrained mask) as H. rewrite Forall_forall in H.
  by apply H.
Qed.

Lemma u_select_constrained : select u C0 = select d C0.
Proof.
  unfold select. apply map_ext_Forall, Forall_forall. intros i Hi.
  by apply u_constrained.
Qed.

(** Row [i] of [K @ u] at a free DOF, in terms of the reduced system. *)
Lemma Ku_free c :
  (c < length U)%nat ->
  vnth (matvec K u) (nth c U 0%nat)
  = vnth (matvec (reduced_stiffness K U) u_red) c + vnth f_d (nth c U 0%nat).
Proof.
  intros Hc. set (i := nth c U 0%nat).
  assert (Hi : (i < n)%nat).
  { pose proof free_in_range as H. rewrite Forall_forall in H. apply H.
    apply list_elem_of_In, nth_In. done. }
  rewrite vnth_matvec by (by rewrite (proj1 HK)).
  rewrite (dot_partition mask) by
    (rewrite ?length_u, ?length_mask; done || by apply (is_mat_row n n K i)).
  rewrite <- !select_nonzero
    by (rewrite ?length_map, ?length_u, ?length_mask; done
        || by rewrite (is_mat_row n n K i)).
  fold U C0. change (nonzero mask) with C0.
  change (nonzero (map negb mask)) with U.
  rewrite u_free, u_select_constrained.
  rewrite vnth_matvec by (unfold reduced_stiffness; by rewrite length_map).
  f_equal.
  - f_equal. unfold reduced_stiffness. by rewrite (nth_map_lt _ _ _ 0%nat).
  - unfold f_d. rewrite vnth_matvec
      by (unfold select_cols; rewrite length_map, (proj1 HK); done).
    unfold select_cols. by rewrite (nth_map_lt _ _ _ []) by (by rewrite (proj1 HK)).
Qed.
End Reduction.

Lemma dot_vadd_r r x y :
  length x = length y -> dot r (vadd x y) = dot r x + dot r y.
Proof.
  revert x y. induction r as [|c r IH]; intros [|a x] [|b y] Hl; simpl in Hl;
    try done; rewrite ?dot_nil_l, ?dot_nil_r; try ring.
  change (vadd (a :: x) (b :: y)) with ((a + b) :: vadd x y).
  rewrite !dot_cons, IH by lia. ring.
Qed.

Lemma matvec_vadd A x y :
  length x = length y -> matvec A (vadd x y) = vadd (matvec A x) (matvec A y).
Proof.
  intros Hl. induction A as [|r A IH]; [done|]. simpl.
  rewrite dot_vadd_r by done. f_equal. exact IH.
Qed.

Lemma vadd_zeros_r b : vadd b (zeros (length b)) = b.
Proof.
  induction b as [|c b IH]; [done|]. simpl. f_equal; [ring | exact IH].
Qed.

Lemma vadd_cancel x y : length y = length x -> vadd x y = x -> y = zeros (length x).
Proof.
  revert y. induction x as [|a x IH]; intros [|b y] Hl; simpl in Hl; try done.
  intros [= Hab Hxy]. change (zeros (length (a :: x))) with (0 :: zeros (length x)).
  f_equal.
  - assert (H : b = a + b - a) by ring. rewrite H, Hab. ring.
  - apply IH; [lia | done].
Qed.

(** A system that [torch.linalg.solve] accepts is non-singular. *)
Lemma linalg_solve_nonsingular n A b x :
  is_mat n n A -> length b = n -> linalg_solve A b = Ok x -> nonsingular A.
Proof.
  intros HA Hb Hx y Hy HAy.
  destruct (linalg_solve_sound n A b x HA Hb Hx) as (Hlx & HAx & Huniq).
  rewrite (proj1 HA) in *. rewrite <- Hlx. apply vadd_cancel; [lia|].
  apply Huniq.
  - rewrite length_vadd; lia.
  - rewrite matvec_vadd by lia. rewrite HAx, HAy, <- Hb. apply vadd_zeros_r.
Qed.

Lemma solve_unfold self K F :
  Solid.stiffness self = Ok K -> Solid.inelastic_forces self = Ok F ->
  Solid.solve self =
  let d := ravel (Solid.displacements self) in
  let C0 := constrained_dofs self in
  let U := free_dofs self in
  let f_d := matvec (select_cols K C0) (select d C0) in
  match linalg_solve (select_cols (select_rows K U) U)
                     (select (vadd (vsub (ravel (Solid.forces self)) f_d) F) U) with
  | Ok u_red =>
      let u := vput d U u_red in
      Ok (reshape3 (length u / 3) u,
          reshape3 (length (matvec K u) / 3) (matvec K u))
  | Err e => Err e
  end.
Proof.
  intros HK HF. unfold Solid.solve. rewrite HK, HF. cbn [mbind result_bind].
  fold (constrained_dofs self) (free_dofs self). cbv zeta.
  by destruct (linalg_solve _ _).
Qed.

Lemma div3 m : (3 * m / 3 = m)%nat.
Proof. rewrite Nat.mul_comm. apply Nat.div_mul. lia. Qed.

(** What [solve] returns once the reduced system has been solved. *)
Lemma solve_result self K F u_red :
  boundary_ok self ->
  Solid.stiffness self = Ok K -> Solid.inelastic_forces self = Ok F ->
  linalg_solve (reduced_stiffness K (free_dofs self))
               (reduced_load (ravel (Solid.forces self)) F K
                             (ravel (Solid.displacements self))
                             (constrained_dofs self) (free_dofs self)) = Ok u_red ->
  exists u f,
    Solid.solve self = Ok (u, f)
    /\ ravel u = vput (ravel (Solid.displacements self)) (free_dofs self) u_red
    /\ ravel f = matvec K (ravel u).
Proof.
  intros Hbc HK HF Hsolve.
  pose proof (stiffness_shape self K HK) as HKs.
  pose proof (inelastic_forces_shape self F HF) as HFs.
  rewrite (solve_unfold self K F HK HF). cbv zeta.
  rewrite source_reduced_stiffness, (source_reduced_load self K F Hbc HKs HFs), Hsolve.
  eexists _, _. split; [reflexivity|].
  assert (Hlu : length (vput (ravel (Solid.displacements self)) (free_dofs self) u_red)
                = (3 * length (Solid.displacements self))%nat).
  { rewrite length_vput. apply length_ravel_3, Hbc. }
  assert (Hlf : length (matvec K (vput (ravel (Solid.displacements self))
                                       (free_dofs self) u_red))
                = (3 * length (Solid.displacements self))%nat).
  { rewrite length_matvec, (proj1 HKs). symmetry. apply Hbc. }
  rewrite Hlu, Hlf, div3.
  rewrite !ravel_reshape3 by done. done.
Qed.

Lemma solve_inv self u f :
  boundary_ok self -> Solid.solve self = Ok (u, f) ->
  exists K F u_red,
    Solid.stiffness self = Ok K /\ Solid.inelastic_forces self = Ok F
    /\ linalg_solve (reduced_stiffness K (free_dofs self))
                    (reduced_load (ravel (Solid.forces self)) F K
                                  (ravel (Solid.displacements self))
                                  (constrained_dofs self) (free_dofs self)) = Ok u_red
    /\ ravel u = vput (ravel (Solid.displacements self)) (free_dofs self) u_red
    /\ ravel f = matvec K (ravel u).
Proof.
  intros Hbc Hs.
  destruct (Solid.stiffness self) as [K|] eqn:HK; [|by unfold Solid.solve in Hs; rewrite HK in Hs].
  destruct (Solid.inelastic_forces self) as [F|] eqn:HF;
    [|by unfold Solid.solve in Hs; rewrite HK, HF in Hs].
  pose proof (stiffness_shape self K HK) as HKs.
  pose proof (inelastic_forces_shape self F HF) as HFs.
  pose proof Hs as Hs'. rewrite (solve_unfold self K F HK HF) in Hs'. cbv zeta in Hs'.
  rewrite source_reduced_stiffness, (source_reduced_load self K F Hbc HKs HFs) in Hs'.
  destruct (linalg_solve _ _) as [u_red|] eqn:Hsolve; [|done].
  destruct (solve_result self K F u_red Hbc HK HF Hsolve) as (u' & f' & Hs'' & Hu & Hf).
  rewrite Hs in Hs''. injection Hs'' as <- <-.
  by exists K, F, u_red.
Qed.








(** ** Forces at the free DOFs *)

Lemma vnth_reduced_load ext F K d C0 U c :
  (c < length U)%nat ->
  vnth (reduced_load ext F K d C0 U) c
  = vnth ext (nth c U 0%nat) + vnth F (nth c U 0%nat)
    - vsum (map (fun j => entry K (nth c U 0%nat) j * vnth d j) C0).
Proof.
  intros Hc. unfold reduced_load, vnth at 1.
  by rewrite (nth_map_lt _ _ _ 0%nat).
Qed.

(** At a free DOF the force [K @ u] is the external plus the inelastic force. *)
Lemma force_balance self K F u_red i :
  boundary_ok self ->
  is_mat (Solid.n_dofs self) (Solid.n_dofs self) K ->
  length F = Solid.n_dofs self ->
  linalg_solve (reduced_stiffness K (free_dofs self))
               (reduced_load (ravel (Solid.forces self)) F K
                             (ravel (Solid.displacements self))
                             (constrained_dofs self) (free_dofs self)) = Ok u_red ->
  ravel (Solid.constraints self) !! i = Some false ->
  vnth (matvec K (vput (ravel (Solid.displacements self)) (free_dofs self) u_red)) i
  = vnth (ravel (Solid.forces self)) i + vnth F i.
Proof.
  intros Hbc HKs HFs Hsolve Hi.
  destruct (linalg_solve_sound _ _ _ u_red (is_mat_reduced_stiffness K (free_dofs self))
              (length_reduced_load self K F) Hsolve) as (Hlen & Hsol & _).
  destruct (free_position _ i Hi) as (c & Hc & Hci). fold (free_dofs self) in Hc, Hci.
  assert (Hin : (i < Solid.n_dofs self)%nat).
  { apply lookup_lt_Some in Hi. by rewrite (length_mask self Hbc) in Hi. }
  rewrite <- Hci. rewrite (Ku_free self K Hbc HKs u_red Hlen c Hc).
  rewrite Hsol, vnth_reduced_load by done. rewrite Hci.
  rewrite (vnth_f_d self K HKs i Hin). ring.
Qed.

Lemma inelastic_forces_absent self :
  Solid.strains self = None ->
  Solid.inelastic_forces self = Ok (zeros (Solid.n_dofs self)).
Proof. intros H. unfold Solid.inelastic_forces. by rewrite H. Qed.

(** The claim of C5 fails: with an inelastic strain in the z direction and no
    external force, the clamped tetrahedron has the force 1/6 at the free
    DOF 11, where the external force is 0. *)
Lemma free_force_differs_from_external_force :
  let self := tet_solid (zero_field 4) (zero_field 4) clamp3_mask
                        (Some [[0; 0; 1; 0; 0; 0]]) in
  exists u f,
    Solid.solve self = Ok (u, f)
    /\ ravel (Solid.constraints self) !! 11%nat = Some false
    /\ vnth (ravel (Solid.forces self)) 11 = 0
    /\ vnth (ravel f) 11 = Q2Qc (1 # 6)
    /\ vnth (ravel f) 11 <> vnth (ravel (Solid.forces self)) 11.
Proof.
  cbv zeta. eexists _, _. split; [vm_compute; reflexivity|].
  split; [reflexivity|]. split; [reflexivity|].
  assert (H : forall x : Qc, x = Q2Qc (1 # 6) -> x = Q2Qc (1 # 6) /\ x <> 0).
  { intros x ->. split; [done|]. intros H0. apply (f_equal this) in H0. discriminate. }
  apply H. apply Qc_is_canon. vm_compute. reflexivity.
Qed.

(** C5, amended. Whenever [solve] returns, the force field [K @ u] it
    returns equals, at every free DOF, the external force plus the inelastic
    force assembled from the strains; without inelastic strains it equals the
    external force there. *)
Theorem force_at_free_dofs (self : Solid.t) (u f : mat) :
  boundary_ok self ->
  Solid.solve self = Ok (u, f) ->
  exists F,
    Solid.inelastic_forces self = Ok F
    /\ (forall i, ravel (Solid.constraints self) !! i = Some false ->
                  vnth (ravel f) i = vnth (ravel (Solid.forces self)) i + vnth F i)
    /\ (Solid.strains self = None ->
        forall i, ravel (Solid.constraints self) !! i = Some false ->
                  vnth (ravel f) i = vnth (ravel (Solid.forces self)) i).
Proof.
  intros Hbc Hs.
  destruct (solve_inv self u f Hbc Hs) as (K & F & u_red & HK & HF & Hsolve & Hu & Hf).
  pose proof (stiffness_shape self K HK) as HKs.
  pose proof (inelastic_forces_shape self F HF) as HFs.
  assert (Hbal : forall i, ravel (Solid.constraints self) !! i = Some false ->
                   vnth (ravel f) i = vnth (ravel (Solid.forces self)) i + vnth F i).
  { intros i Hi. rewrite Hf, Hu. by apply force_balance. }
  exists F. split; [done|]. split; [done|].
  intros Hnone i Hi. rewrite (Hbal i Hi).
  rewrite (inelastic_forces_absent self Hnone) in HF. injection HF as <-.
  rewrite vnth_zeros. ring.
Qed.

(** ** The trivial solve *)

Lemma for_each_inv_in {A S} (body : S -> A -> result S) (I : S -> Prop) xs acc r :
  (forall a x a', x ∈ xs -> I a -> body a x = Ok a' -> I a') ->
  I acc -> for_each body xs acc = Ok r -> I r.
Proof.
  revert acc. induction xs as [|x xs IH]; intros acc Hstep Hacc; simpl.
  - by intros [= <-].
  - destruct (body acc x) as [acc'|e] eqn:Hb; [|done]. apply IH.
    + intros a y a' Hy. apply Hstep. by right.
    + apply (Hstep acc x acc'); [by left | done | done].
Qed.

Lemma map_result_Forall {A B} (f : A -> result B) (Q : B -> Prop) xs ys :
  (forall x y, f x = Ok y -> Q y) -> map_result f xs = Ok ys -> Forall Q ys.
Proof.
  intros Hf. revert ys. induction xs as [|x xs IH]; intros ys; simpl.
  - intros [= <-]. constructor.
  - destruct (f x) as [y|] eqn:Hx; [|done].
    destruct (map_result f xs) as [ys'|]; [|done]. intros [= <-].
    constructor; [by eapply Hf | by apply IH].
Qed.

Lemma all_zero_zeros n : all_zero (zeros n).
Proof. apply Forall_forall. by intros x [-> _]%elem_of_replicate. Qed.

Lemma all_zero_eq v : all_zero v -> v = zeros (length v).
Proof.
  induction 1 as [|x v -> _ IH]; [done|].
  change (zeros (length (0 :: v))) with (0 :: zeros (length v)). by f_equal.
Qed.

Lemma all_zero_vadd a b : all_zero a -> all_zero b -> all_zero (vadd a b).
Proof.
  intros Ha. revert b. induction Ha as [|x a -> _ IH]; intros b Hb; [constructor|].
  destruct Hb as [|y b -> Hb]; [constructor|]. simpl. constructor; [ring | by apply IH].
Qed.

Lemma all_zero_vscale_r a s : all_zero a -> all_zero (vscale_r a s).
Proof.
  intros Ha. unfold vscale_r. apply Forall_map. eapply Forall_impl; [exact Ha|].
  intros x ->. simpl. ring.
Qed.

Lemma dot_all_zero_r a b : all_zero b -> dot a b = 0.
Proof. intros Hb%all_zero_eq. rewrite Hb. apply dot_zeros_r. Qed.

Lemma all_zero_matvec A x : all_zero x -> all_zero (matvec A x).
Proof.
  intros Hx. unfold matvec. apply Forall_map, Forall_forall. intros r _. simpl.
  by apply dot_all_zero_r.
Qed.

Lemma all_zero_vput v idx vals : all_zero v -> all_zero vals -> all_zero (vput v idx vals).
Proof.
  unfold vput. intros Hv Hvals.
  assert (Hw : Forall (fun iv : nat * Qc => iv.2 = 0) (zip idx vals)).
  { clear Hv. revert idx. induction Hvals as [|x vals Hx _ IH]; intros [|i idx];
      simpl; constructor; [done | apply IH]. }
  revert v Hv. induction Hw as [|w ws Hw _ IH]; intros v Hv; simpl; [done|].
  apply IH. apply Forall_insert; [done|]. exact Hw.
Qed.

Lemma all_zero_index_put1 F X V :
  all_zero F -> Forall all_zero V -> all_zero (index_put1 F X V).
Proof.
  unfold index_put1. intros HF HV.
  assert (Hw : Forall (fun xv : list nat * list Qc => all_zero xv.2) (zip X V)).
  { clear HF. revert X. induction HV as [|v V Hv _ IH]; intros [|x X];
      simpl; constructor; [done | apply IH]. }
  revert F HF. induction Hw as [|w ws Hw _ IH]; intros F HF; simpl; [done|].
  apply IH. by apply all_zero_vput.
Qed.

Lemma gather_rows_all_zero F idx r :
  all_zero F -> gather_rows F idx = Ok r -> all_zero r.
Proof.
  intros HF. apply map_result_Forall. intros i y.
  destruct (F !! i) as [x|] eqn:Hi; simpl; [|done]. intros [= <-].
  unfold all_zero in HF. rewrite Forall_lookup in HF. by apply (HF i).
Qed.

(** A zero strain yields a zero element force. *)
Lemma f_all_zero self j epsilon fj :
  all_zero epsilon -> Solid.f self j epsilon = Ok fj -> all_zero fj.
Proof.
  intros Heps. unfold Solid.f.
  destruct (Solid.elements self !! j) as [e|]; [|done]. cbn [mbind result_bind of_option].
  destruct (gather_rows (Solid.nodes self) e) as [nodes0|]; [|done].
  cbn [mbind result_bind].
  destruct (Solid.get_etype self) as [et|]; [|done]. cbn [mbind result_bind].
  apply (for_each_inv _ all_zero); [|apply all_zero_zeros].
  intros a wq a' Ha. unfold Solid.f_step.
  destruct (Solid.J self wq.2 nodes0) as [[Jm detJ]|]; [|done]. cbn [mbind result_bind].
  destruct (Solid.get_etype self) as [et'|]; [|done]. cbn [mbind result_bind].
  destruct (Solid.D self _) as [Dm|]; [|done]. cbn [mbind result_bind].
  intros [= <-]. apply all_zero_vadd; [done|].
  by apply all_zero_vscale_r, all_zero_matvec.
Qed.

Lemma elem_of_enumerate {A} (l : list A) j x :
  (j, x) ∈ imap (fun j e => (j, e)) l -> x ∈ l.
Proof.
  intros (i & y & [= -> ->] & Hy)%elem_of_lookup_imap.
  by apply list_elem_of_lookup_2 in Hy.
Qed.

(** Zero or absent inelastic strains assemble to the zero force vector. *)
Lemma inelastic_forces_zero self F :
  strains_zero self -> Solid.inelastic_forces self = Ok F ->
  F = zeros (Solid.n_dofs self).
Proof.
  intros Hz HF. pose proof (inelastic_forces_shape self F HF) as Hlen.
  rewrite <- Hlen. apply all_zero_eq. revert HF.
  unfold Solid.inelastic_forces, strains_zero in *.
  destruct (Solid.strains self) as [eps|]; [|intros [= <-]; apply all_zero_zeros].
  apply (for_each_inv_in _ all_zero); [|apply all_zero_zeros].
  intros a [j e] a' Hin Ha. apply elem_of_enumerate in Hin.
  assert (He : all_zero e) by (rewrite Forall_forall in Hz; by apply Hz).
  unfold Solid.force_step. cbn [fst snd].
  destruct (Solid.global_indices self !! j) as [idx|]; [|done].
  cbn [mbind result_bind of_option].
  destruct (gather1 a idx.1) as [G|] eqn:HG; [|done]. cbn [mbind result_bind].
  destruct (Solid.f self j e) as [fj|] eqn:Hfj; [|done]. cbn [mbind result_bind].
  intros [= <-]. apply all_zero_index_put1; [done|].
  apply Forall_map.
  assert (HGz : Forall all_zero G).
  { revert HG. unfold gather1. apply map_result_Forall.
    intros xs r. by apply gather_rows_all_zero. }
  eapply Forall_impl; [exact HGz|]. intros g Hg. simpl.
  apply all_zero_vadd; [done|]. by apply (f_all_zero self j e).
Qed.


Lemma vnth_all_zero v i : all_zero v -> vnth v i = 0.
Proof.
  intros Hv. destruct (decide (i < length v)%nat) as [Hi|Hi].
  - unfold all_zero in Hv. rewrite Forall_forall in Hv. apply Hv.
    apply list_elem_of_In, nth_In. done.
  - apply vnth_ge. lia.
Qed.

Lemma vsum_all_zero v : all_zero v -> vsum v = 0.
Proof. induction 1 as [|x v -> _ IH]; [done|]. simpl. rewrite IH. ring. Qed.



(** ** Rigid translations and the unconstrained problem *)

Lemma sumn_indicator n x (g : nat -> Qc) :
  (x < n)%nat -> sumn n (fun q => if decide (x = q) then g q else 0) = g x.
Proof.
  induction n as [|n IH]; intros Hx; [lia|]. simpl.
  destruct (decide (x = n)) as [->|Hne].
  - rewrite (sumn_ext n _ (fun _ => 0)), sumn_zero; [ring|].
    intros q Hq. apply decide_False. lia.
  - rewrite IH by lia. ring.
Qed.

(** A sum over the DOFs that an index list without repetition addresses is a
    sum over the positions of the list. *)
Lemma sumn_lastpos n idx (g : nat -> nat -> Qc) :
  NoDup idx -> Forall (fun i => (i < n)%nat) idx ->
  sumn n (fun q => match lastpos idx q with Some r => g r q | None => 0 end)
  = sumn (length idx) (fun r => g r (nth r idx 0%nat)).
Proof.
  intros Hnd. revert g. induction Hnd as [|x idx Hx Hnd IH]; intros g Hr.
  - simpl. apply sumn_zero.
  - apply Forall_cons_1 in Hr as [Hxn Hr].
    cbn [length]. rewrite sumn_shift. cbn [nth].
    rewrite <- (IH (fun r q => g (S r) q) Hr).
    rewrite <- (sumn_indicator n x (fun q => g 0%nat q) Hxn).
    rewrite <- sumn_plus. apply sumn_ext. intros q _. simpl.
    destruct (lastpos idx q) as [c|] eqn:Hc.
    + rewrite decide_False; [ring|]. intros ->.
      apply lastpos_Some in Hc as [Hc Hn]. apply Hx. rewrite <- Hn.
      apply list_elem_of_In, nth_In. done.
    + case_decide; ring.
Qed.

Lemma sumn_3 n (g : nat -> Qc) :
  sumn (3 * n) g
  = sumn n (fun a => g (3 * a)%nat + g (3 * a + 1)%nat + g (3 * a + 2)%nat).
Proof.
  induction n as [|n IH]; [done|].
  replace (3 * S n)%nat with (S (S (S (3 * n)))) by lia.
  cbn [sumn]. rewrite IH.
  replace (S (3 * n)) with (3 * n + 1)%nat by lia.
  replace (S (3 * n + 1)) with (3 * n + 2)%nat by lia. ring.
Qed.

Lemma tx_3 a i : (i < 3)%nat -> tx (3 * a + i) = if decide (i = 0%nat) then 1 else 0.
Proof.
  intros Hi. unfold tx.
  replace ((3 * a + i) mod 3)%nat with i.
  - done.
  - rewrite Nat.add_comm, Nat.mul_comm, Nat.Div0.mod_add. symmetry.
    by apply Nat.mod_small.
Qed.

Lemma nth_dof_indices e r :
  (r < 3 * length e)%nat ->
  nth r (Solid.dof_indices e) 0%nat = (3 * nth (r / 3) e 0%nat + r mod 3)%nat.
Proof.
  revert r. induction e as [|n e IH]; intros r Hr; simpl in Hr; [lia|].
  rewrite dof_indices_cons.
  destruct (decide (r < 3)%nat) as [Hlt|Hge].
  - rewrite app_nth1 by (simpl; lia).
    rewrite (Nat.div_small r 3), (Nat.mod_small r 3) by lia.
    destruct r as [|[|[|r]]]; simpl; lia.
  - rewrite app_nth2 by (simpl; lia). cbn [length].
    rewrite IH by lia.
    replace r with (r - 3 + 1 * 3)%nat at 3 4 by lia.
    rewrite Nat.div_add, Nat.Div0.mod_add by lia.
    replace (S (S (S O))) with 3%nat by done.
    replace ((r - 3) / 3 + 1)%nat with (S ((r - 3) / 3)) by lia. done.
Qed.

Lemma tx_dof_indices e r :
  (r < 3 * length e)%nat -> tx (nth r (Solid.dof_indices e) 0%nat) = tx r.
Proof.
  intros Hr. rewrite nth_dof_indices by done.
  rewrite tx_3 by (apply Nat.mod_upper_bound; lia). unfold tx.
  destruct (decide (r mod 3 = 0)%nat); done.
Qed.

Lemma NoDup_dof_indices e : NoDup e -> NoDup (Solid.dof_indices e).
Proof.
  intros Hnd. apply NoDup_alt. intros i j x Hi Hj.
  pose proof (lookup_lt_Some _ _ _ Hi) as Hil.
  pose proof (lookup_lt_Some _ _ _ Hj) as Hjl.
  rewrite length_dof_indices in Hil, Hjl.
  apply (nth_lookup_Some _ _ 0%nat) in Hi, Hj.
  rewrite nth_dof_indices in Hi, Hj by done.
  assert (Hmi : (i mod 3 < 3)%nat) by (apply Nat.mod_upper_bound; lia).
  assert (Hmj : (j mod 3 < 3)%nat) by (apply Nat.mod_upper_bound; lia).
  assert (Hdi : (i / 3 < length e)%nat) by (apply Nat.Div0.div_lt_upper_bound; lia).
  assert (Hdj : (j / 3 < length e)%nat) by (apply Nat.Div0.div_lt_upper_bound; lia).
  assert (He : nth (i / 3) e 0%nat = nth (j / 3) e 0%nat) by lia.
  assert (Hm : (i mod 3 = j mod 3)%nat) by lia.
  assert (Hd : (i / 3 = j / 3)%nat).
  { destruct (nth_lookup_or_length e (i / 3) 0%nat) as [Hli|?]; [|lia].
    destruct (nth_lookup_or_length e (j / 3) 0%nat) as [Hlj|?]; [|lia].
    rewrite He in Hli. by apply (NoDup_lookup e _ _ _ Hnd Hli Hlj). }
  rewrite (Nat.div_mod_eq i 3), (Nat.div_mod_eq j 3). lia.
Qed.

(** The Cartesian gradients sum to zero over the nodes as the reference
    gradients do. *)
Lemma gradients_rowsum et nodes0 q i :
  element_ok et -> partition_of_unity et -> (i < 3)%nat ->
  sumn (et_nodes et) (fun a => entry (gradients et nodes0 q) i a) = 0.
Proof.
  intros Hok Hpu Hi. destruct (Hok q) as [HB3 HBn].
  pose proof (is_mat_ncols 3 (et_nodes et) _ (Hok q) ltac:(lia)) as Hnc.
  set (Jinv := inv (jacobian et nodes0 q)).
  assert (HJ : is_mat 3 3 Jinv).
  { unfold Jinv, inv, jacobian. rewrite length_matmul, HB3. split; [done|].
    repeat constructor. }
  transitivity (sumn (et_nodes et) (fun a =>
                  sumn 3 (fun k => entry Jinv i k * entry (et_B et q) k a))).
  { apply sumn_ext. intros a Ha. unfold gradients. fold Jinv.
    rewrite entry_matmul by (rewrite ?(proj1 HJ), ?Hnc; done).
    rewrite (dot_sumn _ _ 3);
      [| by apply (is_mat_row 3 3) | by rewrite length_col].
    apply sumn_ext. intros k _. by rewrite vnth_col. }
  rewrite sumn_exchange.
  rewrite (sumn_ext 3 _ (fun _ => 0)), sumn_zero; [done|].
  intros k Hk.
  rewrite <- (sumn_mul_l (et_nodes et) (fun a => entry (et_B et q) k a) (entry Jinv i k)).
  rewrite (Hpu q k Hk). ring.
Qed.

(** Every row of the strain operator annihilates the translation. *)
Lemma strain_rows_translation et nodes0 q t :
  element_ok et -> partition_of_unity et -> (t < 6)%nat ->
  sumn (3 * et_nodes et)
       (fun r => entry (D_rows (et_nodes et) (gradients et nodes0 q)) t r * tx r) = 0.
Proof.
  intros Hok Hpu Ht. set (n := et_nodes et). set (B := gradients et nodes0 q).
  pose proof (is_mat_gradients et nodes0 q Hok) as HB. fold B n in HB.
  assert (HBrow : forall i, (i < 3)%nat -> length (nth i B []) = n)
    by (intros i Hi; by apply (is_mat_row 3 n)).
  assert (Hsum : forall i, (i < 3)%nat -> sumn n (fun a => vnth (nth i B []) a) = 0)
    by (intros i Hi; by apply (gradients_rowsum et nodes0 q i)).
  assert (Hz : sumn n (fun a => vnth (zeros n) a) = 0).
  { rewrite (sumn_ext n _ (fun _ => 0)), sumn_zero; [done|].
    intros a _. apply vnth_zeros. }
  rewrite sumn_3.
  assert (Hrow : forall (v0 v1 v2 : list Qc),
            length v0 = n ->
            sumn n (fun a =>
              vnth (Solid.stack_ravel [v0; v1; v2]) (3 * a) * tx (3 * a)
              + vnth (Solid.stack_ravel [v0; v1; v2]) (3 * a + 1) * tx (3 * a + 1)
              + vnth (Solid.stack_ravel [v0; v1; v2]) (3 * a + 2) * tx (3 * a + 2))
            = sumn n (fun a => vnth v0 a)).
  { intros v0 v1 v2 Hl. apply sumn_ext. intros a Ha.
    replace (3 * a)%nat with (3 * a + 0)%nat at 1 2 by lia.
    rewrite !tx_3 by lia. rewrite !vnth_stack_ravel by (rewrite ?Hl; lia).
    simpl. ring. }
  unfold entry, D_rows. cbv zeta.
  destruct t as [|[|[|[|[|[|t]]]]]]; try lia; cbn [nth];
    rewrite Hrow by (rewrite ?length_zeros; auto); auto.
Qed.

(** The translation is a left null vector of the integrand of the element
    stiffness. *)
Lemma k_integrand_translation et C0 nodes0 wq c :
  element_ok et -> partition_of_unity et -> is_mat 6 6 C0 ->
  sumn (3 * et_nodes et) (fun r => entry (k_integrand et C0 nodes0 wq) r c * tx r) = 0.
Proof.
  intros Hok Hpu HC. set (m := (3 * et_nodes et)%nat).
  pose proof (is_mat_k_integrand et C0 nodes0 wq Hok) as HT. fold m in HT.
  destruct (decide (c < m)%nat) as [Hc|Hc].
  2:{ rewrite (sumn_ext m _ (fun _ => 0)), sumn_zero; [done|].
      intros r _. rewrite (entry_col_ge m m) by (done || lia). ring. }
  set (Dm := D_rows (et_nodes et) (gradients et nodes0 wq.2)).
  pose proof (is_mat_strain_rows et nodes0 wq.2 Hok) as HD. fold Dm m in HD.
  transitivity (sumn m (fun r =>
    sumn 6 (fun s => sumn 6 (fun t =>
      wq.1 * entry C0 t s * entry Dm s c * det (jacobian et nodes0 wq.2)
      * (entry Dm t r * tx r))))).
  { apply sumn_ext. intros r Hr. unfold k_integrand. cbv zeta. fold Dm.
    rewrite (entry_integrand 6 m) by (done || lia).
    rewrite !sumn_mul_r. apply sumn_ext. intros s _.
    rewrite !sumn_mul_r. apply sumn_ext. intros t _. ring. }
  rewrite sumn_exchange.
  rewrite (sumn_ext 6 _ (fun _ => 0)), sumn_zero; [done|]. intros s _.
  rewrite sumn_exchange.
  rewrite (sumn_ext 6 _ (fun _ => 0)), sumn_zero; [done|]. intros t Ht.
  rewrite <- sumn_mul_l.
  unfold Dm, m. rewrite (strain_rows_translation et nodes0 wq.2 t Hok Hpu Ht). ring.
Qed.

Lemma k_translation self et j kj c :
  Solid.etype self = Some et -> element_ok et -> partition_of_unity et ->
  is_mat 6 6 (Solid.C self) ->
  Solid.k self j = Ok kj ->
  sumn (3 * et_nodes et) (fun r => entry kj r c * tx r) = 0.
Proof.
  intros Het Hok Hpu HC. unfold Solid.k, Solid.get_etype.
  destruct (Solid.elements self !! j) as [e|]; [|done].
  cbn [mbind result_bind of_option].
  destruct (gather_rows (Solid.nodes self) e) as [nodes0|]; [|done].
  rewrite Het. cbn [mbind result_bind of_option]. intros Hk.
  set (m := (3 * et_nodes et)%nat) in *.
  assert (H : is_mat m m kj /\ sumn m (fun r => entry kj r c * tx r) = 0);
    [|by destruct H].
  eapply (for_each_inv _ (fun a => is_mat m m a
                                   /\ sumn m (fun r => entry a r c * tx r) = 0));
    [| split; [apply is_mat_zeros2|] | exact Hk].
  - intros a wq a' [Ha Hs]. rewrite (k_step_unfold self et) by done.
    destruct (Qc_leb _ _); [done|]. intros [= <-].
    pose proof (is_mat_k_integrand et (Solid.C self) nodes0 wq Hok) as HT.
    split; [by apply is_mat_madd|].
    rewrite (sumn_ext m _ (fun r => entry a r c * tx r
                 + entry (k_integrand et (Solid.C self) nodes0 wq) r c * tx r)).
    + rewrite sumn_plus, Hs. unfold m.
      rewrite (k_integrand_translation et _ nodes0 wq c Hok Hpu HC). ring.
    + intros r _. rewrite (entry_madd m m) by done. ring.
  - rewrite (sumn_ext m _ (fun _ => 0)), sumn_zero; [done|].
    intros r _. rewrite entry_zeros2. ring.
Qed.

(** The entries after a scatter-add. *)
Lemma entry_scatter_add n K idx kj p q :
  is_mat n n K -> Forall (fun i => (i < n)%nat) idx ->
  is_mat (length idx) (length idx) kj ->
  entry (scatter_add K idx kj) p q
  = entry K p q
    + match lastpos idx q, lastpos idx p with
      | Some r, Some c => entry kj r c
      | _, _ => 0
      end.
Proof.
  intros HK Hidx Hkj. unfold scatter_add.
  rewrite (entry_index_put2 n);
    [| done | done | done | apply is_mat_madd; [apply is_mat_gathered | done]].
  destruct (lastpos idx q) as [r|] eqn:Hq; [|ring].
  destruct (lastpos idx p) as [c|] eqn:Hp; [|ring].
  apply lastpos_Some in Hq as [Hr Hqr]. apply lastpos_Some in Hp as [Hc Hpc].
  rewrite (entry_madd (length idx) (length idx)) by (done || apply is_mat_gathered).
  rewrite entry_gathered by done. by rewrite Hqr, Hpc.
Qed.

(** The assembled stiffness annihilates the translation. *)
Lemma stiffness_translation self et K p :
  well_formed self et -> partition_of_unity et -> is_mat 6 6 (Solid.C self) ->
  Forall NoDup (Solid.elements self) ->
  Solid.stiffness self = Ok K ->
  sumn (Solid.n_dofs self) (fun q => entry K p q * tx q) = 0.
Proof.
  intros Hwf Hpu HC Hnd HK. set (n := Solid.n_dofs self).
  assert (H : is_mat n n K /\ forall p, sumn n (fun q => entry K p q * tx q) = 0);
    [|by destruct H].
  eapply (for_each_inv _ (fun a => is_mat n n a
                            /\ forall p, sumn n (fun q => entry a p q * tx q) = 0));
    [| split; [apply is_mat_zeros2|] | exact HK].
  - intros a j a' [Ha Hs].
    destruct (Solid.elements self !! j) as [e|] eqn:Hj.
    2:{ unfold Solid.stiffness_step.
        by rewrite (wf_indices _ _ Hwf), list_lookup_fmap, Hj. }
    rewrite (stiffness_step_unfold self et a j e) by done.
    destruct (Solid.k self j) as [kj|] eqn:Hk; [|done]. intros [= <-].
    destruct (wf_element_at self et j e Hwf Hj) as [Harity Hrange].
    destruct (k_shape self et j kj (wf_etype _ _ Hwf) (wf_element _ _ Hwf) Hk)
      as [Hkj _].
    assert (Hidx : Forall (fun i => (i < n)%nat) (Solid.dof_indices e)).
    { unfold n. rewrite (wf_dofs self et Hwf). by apply dof_indices_in_range. }
    assert (Hlen : length (Solid.dof_indices e) = (3 * et_nodes et)%nat)
      by (by rewrite length_dof_indices, Harity).
    assert (Hend : NoDup (Solid.dof_indices e)).
    { apply NoDup_dof_indices. by apply (Forall_lookup_1 _ _ _ _ Hnd Hj). }
    split; [by apply is_mat_scatter_add|]. intros p0.
    rewrite (sumn_ext n _ (fun q => entry a p0 q * tx q
      + match lastpos (Solid.dof_indices e) q with
        | Some r =>
            match lastpos (Solid.dof_indices e) p0 with
            | Some c => entry kj r c
            | None => 0
            end * tx q
        | None => 0
        end)).
    2:{ intros q _. rewrite (entry_scatter_add n) by (done || by rewrite Hlen).
        destruct (lastpos (Solid.dof_indices e) q); ring. }
    rewrite sumn_plus, Hs.
    rewrite (sumn_lastpos n (Solid.dof_indices e)
               (fun r q => match lastpos (Solid.dof_indices e) p0 with
                           | Some c => entry kj r c
                           | None => 0
                           end * tx q)) by done.
    rewrite Hlen.
    destruct (lastpos (Solid.dof_indices e) p0) as [c|].
    + rewrite (sumn_ext _ _ (fun r => entry kj r c * tx r)).
      * rewrite (k_translation self et j kj c (wf_etype _ _ Hwf) (wf_element _ _ Hwf)
                   Hpu HC Hk). ring.
      * intros r Hr. rewrite tx_dof_indices; [done|]. rewrite Harity. done.
    + rewrite (sumn_ext _ _ (fun _ => 0)), sumn_zero; [ring|]. intros r _. ring.
  - intros p0. rewrite (sumn_ext n _ (fun _ => 0)), sumn_zero; [done|].
    intros q _. rewrite entry_zeros2. ring.
Qed.

Lemma vnth_translation_x n q : (q < n)%nat -> vnth (translation_x n) q = tx q.
Proof.
  intros Hq. unfold translation_x, vnth. by rewrite nth_map_seq.
Qed.

Lemma matvec_translation n K :
  is_mat n n K ->
  (forall p, sumn n (fun q => entry K p q * tx q) = 0) ->
  matvec K (translation_x n) = zeros n.
Proof.
  intros HK Hs. apply (nth_ext _ _ 0 0).
  - by rewrite length_matvec, length_zeros, (proj1 HK).
  - intros p Hp. rewrite length_matvec, (proj1 HK) in Hp.
    change (vnth (matvec K (translation_x n)) p = vnth (zeros n) p).
    rewrite vnth_zeros, vnth_matvec by (by rewrite (proj1 HK)).
    rewrite (dot_sumn _ _ n);
      [| by apply (is_mat_row n n)
       | unfold translation_x; by rewrite length_map, length_seq].
    rewrite <- (Hs p). apply sumn_ext. intros q Hq.
    by rewrite vnth_translation_x.
Qed.

Lemma nonzero_from_all s mask :
  Forall (fun b => b = false) mask ->
  nonzero_from s (map negb mask) = seq s (length mask).
Proof.
  intros H. revert s. induction H as [|b mask -> _ IH]; intros s; [done|].
  simpl. by rewrite IH.
Qed.

Lemma reduced_stiffness_all n K : is_mat n n K -> reduced_stiffness K (seq 0 n) = K.
Proof.
  intros HK. unfold reduced_stiffness. apply (nth_ext _ _ [] []).
  - by rewrite length_map, length_seq, (proj1 HK).
  - intros i Hi. rewrite length_map, length_seq in Hi.
    rewrite nth_map_seq by done.
    apply (nth_ext _ _ 0 0).
    + by rewrite length_map, length_seq, (is_mat_row n n K i).
    + intros j Hj. rewrite length_map, length_seq in Hj.
      by rewrite nth_map_seq.
Qed.

Lemma Tetra1_partition_of_unity : partition_of_unity Tetra1.
Proof.
  intros q i Hi. destruct i as [|[|[|i]]]; try lia; apply Qc_is_canon; reflexivity.
Qed.


(** ** The tetrahedron examples *)

Lemma tet_boundary_ok S : boundary_ok (tet_solid (zero_field 4) (zero_field 4) clamp3_mask S).
Proof. split; by repeat constructor. Qed.

Lemma tet_well_formed F U M S : well_formed (tet_solid F U M S) Tetra1.
Proof.
  split; try reflexivity.
  - apply Tetra1_ok.
  - by repeat constructor.
  - by repeat constructor.
  - by repeat constructor.
Qed.

Lemma inverted_well_formed : well_formed inverted_solid Tetra1.
Proof.
  split; try reflexivity.
  - apply Tetra1_ok.
  - by repeat constructor.
  - by repeat constructor.
  - by repeat constructor.
Qed.

Lemma is_mat_C_iso : is_mat 6 6 C_iso.
Proof. split; by repeat constructor. Qed.

Lemma symmetric_C_iso : symmetric C_iso.
Proof.
  intros i j.
  destruct (decide (i < 6)%nat) as [Hi|Hi]; [destruct (decide (j < 6)%nat) as [Hj|Hj]|].
  - do 6 (destruct i as [|i]; [do 6 (destruct j as [|j]; [reflexivity|]); lia|]). lia.
  - rewrite (entry_col_ge 6 6), entry_row_ge; (done || apply is_mat_C_iso || simpl; lia).
  - rewrite entry_row_ge, (entry_col_ge 6 6); (done || apply is_mat_C_iso || simpl; lia).
Qed.

Lemma tet_positive F U M S : positive_jacobians (tet_solid F U M S) Tetra1.
Proof. repeat constructor. Qed.


Lemma tet_K_stiffness : Solid.stiffness tet_clamped = Ok tet_K.
Proof. vm_compute. reflexivity. Qed.

Lemma tet_F_forces : Solid.inelastic_forces tet_strained = Ok tet_F.
Proof. vm_compute. reflexivity. Qed.

Lemma tet_reduced_nonsingular :
  nonsingular (reduced_stiffness tet_K (free_dofs tet_clamped)).
Proof.
  eapply (linalg_solve_nonsingular 3 _ (zeros 3)).
  - apply (is_mat_reduced_stiffness tet_K (free_dofs tet_clamped)).
  - reflexivity.
  - vm_compute. reflexivity.
Qed.

Lemma tet_free_boundary_ok :
  boundary_ok (tet_solid (zero_field 4) (zero_field 4) (free_mask 4) None).
Proof. split; by repeat constructor. Qed.


(** The loaded tetrahedron by hand: [K[U,U]] is diag(1/12, 1/12, 1/6) on the
    DOFs 9, 10, 11, the prescribed displacement 1 at DOF 5 gives
    [K[:,C] d[C]] the entry 1/12 at DOF 9, so the reduced load is
    (-1/12, 1, 1) and the solution (-1, 12, 6). *)
Lemma tet_loaded_solution :
  dofs_with_flag true (ravel (Solid.constraints tet_loaded)) = seq 0 9
  /\ dofs_with_flag false (ravel (Solid.constraints tet_loaded)) = [9; 10; 11]%nat
  /\ exists f,
       Solid.solve tet_loaded
       = Ok ([[0; 0; 0]; [half; 0; 1]; [0; 0; 0];
              [- (1); Q2Qc (12 # 1); Q2Qc (6 # 1)]], f).
Proof.
  split; [reflexivity|]. split; [reflexivity|].
  assert (H : exists u f, Solid.solve tet_loaded = Ok (u, f)
                /\ u = [[0; 0; 0]; [half; 0; 1]; [0; 0; 0];
                        [- (1); Q2Qc (12 # 1); Q2Qc (6 # 1)]]).
  { eexists _, _. split; [vm_compute; reflexivity|].
    repeat match goal with
           | |- _ :: _ = _ :: _ => f_equal
           | |- @eq Qc _ _ => apply Qc_is_canon; vm_compute; reflexivity
           end. }
  destruct H as (u & f & Hs & ->). by exists f.
Qed.








Lemma force_at_free_dofs_witness :
  exists u f,
    Solid.solve tet_strained = Ok (u, f)
    /\ exists F,
      Solid.inelastic_forces tet_strained = Ok F
      /\ (forall i, ravel (Solid.constraints tet_strained) !! i = Some false ->
                    vnth (ravel f) i
                    = vnth (ravel (Solid.forces tet_strained)) i + vnth F i)
      /\ (Solid.strains tet_strained = None ->
          forall i, ravel (Solid.constraints tet_strained) !! i = Some false ->
                    vnth (ravel f) i = vnth (ravel (Solid.forces tet_strained)) i).
Proof.
  eexists _, _. split; [vm_compute; reflexivity|].
  eapply (force_at_free_dofs tet_strained).
  - apply tet_boundary_ok.
  - vm_compute. reflexivity.
Defined.

Lemma stiffness_is_symmetric_witness :
  exists K,
    Solid.stiffness tet_clamped = Ok K
    /\ (forall i j, entry K i j = entry K j i)
    /\ transpose K = K.
Proof.
  apply (stiffness_is_symmetric tet_clamped Tetra1).
  - apply tet_well_formed.
  - apply is_mat_C_iso.
  - apply symmetric_C_iso.
  - apply tet_positive.
Defined.

(** ** The store: in-place updates and aliasing *)

Section Heap.
Import Imperative.

Lemma get_mono {T} (proj : cell -> option T) (h h' : heap) l x :
  h ⊆ h' -> get proj h l = Some x -> get proj h' l = Some x.
Proof.
  unfold get. intros Hsub Hg. destruct (h !! l) as [c|] eqn:Hl; [|done].
  by rewrite (lookup_weaken _ _ _ _ Hl Hsub).
Qed.

Lemma get_lookup {T} (proj : cell -> option T) (h : heap) l c x :
  h !! l = Some c -> proj c = Some x -> get proj h l = Some x.
Proof. unfold get. by intros -> ?. Qed.

Lemma read_instance_mono (h h' : heap) self s :
  h ⊆ h' -> read_instance h self = Some s -> read_instance h' self = Some s.
Proof.
  intros Hsub. unfold read_instance. intros Hr.
  destruct (get as_instance h self) as [i|] eqn:Hi; [|done].
  rewrite (get_mono _ _ _ _ _ Hsub Hi). cbn [mbind option_bind] in *.
  repeat match type of Hr with
         | context [get ?p h ?l] =>
             let H := fresh "Hg" in
             destruct (get p h l) eqn:H; [|by destruct (strains i)];
             rewrite (get_mono _ _ _ _ _ Hsub H); cbn [mbind option_bind fmap option_fmap option_map] in *
         | context [match strains i with _ => _ end] =>
             destruct (strains i); cbn [mbind option_bind fmap option_fmap option_map] in *
         end; done.
Qed.

Lemma run_bind {A B} (m : M A) (g : A -> M B) (h : heap) :
  (m ≫= g) h = match m h with
               | (Ok a, h') => g a h'
               | (Err e, h') => (Err e, h')
               end.
Proof. reflexivity. Qed.

Lemma run_ret {A} (a : A) (h : heap) : (mret a : M A) h = (Ok a, h).
Proof. reflexivity. Qed.

Lemma run_lift {A} (r : result A) (h : heap) : lift r h = (r, h).
Proof. reflexivity. Qed.

Lemma run_snapshot self (h : heap) s :
  read_instance h self = Some s -> snapshot self h = (Ok s, h).
Proof. intros H. unfold snapshot. by rewrite H. Qed.

Lemma run_load {T} (proj : cell -> option T) l (h : heap) x :
  get proj h l = Some x -> load proj l h = (Ok x, h).
Proof. intros H. unfold load. by rewrite H. Qed.

Lemma run_store l c (h : heap) : store l c h = (Ok tt, <[l := c]> h).
Proof. reflexivity. Qed.

Lemma run_alloc c (h : heap) :
  alloc c h = (Ok (fresh (dom h)), <[fresh (dom h) := c]> h).
Proof. reflexivity. Qed.

Lemma fresh_None (h : heap) : h !! fresh (dom h) = None.
Proof. apply not_elem_of_dom, is_fresh. Qed.

Lemma alloc_subseteq (h : heap) c : h ⊆ <[fresh (dom h) := c]> h.
Proof. apply insert_subseteq, fresh_None. Qed.

Lemma store_local (h0 h : heap) l c :
  h0 !! l = None -> h0 ⊆ h -> h0 ⊆ <[l := c]> h.
Proof. intros Hl Hsub. by apply insert_subseteq_r. Qed.

(** A loop that keeps its accumulator in the object at [ref], allocated
    after [h0], refines the pure loop over the accumulator and leaves [h0]
    as it was. *)
Lemma for_in_refines {A S} (inj : S -> cell) (ref : loc) (h0 : heap)
    (pbody : S -> A -> result S) (mbody : A -> M unit) xs acc (h : heap) :
  h0 !! ref = None ->
  (forall x a (h1 : heap), x ∈ xs -> h0 ⊆ h1 -> h1 !! ref = Some (inj a) ->
     match pbody a x with
     | Ok a' => exists h2, mbody x h1 = (Ok tt, h2) /\ h0 ⊆ h2 /\ h2 !! ref = Some (inj a')
     | Err e => exists h2, mbody x h1 = (Err e, h2) /\ h0 ⊆ h2
     end) ->
  h0 ⊆ h -> h !! ref = Some (inj acc) ->
  match for_each pbody xs acc with
  | Ok r => exists h', for_in xs mbody h = (Ok tt, h') /\ h0 ⊆ h' /\ h' !! ref = Some (inj r)
  | Err e => exists h', for_in xs mbody h = (Err e, h') /\ h0 ⊆ h'
  end.
Proof.
  intros Href. revert acc h. induction xs as [|x xs IH]; intros acc h Hbody Hsub Hacc.
  - simpl. by exists h.
  - cbn [for_each for_in]. rewrite run_bind.
    pose proof (Hbody x acc h (list_elem_of_here _ _) Hsub Hacc) as Hx.
    destruct (pbody acc x) as [a'|e].
    + destruct Hx as (h2 & -> & Hsub2 & Ha'). apply IH; [|done|done].
      intros y a h1 Hy. apply Hbody. by right.
    + destruct Hx as (h2 & -> & Hsub2). by exists h2.
Qed.

(** [k] allocates its result and touches nothing else. *)
Lemma k_refines self j (h : heap) s :
  read_instance h self = Some s ->
  refines (k self j) h (Solid.k s j)
          (fun kref kj h' => h !! kref = None /\ h' !! kref = Some (Matrix kj)).
Proof.
  intros Hs. unfold refines, k, Solid.k.
  rewrite run_bind, (run_snapshot self h s Hs).
  rewrite run_bind, run_lift.
  destruct (Solid.elements s !! j) as [element|]; cbn [of_option mbind result_bind];
    [|by exists h].
  rewrite run_bind, run_lift.
  destruct (gather_rows (Solid.nodes s) element) as [nodes0|e];
    cbn [mbind result_bind]; [|by exists h].
  rewrite run_bind, run_lift.
  destruct (Solid.get_etype s) as [et|e]; cbn [mbind result_bind]; [|by exists h].
  rewrite run_bind, run_alloc, run_bind.
  set (kref := fresh (dom h)).
  set (h1 := <[kref := Matrix (zeros2 (3 * et_nodes et) (3 * et_nodes et))]> h).
  assert (Hfresh : h !! kref = None) by apply fresh_None.
  pose proof (for_in_refines Matrix kref h (Solid.k_step s nodes0)
    (fun wq => s' ← snapshot self; k0 ← load as_matrix kref;
               k1 ← lift (Solid.k_step s' nodes0 k0 wq); store kref (Matrix k1))
    (Solid.quadrature et) (zeros2 (3 * et_nodes et) (3 * et_nodes et)) h1 Hfresh) as Hloop.
  destruct (for_each (Solid.k_step s nodes0) (Solid.quadrature et) _) as [kj|e].
  - destruct Hloop as (h' & -> & Hsub & Hk).
    + intros wq a h2 _ Hsub2 Ha.
      rewrite run_bind, (run_snapshot self h2 s (read_instance_mono _ _ _ _ Hsub2 Hs)).
      rewrite run_bind, (run_load as_matrix kref h2 a (get_lookup _ _ _ _ _ Ha eq_refl)).
      rewrite run_bind, run_lift.
      destruct (Solid.k_step s nodes0 a wq) as [a'|e].
      * rewrite run_store. eexists. split; [done|]. split.
        -- by apply store_local.
        -- apply lookup_insert_eq.
      * by exists h2.
    + apply alloc_subseteq.
    + apply lookup_insert_eq.
    + rewrite run_ret. by exists kref, h'.
  - destruct Hloop as (h' & -> & Hsub).
    + intros wq a h2 _ Hsub2 Ha.
      rewrite run_bind, (run_snapshot self h2 s (read_instance_mono _ _ _ _ Hsub2 Hs)).
      rewrite run_bind, (run_load as_matrix kref h2 a (get_lookup _ _ _ _ _ Ha eq_refl)).
      rewrite run_bind, run_lift.
      destruct (Solid.k_step s nodes0 a wq) as [a'|e'].
      * rewrite run_store. eexists. split; [done|]. split.
        -- by apply store_local.
        -- apply lookup_insert_eq.
      * by exists h2.
    + apply alloc_subseteq.
    + apply lookup_insert_eq.
    + by exists h'.
Qed.

(** [f] allocates its result and touches nothing else. *)
Lemma f_refines self j epsilon (h : heap) s :
  read_instance h self = Some s ->
  refines (f self j epsilon) h (Solid.f s j epsilon)
          (fun fref fj h' => h !! fref = None /\ h' !! fref = Some (Vector fj)).
Proof.
  intros Hs. unfold refines, f, Solid.f.
  rewrite run_bind, (run_snapshot self h s Hs).
  rewrite run_bind, run_lift.
  destruct (Solid.elements s !! j) as [element|]; cbn [of_option mbind result_bind];
    [|by exists h].
  rewrite run_bind, run_lift.
  destruct (gather_rows (Solid.nodes s) element) as [nodes0|e];
    cbn [mbind result_bind]; [|by exists h].
  rewrite run_bind, run_lift.
  destruct (Solid.get_etype s) as [et|e]; cbn [mbind result_bind]; [|by exists h].
  rewrite run_bind, run_alloc, run_bind.
  set (fref := fresh (dom h)).
  set (h1 := <[fref := Vector (zeros (3 * et_nodes et))]> h).
  assert (Hfresh : h !! fref = None) by apply fresh_None.
  pose proof (for_in_refines Vector fref h (Solid.f_step s nodes0 epsilon)
    (fun wq => s' ← snapshot self; f0 ← load as_vector fref;
               f1 ← lift (Solid.f_step s' nodes0 epsilon f0 wq); store fref (Vector f1))
    (Solid.quadrature et) (zeros (3 * et_nodes et)) h1 Hfresh) as Hloop.
  assert (Hbody : forall wq a (h2 : heap),
    wq ∈ Solid.quadrature et -> h ⊆ h2 -> h2 !! fref = Some (Vector a) ->
    match Solid.f_step s nodes0 epsilon a wq with
    | Ok a' => exists h3,
        (s' ← snapshot self; f0 ← load as_vector fref;
         f1 ← lift (Solid.f_step s' nodes0 epsilon f0 wq); store fref (Vector f1)) h2
        = (Ok tt, h3) /\ h ⊆ h3 /\ h3 !! fref = Some (Vector a')
    | Err e => exists h3,
        (s' ← snapshot self; f0 ← load as_vector fref;
         f1 ← lift (Solid.f_step s' nodes0 epsilon f0 wq); store fref (Vector f1)) h2
        = (Err e, h3) /\ h ⊆ h3
    end).
  { intros wq a h2 _ Hsub2 Ha.
    rewrite run_bind, (run_snapshot self h2 s (read_instance_mono _ _ _ _ Hsub2 Hs)).
    rewrite run_bind, (run_load as_vector fref h2 a (get_lookup _ _ _ _ _ Ha eq_refl)).
    rewrite run_bind, run_lift.
    destruct (Solid.f_step s nodes0 epsilon a wq) as [a'|e].
    - rewrite run_store. eexists. split; [done|]. split.
      + by apply store_local.
      + apply lookup_insert_eq.
    - by exists h2. }
  specialize (Hloop Hbody (alloc_subseteq h _) (lookup_insert_eq _ _ _)).
  destruct (for_each (Solid.f_step s nodes0 epsilon) (Solid.quadrature et) _) as [fj|e].
  - destruct Hloop as (h' & -> & Hsub & Hk). rewrite run_ret. by exists fref, h'.
  - destruct Hloop as (h' & -> & Hsub). by exists h'.
Qed.

(** [stiffness] allocates the global matrix and the element matrices and
    touches nothing else. *)
Lemma stiffness_refines self (h : heap) s :
  read_instance h self = Some s ->
  refines (stiffness self) h (Solid.stiffness s)
          (fun Kref K h' => h !! Kref = None /\ h' !! Kref = Some (Matrix K)).
Proof.
  intros Hs. unfold refines, stiffness, Solid.stiffness.
  rewrite run_bind, (run_snapshot self h s Hs).
  rewrite run_bind, run_alloc, run_bind.
  set (Kref := fresh (dom h)).
  set (h1 := <[Kref := Matrix (zeros2 (Solid.n_dofs s) (Solid.n_dofs s))]> h).
  assert (Hfresh : h !! Kref = None) by apply fresh_None.
  set (body := fun j : nat =>
         s' ← snapshot self;
         idx ← lift (of_option IndexError (Solid.global_indices s' !! j));
         K0 ← load as_matrix Kref;
         G ← lift (gather2 K0 idx.1 idx.2);
         kref ← k self j;
         kj ← load as_matrix kref;
         K1 ← load as_matrix Kref;
         store Kref (Matrix (index_put2 K1 idx.1 idx.2 (madd G kj)))).
  pose proof (for_in_refines Matrix Kref h (Solid.stiffness_step s) body
    (seq 0 (length (Solid.elements s)))
    (zeros2 (Solid.n_dofs s) (Solid.n_dofs s)) h1 Hfresh) as Hloop.
  assert (Hbody : forall j a (h2 : heap),
    j ∈ seq 0 (length (Solid.elements s)) -> h ⊆ h2 -> h2 !! Kref = Some (Matrix a) ->
    match Solid.stiffness_step s a j with
    | Ok a' => exists h3, body j h2 = (Ok tt, h3) /\ h ⊆ h3 /\ h3 !! Kref = Some (Matrix a')
    | Err e => exists h3, body j h2 = (Err e, h3) /\ h ⊆ h3
    end).
  { intros j a h2 _ Hsub2 Ha. unfold body, Solid.stiffness_step.
    pose proof (read_instance_mono _ _ _ _ Hsub2 Hs) as Hs2.
    rewrite run_bind, (run_snapshot self h2 s Hs2).
    rewrite run_bind, run_lift.
    destruct (Solid.global_indices s !! j) as [idx|]; cbn [of_option mbind result_bind];
      [|by exists h2].
    rewrite run_bind, (run_load as_matrix Kref h2 a (get_lookup _ _ _ _ _ Ha eq_refl)).
    rewrite run_bind, run_lift.
    destruct (gather2 a idx.1 idx.2) as [G|e]; cbn [mbind result_bind]; [|by exists h2].
    rewrite run_bind.
    pose proof (k_refines self j h2 s Hs2) as Hk. unfold refines in Hk.
    destruct (Solid.k s j) as [kj|e]; cbn [mbind result_bind].
    - destruct Hk as (kref & h3 & -> & Hsub3 & Hkfresh & Hkj).
      rewrite run_bind, (run_load as_matrix kref h3 kj (get_lookup _ _ _ _ _ Hkj eq_refl)).
      rewrite run_bind,
        (run_load as_matrix Kref h3 a
           (get_lookup _ _ _ _ _ (lookup_weaken _ _ _ _ Ha Hsub3) eq_refl)).
      rewrite run_store. eexists. split; [done|]. split.
      + apply store_local; [done|]. by transitivity h2.
      + apply lookup_insert_eq.
    - destruct Hk as (h3 & -> & Hsub3). exists h3. split; [done|]. by transitivity h2. }
  specialize (Hloop Hbody (alloc_subseteq h _) (lookup_insert_eq _ _ _)).
  destruct (for_each (Solid.stiffness_step s) _ _) as [K|e].
  - destruct Hloop as (h' & -> & Hsub & HK). rewrite run_ret. by exists Kref, h'.
  - destruct Hloop as (h' & -> & Hsub). by exists h'.
Qed.

(** The loop over the inelastic strains allocates the force vector and the
    element vectors and touches nothing else. *)
Lemma inelastic_forces_refines self (h : heap) s :
  read_instance h self = Some s ->
  refines (inelastic_forces self) h (Solid.inelastic_forces s)
          (fun Fref F h' => h !! Fref = None /\ h' !! Fref = Some (Vector F)).
Proof.
  intros Hs. unfold refines, inelastic_forces, Solid.inelastic_forces.
  rewrite run_bind, (run_snapshot self h s Hs).
  rewrite run_bind, run_alloc, run_bind.
  set (Fref := fresh (dom h)).
  set (h1 := <[Fref := Vector (zeros (Solid.n_dofs s))]> h).
  assert (Hfresh : h !! Fref = None) by apply fresh_None.
  destruct (Solid.strains s) as [eps|].
  2:{ rewrite run_ret, run_ret. exists Fref, h1. split; [done|]. split.
      - apply alloc_subseteq.
      - split; [done | apply lookup_insert_eq]. }
  set (body := fun je : nat * list Qc =>
         s' ← snapshot self;
         idx ← lift (of_option IndexError (Solid.global_indices s' !! je.1));
         F0 ← load as_vector Fref;
         G ← lift (gather1 F0 idx.1);
         fref ← f self je.1 je.2;
         fj ← load as_vector fref;
         F1 ← load as_vector Fref;
         store Fref (Vector (index_put1 F1 idx.1 (map (fun g => vadd g fj) G)))).
  pose proof (for_in_refines Vector Fref h (Solid.force_step s) body
    (imap (fun j e => (j, e)) eps) (zeros (Solid.n_dofs s)) h1 Hfresh) as Hloop.
  assert (Hbody : forall je a (h2 : heap),
    je ∈ imap (fun j e => (j, e)) eps -> h ⊆ h2 -> h2 !! Fref = Some (Vector a) ->
    match Solid.force_step s a je with
    | Ok a' => exists h3, body je h2 = (Ok tt, h3) /\ h ⊆ h3 /\ h3 !! Fref = Some (Vector a')
    | Err e => exists h3, body je h2 = (Err e, h3) /\ h ⊆ h3
    end).
  { intros je a h2 _ Hsub2 Ha. unfold body, Solid.force_step.
    pose proof (read_instance_mono _ _ _ _ Hsub2 Hs) as Hs2.
    rewrite run_bind, (run_snapshot self h2 s Hs2).
    rewrite run_bind, run_lift.
    destruct (Solid.global_indices s !! je.1) as [idx|]; cbn [of_option mbind result_bind];
      [|by exists h2].
    rewrite run_bind, (run_load as_vector Fref h2 a (get_lookup _ _ _ _ _ Ha eq_refl)).
    rewrite run_bind, run_lift.
    destruct (gather1 a idx.1) as [G|e]; cbn [mbind result_bind]; [|by exists h2].
    rewrite run_bind.
    pose proof (f_refines self je.1 je.2 h2 s Hs2) as Hf. unfold refines in Hf.
    destruct (Solid.f s je.1 je.2) as [fj|e]; cbn [mbind result_bind].
    - destruct Hf as (fref & h3 & -> & Hsub3 & Hffresh & Hfj).
      rewrite run_bind, (run_load as_vector fref h3 fj (get_lookup _ _ _ _ _ Hfj eq_refl)).
      rewrite run_bind,
        (run_load as_vector Fref h3 a
           (get_lookup _ _ _ _ _ (lookup_weaken _ _ _ _ Ha Hsub3) eq_refl)).
      rewrite run_store. eexists. split; [done|]. split.
      + apply store_local; [done|]. by transitivity h2.
      + apply lookup_insert_eq.
    - destruct Hf as (h3 & -> & Hsub3). exists h3. split; [done|]. by transitivity h2. }
  specialize (Hloop Hbody (alloc_subseteq h _) (lookup_insert_eq _ _ _)).
  destruct (for_each (Solid.force_step s) _ _) as [F|e].
  - destruct Hloop as (h' & -> & Hsub & HF). rewrite run_ret. by exists Fref, h'.
  - destruct Hloop as (h' & -> & Hsub). by exists h'.
Qed.

Lemma read_instance_displacements (h : heap) self s :
  read_instance h self = Some s ->
  exists i, get as_instance h self = Some i
            /\ get as_matrix h (displacements i) = Some (Solid.displacements s).
Proof.
  unfold read_instance. intros Hr.
  destruct (get as_instance h self) as [i|]; [|done]. exists i. split; [done|].
  cbn [mbind option_bind] in Hr.
  repeat match type of Hr with
         | context [get ?p h ?l] =>
             let H := fresh "Hg" in
             destruct (get p h l) eqn:H; [|by destruct (strains i)];
             cbn [mbind option_bind fmap option_fmap option_map] in *
         | context [match strains i with _ => _ end] =>
             destruct (strains i); cbn [mbind option_bind fmap option_fmap option_map] in *
         end; by injection Hr as <-.
Qed.

Lemma ravel_unravel_like (shape : list (list Qc)) (flat : list Qc) :
  length flat = length (ravel shape) -> ravel (unravel_like shape flat) = flat.
Proof.
  unfold ravel. revert flat. induction shape as [|r shape IH]; intros flat Hl; simpl in *.
  - by destruct flat.
  - rewrite length_app in Hl. rewrite IH by (rewrite length_drop; lia).
    apply take_drop.
Qed.

(** [solve] returns what the pure embedding returns and leaves every object
    of the heap it started in as it was. *)
Lemma solve_refines self (h : heap) s :
  read_instance h self = Some s ->
  refines (solve self) h (Solid.solve s) (fun r r' _ => r = r').
Proof.
  intros Hs. unfold refines, solve, solve_with, Solid.solve.
  rewrite run_bind.
  pose proof (stiffness_refines self h s Hs) as HK. unfold refines in HK.
  destruct (Solid.stiffness s) as [K|e]; cbn [mbind result_bind].
  2:{ destruct HK as (h1 & -> & Hsub1). by exists h1. }
  destruct HK as (Kref & h1 & -> & Hsub1 & HKfresh & HKref).
  pose proof (read_instance_mono _ _ _ _ Hsub1 Hs) as Hs1.
  rewrite run_bind.
  pose proof (inelastic_forces_refines self h1 s Hs1) as HF. unfold refines in HF.
  destruct (Solid.inelastic_forces s) as [F|e]; cbn [mbind result_bind].
  2:{ destruct HF as (h2 & -> & Hsub2). exists h2. split; [done|]. by transitivity h1. }
  destruct HF as (Fref & h2 & -> & Hsub2 & HFfresh & HFref).
  pose proof (read_instance_mono _ _ _ _ Hsub2 Hs1) as Hs2.
  assert (Hsub : h ⊆ h2) by (by transitivity h1).
  rewrite run_bind, (run_snapshot self h2 s Hs2).
  rewrite run_bind,
    (run_load as_matrix Kref h2 K
       (get_lookup _ _ _ _ _ (lookup_weaken _ _ _ _ HKref Hsub2) eq_refl)).
  rewrite run_bind, (run_load as_vector Fref h2 F (get_lookup _ _ _ _ _ HFref eq_refl)).
  cbv zeta. rewrite run_bind, run_lift.
  destruct (linalg_solve _ _) as [u_red|e]; cbn [mbind result_bind]; [|by exists h2].
  destruct (read_instance_displacements h2 self s Hs2) as (i & Hi & Hd).
  rewrite run_bind, (run_load as_instance self h2 i Hi).
  rewrite run_bind. unfold clone at 1.
  rewrite run_bind, (run_load as_matrix (displacements i) h2 _ Hd), run_alloc.
  set (uref := fresh (dom h2)).
  set (h3 := <[uref := Matrix (Solid.displacements s)]> h2).
  assert (Hufresh : h2 !! uref = None) by apply fresh_None.
  assert (Hu3 : h3 !! uref = Some (Matrix (Solid.displacements s)))
    by apply lookup_insert_eq.
  rewrite run_bind, (run_load as_matrix uref h3 _ (get_lookup _ _ _ _ _ Hu3 eq_refl)).
  rewrite run_bind, run_store.
  set (u := vput (ravel (Solid.displacements s)) _ u_red).
  set (h4 := <[uref := Matrix (unravel_like (Solid.displacements s) u)]> h3).
  assert (Hu4 : h4 !! uref = Some (Matrix (unravel_like (Solid.displacements s) u)))
    by apply lookup_insert_eq.
  rewrite run_bind, (run_load as_matrix uref h4 _ (get_lookup _ _ _ _ _ Hu4 eq_refl)).
  rewrite run_ret.
  rewrite ravel_unravel_like by (unfold u; by rewrite length_vput).
  eexists _, h4. split; [done|]. split; [|done].
  unfold h4, h3. rewrite insert_insert_eq. apply insert_subseteq_r; [|done].
  destruct (h !! uref) as [c|] eqn:Hc; [|done].
  by rewrite (lookup_weaken _ _ _ _ Hc Hsub) in Hufresh.
Qed.

Lemma solve_type_error self (h : heap) :
  read_instance h self = None -> solve self h = (Err TypeError, h).
Proof.
  intros Hn. unfold solve, solve_with, stiffness, snapshot.
  rewrite !run_bind. by rewrite Hn.
Qed.

(** C9. [solve] does not mutate the instance or any object its attributes
    refer to: whether it returns or raises, every object of the heap before
    the call is unchanged after it, so that the attributes [nodes],
    [elements], [forces], [displacements], [constraints], [strains], [C] and
    [global_indices] read as before; the solved values are written into the
    clone of the prescribed displacements.  What [solve] returns is what the
    pure embedding [Solid.solve] returns on the attribute values. *)
Theorem solve_does_not_mutate (self : loc) (h : heap) :
  h ⊆ (solve self h).2
  /\ read_instance (solve self h).2 self = read_instance h self
  /\ forall s, read_instance h self = Some s -> (solve self h).1 = Solid.solve s.
Proof.
  destruct (read_instance h self) as [s|] eqn:Hs.
  - pose proof (solve_refines self h s Hs) as H. unfold refines in H.
    destruct (Solid.solve s) as [r|e] eqn:Hp.
    + destruct H as (a & h' & Hrun & Hsub & ->). rewrite Hrun. simpl.
      split; [done|]. split; [by apply (read_instance_mono h)|].
      intros s' [= <-]. by rewrite Hp.
    + destruct H as (h' & Hrun & Hsub). rewrite Hrun. simpl.
      split; [done|]. split; [by apply (read_instance_mono h)|].
      intros s' [= <-]. by rewrite Hp.
  - rewrite (solve_type_error self h Hs). simpl. by split.
Qed.

End Heap.

Lemma tet_heap_instance : Imperative.read_instance tet_heap 0%nat = Some tet_strained.
Proof. vm_compute. reflexivity. Qed.

(** Without [.clone()] the solved values are written into the object that
    [self.displacements] refers to: after the call the attribute reads
    differently. *)
Lemma solve_without_clone_mutates :
  Imperative.read_instance (Imperative.solve_without_clone 0%nat tet_heap).2 0%nat
  <> Imperative.read_instance tet_heap 0%nat.
Proof.
  intros H.
  apply (f_equal (fun o => match o with
                           | Some s => map (map this) (Solid.displacements s)
                           | None => []
                           end)) in H.
  vm_compute in H. discriminate.
Qed.

Lemma solve_does_not_mutate_witness :
  tet_heap ⊆ (Imperative.solve 0%nat tet_heap).2
  /\ Imperative.read_instance (Imperative.solve 0%nat tet_heap).2 0%nat
     = Imperative.read_instance tet_heap 0%nat
  /\ (Imperative.solve 0%nat tet_heap).1 = Solid.solve tet_strained.
Proof.
  destruct (solve_does_not_mutate 0%nat tet_heap) as (H1 & H2 & H3).
  split; [exact H1|]. split; [exact H2|]. apply H3. apply tet_heap_instance.
Defined.

(** ** The index maps of the constructor *)

Lemma nth_meshgrid_fst (a b : list nat) r c :
  (r < length b)%nat -> nth c (nth r (meshgrid_xy a b).1 []) 0%nat = nth c a 0%nat.
Proof.
  intros Hr. unfold meshgrid_xy. cbn [fst].
  by rewrite (nth_map_lt _ _ _ 0%nat) by done.
Qed.

Lemma nth_meshgrid_snd (a b : list nat) r c :
  (r < length b)%nat -> (c < length a)%nat ->
  nth c (nth r (meshgrid_xy a b).2 []) 0%nat = nth r b 0%nat.
Proof.
  intros Hr Hc. unfold meshgrid_xy. cbn [snd].
  rewrite (nth_map_lt _ _ _ 0%nat) by done.
  by rewrite (nth_map_lt _ _ _ 0%nat) by done.
Qed.

(** X1. [Solid.__init__] raises IndexError on an empty element list and
    returns otherwise.  The instance has one DOF per coordinate of
    [nodes], one entry of [global_indices] per element, and the pair
    [(X, Y)] stored for an element holds in row [a] and column [b] the
    global DOF of the local DOF [b] (in [X]) and of the local DOF [a]
    (in [Y]). *)
Theorem Solid_init_index_maps (Hexa1 : element) (nodes0 : mat)
    (elements0 : list (list nat)) (forces0 displacements0 : mat)
    (constraints0 : list (list bool)) (C0 : mat) (strains0 : option mat) :
  let r := Solid.init Hexa1 nodes0 elements0 forces0 displacements0
                      constraints0 C0 strains0 in
  (elements0 = [] /\ r = Err IndexError)
  \/ (elements0 <> []
      /\ exists self,
          r = Ok self
          /\ Solid.n_dofs self = length (ravel nodes0)
          /\ Solid.n_elem self = length elements0
          /\ length (Solid.global_indices self) = length elements0
          /\ forall j e, elements0 !! j = Some e ->
               exists X Y,
                 Solid.global_indices self !! j = Some (X, Y)
                 /\ length X = (3 * length e)%nat
                 /\ length Y = (3 * length e)%nat
                 /\ forall a b, (a < 3 * length e)%nat -> (b < 3 * length e)%nat ->
                      nth b (nth a X []) 0%nat = global_dof e b
                      /\ nth b (nth a Y []) 0%nat = global_dof e a).
Proof.
  cbv zeta. unfold Solid.init. destruct elements0 as [|first rest].
  - left. done.
  - right. split; [done|]. cbn [lookup list_lookup of_option mbind result_bind].
    eexists. split; [reflexivity|]. cbn [Solid.n_dofs Solid.n_elem Solid.global_indices].
    split; [done|]. split; [done|]. split; [by rewrite length_map|].
    intros j e Hj.
    exists (meshgrid_xy (Solid.dof_indices e) (Solid.dof_indices e)).1,
           (meshgrid_xy (Solid.dof_indices e) (Solid.dof_indices e)).2.
    split; [by rewrite list_lookup_fmap, Hj|].
    split; [unfold meshgrid_xy; cbn [fst]; by rewrite length_map, length_dof_indices|].
    split; [unfold meshgrid_xy; cbn [snd]; by rewrite length_map, length_dof_indices|].
    intros a b Ha Hb. unfold global_dof.
    rewrite nth_meshgrid_fst, nth_meshgrid_snd
      by (rewrite length_dof_indices; done).
    by rewrite !nth_dof_indices by done.
Qed.

(** ** Rigid translations in any direction *)

Lemma tr_3 t a i : (i < 3)%nat -> tr t (3 * a + i) = vnth t i.
Proof.
  intros Hi. unfold tr. f_equal.
  rewrite Nat.add_comm, Nat.mul_comm, Nat.Div0.mod_add. by apply Nat.mod_small.
Qed.

Lemma tr_dof_indices t e r :
  (r < 3 * length e)%nat -> tr t (nth r (Solid.dof_indices e) 0%nat) = tr t r.
Proof.
  intros Hr. rewrite nth_dof_indices by done.
  rewrite tr_3 by (apply Nat.mod_upper_bound; lia). done.
Qed.

Lemma vnth_translation t n q : (q < n)%nat -> vnth (translation t n) q = tr t q.
Proof. intros Hq. unfold translation, vnth. by rewrite nth_map_seq. Qed.

Lemma length_translation t n : length (translation t n) = n.
Proof. unfold translation. by rewrite length_map, length_seq. Qed.

(** Every row of the strain operator annihilates a translation. *)
Lemma strain_rows_tr et nodes0 q t s :
  element_ok et -> partition_of_unity et -> (s < 6)%nat ->
  sumn (3 * et_nodes et)
       (fun r => entry (D_rows (et_nodes et) (gradients et nodes0 q)) s r * tr t r) = 0.
Proof.
  intros Hok Hpu Hs. set (n := et_nodes et). set (B := gradients et nodes0 q).
  pose proof (is_mat_gradients et nodes0 q Hok) as HB. fold B n in HB.
  assert (HBrow : forall i, (i < 3)%nat -> length (nth i B []) = n)
    by (intros i Hi; by apply (is_mat_row 3 n)).
  assert (Hsum : forall i, (i < 3)%nat -> sumn n (fun a => vnth (nth i B []) a) = 0)
    by (intros i Hi; by apply (gradients_rowsum et nodes0 q i)).
  assert (Hz : sumn n (fun a => vnth (zeros n) a) = 0).
  { rewrite (sumn_ext n _ (fun _ => 0)), sumn_zero; [done|].
    intros a _. apply vnth_zeros. }
  rewrite sumn_3.
  assert (Hrow : forall (v0 v1 v2 : list Qc),
            length v0 = n -> length v1 = n -> length v2 = n ->
            sumn n (fun a =>
              vnth (Solid.stack_ravel [v0; v1; v2]) (3 * a) * tr t (3 * a)
              + vnth (Solid.stack_ravel [v0; v1; v2]) (3 * a + 1) * tr t (3 * a + 1)
              + vnth (Solid.stack_ravel [v0; v1; v2]) (3 * a + 2) * tr t (3 * a + 2))
            = sumn n (fun a => vnth v0 a) * vnth t 0
              + sumn n (fun a => vnth v1 a) * vnth t 1
              + sumn n (fun a => vnth v2 a) * vnth t 2).
  { intros v0 v1 v2 Hl0 Hl1 Hl2. rewrite !sumn_mul_r, <- !sumn_plus.
    apply sumn_ext. intros a Ha.
    replace (3 * a)%nat with (3 * a + 0)%nat at 1 2 by lia.
    rewrite !tr_3 by lia. rewrite !vnth_stack_ravel by (rewrite ?Hl0; lia).
    simpl. ring. }
  unfold entry, D_rows. cbv zeta.
  destruct s as [|[|[|[|[|[|s]]]]]]; try lia; cbn [nth];
    rewrite Hrow by (rewrite ?length_zeros; auto);
    rewrite ?Hz, ?Hsum by lia; ring.
Qed.

(** A translation is a left and a right null vector of the integrand of
    the element stiffness. *)
Lemma k_integrand_tr et C0 nodes0 wq t c :
  element_ok et -> partition_of_unity et -> is_mat 6 6 C0 ->
  sumn (3 * et_nodes et) (fun r => entry (k_integrand et C0 nodes0 wq) r c * tr t r) = 0
  /\ sumn (3 * et_nodes et) (fun r => entry (k_integrand et C0 nodes0 wq) c r * tr t r) = 0.
Proof.
  intros Hok Hpu HC. set (m := (3 * et_nodes et)%nat).
  pose proof (is_mat_k_integrand et C0 nodes0 wq Hok) as HT. fold m in HT.
  destruct (decide (c < m)%nat) as [Hc|Hc].
  2:{ split; (rewrite (sumn_ext m _ (fun _ => 0)), sumn_zero; [done|]); intros r _.
      - rewrite (entry_col_ge m m) by (done || lia). ring.
      - rewrite entry_row_ge by (rewrite (proj1 HT); lia). ring. }
  set (Dm := D_rows (et_nodes et) (gradients et nodes0 wq.2)).
  pose proof (is_mat_strain_rows et nodes0 wq.2 Hok) as HD. fold Dm m in HD.
  split.
  - transitivity (sumn m (fun r =>
      sumn 6 (fun s => sumn 6 (fun u =>
        wq.1 * entry C0 u s * entry Dm s c * det (jacobian et nodes0 wq.2)
        * (entry Dm u r * tr t r))))).
    { apply sumn_ext. intros r Hr. unfold k_integrand. cbv zeta. fold Dm.
      rewrite (entry_integrand 6 m) by (done || lia).
      rewrite !sumn_mul_r. apply sumn_ext. intros s _.
      rewrite !sumn_mul_r. apply sumn_ext. intros u _. ring. }
    rewrite sumn_exchange.
    rewrite (sumn_ext 6 _ (fun _ => 0)), sumn_zero; [done|]. intros s _.
    rewrite sumn_exchange.
    rewrite (sumn_ext 6 _ (fun _ => 0)), sumn_zero; [done|]. intros u Hu.
    rewrite <- sumn_mul_l.
    unfold Dm, m. rewrite (strain_rows_tr et nodes0 wq.2 t u Hok Hpu Hu). ring.
  - transitivity (sumn m (fun r =>
      sumn 6 (fun s => sumn 6 (fun u =>
        wq.1 * entry C0 u s * entry Dm u c * det (jacobian et nodes0 wq.2)
        * (entry Dm s r * tr t r))))).
    { apply sumn_ext. intros r Hr. unfold k_integrand. cbv zeta. fold Dm.
      rewrite (entry_integrand 6 m) by (done || lia).
      rewrite !sumn_mul_r. apply sumn_ext. intros s _.
      rewrite !sumn_mul_r. apply sumn_ext. intros u _. ring. }
    rewrite sumn_exchange.
    rewrite (sumn_ext 6 _ (fun _ => 0)), sumn_zero; [done|]. intros s Hs.
    rewrite sumn_exchange.
    rewrite (sumn_ext 6 _ (fun _ => 0)), sumn_zero; [done|]. intros u _.
    rewrite <- sumn_mul_l.
    unfold Dm, m. rewrite (strain_rows_tr et nodes0 wq.2 t s Hok Hpu Hs). ring.
Qed.

Lemma k_tr self et j kj t c :
  Solid.etype self = Some et -> element_ok et -> partition_of_unity et ->
  is_mat 6 6 (Solid.C self) ->
  Solid.k self j = Ok kj ->
  sumn (3 * et_nodes et) (fun r => entry kj r c * tr t r) = 0
  /\ sumn (3 * et_nodes et) (fun r => entry kj c r * tr t r) = 0.
Proof.
  intros Het Hok Hpu HC. unfold Solid.k, Solid.get_etype.
  destruct (Solid.elements self !! j) as [e|]; [|done].
  cbn [mbind result_bind of_option].
  destruct (gather_rows (Solid.nodes self) e) as [nodes0|]; [|done].
  rewrite Het. cbn [mbind result_bind of_option]. intros Hk.
  set (m := (3 * et_nodes et)%nat) in *.
  assert (H : is_mat m m kj
              /\ sumn m (fun r => entry kj r c * tr t r) = 0
              /\ sumn m (fun r => entry kj c r * tr t r) = 0);
    [|by destruct H].
  eapply (for_each_inv _ (fun a => is_mat m m a
                                   /\ sumn m (fun r => entry a r c * tr t r) = 0
                                   /\ sumn m (fun r => entry a c r * tr t r) = 0));
    [| split; [apply is_mat_zeros2|] | exact Hk].
  - intros a wq a' (Ha & Hl & Hr). rewrite (k_step_unfold self et) by done.
    destruct (Qc_leb _ _); [done|]. intros [= <-].
    pose proof (is_mat_k_integrand et (Solid.C self) nodes0 wq Hok) as HT.
    destruct (k_integrand_tr et (Solid.C self) nodes0 wq t c Hok Hpu HC) as [Il Ir].
    split; [by apply is_mat_madd|]. split.
    + rewrite (sumn_ext m _ (fun r => entry a r c * tr t r
                 + entry (k_integrand et (Solid.C self) nodes0 wq) r c * tr t r)).
      * rewrite sumn_plus, Hl. unfold m. rewrite Il. ring.
      * intros r _. rewrite (entry_madd m m) by done. ring.
    + rewrite (sumn_ext m _ (fun r => entry a c r * tr t r
                 + entry (k_integrand et (Solid.C self) nodes0 wq) c r * tr t r)).
      * rewrite sumn_plus, Hr. unfold m. rewrite Ir. ring.
      * intros r _. rewrite (entry_madd m m) by done. ring.
  - split; (rewrite (sumn_ext m _ (fun _ => 0)), sumn_zero; [done|]);
      intros r _; rewrite entry_zeros2; ring.
Qed.

(** The assembled stiffness has every translation as a right and as a left
    null vector. *)
Lemma stiffness_tr self et K t :
  well_formed self et -> partition_of_unity et -> is_mat 6 6 (Solid.C self) ->
  Forall NoDup (Solid.elements self) ->
  Solid.stiffness self = Ok K ->
  forall p, sumn (Solid.n_dofs self) (fun q => entry K p q * tr t q) = 0
            /\ sumn (Solid.n_dofs self) (fun q => entry K q p * tr t q) = 0.
Proof.
  intros Hwf Hpu HC Hnd HK. set (n := Solid.n_dofs self).
  assert (H : is_mat n n K
              /\ forall p, sumn n (fun q => entry K p q * tr t q) = 0
                           /\ sumn n (fun q => entry K q p * tr t q) = 0);
    [|by destruct H].
  eapply (for_each_inv _ (fun a => is_mat n n a
                            /\ forall p, sumn n (fun q => entry a p q * tr t q) = 0
                                         /\ sumn n (fun q => entry a q p * tr t q) = 0));
    [| split; [apply is_mat_zeros2|] | exact HK].
  - intros a j a' [Ha Hs].
    destruct (Solid.elements self !! j) as [e|] eqn:Hj.
    2:{ unfold Solid.stiffness_step.
        by rewrite (wf_indices _ _ Hwf), list_lookup_fmap, Hj. }
    rewrite (stiffness_step_unfold self et a j e) by done.
    destruct (Solid.k self j) as [kj|] eqn:Hk; [|done]. intros [= <-].
    destruct (wf_element_at self et j e Hwf Hj) as [Harity Hrange].
    destruct (k_shape self et j kj (wf_etype _ _ Hwf) (wf_element _ _ Hwf) Hk)
      as [Hkj _].
    assert (Hidx : Forall (fun i => (i < n)%nat) (Solid.dof_indices e)).
    { unfold n. rewrite (wf_dofs self et Hwf). by apply dof_indices_in_range. }
    assert (Hlen : length (Solid.dof_indices e) = (3 * et_nodes et)%nat)
      by (by rewrite length_dof_indices, Harity).
    assert (Hend : NoDup (Solid.dof_indices e)).
    { apply NoDup_dof_indices. by apply (Forall_lookup_1 _ _ _ _ Hnd Hj). }
    split; [by apply is_mat_scatter_add|]. intros p0.
    destruct (Hs p0) as [Hs1 Hs2]. split.
    + rewrite (sumn_ext n _ (fun q => entry a p0 q * tr t q
        + match lastpos (Solid.dof_indices e) q with
          | Some r =>
              match lastpos (Solid.dof_indices e) p0 with
              | Some c => entry kj r c
              | None => 0
              end * tr t q
          | None => 0
          end)).
      2:{ intros q _. rewrite (entry_scatter_add n) by (done || by rewrite Hlen).
          destruct (lastpos (Solid.dof_indices e) q); ring. }
      rewrite sumn_plus, Hs1.
      rewrite (sumn_lastpos n (Solid.dof_indices e)
                 (fun r q => match lastpos (Solid.dof_indices e) p0 with
                             | Some c => entry kj r c
                             | None => 0
                             end * tr t q)) by done.
      rewrite Hlen.
      destruct (lastpos (Solid.dof_indices e) p0) as [c|].
      * rewrite (sumn_ext _ _ (fun r => entry kj r c * tr t r)).
        -- rewrite (proj1 (k_tr self et j kj t c (wf_etype _ _ Hwf)
                             (wf_element _ _ Hwf) Hpu HC Hk)). ring.
        -- intros r Hr. rewrite tr_dof_indices; [done|]. rewrite Harity. done.
      * rewrite (sumn_ext _ _ (fun _ => 0)), sumn_zero; [ring|]. intros r _. ring.
    + rewrite (sumn_ext n _ (fun q => entry a q p0 * tr t q
        + match lastpos (Solid.dof_indices e) q with
          | Some c =>
              match lastpos (Solid.dof_indices e) p0 with
              | Some r => entry kj r c
              | None => 0
              end * tr t q
          | None => 0
          end)).
      2:{ intros q _. rewrite (entry_scatter_add n) by (done || by rewrite Hlen).
          destruct (lastpos (Solid.dof_indices e) q),
                   (lastpos (Solid.dof_indices e) p0); ring. }
      rewrite sumn_plus, Hs2.
      rewrite (sumn_lastpos n (Solid.dof_indices e)
                 (fun c q => match lastpos (Solid.dof_indices e) p0 with
                             | Some r => entry kj r c
                             | None => 0
                             end * tr t q)) by done.
      rewrite Hlen.
      destruct (lastpos (Solid.dof_indices e) p0) as [r|].
      * rewrite (sumn_ext _ _ (fun c => entry kj r c * tr t c)).
        -- rewrite (proj2 (k_tr self et j kj t r (wf_etype _ _ Hwf)
                             (wf_element _ _ Hwf) Hpu HC Hk)). ring.
        -- intros c Hc. rewrite tr_dof_indices; [done|]. rewrite Harity. done.
      * rewrite (sumn_ext _ _ (fun _ => 0)), sumn_zero; [ring|]. intros r _. ring.
  - intros p0. split; (rewrite (sumn_ext n _ (fun _ => 0)), sumn_zero; [done|]);
      intros q _; rewrite entry_zeros2; ring.
Qed.

Lemma two_tets_well_formed load S : well_formed (two_tets load S) Tetra1.
Proof.
  split; try reflexivity.
  - apply Tetra1_ok.
  - by repeat constructor.
  - by repeat constructor.
  - unfold nodes_in_range. repeat constructor; simpl; lia.
Qed.

Lemma two_tets_boundary_ok load S :
  length load = 3%nat -> boundary_ok (two_tets load S).
Proof. intros Hl. split; by repeat constructor. Qed.

Lemma two_tets_NoDup load S : Forall NoDup (Solid.elements (two_tets load S)).
Proof. apply (bool_decide_unpack _). vm_compute. reflexivity. Qed.

Lemma matvec_sumn_zero n (K : mat) (x : vec) :
  is_mat n n K -> length x = n ->
  (forall p, sumn n (fun q => entry K p q * vnth x q) = 0) ->
  matvec K x = zeros n.
Proof.
  intros HK Hx Hs. apply (nth_ext _ _ 0 0).
  - by rewrite length_matvec, length_zeros, (proj1 HK).
  - intros p Hp. rewrite length_matvec, (proj1 HK) in Hp.
    change (vnth (matvec K x) p = vnth (zeros n) p).
    rewrite vnth_zeros, vnth_matvec by (by rewrite (proj1 HK)).
    rewrite (dot_sumn _ _ n); [| by apply (is_mat_row n n) | done].
    apply Hs.
Qed.

(** X2. The assembled stiffness matrix maps every rigid translation to
    zero, from the right and from the left, and so does every element
    stiffness matrix, whenever the shape functions of the element class sum
    to one and no element repeats a node. *)
Theorem stiffness_annihilates_translations (self : Solid.t) (et : element)
    (K : mat) (t : vec) :
  well_formed self et -> partition_of_unity et -> is_mat 6 6 (Solid.C self) ->
  Forall NoDup (Solid.elements self) ->
  Solid.stiffness self = Ok K ->
  matvec K (translation t (Solid.n_dofs self)) = zeros (Solid.n_dofs self)
  /\ matvec (transpose K) (translation t (Solid.n_dofs self))
     = zeros (Solid.n_dofs self)
  /\ forall j kj, Solid.k self j = Ok kj ->
       matvec kj (translation t (3 * et_nodes et)) = zeros (3 * et_nodes et).
Proof.
  intros Hwf Hpu HC Hnd HK.
  pose proof (stiffness_shape self K HK) as HKs.
  pose proof (stiffness_tr self et K t Hwf Hpu HC Hnd HK) as Hs.
  set (n := Solid.n_dofs self) in *.
  split; [|split].
  - apply matvec_sumn_zero; [done | apply length_translation |].
    intros p. rewrite <- (proj1 (Hs p)). apply sumn_ext. intros q Hq.
    by rewrite vnth_translation.
  - destruct (decide (n = 0)%nat) as [Hn|Hn].
    { apply (nth_ext _ _ 0 0).
      - rewrite length_matvec, length_transpose, length_zeros.
        destruct HKs as [HKl _]. rewrite Hn in *. by destruct K.
      - intros p. rewrite length_matvec, length_transpose.
        destruct HKs as [HKl _]. rewrite Hn in *. destruct K; simpl; [lia|done]. }
    assert (Hnc : ncols K = n) by (apply (is_mat_ncols n n); [done | lia]).
    pose proof (is_mat_transpose K) as HT. rewrite Hnc, (proj1 HKs) in HT.
    apply matvec_sumn_zero; [done | apply length_translation |].
    intros p. destruct (decide (p < n)%nat) as [Hp|Hp].
    + rewrite <- (proj2 (Hs p)). apply sumn_ext. intros q Hq.
      rewrite vnth_translation by done. by rewrite entry_transpose by lia.
    + rewrite (sumn_ext n _ (fun _ => 0)), sumn_zero; [done|]. intros q _.
      rewrite entry_row_ge by (rewrite (proj1 HT); lia). ring.
  - intros j kj Hk.
    destruct (k_shape self et j kj (wf_etype _ _ Hwf) (wf_element _ _ Hwf) Hk)
      as [Hkj _].
    apply matvec_sumn_zero; [done | apply length_translation |].
    intros p.
    rewrite <- (proj2 (k_tr self et j kj t p (wf_etype _ _ Hwf)
                         (wf_element _ _ Hwf) Hpu HC Hk)).
    apply sumn_ext. intros q Hq. by rewrite vnth_translation.
Qed.

Lemma stiffness_annihilates_translations_witness :
  exists K,
    Solid.stiffness (two_tets [0; 0; 1] None) = Ok K
    /\ matvec K (translation [1; half; - (1)] 15) = zeros 15
    /\ matvec (transpose K) (translation [1; half; - (1)] 15) = zeros 15.
Proof.
  destruct (Solid.stiffness (two_tets [0; 0; 1] None)) as [K|] eqn:HK;
    [|exfalso; revert HK; vm_compute; discriminate].
  exists K. split; [reflexivity|].
  destruct (stiffness_annihilates_translations (two_tets [0; 0; 1] None) Tetra1 K
              [1; half; - (1)] (two_tets_well_formed _ _) Tetra1_partition_of_unity
              is_mat_C_iso (two_tets_NoDup _ _) HK) as (H1 & H2 & _).
  split; [exact H1 | exact H2].
Defined.

(** The sum over the nodes of one component of a reshaped DOF vector. *)
Lemma resultant_reshape3 n (v : vec) i :
  length v = (3 * n)%nat -> (i < 3)%nat ->
  resultant (reshape3 n v) i = sumn n (fun a => vnth v (3 * a + i)).
Proof.
  revert v. induction n as [|n IH]; intros v Hv Hi; [done|].
  rewrite sumn_shift. cbn [reshape3]. unfold resultant in *. cbn [col map vsum foldr].
  change (foldr Qcplus 0 (map (fun r => vnth r i) (reshape3 n (drop 3 v))))
    with (vsum (col i (reshape3 n (drop 3 v)))).
  rewrite IH by (rewrite ?length_drop; lia). f_equal.
  - unfold vnth. destruct v as [|x0 [|x1 [|x2 v]]]; simpl in Hv; try lia.
    destruct i as [|[|[|i]]]; try lia; reflexivity.
  - apply sumn_ext. intros a _. unfold vnth.
    destruct v as [|x0 [|x1 [|x2 v]]]; simpl in Hv; try lia.
    replace (3 * S a + i)%nat with (S (S (S (3 * a + i)))) by lia. reflexivity.
Qed.

Lemma sumn_component n (v : vec) i :
  (i < 3)%nat ->
  sumn n (fun a => vnth v (3 * a + i))
  = sumn (3 * n) (fun p => vnth v p * tr (<[i := 1]> (zeros 3)) p).
Proof.
  intros Hi. rewrite sumn_3. apply sumn_ext. intros a _.
  replace (3 * a)%nat with (3 * a + 0)%nat at 2 3 by lia.
  rewrite !tr_3 by lia.
  destruct i as [|[|[|i]]]; try lia; cbn; ring.
Qed.

(** X3. The nodal forces that [solve] returns are in global equilibrium:
    in each coordinate direction the reactions and the loads sum to zero
    over the nodes. *)
Theorem solve_forces_in_equilibrium (self : Solid.t) (et : element) (u f : mat) :
  well_formed self et -> partition_of_unity et -> is_mat 6 6 (Solid.C self) ->
  Forall NoDup (Solid.elements self) -> boundary_ok self ->
  Solid.solve self = Ok (u, f) ->
  forall i, (i < 3)%nat -> resultant f i = 0.
Proof.
  intros Hwf Hpu HC Hnd Hbc Hsolve i Hi.
  destruct (solve_inv self u f Hbc Hsolve) as (K & F & u_red & HK & HF & Hred & Hu & Hf).
  pose proof (stiffness_shape self K HK) as HKs.
  pose proof (wf_dofs self et Hwf) as Hn.
  set (N := length (Solid.nodes self)) in *.
  assert (Hlu : length (ravel u) = (3 * N)%nat).
  { rewrite Hu, length_vput, (length_ravel_3 _ (bc_displacements _ Hbc)).
    rewrite (bc_displacements_len _ Hbc). done. }
  assert (Hlf : length (matvec K (ravel u)) = (3 * N)%nat)
    by (rewrite length_matvec, (proj1 HKs); done).
  assert (Hfeq : f = reshape3 N (matvec K (ravel u))).
  { pose proof Hsolve as Hs'. rewrite (solve_unfold self K F HK HF) in Hs'.
    cbv zeta in Hs'.
    rewrite source_reduced_stiffness,
      (source_reduced_load self K F Hbc HKs (inelastic_forces_shape self F HF)),
      Hred in Hs'.
    assert (E : forall a b c d : mat,
               Ok (a, b) = Ok (c, d) :> result (mat * mat) -> b = d)
      by (intros; congruence).
    apply E in Hs'. rewrite <- Hs', Hu.
    by rewrite length_matvec, (proj1 HKs), Hn, div3. }
  rewrite Hfeq, resultant_reshape3 by done.
  rewrite sumn_component by done.
  set (t := <[i := 1]> (zeros 3)).
  rewrite <- Hn.
  rewrite (sumn_ext _ _ (fun p =>
             sumn (Solid.n_dofs self) (fun q => entry K p q * tr t p * vnth (ravel u) q))).
  2:{ intros p Hp. rewrite vnth_matvec by (by rewrite (proj1 HKs)).
      rewrite (dot_sumn _ _ (Solid.n_dofs self));
        [| by apply (is_mat_row _ _ _ _ HKs) | by rewrite Hlu, Hn].
      rewrite sumn_mul_r. apply sumn_ext. intros q _. unfold entry. ring. }
  rewrite sumn_exchange.
  rewrite (sumn_ext _ _ (fun _ => 0)), sumn_zero; [done|]. intros q _.
  rewrite <- sumn_mul_r.
  rewrite (proj2 (stiffness_tr self et K t Hwf Hpu HC Hnd HK q)). ring.
Qed.

Lemma solve_forces_in_equilibrium_witness :
  exists u f,
    Solid.solve (two_tets [0; 0; 1] None) = Ok (u, f)
    /\ resultant f 0 = 0 /\ resultant f 1 = 0 /\ resultant f 2 = 0.
Proof.
  destruct (Solid.solve (two_tets [0; 0; 1] None)) as [[u f]|] eqn:Hs;
    [|exfalso; revert Hs; vm_compute; discriminate].
  exists u, f. split; [reflexivity|].
  pose proof (solve_forces_in_equilibrium (two_tets [0; 0; 1] None) Tetra1 u f
                (two_tets_well_formed _ _) Tetra1_partition_of_unity is_mat_C_iso
                (two_tets_NoDup _ _) (two_tets_boundary_ok [0; 0; 1] None eq_refl) Hs) as H.
  repeat split; apply H; lia.
Defined.

(** ** The volume query *)

Lemma vsum_zip_sumn (g : Qc -> vec -> Qc) (ws : vec) (qs : list vec) :
  vsum (map (fun wq => g wq.1 wq.2) (zip ws qs))
  = sumn (Nat.min (length ws) (length qs)) (fun i => g (nth i ws 0) (nth i qs [])).
Proof.
  revert qs. induction ws as [|w ws IH]; intros [|q qs]; try reflexivity.
  cbn [zip zip_with map length Nat.min]. rewrite sumn_shift.
  cbn [nth]. rewrite <- IH. reflexivity.
Qed.

(** The sum the loop accumulates is the sum over the positions of the rule. *)
Lemma quadrature_volume_sum et nodes0 :
  quadrature_volume et nodes0 = quadrature_sum et nodes0.
Proof.
  unfold quadrature_volume, quadrature_sum, Solid.quadrature.
  apply (vsum_zip_sumn (fun w q => w * det (matmul (et_B et q) nodes0))).
Qed.

Lemma volumes_quadrature_sums self et :
  well_formed self et ->
  Solid.n_elem self = length (Solid.elements self) ->
  Solid.volumes self
  = Ok (map (fun e => quadrature_sum et (node_coordinates (Solid.nodes self) e))
            (Solid.elements self)).
Proof.
  intros Hwf Hn.
  rewrite (volumes_ok self et (wf_etype _ _ Hwf) Hn (wf_range _ _ Hwf)).
  f_equal. apply map_ext. intros e. apply quadrature_volume_sum.
Qed.

(** C8. On a mesh whose elements have the arity of the element class and
    refer to existing nodes of three coordinates, [volumes] returns for
    every element the quadrature sum of [w * det(B_ref(q) @ nodeCoordinates)];
    neither the constitutive tensor nor the inelastic strains enter, and the
    strain operator is not used: replacing them leaves the result
    unchanged. *)
Theorem volumes_is_quadrature_of_detJ (self : Solid.t) (et : element) :
  well_formed self et ->
  Solid.n_elem self = length (Solid.elements self) ->
  Solid.volumes self
  = Ok (map (fun e => quadrature_sum et (node_coordinates (Solid.nodes self) e))
            (Solid.elements self))
  /\ forall C0 strains0,
       Solid.volumes (with_material self C0 strains0) = Solid.volumes self.
Proof.
  intros Hwf Hn. split.
  - by apply volumes_quadrature_sums.
  - intros C0 strains0. apply volumes_with_material.
Qed.

Lemma volumes_is_quadrature_of_detJ_witness :
  let self := two_tets [0; 0; 1] None in
  Solid.volumes self
  = Ok (map (fun e => quadrature_sum Tetra1 (node_coordinates (Solid.nodes self) e))
            (Solid.elements self))
  /\ forall C0 strains0,
       Solid.volumes (with_material self C0 strains0) = Solid.volumes self.
Proof.
  apply (volumes_is_quadrature_of_detJ (two_tets [0; 0; 1] None) Tetra1);
    [apply two_tets_well_formed | reflexivity].
Defined.

(** C10. [volumes] never raises the negative-Jacobian exception; on a mesh
    whose elements have the arity of the element class and refer to existing
    nodes of three coordinates it returns one value per element, whatever
    the sign of the Jacobian determinants. *)
Theorem volumes_has_no_jacobian_guard (self : Solid.t) :
  Solid.volumes self <> Err NegativeJacobian
  /\ (forall et,
        well_formed self et ->
        Solid.n_elem self = length (Solid.elements self) ->
        exists vols, Solid.volumes self = Ok vols
                     /\ length vols = length (Solid.elements self)).
Proof.
  split.
  - intros H. apply volumes_err in H. destruct H; discriminate.
  - intros et Hwf Hn. eexists. split; [by apply (volumes_quadrature_sums self et)|].
    by rewrite length_map.
Qed.

Lemma volumes_has_no_jacobian_guard_witness :
  Solid.volumes inverted_solid <> Err NegativeJacobian
  /\ (exists vols, Solid.volumes inverted_solid = Ok vols
                   /\ length vols = length (Solid.elements inverted_solid))
  /\ Solid.volumes inverted_solid = Ok [- Q2Qc (1 # 6)]
  /\ Solid.k inverted_solid 0 = Err NegativeJacobian.
Proof.
  destruct (volumes_has_no_jacobian_guard inverted_solid) as [Hne Hok].
  split; [exact Hne|]. split.
  - apply (Hok Tetra1); [apply inverted_well_formed | reflexivity].
  - apply inverted_solid_volumes.
Defined.

(** ** The entries of the assembled stiffness *)

(** For an index list without repetition the last position is the only
    one, and the contribution of a scatter-add is a sum over the pairs of
    positions. *)
Lemma lastpos_pair_indicator idx (g : nat -> nat -> Qc) p q :
  NoDup idx ->
  match lastpos idx q, lastpos idx p with
  | Some r, Some c => g r c
  | _, _ => 0
  end
  = sumn (length idx) (fun a =>
      sumn (length idx) (fun b =>
        if decide (nth b idx 0%nat = p /\ nth a idx 0%nat = q) then g a b else 0)).
Proof.
  intros Hnd.
  assert (Huniq : forall i j, (i < length idx)%nat -> (j < length idx)%nat ->
                              nth i idx 0%nat = nth j idx 0%nat -> i = j)
    by (apply NoDup_nth; by apply NoDup_ListNoDup).
  assert (Hin : forall i x, (i < length idx)%nat -> nth i idx 0%nat = x -> x ∈ idx)
    by (intros i x Hi <-; by apply list_elem_of_In, nth_In).
  destruct (lastpos idx q) as [r|] eqn:Hq.
  - apply lastpos_Some in Hq as [Hr Hqr].
    destruct (lastpos idx p) as [c|] eqn:Hp.
    + apply lastpos_Some in Hp as [Hc Hpc].
      rewrite (sumn_ext _ _ (fun a => if decide (r = a) then g a c else 0)).
      * by rewrite sumn_indicator.
      * intros a Ha. destruct (decide (r = a)) as [<-|Hne].
        -- rewrite (sumn_ext _ _ (fun b => if decide (c = b) then g r b else 0)).
           ++ by rewrite sumn_indicator.
           ++ intros b Hb. destruct (decide (c = b)) as [<-|Hne].
              ** by rewrite decide_True.
              ** rewrite decide_False; [done|]. intros [Hb' _]. apply Hne.
                 apply Huniq; congruence.
        -- rewrite (sumn_ext _ _ (fun _ => 0)), sumn_zero; [done|].
           intros b _. rewrite decide_False; [done|]. intros [_ Ha']. apply Hne.
           apply Huniq; congruence.
    + apply lastpos_None in Hp.
      rewrite (sumn_ext _ _ (fun _ => 0)), sumn_zero; [done|]. intros a _.
      rewrite (sumn_ext _ _ (fun _ => 0)), sumn_zero; [done|]. intros b Hb.
      rewrite decide_False; [done|]. intros [Hb' _]. apply Hp. by apply (Hin b).
  - apply lastpos_None in Hq.
    rewrite (sumn_ext _ _ (fun _ => 0)), sumn_zero; [done|]. intros a Ha.
    rewrite (sumn_ext _ _ (fun _ => 0)), sumn_zero; [done|]. intros b _.
    rewrite decide_False; [done|]. intros [_ Ha']. apply Hq. by apply (Hin a).
Qed.

Lemma scatter_add_contribution n K e kj p q :
  is_mat n n K -> Forall (fun i => (i < n)%nat) (Solid.dof_indices e) ->
  is_mat (3 * length e) (3 * length e) kj -> NoDup e ->
  entry (scatter_add K (Solid.dof_indices e) kj) p q
  = entry K p q + element_contribution e kj p q.
Proof.
  intros HK Hidx Hkj Hnd.
  rewrite (entry_scatter_add n) by (rewrite ?length_dof_indices; done).
  f_equal. rewrite (lastpos_pair_indicator _ (fun a b => entry kj a b))
    by (by apply NoDup_dof_indices).
  unfold element_contribution. rewrite length_dof_indices.
  apply sumn_ext. intros a Ha. apply sumn_ext. intros b Hb.
  unfold global_dof. by rewrite !nth_dof_indices by done.
Qed.

Lemma sumn_S_shift n (f : nat -> Qc) : sumn (S n) f = f 0%nat + sumn n (fun k => f (S k)).
Proof. apply sumn_shift. Qed.

(** The assembly loop from element [s] on. *)
Lemma stiffness_loop_entries self et m :
  well_formed self et -> Forall NoDup (Solid.elements self) ->
  forall s K0 K, (s + m <= length (Solid.elements self))%nat ->
  is_mat (Solid.n_dofs self) (Solid.n_dofs self) K0 ->
  for_each (Solid.stiffness_step self) (seq s m) K0 = Ok K ->
  (forall i, (i < m)%nat -> exists kj, Solid.k self (s + i) = Ok kj)
  /\ forall p q,
       entry K p q
       = entry K0 p q
         + sumn m (fun i =>
             element_contribution (nth (s + i) (Solid.elements self) [])
                                  (k_of self (s + i)) p q).
Proof.
  intros Hwf Hnd. induction m as [|m IH]; intros s K0 K Hsm HK0.
  - cbn [seq for_each sumn]. intros [= <-]. split; [intros i Hi; lia|].
    intros p q. ring.
  - cbn [seq for_each].
    destruct (nth_lookup_or_length (Solid.elements self) s []) as [Hs|?]; [|lia].
    set (e := nth s (Solid.elements self) []) in *.
    rewrite (stiffness_step_unfold self et K0 s e) by done.
    destruct (Solid.k self s) as [kj|] eqn:Hk; [|done].
    destruct (wf_element_at self et s e Hwf Hs) as [Harity Hrange].
    destruct (k_shape self et s kj (wf_etype _ _ Hwf) (wf_element _ _ Hwf) Hk)
      as [Hkj _].
    assert (Hidx : Forall (fun i => (i < Solid.n_dofs self)%nat) (Solid.dof_indices e)).
    { rewrite (wf_dofs self et Hwf). by apply dof_indices_in_range. }
    intros Hloop.
    destruct (IH (S s) _ K ltac:(lia) (is_mat_scatter_add _ K0 (Solid.dof_indices e) kj HK0)
                 Hloop) as [Hks Hent].
    split.
    + intros [|i] Hi.
      * replace (s + 0)%nat with s by lia. by exists kj.
      * replace (s + S i)%nat with (S s + i)%nat by lia. apply Hks. lia.
    + intros p q. rewrite Hent, sumn_S_shift.
      rewrite (scatter_add_contribution (Solid.n_dofs self));
        [| done | done | by rewrite Harity | by apply (Forall_lookup_1 _ _ _ _ Hnd Hs)].
      replace (s + 0)%nat with s by lia. fold e.
      unfold k_of at 2. rewrite Hk.
      rewrite (sumn_ext m _ (fun i =>
        element_contribution (nth (s + S i) (Solid.elements self) [])
                             (k_of self (s + S i)) p q)).
      * ring.
      * intros i _. by replace (s + S i)%nat with (S s + i)%nat by lia.
Qed.

(** X4. Assembly: when no element repeats a node, [stiffness] returns the
    sum of the element contributions; element [j] adds the entry
    [(a, b)] of [k(j)] at the row of the global DOF of [b] and the column
    of the global DOF of [a].  Every [k(j)] has returned. *)
Theorem stiffness_assembles (self : Solid.t) (et : element) (K : mat) :
  well_formed self et -> Forall NoDup (Solid.elements self) ->
  Solid.stiffness self = Ok K ->
  (forall j, (j < length (Solid.elements self))%nat ->
             exists kj, Solid.k self j = Ok kj)
  /\ forall p q,
       entry K p q
       = sumn (length (Solid.elements self)) (fun j =>
           element_contribution (nth j (Solid.elements self) []) (k_of self j) p q).
Proof.
  intros Hwf Hnd HK.
  destruct (stiffness_loop_entries self et (length (Solid.elements self)) Hwf Hnd
              0%nat _ K ltac:(lia) (is_mat_zeros2 _ _) HK) as [Hks Hent].
  split; [exact Hks|]. intros p q. rewrite Hent, entry_zeros2.
  cbn [Nat.add]. ring.
Qed.

Lemma stiffness_assembles_witness :
  exists K,
    Solid.stiffness (two_tets [0; 0; 1] None) = Ok K
    /\ forall p q,
         entry K p q
         = sumn 2 (fun j =>
             element_contribution (nth j [[0; 1; 2; 3]; [1; 2; 3; 4]]%nat [])
                                  (k_of (two_tets [0; 0; 1] None) j) p q).
Proof.
  destruct (Solid.stiffness (two_tets [0; 0; 1] None)) as [K|] eqn:HK;
    [|exfalso; revert HK; vm_compute; discriminate].
  exists K. split; [reflexivity|].
  exact (proj2 (stiffness_assembles (two_tets [0; 0; 1] None) Tetra1 K
                  (two_tets_well_formed _ _) (two_tets_NoDup _ _) HK)).
Defined.

Lemma elem_of_dof_indices e x : x ∈ Solid.dof_indices e -> (x / 3)%nat ∈ e.
Proof.
  intros Hx. apply list_elem_of_In, (In_nth _ _ 0%nat) in Hx as (r & Hr & Hx).
  rewrite length_dof_indices in Hr. rewrite nth_dof_indices in Hx by done.
  assert (Hm : (r mod 3 < 3)%nat) by (apply Nat.mod_upper_bound; lia).
  assert (Hd : (r / 3 < length e)%nat) by (apply Nat.Div0.div_lt_upper_bound; lia).
  replace (x / 3)%nat with (nth (r / 3) e 0%nat).
  - by apply list_elem_of_In, nth_In.
  - subst x. symmetry. rewrite Nat.mul_comm, Nat.div_add_l by lia.
    rewrite (Nat.div_small (r mod 3)) by done. lia.
Qed.

(** X5. Sparsity: the entry [(p, q)] of the assembled stiffness is zero
    unless some element holds both the node of DOF [p] and the node of
    DOF [q]. *)
Theorem stiffness_sparsity (self : Solid.t) (et : element) (K : mat) (p q : nat) :
  well_formed self et ->
  Solid.stiffness self = Ok K ->
  (forall e, e ∈ Solid.elements self -> ~ ((p / 3)%nat ∈ e /\ (q / 3)%nat ∈ e)) ->
  entry K p q = 0.
Proof.
  intros Hwf HK Hpq. set (n := Solid.n_dofs self).
  assert (H : is_mat n n K /\ entry K p q = 0); [|by destruct H].
  eapply (for_each_inv _ (fun a => is_mat n n a /\ entry a p q = 0));
    [| split; [apply is_mat_zeros2 | apply entry_zeros2] | exact HK].
  intros a j a' [Ha Hz].
  destruct (Solid.elements self !! j) as [e|] eqn:Hj.
  2:{ unfold Solid.stiffness_step.
      by rewrite (wf_indices _ _ Hwf), list_lookup_fmap, Hj. }
  rewrite (stiffness_step_unfold self et a j e) by done.
  destruct (Solid.k self j) as [kj|] eqn:Hk; [|done]. intros [= <-].
  destruct (wf_element_at self et j e Hwf Hj) as [Harity Hrange].
  destruct (k_shape self et j kj (wf_etype _ _ Hwf) (wf_element _ _ Hwf) Hk)
    as [Hkj _].
  assert (Hidx : Forall (fun i => (i < n)%nat) (Solid.dof_indices e)).
  { unfold n. rewrite (wf_dofs self et Hwf). by apply dof_indices_in_range. }
  split; [by apply is_mat_scatter_add|].
  rewrite (entry_scatter_add n) by (rewrite ?length_dof_indices, ?Harity; done).
  rewrite Hz.
  destruct (lastpos (Solid.dof_indices e) q) as [r|] eqn:Hq; [|ring].
  destruct (lastpos (Solid.dof_indices e) p) as [c|] eqn:Hp; [|ring].
  exfalso. apply (Hpq e); [by apply (list_elem_of_lookup_2 _ j)|].
  apply lastpos_Some in Hq as [Hr Hqr]. apply lastpos_Some in Hp as [Hc Hpc].
  split; apply elem_of_dof_indices; apply list_elem_of_In.
  - rewrite <- Hpc. by apply nth_In.
  - rewrite <- Hqr. by apply nth_In.
Qed.

Lemma stiffness_sparsity_witness :
  exists K,
    Solid.stiffness (two_tets [0; 0; 1] None) = Ok K
    /\ entry K 0 12 = 0 /\ entry K 14 2 = 0.
Proof.
  destruct (Solid.stiffness (two_tets [0; 0; 1] None)) as [K|] eqn:HK;
    [|exfalso; revert HK; vm_compute; discriminate].
  exists K. split; [reflexivity|].
  split; apply (stiffness_sparsity (two_tets [0; 0; 1] None) Tetra1 K _ _
                  (two_tets_well_formed _ _) HK);
    intros e He [H0 H4];
    apply elem_of_cons in He as [->|He];
    [ | apply elem_of_cons in He as [->|He]; [|by apply elem_of_nil in He]
      | | apply elem_of_cons in He as [->|He]; [|by apply elem_of_nil in He] ];
    revert H0 H4; rewrite !elem_of_cons, !elem_of_nil; cbn; lia.
Defined.

(** ** Scaling the constitutive tensor *)

Lemma dot_vscale_r r c x : dot r (vscale c x) = c * dot r x.
Proof.
  revert x. induction r as [|a r IH]; intros [|b x].
  - rewrite !dot_nil_l. ring.
  - rewrite !dot_nil_l. ring.
  - cbn [vscale map]. rewrite !dot_nil_r. ring.
  - cbn [vscale map]. rewrite !dot_cons. fold (vscale c x). rewrite IH. ring.
Qed.

Lemma ncols_mscale c A : ncols (mscale c A) = ncols A.
Proof. destruct A as [|r A]; [done|]. simpl. unfold vscale. by rewrite length_map. Qed.

Lemma col_mscale c A j : col j (mscale c A) = vscale c (col j A).
Proof.
  unfold col, mscale, vscale. rewrite !map_map. apply map_ext. intros r.
  apply vnth_vscale.
Qed.

Lemma matmul_mscale_r A c B : matmul A (mscale c B) = mscale c (matmul A B).
Proof.
  unfold matmul. rewrite ncols_mscale. unfold mscale at 2. rewrite map_map.
  apply map_ext. intros r. unfold vscale. rewrite map_map. apply map_ext. intros j.
  rewrite col_mscale. apply dot_vscale_r.
Qed.

Lemma matmul_mscale_l c A B : matmul (mscale c A) B = mscale c (matmul A B).
Proof.
  unfold matmul, mscale. rewrite !map_map. apply map_ext. intros r.
  unfold vscale at 2. rewrite map_map. apply map_ext. intros j. apply dot_vscale.
Qed.

Lemma mscale_r_mscale c A d : mscale_r (mscale c A) d = mscale c (mscale_r A d).
Proof.
  unfold mscale_r, mscale. rewrite !map_map. apply map_ext. intros r.
  unfold vscale_r, vscale. rewrite !map_map. apply map_ext. intros x. ring.
Qed.

Lemma vadd_vscale c a b : vadd (vscale c a) (vscale c b) = vscale c (vadd a b).
Proof.
  revert b. induction a as [|x a IH]; intros [|y b]; try done.
  cbn [vscale vadd map zip_with]. f_equal; [ring | apply IH].
Qed.

Lemma madd_mscale c A B : madd (mscale c A) (mscale c B) = mscale c (madd A B).
Proof.
  revert B. induction A as [|r A IH]; intros [|s B]; try done.
  cbn [mscale madd map zip_with]. f_equal; [apply vadd_vscale | apply IH].
Qed.

Lemma mscale_zeros2 c r n : mscale c (zeros2 r n) = zeros2 r n.
Proof.
  unfold mscale, zeros2, zeros, vscale.
  change (map (map (Qcmult c)) (replicate r (replicate n 0)))
    with (fmap (M := list) (fmap (M := list) (Qcmult c)) (replicate r (replicate n 0))).
  rewrite !fmap_replicate. do 2 f_equal. ring.
Qed.

Lemma k_integrand_mscale et c C0 nodes0 wq :
  k_integrand et (mscale c C0) nodes0 wq = mscale c (k_integrand et C0 nodes0 wq).
Proof.
  unfold k_integrand. cbv zeta.
  by rewrite matmul_mscale_r, matmul_mscale_l, mscale_r_mscale.
Qed.

Lemma k_loop_mscale self self' et c nodes0 qs a :
  Solid.etype self = Some et -> Solid.etype self' = Some et ->
  Solid.C self' = mscale c (Solid.C self) ->
  for_each (Solid.k_step self' nodes0) qs (mscale c a)
  = (r ← for_each (Solid.k_step self nodes0) qs a; Ok (mscale c r)).
Proof.
  intros Het Het' HC. revert a. induction qs as [|wq qs IH]; intros a; [done|].
  cbn [for_each]. rewrite (k_step_unfold self et), (k_step_unfold self' et) by done.
  destruct (Qc_leb _ _); [done|].
  rewrite HC, k_integrand_mscale, madd_mscale. apply IH.
Qed.

Lemma k_mscale self c st j :
  Solid.k (with_material self (mscale c (Solid.C self)) st) j
  = (kj ← Solid.k self j; Ok (mscale c kj)).
Proof.
  unfold Solid.k, Solid.get_etype. cbn [with_material Solid.elements Solid.nodes Solid.etype].
  destruct (Solid.elements self !! j) as [e|]; [|done].
  cbn [mbind result_bind of_option].
  destruct (gather_rows (Solid.nodes self) e) as [nodes0|]; [|done].
  cbn [mbind result_bind].
  destruct (Solid.etype self) as [et|] eqn:Het; [|done].
  cbn [mbind result_bind of_option].
  rewrite <- (mscale_zeros2 c) at 1.
  by apply (k_loop_mscale self _ et).
Qed.

Lemma lookup_mscale c (K : mat) x y :
  mscale c K !! x ≫= (fun r => r !! y)
  = Qcmult c <$> (K !! x ≫= (fun r => r !! y)).
Proof.
  unfold mscale. change (map (vscale c) K) with (vscale c <$> K).
  rewrite list_lookup_fmap. destruct (K !! x) as [r|]; [|done].
  cbn. unfold vscale. change (map (Qcmult c) r) with (Qcmult c <$> r).
  by rewrite list_lookup_fmap.
Qed.

Lemma gather2_row_mscale c K xs ys :
  gather2_row (mscale c K) xs ys
  = (g ← gather2_row K xs ys; Ok (vscale c g)).
Proof.
  unfold gather2_row. induction (zip xs ys) as [|xy l IH]; [done|].
  cbn [map_result]. rewrite lookup_mscale, IH.
  destruct (K !! xy.1 ≫= (fun r : list Qc => r !! xy.2)) as [v|]; [|reflexivity].
  cbn [fmap option_fmap option_map of_option].
  match goal with
  | |- context [map_result ?g l ≫= _] => destruct (map_result g l)
  end; reflexivity.
Qed.

Lemma gather2_mscale c K X Y :
  gather2 (mscale c K) X Y = (G ← gather2 K X Y; Ok (mscale c G)).
Proof.
  unfold gather2. induction (zip X Y) as [|xy l IH]; [done|].
  cbn [map_result]. rewrite gather2_row_mscale, IH.
  destruct (gather2_row K xy.1 xy.2); [|reflexivity]. cbn [mbind result_bind].
  match goal with
  | |- context [map_result ?g l ≫= _] => destruct (map_result g l)
  end; reflexivity.
Qed.

Lemma mset_mscale c K x y v :
  mset (mscale c K) x y (c * v) = mscale c (mset K x y v).
Proof.
  unfold mset, mscale.
  change (map (vscale c) K) with (vscale c <$> K).
  change (map (vscale c) (<[x:=<[y:=v]> (nth x K [])]> K))
    with (vscale c <$> <[x:=<[y:=v]> (nth x K [])]> K).
  rewrite list_fmap_insert. f_equal.
  change (vscale c <$> K) with (map (vscale c) K).
  rewrite (nth_map_nil (vscale c)) by done.
  unfold vscale.
  change (map (Qcmult c) (<[y:=v]> (nth x K [])))
    with (Qcmult c <$> <[y:=v]> (nth x K [])).
  by rewrite list_fmap_insert.
Qed.

Lemma index_put2_row_mscale c K xs ys vs :
  index_put2_row (mscale c K) xs ys (vscale c vs)
  = mscale c (index_put2_row K xs ys vs).
Proof.
  revert K ys vs. induction xs as [|x xs IH]; intros K [|y ys] [|v vs]; try done.
  cbn [vscale map]. rewrite !index_put2_row_cons, mset_mscale. apply IH.
Qed.

Lemma index_put2_mscale c K X Y V :
  index_put2 (mscale c K) X Y (mscale c V) = mscale c (index_put2 K X Y V).
Proof.
  revert K Y V. induction X as [|xs X IH]; intros K [|ys Y] [|vs V]; try done.
  cbn [mscale map]. rewrite !index_put2_cons, index_put2_row_mscale. apply IH.
Qed.

Lemma stiffness_loop_mscale self c st js K :
  for_each (Solid.stiffness_step (with_material self (mscale c (Solid.C self)) st))
           js (mscale c K)
  = (r ← for_each (Solid.stiffness_step self) js K; Ok (mscale c r)).
Proof.
  revert K. induction js as [|j js IH]; intros K; [done|].
  cbn [for_each]. unfold Solid.stiffness_step at 1 3.
  cbn [with_material Solid.global_indices].
  destruct (Solid.global_indices self !! j) as [idx|]; [|done].
  cbn [mbind result_bind of_option].
  rewrite gather2_mscale.
  destruct (gather2 K idx.1 idx.2) as [G|]; [|done]. cbn [mbind result_bind].
  rewrite k_mscale.
  destruct (Solid.k self j) as [kj|]; [|done]. cbn [mbind result_bind].
  rewrite madd_mscale, index_put2_mscale. apply IH.
Qed.

(** X6. The stiffness is homogeneous in the constitutive tensor: with [C]
    multiplied by [c], every element stiffness matrix and the assembled
    stiffness matrix are multiplied by [c], and they raise exactly where
    they raised before. *)
Theorem stiffness_scales_with_C (self : Solid.t) (c : Qc) (strains0 : option mat) :
  let scaled := with_material self (mscale c (Solid.C self)) strains0 in
  (forall j, Solid.k scaled j = (kj ← Solid.k self j; Ok (mscale c kj)))
  /\ Solid.stiffness scaled = (K ← Solid.stiffness self; Ok (mscale c K)).
Proof.
  cbv zeta. split; [intros j; apply k_mscale|].
  unfold Solid.stiffness. cbn [with_material Solid.elements Solid.n_dofs].
  rewrite <- (mscale_zeros2 c) at 1. apply stiffness_loop_mscale.
Qed.

(** ** The strain of a nodal displacement field *)

Lemma entry_matmul_sum (A B : mat) m i j :
  length (nth i A []) = m -> length B = m ->
  (i < length A)%nat -> (j < ncols B)%nat ->
  entry (matmul A B) i j = sumn m (fun k => entry A i k * entry B k j).
Proof.
  intros Hr HB Hi Hj. rewrite entry_matmul by done.
  rewrite (dot_sumn _ _ m); [| done | by rewrite length_col].
  apply sumn_ext. intros k _. by rewrite vnth_col.
Qed.

Lemma vnth_ravel_3 (U : mat) a i :
  Forall (fun r => length r = 3%nat) U -> (i < 3)%nat ->
  vnth (ravel U) (3 * a + i) = entry U a i.
Proof.
  intros HU Hi. revert a. induction HU as [|r U Hr HU IH]; intros a.
  - unfold ravel. cbn [concat]. rewrite vnth_nil. unfold entry.
    destruct a; cbn [nth]; by rewrite vnth_nil.
  - unfold ravel. cbn [concat]. unfold vnth, entry in *. destruct a as [|a].
    + replace (3 * 0 + i)%nat with i by lia. rewrite app_nth1 by lia. done.
    + rewrite app_nth2 by lia. rewrite Hr.
      replace (3 * S a + i - 3)%nat with (3 * a + i)%nat by lia.
      cbn [nth]. apply IH.
Qed.

(** The strain operator applied to the DOF vector of the nodal
    displacements [U], row by row. *)
Lemma D_rows_displacements n (B U : mat) :
  is_mat 3 n B -> length U = n -> Forall (fun r => length r = 3%nat) U ->
  matvec (D_rows n B) (ravel U)
  = [sumn n (fun a => entry B 0 a * entry U a 0);
     sumn n (fun a => entry B 1 a * entry U a 1);
     sumn n (fun a => entry B 2 a * entry U a 2);
     sumn n (fun a => entry B 2 a * entry U a 1)
     + sumn n (fun a => entry B 1 a * entry U a 2);
     sumn n (fun a => entry B 2 a * entry U a 0)
     + sumn n (fun a => entry B 0 a * entry U a 2);
     sumn n (fun a => entry B 1 a * entry U a 0)
     + sumn n (fun a => entry B 0 a * entry U a 1)].
Proof.
  intros HB HU HU3.
  assert (HBrow : forall i, (i < 3)%nat -> length (nth i B []) = n)
    by (intros i Hi; by apply (is_mat_row 3 n)).
  assert (Hlen : length (ravel U) = (3 * n)%nat)
    by (rewrite length_ravel_3, HU; done).
  assert (Hrow : forall (v0 v1 v2 : vec),
            length v0 = n -> length v1 = n -> length v2 = n ->
            dot (Solid.stack_ravel [v0; v1; v2]) (ravel U)
            = sumn n (fun a => vnth v0 a * entry U a 0)
              + sumn n (fun a => vnth v1 a * entry U a 1)
              + sumn n (fun a => vnth v2 a * entry U a 2)).
  { intros v0 v1 v2 H0 H1 H2.
    rewrite (dot_sumn _ _ (3 * n)); [| by rewrite length_stack_ravel, H0 | done].
    rewrite sumn_3, <- !sumn_plus. apply sumn_ext. intros a Ha.
    replace (3 * a)%nat with (3 * a + 0)%nat at 1 2 by lia.
    rewrite !vnth_stack_ravel by (rewrite ?H0; lia).
    rewrite !vnth_ravel_3 by (done || lia). reflexivity. }
  assert (Hz : forall j, sumn n (fun a => vnth (zeros n) a * entry U a j) = 0).
  { intros j. rewrite (sumn_ext n _ (fun _ => 0)), sumn_zero; [done|].
    intros a _. rewrite vnth_zeros. ring. }
  unfold D_rows, matvec. cbv zeta. cbn [map].
  rewrite !Hrow by (rewrite ?length_zeros; auto). rewrite !Hz.
  unfold entry.
  repeat match goal with |- _ :: _ = _ :: _ => f_equal; try ring end.
Qed.

Lemma D_rows_gradient n (B U : mat) :
  is_mat 3 n B -> length U = n -> Forall (fun r => length r = 3%nat) U ->
  matvec (D_rows n B) (ravel U) = engineering_strain (matmul B U).
Proof.
  intros HB HU HU3.
  rewrite (D_rows_displacements _ B U HB HU HU3).
  destruct (decide (n = 0)%nat) as [Hn|Hn].
  - rewrite Hn in *. destruct U; [|done].
    destruct HB as [HB3 HBr].
    destruct B as [|r0 [|r1 [|r2 [|]]]]; done.
  - assert (Hnc : ncols U = 3%nat).
    { destruct U as [|r U]; [simpl in HU; lia|]. apply Forall_cons_1 in HU3 as [Hr _]. exact Hr. }
    assert (HBrow : forall i, (i < 3)%nat -> length (nth i B []) = n)
      by (intros i Hi; by apply (is_mat_row 3 n)).
    unfold engineering_strain.
    rewrite !(entry_matmul_sum B U n)
      by (rewrite ?(proj1 HB), ?Hnc, ?HBrow; (done || lia)).
    reflexivity.
Qed.

(** X7. For Cartesian gradients [B] and nodal displacements [U] (one row
    of three components per node), the strain operator applied to the DOF
    vector of [U] is the engineering strain of the displacement gradient
    [B @ U]. *)
Theorem D_applied_to_displacements (self : Solid.t) (et : element) (B U Dm : mat) :
  Solid.etype self = Some et ->
  is_mat 3 (et_nodes et) B ->
  length U = et_nodes et -> Forall (fun r => length r = 3%nat) U ->
  Solid.D self B = Ok Dm ->
  matvec Dm (ravel U) = engineering_strain (matmul B U).
Proof.
  intros Het HB HU HU3. rewrite (D_ok self et B Het). intros [= <-].
  by apply D_rows_gradient.
Qed.

Lemma D_applied_to_displacements_witness :
  exists Dm,
    Solid.D tet_clamped (et_B Tetra1 []) = Ok Dm
    /\ matvec Dm (ravel tet_nodes)
       = engineering_strain (matmul (et_B Tetra1 []) tet_nodes).
Proof.
  eexists. split; [reflexivity|].
  apply (D_applied_to_displacements tet_clamped Tetra1 (et_B Tetra1 []) tet_nodes);
    [reflexivity | apply Tetra1_ok | reflexivity | by repeat constructor | reflexivity].
Defined.

(** ** The Jacobian that passes the guard *)

Lemma mat_ext p r (X Y : mat) :
  is_mat p r X -> is_mat p r Y ->
  (forall i j, (i < p)%nat -> (j < r)%nat -> entry X i j = entry Y i j) ->
  X = Y.
Proof.
  intros [HXl HXr] [HYl HYr] He. apply (nth_ext _ _ [] []); [congruence|].
  intros i Hi. rewrite HXl in Hi.
  assert (Hx : length (nth i X []) = r) by (by apply (is_mat_row p r)).
  assert (Hy : length (nth i Y []) = r) by (by apply (is_mat_row p r)).
  apply (nth_ext _ _ 0 0); [congruence|].
  intros j Hj. rewrite Hx in Hj. by apply He.
Qed.

Lemma matmul_assoc p m n r (A B C0 : mat) :
  is_mat p m A -> is_mat m n B -> is_mat n r C0 ->
  (0 < m)%nat -> (0 < n)%nat ->
  matmul (matmul A B) C0 = matmul A (matmul B C0).
Proof.
  intros HA HB HC Hm Hn.
  pose proof (is_mat_ncols m n B HB Hm) as HnB.
  pose proof (is_mat_ncols n r C0 HC Hn) as HnC.
  pose proof (is_mat_matmul A B) as HAB. rewrite (proj1 HA), HnB in HAB.
  pose proof (is_mat_matmul B C0) as HBC. rewrite (proj1 HB), HnC in HBC.
  pose proof (is_mat_ncols m r _ HBC Hm) as HnBC.
  pose proof (is_mat_matmul (matmul A B) C0) as HL.
  rewrite (proj1 HAB), HnC in HL.
  pose proof (is_mat_matmul A (matmul B C0)) as HR.
  rewrite (proj1 HA), HnBC in HR.
  apply (mat_ext p r); [done | done |]. intros i j Hi Hj.
  rewrite (entry_matmul_sum _ _ n)
    by (rewrite ?(proj1 HAB), ?HnC, ?(proj1 HC); try done;
        by apply (is_mat_row p n)).
  rewrite (entry_matmul_sum _ _ m)
    by (rewrite ?(proj1 HA), ?HnBC, ?(proj1 HBC); try done;
        by apply (is_mat_row p m)).
  rewrite (sumn_ext n _ (fun k =>
             sumn m (fun l => entry A i l * entry B l k * entry C0 k j))).
  2:{ intros k Hk.
      rewrite (entry_matmul_sum _ _ m)
        by (rewrite ?(proj1 HA), ?HnB, ?(proj1 HB); try done;
            by apply (is_mat_row p m)).
      by rewrite sumn_mul_r. }
  rewrite sumn_exchange. apply sumn_ext. intros l Hl.
  rewrite (entry_matmul_sum _ _ n)
    by (rewrite ?(proj1 HB), ?HnC, ?(proj1 HC); try done;
        by apply (is_mat_row m n)).
  rewrite sumn_mul_l. apply sumn_ext. intros k _. ring.
Qed.

Lemma mat33_literal (A : mat) :
  is_mat 3 3 A ->
  exists a b c d e f g h i, A = [[a; b; c]; [d; e; f]; [g; h; i]].
Proof.
  intros [Hl Hr].
  destruct A as [|r0 [|r1 [|r2 [|]]]]; try done.
  apply Forall_cons_1 in Hr as [H0 Hr].
  apply Forall_cons_1 in Hr as [H1 Hr].
  apply Forall_cons_1 in Hr as [H2 _].
  destruct r0 as [|a [|b [|c [|]]]]; try done.
  destruct r1 as [|d [|e [|f [|]]]]; try done.
  destruct r2 as [|g [|h [|i [|]]]]; try done.
  by exists a, b, c, d, e, f, g, h, i.
Qed.

Lemma is_mat_jacobian et nodes0 q :
  is_mat 3 (et_nodes et) (et_B et q) -> is_mat (et_nodes et) 3 nodes0 ->
  (0 < et_nodes et)%nat ->
  is_mat 3 3 (jacobian et nodes0 q).
Proof.
  intros HB HX Hn. unfold jacobian.
  pose proof (is_mat_matmul (et_B et q) nodes0) as H.
  by rewrite (proj1 HB), (is_mat_ncols _ _ _ HX Hn) in H.
Qed.

Lemma det_no_columns (r0 r1 r2 : vec) : det (matmul [r0; r1; r2] []) = 0.
Proof. reflexivity. Qed.

(** With a positive determinant the inverse of the Jacobian is a
    two-sided inverse, and the Cartesian gradients reproduce the
    coordinates. *)
Lemma jacobian_inverse et nodes0 q :
  is_mat 3 (et_nodes et) (et_B et q) -> is_mat (et_nodes et) 3 nodes0 ->
  0 < det (jacobian et nodes0 q) ->
  matmul (jacobian et nodes0 q) (inv (jacobian et nodes0 q)) = identity3
  /\ matmul (inv (jacobian et nodes0 q)) (jacobian et nodes0 q) = identity3
  /\ matmul (gradients et nodes0 q) nodes0 = identity3.
Proof.
  intros HB HX Hpos.
  assert (Hn : (0 < et_nodes et)%nat).
  { destruct (decide (et_nodes et = 0)%nat) as [Hz|]; [|lia]. exfalso.
    rewrite Hz in HX. destruct nodes0; [|by destruct HX].
    destruct HB as [HB3 _]. unfold jacobian in Hpos.
    destruct (et_B et q) as [|r0 [|r1 [|r2 [|]]]]; try done. }
  pose proof (is_mat_jacobian et nodes0 q HB HX Hn) as HJ.
  destruct (mat33_literal _ HJ) as (a & b & c & d & e & f & g & h & i & HJl).
  assert (Hne : det (jacobian et nodes0 q) <> 0).
  { intros Hz. rewrite Hz in Hpos. by apply Qclt_not_eq in Hpos. }
  pose proof (inv_3x3 a b c d e f g h i) as Hinv. cbv zeta in Hinv.
  rewrite <- HJl in Hinv. destruct (Hinv Hne) as [Hr Hl].
  split; [exact Hr|]. split; [exact Hl|].
  assert (HI : is_mat 3 3 (inv (jacobian et nodes0 q))).
  { unfold inv. rewrite (proj1 HJ). split; [done|]. repeat constructor. }
  unfold gradients.
  rewrite (matmul_assoc 3 3 (et_nodes et) 3) by (done || lia).
  exact Hl.
Qed.



(** ** Linear displacement fields *)

Lemma matmul_identity3_l (M : mat) : is_mat 3 3 M -> matmul identity3 M = M.
Proof.
  intros HM. destruct (mat33_literal M HM) as (a & b & c & d & e & f & g & h & i & ->).
  unfold identity3, matmul, dot, col, vnth. cbn.
  repeat match goal with
         | |- _ :: _ = _ :: _ => f_equal; try ring
         end.
Qed.

Lemma is_mat_linear_field n (X A : mat) :
  is_mat n 3 X -> is_mat 3 3 A -> is_mat n 3 (matmul X (transpose A)).
Proof.
  intros HX HA. pose proof (is_mat_matmul X (transpose A)) as H.
  pose proof (is_mat_transpose A) as HT.
  rewrite (is_mat_ncols 3 3 A HA ltac:(lia)), (proj1 HA) in HT.
  by rewrite (proj1 HX), (is_mat_ncols 3 3 _ HT ltac:(lia)) in H.
Qed.

(** At a quadrature point with a positive Jacobian determinant the strain
    of the nodal values of the linear field [x -> A x] is the strain of
    its gradient. *)
Lemma strain_of_linear_field et nodes0 q (A : mat) :
  element_ok et -> is_mat (et_nodes et) 3 nodes0 -> is_mat 3 3 A ->
  0 < det (jacobian et nodes0 q) ->
  matvec (D_rows (et_nodes et) (gradients et nodes0 q))
         (ravel (matmul nodes0 (transpose A)))
  = engineering_strain (transpose A).
Proof.
  intros Hok HX HA Hpos.
  pose proof (is_mat_linear_field _ nodes0 A HX HA) as HU.
  pose proof (is_mat_transpose A) as HT.
  rewrite (is_mat_ncols 3 3 A HA ltac:(lia)), (proj1 HA) in HT.
  assert (Hn : (0 < et_nodes et)%nat).
  { destruct (decide (et_nodes et = 0)%nat) as [Hz|]; [|lia]. exfalso.
    destruct (Hok q) as [HB3 _]. rewrite Hz in HX.
    destruct nodes0; [|by destruct HX]. unfold jacobian in Hpos.
    destruct (et_B et q) as [|r0 [|r1 [|r2 [|]]]]; try done. }
  rewrite D_rows_gradient;
    [| by apply is_mat_gradients | apply HU | apply HU].
  rewrite <- (matmul_assoc 3 (et_nodes et) 3 3)
    by (done || lia || by apply is_mat_gradients).
  rewrite (proj2 (proj2 (jacobian_inverse et nodes0 q (Hok q) HX Hpos))).
  by rewrite matmul_identity3_l.
Qed.

Lemma dot_vadd_l a b x :
  length a = length b -> dot (vadd a b) x = dot a x + dot b x.
Proof.
  revert b x. induction a as [|y a IH]; intros [|z b] x Hl; simpl in Hl; try lia.
  - cbn [vadd zip_with]. rewrite !dot_nil_l. ring.
  - destruct x as [|w x]; [rewrite !dot_nil_r; ring|].
    cbn [vadd zip_with]. rewrite !dot_cons. fold (vadd a b).
    rewrite IH by (simpl in Hl; lia). ring.
Qed.

Lemma matvec_madd p m (A B : mat) x :
  is_mat p m A -> is_mat p m B ->
  matvec (madd A B) x = vadd (matvec A x) (matvec B x).
Proof.
  intros [HAl HAr] [HBl HBr]. rewrite <- HAl in HBl. clear HAl p.
  revert B HBl HBr.
  induction HAr as [|r A Hr HAr IH]; intros [|s B] HBl HBr;
    simpl in HBl; try lia; [done|].
  apply Forall_cons_1 in HBr as [Hs HBr].
  cbn [madd zip_with matvec map vadd]. f_equal.
  - apply dot_vadd_l. congruence.
  - apply IH; [lia | done].
Qed.

Lemma matvec_mscale_r (A : mat) d x : matvec (mscale_r A d) x = vscale_r (matvec A x) d.
Proof.
  unfold matvec, mscale_r, vscale_r. rewrite !map_map. apply map_ext. intros r.
  induction r as [|a r IH] in x |- *; destruct x as [|b x]; cbn [map];
    rewrite ?dot_nil_l, ?dot_nil_r, ?dot_cons; try ring.
  fold (vscale_r r d). unfold vscale_r. rewrite IH. ring.
Qed.

Lemma matvec_matmul p m n (M Dm : mat) x :
  is_mat p m M -> is_mat m n Dm -> length x = n -> (0 < m)%nat ->
  matvec (matmul M Dm) x = matvec M (matvec Dm x).
Proof.
  intros HM HD Hx Hm.
  pose proof (is_mat_ncols m n Dm HD Hm) as HnD.
  apply (nth_ext _ _ 0 0).
  { by rewrite !length_matvec, length_matmul. }
  intros i Hi. rewrite length_matvec, length_matmul, (proj1 HM) in Hi.
  change (vnth (matvec (matmul M Dm) x) i = vnth (matvec M (matvec Dm x)) i).
  rewrite !vnth_matvec by (rewrite ?length_matmul, (proj1 HM); done).
  pose proof (is_mat_matmul M Dm) as HMD. rewrite (proj1 HM), HnD in HMD.
  rewrite (dot_sumn _ _ n); [| by apply (is_mat_row p n) | done].
  rewrite (dot_sumn _ _ m);
    [| by apply (is_mat_row p m) | by rewrite length_matvec, (proj1 HD)].
  rewrite (sumn_ext n _ (fun k =>
             sumn m (fun l => entry M i l * entry Dm l k * vnth x k))).
  2:{ intros k Hk.
      change (vnth (nth i (matmul M Dm) []) k) with (entry (matmul M Dm) i k).
      rewrite (entry_matmul_sum _ _ m)
        by (rewrite ?(proj1 HM), ?HnD, ?(proj1 HD); try done;
            by apply (is_mat_row p m)).
      by rewrite sumn_mul_r. }
  rewrite sumn_exchange. apply sumn_ext. intros l Hl.
  rewrite vnth_matvec by (by rewrite (proj1 HD)).
  rewrite (dot_sumn _ _ n); [| by apply (is_mat_row m n) | done].
  rewrite sumn_mul_l. apply sumn_ext. intros k _. unfold entry. ring.
Qed.

(** The integrand of the element stiffness applied to the nodal values of
    a linear field is the integrand of the inelastic force of its strain. *)
Lemma k_integrand_linear_field et C0 nodes0 wq (A : mat) :
  element_ok et -> is_mat 6 6 C0 -> is_mat (et_nodes et) 3 nodes0 ->
  is_mat 3 3 A -> 0 < det (jacobian et nodes0 wq.2) ->
  matvec (k_integrand et C0 nodes0 wq) (ravel (matmul nodes0 (transpose A)))
  = f_integrand et C0 nodes0 (engineering_strain (transpose A)) wq.
Proof.
  intros Hok HC HX HA Hpos. unfold k_integrand, f_integrand. cbv zeta.
  set (Dm := D_rows (et_nodes et) (gradients et nodes0 wq.2)).
  pose proof (is_mat_strain_rows et nodes0 wq.2 Hok) as HD. fold Dm in HD.
  set (m := (3 * et_nodes et)%nat) in *.
  pose proof (is_mat_ncols 6 m Dm HD ltac:(lia)) as HnD.
  pose proof (is_mat_ncols 6 6 C0 HC ltac:(lia)) as HnC.
  assert (HW : is_mat m 6 (mscale wq.1 (transpose Dm))).
  { apply is_mat_mscale. pose proof (is_mat_transpose Dm) as H.
    rewrite HnD in H. by rewrite (proj1 HD) in H. }
  assert (HM : is_mat m 6 (matmul (mscale wq.1 (transpose Dm)) C0)).
  { pose proof (is_mat_matmul (mscale wq.1 (transpose Dm)) C0) as H.
    by rewrite (proj1 HW), HnC in H. }
  pose proof (is_mat_linear_field _ nodes0 A HX HA) as HU.
  rewrite matvec_mscale_r. f_equal.
  rewrite (matvec_matmul m 6 m); [| done | done | | lia].
  2:{ rewrite length_ravel_3; [by rewrite (proj1 HU) | apply HU]. }
  unfold Dm. by rewrite (strain_of_linear_field et nodes0 wq.2 A Hok HX HA Hpos).
Qed.

Lemma is_mat_f_integrand et C0 nodes0 epsilon wq :
  element_ok et ->
  length (f_integrand et C0 nodes0 epsilon wq) = (3 * et_nodes et)%nat.
Proof.
  intros Hok. unfold f_integrand. cbv zeta. unfold vscale_r.
  rewrite length_map, length_matvec, length_matmul, length_mscale, length_transpose.
  apply (is_mat_ncols 6); [by apply is_mat_strain_rows | lia].
Qed.

Lemma k_f_loop_linear_field self et nodes0 (A : mat) qs :
  Solid.etype self = Some et -> element_ok et -> is_mat 6 6 (Solid.C self) ->
  is_mat (et_nodes et) 3 nodes0 -> is_mat 3 3 A ->
  forall a b kj fj,
    is_mat (3 * et_nodes et) (3 * et_nodes et) a ->
    length b = (3 * et_nodes et)%nat ->
    matvec a (ravel (matmul nodes0 (transpose A))) = b ->
    for_each (Solid.k_step self nodes0) qs a = Ok kj ->
    for_each (Solid.f_step self nodes0 (engineering_strain (transpose A))) qs b
    = Ok fj ->
    matvec kj (ravel (matmul nodes0 (transpose A))) = fj.
Proof.
  intros Het Hok HC HX HA. induction qs as [|wq qs IH]; intros a b kj fj Ha Hb Hab.
  - cbn [for_each]. by intros [= <-] [= <-].
  - cbn [for_each].
    rewrite (k_step_unfold self et), (f_step_unfold self et) by done.
    destruct (Qc_leb _ _) eqn:Hleb; [done|].
    assert (Hpos : 0 < det (jacobian et nodes0 wq.2)).
    { apply Qcnot_le_lt. intros Hle. apply Qc_leb_le in Hle. congruence. }
    apply IH.
    + apply is_mat_madd; [done | by apply is_mat_k_integrand].
    + rewrite length_vadd; [done|]. by rewrite is_mat_f_integrand.
    + rewrite (matvec_madd (3 * et_nodes et) (3 * et_nodes et))
        by (done || by apply is_mat_k_integrand).
      by rewrite Hab, k_integrand_linear_field.
Qed.

Lemma node_coordinates_gather (nodes0 : mat) e :
  Forall (fun n => (n < length nodes0)%nat) e ->
  gather_rows nodes0 e = Ok (node_coordinates nodes0 e).
Proof.
  intros He. unfold gather_rows, node_coordinates.
  induction He as [|n e Hn He IH]; [done|]. cbn [map_result map].
  destruct (nth_lookup_or_length nodes0 n []) as [Hl|?]; [|lia].
  rewrite Hl, IH. done.
Qed.

Lemma is_mat_node_coordinates self et j e :
  well_formed self et -> Solid.elements self !! j = Some e ->
  is_mat (et_nodes et) 3 (node_coordinates (Solid.nodes self) e).
Proof.
  intros Hwf Hj. destruct (wf_element_at self et j e Hwf Hj) as [Harity Hrange].
  unfold node_coordinates. split; [by rewrite length_map|].
  apply Forall_map. eapply Forall_impl; [exact Hrange|]. intros n Hn. simpl in Hn |- *.
  pose proof (wf_nodes _ _ Hwf) as Hnodes.
  destruct (nth_lookup_or_length (Solid.nodes self) n []) as [Hl|?]; [|lia].
  by apply (Forall_lookup_1 _ _ _ _ Hnodes Hl).
Qed.

Lemma skew_strain_zero (A : mat) :
  is_mat 3 3 A ->
  (forall i j, entry A i j = - entry A j i) ->
  all_zero (engineering_strain (transpose A)).
Proof.
  intros HA Hs.
  assert (Hd : forall i, entry A i i = 0).
  { intros i. pose proof (Hs i i) as H.
    assert (H1 : entry A i i + entry A i i = 0) by (rewrite H at 1; ring).
    assert (H2 : (1 + 1) * entry A i i = 0) by (rewrite <- H1; ring).
    apply Qcmult_integral in H2 as [H2|H2]; [|done].
    exfalso. apply (f_equal this) in H2. vm_compute in H2. discriminate. }
  pose proof (is_mat_ncols 3 3 A HA ltac:(lia)) as Hnc.
  unfold engineering_strain.
  rewrite !entry_transpose by (rewrite Hnc; lia).
  rewrite !Hd.
  rewrite (Hs 2%nat 1%nat), (Hs 2%nat 0%nat), (Hs 1%nat 0%nat).
  repeat constructor; ring.
Qed.

Lemma length_zeros2_rows r c : length (zeros2 r c) = r.
Proof. apply length_replicate. Qed.

Lemma dot_zeros_l c x : dot (zeros c) x = 0.
Proof.
  revert x. induction c as [|c IH]; intros x; [apply dot_nil_l|].
  destruct x as [|y x]; [apply dot_nil_r|].
  unfold zeros. cbn [replicate]. rewrite dot_cons. fold (zeros c). rewrite IH. ring.
Qed.

Lemma matvec_zeros_l r c x : matvec (zeros2 r c) x = zeros (length (zeros2 r c)).
Proof.
  rewrite length_zeros2_rows. unfold matvec, zeros2.
  induction r as [|r IH]; [done|]. cbn [replicate map]. rewrite IH.
  unfold zeros at 2 3. cbn [replicate]. f_equal. apply dot_zeros_l.
Qed.

(** X9. At a point where the guard of [Solid.J] passes, the strain
    operator built from the Cartesian gradients [inv(J) @ etype.B(q)] maps
    the nodal values of a linear displacement field [x -> A x] to the
    constant engineering strain of [A]:
    (A00, A11, A22, A12 + A21, A02 + A20, A01 + A10). *)
Theorem linear_field_has_constant_strain (self : Solid.t) (et : element)
    (q : vec) (nodes0 A Jm Dm : mat) (detJ : Qc) :
  Solid.etype self = Some et -> element_ok et ->
  is_mat (et_nodes et) 3 nodes0 -> is_mat 3 3 A ->
  Solid.J self q nodes0 = Ok (Jm, detJ) ->
  Solid.D self (matmul (inv Jm) (et_B et q)) = Ok Dm ->
  matvec Dm (ravel (matmul nodes0 (transpose A)))
  = [entry A 0 0; entry A 1 1; entry A 2 2;
     entry A 1 2 + entry A 2 1; entry A 0 2 + entry A 2 0;
     entry A 0 1 + entry A 1 0].
Proof.
  intros Het Hok HX HA. rewrite (J_unfold self et) by done.
  destruct (Qc_leb _ _) eqn:Hleb; [done|]. intros [= <- <-].
  assert (Hpos : 0 < det (jacobian et nodes0 q)).
  { apply Qcnot_le_lt. intros Hle. apply Qc_leb_le in Hle. congruence. }
  rewrite (D_ok self et _ Het). intros [= <-].
  pose proof (strain_of_linear_field et nodes0 q A Hok HX HA Hpos) as H.
  unfold gradients in H. rewrite H.
  pose proof (is_mat_ncols 3 3 A HA ltac:(lia)) as Hnc.
  unfold engineering_strain. by rewrite !entry_transpose by (rewrite Hnc; lia).
Qed.

Lemma linear_field_has_constant_strain_witness :
  exists Jm detJ Dm,
    Solid.J tet_clamped [] tet_nodes = Ok (Jm, detJ)
    /\ Solid.D tet_clamped (matmul (inv Jm) (et_B Tetra1 [])) = Ok Dm
    /\ matvec Dm (ravel (matmul tet_nodes (transpose shear_xy)))
       = [0; 0; 0; 0; 0; 1].
Proof.
  destruct (Solid.J tet_clamped [] tet_nodes) as [[Jm detJ]|] eqn:HJ;
    [|exfalso; revert HJ; vm_compute; discriminate].
  exists Jm, detJ, (D_rows 4 (matmul (inv Jm) (et_B Tetra1 []))).
  split; [reflexivity|]. split; [reflexivity|].
  apply (linear_field_has_constant_strain tet_clamped Tetra1 [] tet_nodes
           shear_xy Jm _ detJ eq_refl Tetra1_ok);
    [split; by repeat constructor | split; by repeat constructor
     | exact HJ | reflexivity].
Defined.

(** X10. The element stiffness reproduces constant strain states: applied
    to the nodal values of a linear displacement field [x -> A x] it gives
    the inelastic force vector that [f] computes for the strain of [A].
    For a skew [A], an infinitesimal rigid rotation, it gives zero. *)
Theorem k_reproduces_constant_strain (self : Solid.t) (et : element) (j : nat)
    (e : list nat) (A kj : mat) :
  well_formed self et -> is_mat 6 6 (Solid.C self) ->
  Solid.elements self !! j = Some e -> is_mat 3 3 A ->
  Solid.k self j = Ok kj ->
  let u := ravel (matmul (node_coordinates (Solid.nodes self) e) (transpose A)) in
  (exists fj, Solid.f self j (engineering_strain (transpose A)) = Ok fj
              /\ matvec kj u = fj)
  /\ ((forall r c, entry A r c = - entry A c r) ->
      matvec kj u = zeros (3 * et_nodes et)).
Proof.
  intros Hwf HC Hj HA Hk. cbv zeta.
  destruct (wf_element_at self et j e Hwf Hj) as [Harity Hrange].
  pose proof (is_mat_node_coordinates self et j e Hwf Hj) as HX.
  set (X := node_coordinates (Solid.nodes self) e) in *.
  set (eps := engineering_strain (transpose A)).
  assert (Hf : exists fj, Solid.f self j eps = Ok fj).
  { destruct (k_guard self et j e (wf_etype _ _ Hwf) Hj Hrange) as [[_ Hkerr]|[Hnd _]];
      [congruence|].
    destruct (f_guard self et j e eps (wf_etype _ _ Hwf) Hj Hrange) as [[Hd _]|[_ Hfok]];
      [done | exact Hfok]. }
  destruct Hf as [fj Hf].
  assert (Heq : matvec kj (ravel (matmul X (transpose A))) = fj).
  { pose proof Hk as Hk'. pose proof Hf as Hf'.
    rewrite (k_unfold self et j e (wf_etype _ _ Hwf) Hj Hrange) in Hk'.
    rewrite (f_unfold self et j e eps (wf_etype _ _ Hwf) Hj Hrange) in Hf'.
    apply (k_f_loop_linear_field self et X A (Solid.quadrature et)
             (wf_etype _ _ Hwf) (wf_element _ _ Hwf) HC HX HA
             (zeros2 (3 * et_nodes et) (3 * et_nodes et)) (zeros (3 * et_nodes et)));
      [apply is_mat_zeros2 | apply length_zeros | | exact Hk' | exact Hf'].
    rewrite <- (length_zeros2_rows (3 * et_nodes et) (3 * et_nodes et)) at 3.
    apply matvec_zeros_l. }
  split; [by exists fj|]. intros Hskew. rewrite Heq.
  pose proof (f_all_zero self j eps fj (skew_strain_zero A HA Hskew) Hf) as Hz.
  rewrite (all_zero_eq fj Hz). f_equal.
  destruct (k_shape self et j kj (wf_etype _ _ Hwf) (wf_element _ _ Hwf) Hk) as [Hks _].
  by rewrite <- Heq, length_matvec, (proj1 Hks).
Qed.

Lemma rotation_z_skew r c : entry rotation_z r c = - entry rotation_z c r.
Proof.
  assert (HR : is_mat 3 3 rotation_z) by (split; by repeat constructor).
  destruct (decide (r < 3)%nat) as [Hr|Hr]; [destruct (decide (c < 3)%nat) as [Hc|Hc]|].
  - destruct r as [|[|[|r]]], c as [|[|[|c]]]; try lia;
      apply Qc_is_canon; vm_compute; reflexivity.
  - rewrite (entry_col_ge 3 3), entry_row_ge by (done || simpl; lia). ring.
  - rewrite entry_row_ge, (entry_col_ge 3 3) by (done || simpl; lia). ring.
Qed.

Lemma k_reproduces_constant_strain_witness :
  exists kj,
    Solid.k tet_clamped 0 = Ok kj
    /\ (exists fj,
          Solid.f tet_clamped 0 (engineering_strain (transpose shear_xy)) = Ok fj
          /\ matvec kj (ravel (matmul tet_nodes (transpose shear_xy))) = fj)
    /\ matvec kj (ravel (matmul tet_nodes (transpose rotation_z))) = zeros 12.
Proof.
  destruct (Solid.k tet_clamped 0) as [kj|] eqn:Hk;
    [|exfalso; revert Hk; vm_compute; discriminate].
  exists kj. split; [reflexivity|]. split.
  - apply (k_reproduces_constant_strain tet_clamped Tetra1 0 [0; 1; 2; 3]%nat
             shear_xy kj (tet_well_formed _ _ _ _) is_mat_C_iso eq_refl
             ltac:(split; by repeat constructor) Hk).
  - apply (k_reproduces_constant_strain tet_clamped Tetra1 0 [0; 1; 2; 3]%nat
             rotation_z kj (tet_well_formed _ _ _ _) is_mat_C_iso eq_refl
             ltac:(split; by repeat constructor) Hk).
    apply rotation_z_skew.
Defined.

(** ** Volumes under a change of coordinates *)

Lemma with_nodes_in_range self nodes' :
  length nodes' = length (Solid.nodes self) ->
  nodes_in_range self -> nodes_in_range (with_nodes self nodes').
Proof. unfold nodes_in_range. cbn [with_nodes Solid.nodes Solid.elements]. by intros ->. Qed.

Lemma node_coordinates_map (g : vec -> vec) (nodes0 : mat) e :
  Forall (fun n => (n < length nodes0)%nat) e ->
  node_coordinates (map g nodes0) e = map g (node_coordinates nodes0 e).
Proof.
  intros He. unfold node_coordinates. rewrite map_map.
  apply Forall_fmap_ext_1. eapply Forall_impl; [exact He|].
  intros n Hn. simpl in Hn |- *. by apply nth_map_lt.
Qed.

Lemma volumes_map_nodes self et (g : vec -> vec) (h : Qc -> Qc) :
  well_formed self et -> Solid.n_elem self = length (Solid.elements self) ->
  (forall e, e ∈ Solid.elements self ->
     quadrature_volume et (map g (node_coordinates (Solid.nodes self) e))
     = h (quadrature_volume et (node_coordinates (Solid.nodes self) e))) ->
  exists vols,
    Solid.volumes self = Ok vols
    /\ Solid.volumes (with_nodes self (map g (Solid.nodes self))) = Ok (map h vols).
Proof.
  intros Hwf Hn Hq. eexists. split.
  - apply (volumes_ok self et (wf_etype _ _ Hwf) Hn (wf_range _ _ Hwf)).
  - rewrite (volumes_ok (with_nodes self (map g (Solid.nodes self))) et
               (wf_etype _ _ Hwf) Hn
               (with_nodes_in_range self _ (length_map _ _) (wf_range _ _ Hwf))).
    cbn [with_nodes Solid.nodes Solid.elements]. f_equal. rewrite map_map.
    apply Forall_fmap_ext_1, Forall_forall. intros e He.
    pose proof (wf_range _ _ Hwf) as Hr. unfold nodes_in_range in Hr.
    rewrite Forall_forall in Hr.
    rewrite node_coordinates_map by (by apply Hr). by apply Hq.
Qed.

(** The Jacobian does not see a translation of the nodes when the
    reference gradients sum to zero over the nodes. *)
Lemma jacobian_translated et q (X : mat) t :
  is_mat 3 (et_nodes et) (et_B et q) -> is_mat (et_nodes et) 3 X ->
  length t = 3%nat ->
  (forall i, (i < 3)%nat -> sumn (et_nodes et) (fun a => entry (et_B et q) i a) = 0) ->
  matmul (et_B et q) (map (fun x => vadd x t) X) = matmul (et_B et q) X.
Proof.
  intros HB HX Ht Hpu.
  destruct (decide (et_nodes et = 0)%nat) as [Hz|Hz].
  { rewrite Hz in HX. destruct X; [done | by destruct HX]. }
  assert (HX' : is_mat (et_nodes et) 3 (map (fun x => vadd x t) X)).
  { destruct HX as [HXl HXr]. split; [by rewrite length_map|].
    apply Forall_map. eapply Forall_impl; [exact HXr|]. intros x Hx. simpl.
    rewrite length_vadd; congruence. }
  pose proof (is_mat_ncols _ _ _ HX ltac:(lia)) as HnX.
  pose proof (is_mat_ncols _ _ _ HX' ltac:(lia)) as HnX'.
  pose proof (is_mat_matmul (et_B et q) X) as H1. rewrite (proj1 HB), HnX in H1.
  pose proof (is_mat_matmul (et_B et q) (map (fun x => vadd x t) X)) as H2.
  rewrite (proj1 HB), HnX' in H2.
  apply (mat_ext 3 3); [done | done |]. intros i j Hi Hj.
  rewrite !(entry_matmul_sum _ _ (et_nodes et))
    by (rewrite ?(proj1 HB), ?HnX, ?HnX', ?(proj1 HX), ?(proj1 HX'); try done;
        by apply (is_mat_row 3 (et_nodes et))).
  rewrite (sumn_ext _ _ (fun a => entry (et_B et q) i a * entry X a j
                                  + vnth t j * entry (et_B et q) i a)).
  - rewrite sumn_plus.
    rewrite <- (sumn_mul_l (et_nodes et) (fun a => entry (et_B et q) i a) (vnth t j)).
    rewrite (Hpu i Hi). ring.
  - intros a Ha. unfold entry at 2.
    rewrite (nth_map_lt _ _ _ []) by (by rewrite (proj1 HX)).
    rewrite vnth_vadd by (rewrite (is_mat_row _ _ _ _ HX Ha); done).
    unfold entry. ring.
Qed.

(** X11. Translating every node by one vector leaves the volumes
    unchanged, whenever the shape functions of the element class sum to
    one. *)
Theorem volumes_translation_invariant (self : Solid.t) (et : element) (t : vec) :
  well_formed self et -> partition_of_unity et ->
  Solid.n_elem self = length (Solid.elements self) ->
  length t = 3%nat ->
  Solid.volumes (with_nodes self (map (fun x => vadd x t) (Solid.nodes self)))
  = Solid.volumes self.
Proof.
  intros Hwf Hpu Hn Ht.
  destruct (volumes_map_nodes self et (fun x => vadd x t) id Hwf Hn) as (vols & H1 & H2).
  - intros e He. unfold quadrature_volume, id.
    apply list_elem_of_lookup_1 in He as [j Hj].
    pose proof (is_mat_node_coordinates self et j e Hwf Hj) as HX.
    f_equal. apply map_ext. intros wq.
    by rewrite (jacobian_translated et wq.2 _ t (wf_element _ _ Hwf wq.2) HX Ht
                  (Hpu wq.2)).
  - by rewrite H1, H2, map_id.
Qed.

Lemma volumes_translation_invariant_witness :
  Solid.volumes (with_nodes (two_tets [0; 0; 1] None)
                            (map (fun x => vadd x [1; half; - (1)]) five_nodes))
  = Solid.volumes (two_tets [0; 0; 1] None).
Proof.
  apply (volumes_translation_invariant (two_tets [0; 0; 1] None) Tetra1
           [1; half; - (1)] (two_tets_well_formed _ _) Tetra1_partition_of_unity
           eq_refl eq_refl).
Defined.

Lemma vsum_scale (g : Qc * vec -> Qc) c qs :
  vsum (map (fun wq => c * g wq) qs) = c * vsum (map g qs).
Proof.
  induction qs as [|wq qs IH]; cbn [map vsum foldr]; [ring|].
  fold (vsum (map (fun wq => c * g wq) qs)). fold (vsum (map g qs)).
  rewrite IH. ring.
Qed.

Lemma det_mscale_3 s (M : mat) :
  is_mat 3 3 M -> det (mscale s M) = s * s * s * det M.
Proof.
  intros HM. destruct (mat33_literal M HM) as (a & b & c & d & e & f & g & h & i & ->).
  cbn [mscale vscale map]. rewrite !det_3x3. ring.
Qed.

(** X12. Scaling the coordinates of every node by [s] multiplies every
    volume by the cube of [s]. *)
Theorem volumes_scale_cubically (self : Solid.t) (et : element) (s : Qc) :
  well_formed self et ->
  Solid.n_elem self = length (Solid.elements self) ->
  exists vols,
    Solid.volumes self = Ok vols
    /\ Solid.volumes (with_nodes self (mscale s (Solid.nodes self)))
       = Ok (vscale (s * s * s) vols).
Proof.
  intros Hwf Hn.
  apply (volumes_map_nodes self et (vscale s) (Qcmult (s * s * s)) Hwf Hn).
  intros e He. unfold quadrature_volume.
  apply list_elem_of_lookup_1 in He as [j Hj].
  pose proof (is_mat_node_coordinates self et j e Hwf Hj) as HX.
  rewrite <- vsum_scale. f_equal. apply map_ext. intros wq.
  change (map (vscale s) (node_coordinates (Solid.nodes self) e))
    with (mscale s (node_coordinates (Solid.nodes self) e)).
  rewrite matmul_mscale_r.
  destruct (decide (et_nodes et = 0)%nat) as [Hz|Hz].
  - rewrite Hz in HX. destruct (node_coordinates (Solid.nodes self) e) as [|x X];
      [|by destruct HX].
    pose proof (wf_element _ _ Hwf wq.2) as [HB3 _].
    destruct (et_B et wq.2) as [|r0 [|r1 [|r2 [|]]]]; try done.
    change (det (mscale s (matmul [r0; r1; r2] []))) with (0 : Qc).
    change (det (matmul [r0; r1; r2] [])) with (0 : Qc). ring.
  - rewrite det_mscale_3; [ring|].
    apply (is_mat_jacobian et _ wq.2 (wf_element _ _ Hwf wq.2) HX). lia.
Qed.

Lemma volumes_scale_cubically_witness :
  exists vols,
    Solid.volumes (two_tets [0; 0; 1] None) = Ok vols
    /\ Solid.volumes (with_nodes (two_tets [0; 0; 1] None) (mscale half five_nodes))
       = Ok (vscale (half * half * half) vols).
Proof.
  apply (volumes_scale_cubically (two_tets [0; 0; 1] None) Tetra1 half
           (two_tets_well_formed _ _) eq_refl).
Defined.

(** ** The inelastic force of an element *)

Lemma vec_ext (a b : vec) :
  length a = length b -> (forall i, (i < length a)%nat -> vnth a i = vnth b i) -> a = b.
Proof. intros Hl He. apply (nth_ext _ _ 0 0); [done|]. exact He. Qed.

Lemma length_vscale c a : length (vscale c a) = length a.
Proof. unfold vscale. apply length_map. Qed.

Lemma length_vscale_r a c : length (vscale_r a c) = length a.
Proof. unfold vscale_r. apply length_map. Qed.

Lemma length_vadd_min a b : length (vadd a b) = min (length a) (length b).
Proof. unfold vadd. apply length_zip_with. Qed.

Ltac vec_len :=
  repeat (rewrite length_vadd_min || rewrite length_vscale
          || rewrite length_vscale_r || rewrite length_zeros);
  lia.

Lemma dot_vscale_vadd_r r c x y :
  length x = length y ->
  dot r (vadd (vscale c x) y) = c * dot r x + dot r y.
Proof.
  intros Hl. rewrite dot_vadd_r by (by rewrite length_vscale).
  by rewrite dot_vscale_r.
Qed.

Lemma f_integrand_linear et C0 nodes0 c e1 e2 wq :
  element_ok et -> length e1 = length e2 ->
  f_integrand et C0 nodes0 (vadd (vscale c e1) e2) wq
  = vadd (vscale c (f_integrand et C0 nodes0 e1 wq)) (f_integrand et C0 nodes0 e2 wq).
Proof.
  intros Hok Hl.
  pose proof (is_mat_f_integrand et C0 nodes0 e1 wq Hok) as H1.
  pose proof (is_mat_f_integrand et C0 nodes0 e2 wq Hok) as H2.
  pose proof (is_mat_f_integrand et C0 nodes0 (vadd (vscale c e1) e2) wq Hok) as H3.
  apply vec_ext; [vec_len|].
  intros i _. rewrite vnth_vadd by vec_len.
  rewrite vnth_vscale. unfold f_integrand. cbv zeta. rewrite !vnth_vscale_r.
  set (M := matmul _ C0).
  destruct (decide (i < length M)%nat) as [Hi|Hi].
  - rewrite !vnth_matvec by done. rewrite dot_vscale_vadd_r by done. ring.
  - rewrite !vnth_ge by (rewrite length_matvec; lia). ring.
Qed.

Lemma f_loop_linear self et nodes0 c e1 e2 qs :
  Solid.etype self = Some et -> element_ok et -> length e1 = length e2 ->
  forall a1 a2 f1 f2,
    length a1 = (3 * et_nodes et)%nat -> length a2 = (3 * et_nodes et)%nat ->
    for_each (Solid.f_step self nodes0 e1) qs a1 = Ok f1 ->
    for_each (Solid.f_step self nodes0 e2) qs a2 = Ok f2 ->
    for_each (Solid.f_step self nodes0 (vadd (vscale c e1) e2)) qs
             (vadd (vscale c a1) a2)
    = Ok (vadd (vscale c f1) f2).
Proof.
  intros Het Hok Hl. induction qs as [|wq qs IH]; intros a1 a2 f1 f2 H1 H2.
  - cbn [for_each]. by intros [= <-] [= <-].
  - cbn [for_each]. rewrite !(f_step_unfold self et) by done.
    destruct (Qc_leb _ _); [done|]. intros Hf1 Hf2.
    rewrite f_integrand_linear by done.
    pose proof (is_mat_f_integrand et (Solid.C self) nodes0 e1 wq Hok) as L1.
    pose proof (is_mat_f_integrand et (Solid.C self) nodes0 e2 wq Hok) as L2.
    replace (vadd (vadd (vscale c a1) a2)
                  (vadd (vscale c (f_integrand et (Solid.C self) nodes0 e1 wq))
                        (f_integrand et (Solid.C self) nodes0 e2 wq)))
      with (vadd (vscale c (vadd a1 (f_integrand et (Solid.C self) nodes0 e1 wq)))
                 (vadd a2 (f_integrand et (Solid.C self) nodes0 e2 wq))).
    + apply IH; [vec_len | vec_len | done | done].
    + apply vec_ext; [vec_len|]. intros i _.
      repeat ((rewrite vnth_vadd by vec_len) || rewrite vnth_vscale). ring.
Qed.

(** X13. The inelastic force vector of an element is linear in the
    strain. *)
Theorem f_linear_in_strain (self : Solid.t) (et : element) (j : nat) (c : Qc)
    (e1 e2 f1 f2 : vec) :
  Solid.etype self = Some et -> element_ok et -> length e1 = length e2 ->
  Solid.f self j e1 = Ok f1 -> Solid.f self j e2 = Ok f2 ->
  Solid.f self j (vadd (vscale c e1) e2) = Ok (vadd (vscale c f1) f2).
Proof.
  intros Het Hok Hl. unfold Solid.f, Solid.get_etype.
  destruct (Solid.elements self !! j) as [e|]; [|done].
  cbn [mbind result_bind of_option].
  destruct (gather_rows (Solid.nodes self) e) as [nodes0|]; [|done].
  rewrite Het. cbn [mbind result_bind of_option]. intros H1 H2.
  replace (zeros (3 * et_nodes et))
    with (vadd (vscale c (zeros (3 * et_nodes et))) (zeros (3 * et_nodes et))).
  - by apply (f_loop_linear self et nodes0 c e1 e2 (Solid.quadrature et) Het Hok Hl
                (zeros (3 * et_nodes et)) (zeros (3 * et_nodes et)) f1 f2
                (length_zeros _) (length_zeros _)).
  - apply vec_ext; [vec_len|].
    intros i _. rewrite vnth_vadd by vec_len.
    rewrite vnth_vscale, !vnth_zeros. ring.
Qed.

Lemma f_linear_in_strain_witness :
  exists f1 f2,
    Solid.f tet_clamped 0 [1; 0; 0; 0; 0; 0] = Ok f1
    /\ Solid.f tet_clamped 0 [0; 0; 0; 0; 0; 1] = Ok f2
    /\ Solid.f tet_clamped 0 (vadd (vscale half [1; 0; 0; 0; 0; 0]) [0; 0; 0; 0; 0; 1])
       = Ok (vadd (vscale half f1) f2).
Proof.
  destruct (Solid.f tet_clamped 0 [1; 0; 0; 0; 0; 0]) as [f1|] eqn:H1;
    [|exfalso; revert H1; vm_compute; discriminate].
  destruct (Solid.f tet_clamped 0 [0; 0; 0; 0; 0; 1]) as [f2|] eqn:H2;
    [|exfalso; revert H2; vm_compute; discriminate].
  exists f1, f2. split; [reflexivity|]. split; [reflexivity|].
  apply (f_linear_in_strain tet_clamped Tetra1 0 half [1; 0; 0; 0; 0; 0]
           [0; 0; 0; 0; 0; 1] f1 f2 eq_refl Tetra1_ok eq_refl H1 H2).
Defined.

(** The entries of the integrand of the inelastic force. *)
Lemma vnth_f_integrand et C0 nodes0 epsilon wq r :
  element_ok et -> is_mat 6 6 C0 -> length epsilon = 6%nat ->
  (r < 3 * et_nodes et)%nat ->
  vnth (f_integrand et C0 nodes0 epsilon wq) r
  = sumn 6 (fun s =>
      sumn 6 (fun t =>
        wq.1 * entry C0 t s * vnth epsilon s * det (jacobian et nodes0 wq.2)
        * entry (D_rows (et_nodes et) (gradients et nodes0 wq.2)) t r)).
Proof.
  intros Hok HC Heps Hr. unfold f_integrand. cbv zeta.
  set (Dm := D_rows (et_nodes et) (gradients et nodes0 wq.2)).
  pose proof (is_mat_strain_rows et nodes0 wq.2 Hok) as HD. fold Dm in HD.
  set (m := (3 * et_nodes et)%nat) in *.
  pose proof (is_mat_ncols 6 m Dm HD ltac:(lia)) as HnD.
  pose proof (is_mat_ncols 6 6 C0 HC ltac:(lia)) as HnC.
  assert (HW : is_mat m 6 (mscale wq.1 (transpose Dm))).
  { apply is_mat_mscale. pose proof (is_mat_transpose Dm) as H.
    rewrite HnD in H. by rewrite (proj1 HD) in H. }
  assert (HM : is_mat m 6 (matmul (mscale wq.1 (transpose Dm)) C0)).
  { pose proof (is_mat_matmul (mscale wq.1 (transpose Dm)) C0) as H.
    by rewrite (proj1 HW), HnC in H. }
  rewrite vnth_vscale_r, vnth_matvec by (by rewrite (proj1 HM)).
  rewrite (dot_sumn _ _ 6); [| by apply (is_mat_row m 6) | done].
  rewrite sumn_mul_r. apply sumn_ext. intros s Hs.
  change (vnth (nth r (matmul (mscale wq.1 (transpose Dm)) C0) []) s)
    with (entry (matmul (mscale wq.1 (transpose Dm)) C0) r s).
  rewrite (entry_matmul_sum _ _ 6)
    by (rewrite ?(proj1 HW), ?HnC, ?(proj1 HC); try done; by apply (is_mat_row m 6)).
  rewrite !sumn_mul_r. apply sumn_ext. intros t Ht.
  rewrite entry_mscale, entry_transpose by (by rewrite HnD). ring.
Qed.

Lemma f_integrand_tr et C0 nodes0 epsilon wq t :
  element_ok et -> partition_of_unity et -> is_mat 6 6 C0 ->
  length epsilon = 6%nat ->
  sumn (3 * et_nodes et)
       (fun r => vnth (f_integrand et C0 nodes0 epsilon wq) r * tr t r) = 0.
Proof.
  intros Hok Hpu HC Heps.
  rewrite (sumn_ext _ _ (fun r =>
    sumn 6 (fun s => sumn 6 (fun u =>
      wq.1 * entry C0 u s * vnth epsilon s * det (jacobian et nodes0 wq.2)
      * (entry (D_rows (et_nodes et) (gradients et nodes0 wq.2)) u r * tr t r))))).
  2:{ intros r Hr. rewrite vnth_f_integrand by done.
      rewrite sumn_mul_r. apply sumn_ext. intros s _.
      rewrite sumn_mul_r. apply sumn_ext. intros u _. ring. }
  rewrite sumn_exchange.
  rewrite (sumn_ext 6 _ (fun _ => 0)), sumn_zero; [done|]. intros s _.
  rewrite sumn_exchange.
  rewrite (sumn_ext 6 _ (fun _ => 0)), sumn_zero; [done|]. intros u Hu.
  rewrite <- sumn_mul_l.
  rewrite (strain_rows_tr et nodes0 wq.2 t u Hok Hpu Hu). ring.
Qed.

(** X14. The inelastic force vector of an element is self-equilibrated:
    it is orthogonal to every rigid translation, so its components sum to
    zero over the nodes in each coordinate direction. *)
Theorem f_is_self_equilibrated (self : Solid.t) (et : element) (j : nat)
    (epsilon fj : vec) :
  Solid.etype self = Some et -> element_ok et -> partition_of_unity et ->
  is_mat 6 6 (Solid.C self) -> length epsilon = 6%nat ->
  Solid.f self j epsilon = Ok fj ->
  (forall t, dot fj (translation t (3 * et_nodes et)) = 0)
  /\ forall i, (i < 3)%nat -> sumn (et_nodes et) (fun a => vnth fj (3 * a + i)) = 0.
Proof.
  intros Het Hok Hpu HC Heps Hf.
  set (m := (3 * et_nodes et)%nat).
  assert (H : length fj = m /\ forall t, sumn m (fun r => vnth fj r * tr t r) = 0).
  { revert Hf. unfold Solid.f, Solid.get_etype.
    destruct (Solid.elements self !! j) as [e|]; [|done].
    cbn [mbind result_bind of_option].
    destruct (gather_rows (Solid.nodes self) e) as [nodes0|]; [|done].
    rewrite Het. cbn [mbind result_bind of_option].
    apply (for_each_inv _ (fun a => length a = m
                             /\ forall t, sumn m (fun r => vnth a r * tr t r) = 0)).
    - intros a wq a' [Ha Hs]. rewrite (f_step_unfold self et) by done.
      destruct (Qc_leb _ _); [done|]. intros [= <-].
      pose proof (is_mat_f_integrand et (Solid.C self) nodes0 epsilon wq Hok) as HL.
      split; [vec_len|]. intros t.
      rewrite (sumn_ext m _ (fun r => vnth a r * tr t r
                 + vnth (f_integrand et (Solid.C self) nodes0 epsilon wq) r * tr t r)).
      + rewrite sumn_plus, Hs. unfold m. rewrite f_integrand_tr by done. ring.
      + intros r _. rewrite vnth_vadd by (unfold m in Ha; lia). ring.
    - split; [apply length_zeros|]. intros t.
      rewrite (sumn_ext m _ (fun _ => 0)), sumn_zero; [done|].
      intros r _. rewrite vnth_zeros. ring. }
  destruct H as [Hlen Hs]. split.
  - intros t. rewrite (dot_sumn _ _ m); [| done | apply length_translation].
    rewrite <- (Hs t). apply sumn_ext. intros r Hr. by rewrite vnth_translation.
  - intros i Hi. rewrite sumn_component by done. apply Hs.
Qed.

Lemma f_is_self_equilibrated_witness :
  exists fj,
    Solid.f tet_strained 0 [0; 0; 1; 0; 0; 0] = Ok fj
    /\ sumn 4 (fun a => vnth fj (3 * a + 2)) = 0.
Proof.
  destruct (Solid.f tet_strained 0 [0; 0; 1; 0; 0; 0]) as [fj|] eqn:Hf;
    [|exfalso; revert Hf; vm_compute; discriminate].
  exists fj. split; [reflexivity|].
  apply (proj2 (f_is_self_equilibrated tet_strained Tetra1 0 [0; 0; 1; 0; 0; 0]
                  fj eq_refl Tetra1_ok
                  Tetra1_partition_of_unity is_mat_C_iso eq_refl Hf)). lia.
Defined.

(** ** The assembled inelastic force *)

Lemma lastpos_indicator idx (g : nat -> Qc) p :
  NoDup idx ->
  match lastpos idx p with
  | Some c => g c
  | None => 0
  end
  = sumn (length idx) (fun a => if decide (nth a idx 0%nat = p) then g a else 0).
Proof.
  intros Hnd.
  assert (Huniq : forall i j, (i < length idx)%nat -> (j < length idx)%nat ->
                              nth i idx 0%nat = nth j idx 0%nat -> i = j)
    by (apply NoDup_nth; by apply NoDup_ListNoDup).
  destruct (lastpos idx p) as [c|] eqn:Hp.
  - apply lastpos_Some in Hp as [Hc Hpc].
    rewrite (sumn_ext _ _ (fun a => if decide (c = a) then g a else 0)).
    + by rewrite sumn_indicator.
    + intros a Ha. destruct (decide (c = a)) as [<-|Hne].
      * by rewrite decide_True.
      * rewrite decide_False; [done|]. intros Ha'. apply Hne.
        apply Huniq; congruence.
  - apply lastpos_None in Hp.
    rewrite (sumn_ext _ _ (fun _ => 0)), sumn_zero; [done|]. intros a Ha.
    rewrite decide_False; [done|]. intros <-. apply Hp.
    by apply list_elem_of_In, nth_In.
Qed.

(** Writing the same values at the same indices once more changes
    nothing. *)
Lemma index_put1_repeated F idx v m p :
  Forall (fun i => (i < length F)%nat) idx -> length v = length idx ->
  vnth (index_put1 F (replicate (S m) idx) (replicate (S m) v)) p
  = match lastpos idx p with
    | Some c => vnth v c
    | None => vnth F p
    end.
Proof.
  intros Hidx Hv. revert F Hidx. induction m as [|m IH]; intros F Hidx.
  - unfold index_put1. cbn [replicate zip zip_with fold_left fst snd].
    by apply vnth_vput.
  - change (index_put1 F (replicate (S (S m)) idx) (replicate (S (S m)) v))
      with (index_put1 (vput F idx v) (replicate (S m) idx) (replicate (S m) v)).
    rewrite IH by (by rewrite length_vput).
    destruct (lastpos idx p) as [c|] eqn:Hp; [done|].
    rewrite vnth_vput by done. by rewrite Hp.
Qed.

Lemma map_const_replicate {A B} (b : B) (l : list A) :
  map (fun _ => b) l = replicate (length l) b.
Proof. induction l as [|x l IH]; [done|]. cbn [map length replicate]. by rewrite IH. Qed.

(** One step of the loop of [solve] over the inelastic strains. *)
Lemma force_step_entries self et F j e epsilon fj :
  well_formed self et -> length F = Solid.n_dofs self ->
  Solid.elements self !! j = Some e ->
  Solid.f self j epsilon = Ok fj -> length fj = (3 * et_nodes et)%nat ->
  exists F',
    Solid.force_step self F (j, epsilon) = Ok F'
    /\ length F' = Solid.n_dofs self
    /\ forall p, vnth F' p
                 = vnth F p + match lastpos (Solid.dof_indices e) p with
                              | Some c => vnth fj c
                              | None => 0
                              end.
Proof.
  intros Hwf HF Hj Hf Hfj.
  destruct (wf_element_at self et j e Hwf Hj) as [Harity Hrange].
  assert (Hidx : Forall (fun i => (i < length F)%nat) (Solid.dof_indices e)).
  { rewrite HF, (wf_dofs self et Hwf). by apply dof_indices_in_range. }
  set (dofs := Solid.dof_indices e) in *.
  assert (Hlen : length dofs = (3 * et_nodes et)%nat)
    by (unfold dofs; by rewrite length_dof_indices, Harity).
  unfold Solid.force_step. cbn [fst snd].
  rewrite (wf_indices _ _ Hwf), list_lookup_fmap, Hj.
  cbn [fmap option_fmap option_map of_option mbind result_bind meshgrid_xy fst].
  fold dofs.
  assert (HG : gather1 F (map (fun _ => dofs) dofs)
               = Ok (map (fun _ => map (fun n => nth n F 0) dofs) dofs)).
  { unfold gather1.
    rewrite (map_result_ok _ (fun _ => map (fun n => nth n F 0) dofs)).
    - by rewrite map_map.
    - apply Forall_map, Forall_forall. intros x _. simpl.
      by apply gather_rows_ok. }
  rewrite HG. cbn [mbind result_bind]. rewrite Hf. cbn [mbind result_bind].
  eexists. split; [reflexivity|]. split; [by rewrite length_index_put1|].
  intros p. rewrite map_map. rewrite !map_const_replicate.
  set (v := vadd (map (fun n => nth n F 0) dofs) fj).
  assert (Hv : length v = length dofs).
  { unfold v. rewrite length_vadd; rewrite length_map; [done | congruence]. }
  destruct (length dofs) as [|m] eqn:Hm.
  - destruct dofs; [|done]. unfold index_put1.
    cbn [replicate zip zip_with fold_left lastpos]. ring.
  - rewrite index_put1_repeated by (done || congruence).
    destruct (lastpos dofs p) as [c|] eqn:Hp; [|ring].
    apply lastpos_Some in Hp as [Hc Hpc]. unfold v.
    rewrite vnth_vadd by (rewrite length_map; congruence).
    f_equal. unfold vnth. rewrite (nth_map_lt _ _ _ 0%nat) by done. by rewrite Hpc.
Qed.

Lemma element_load_lastpos e fj p :
  NoDup e ->
  match lastpos (Solid.dof_indices e) p with
  | Some c => vnth fj c
  | None => 0
  end
  = element_load e fj p.
Proof.
  intros Hnd. rewrite (lastpos_indicator _ (vnth fj)) by (by apply NoDup_dof_indices).
  unfold element_load. rewrite length_dof_indices. apply sumn_ext. intros a Ha.
  unfold global_dof. by rewrite nth_dof_indices by done.
Qed.

Lemma f_shape self et j epsilon fj :
  Solid.etype self = Some et -> element_ok et ->
  Solid.f self j epsilon = Ok fj -> length fj = (3 * et_nodes et)%nat.
Proof.
  intros Het Hok. unfold Solid.f, Solid.get_etype.
  destruct (Solid.elements self !! j) as [e|]; [|done].
  cbn [mbind result_bind of_option].
  destruct (gather_rows (Solid.nodes self) e) as [nodes0|]; [|done].
  rewrite Het. cbn [mbind result_bind of_option].
  apply (for_each_inv _ (fun a => length a = (3 * et_nodes et)%nat));
    [|apply length_zeros].
  intros a wq a' Ha. rewrite (f_step_unfold self et) by done.
  destruct (Qc_leb _ _); [done|]. intros [= <-].
  rewrite length_vadd; [done|]. by rewrite is_mat_f_integrand.
Qed.

(** The loop over the strains from row [s] on. *)
Lemma force_loop_entries self et eps :
  well_formed self et -> Forall NoDup (Solid.elements self) ->
  forall s F0 F, (s + length eps <= length (Solid.elements self))%nat ->
  length F0 = Solid.n_dofs self ->
  for_each (Solid.force_step self) (imap (fun j e => ((s + j)%nat, e)) eps) F0 = Ok F ->
  (forall i, (i < length eps)%nat ->
             exists fj, Solid.f self (s + i) (nth i eps []) = Ok fj)
  /\ forall p,
       vnth F p
       = vnth F0 p
         + sumn (length eps) (fun i =>
             element_load (nth (s + i) (Solid.elements self) [])
                          (f_of self (s + i) (nth i eps [])) p).
Proof.
  intros Hwf Hnd. induction eps as [|ep eps IH]; intros s F0 F Hs HF0.
  - cbn [imap for_each length sumn]. intros [= <-].
    split; [intros i Hi; lia|]. intros p. ring.
  - rewrite imap_cons. cbn [for_each length] in *.
    replace (s + 0)%nat with s by lia.
    destruct (nth_lookup_or_length (Solid.elements self) s []) as [Hse|?]; [|lia].
    set (e := nth s (Solid.elements self) []) in *.
    destruct (Solid.f self s ep) as [fj|] eqn:Hf.
    2:{ unfold Solid.force_step. cbn [fst snd].
        rewrite (wf_indices _ _ Hwf), list_lookup_fmap, Hse.
        cbn [fmap option_fmap option_map of_option mbind result_bind].
        destruct (gather1 F0 _); [|done]. cbn [mbind result_bind].
        by rewrite Hf. }
    pose proof (f_shape self et s ep fj (wf_etype _ _ Hwf) (wf_element _ _ Hwf) Hf) as Hfj.
    destruct (force_step_entries self et F0 s e ep fj Hwf HF0 Hse Hf Hfj)
      as (F' & -> & HF' & Hent').
    intros Hloop.
    rewrite (imap_ext _ (fun j x => ((S s + j)%nat, x))) in Hloop
      by (intros i x _; simpl; f_equal; lia).
    destruct (IH (S s) F' F ltac:(lia) HF' Hloop) as [Hfs Hent].
    split.
    + intros [|i] Hi.
      * replace (s + 0)%nat with s by lia. by exists fj.
      * replace (s + S i)%nat with (S s + i)%nat by lia. cbn [nth]. apply Hfs. lia.
    + intros p. rewrite Hent, Hent', sumn_S_shift.
      replace (s + 0)%nat with s by lia. fold e. cbn [nth].
      unfold f_of at 2. rewrite Hf.
      rewrite (element_load_lastpos e fj p)
        by (by apply (Forall_lookup_1 _ _ _ _ Hnd Hse)).
      rewrite (sumn_ext (length eps) _ (fun i =>
        element_load (nth (s + S i) (Solid.elements self) [])
                     (f_of self (s + S i) (nth i eps [])) p)).
      * ring.
      * intros i _. by replace (s + S i)%nat with (S s + i)%nat by lia.
Qed.

(** X15. Assembly of the inelastic forces: when no element repeats a node
    and there are no more strain rows than elements, the vector that
    [solve] assembles holds at every DOF the sum of the entries of
    [f(j, strains[j])] that belong to this DOF, over the elements that
    have a strain row; elements without a strain row contribute nothing. *)
Theorem inelastic_forces_assemble (self : Solid.t) (et : element) (eps : mat)
    (F : vec) :
  well_formed self et -> Forall NoDup (Solid.elements self) ->
  Solid.strains self = Some eps ->
  (length eps <= length (Solid.elements self))%nat ->
  Solid.inelastic_forces self = Ok F ->
  (forall j, (j < length eps)%nat ->
             exists fj, Solid.f self j (nth j eps []) = Ok fj)
  /\ forall p,
       vnth F p
       = sumn (length eps) (fun j =>
           element_load (nth j (Solid.elements self) [])
                        (f_of self j (nth j eps [])) p).
Proof.
  intros Hwf Hnd Heps Hlen. unfold Solid.inelastic_forces. rewrite Heps. intros HF.
  destruct (force_loop_entries self et eps Hwf Hnd 0%nat _ F ltac:(lia)
              (length_zeros _) HF) as [Hfs Hent].
  split; [exact Hfs|]. intros p. rewrite Hent, vnth_zeros. cbn [Nat.add]. ring.
Qed.

Lemma inelastic_forces_assemble_witness :
  exists F,
    Solid.inelastic_forces (two_tets [0; 0; 1] (Some [[0; 0; 1; 0; 0; 0]])) = Ok F
    /\ forall p,
         vnth F p
         = sumn 1 (fun j =>
             element_load (nth j [[0; 1; 2; 3]; [1; 2; 3; 4]]%nat [])
               (f_of (two_tets [0; 0; 1] (Some [[0; 0; 1; 0; 0; 0]])) j
                     (nth j [[0; 0; 1; 0; 0; 0]] [])) p).
Proof.
  destruct (Solid.inelastic_forces (two_tets [0; 0; 1] (Some [[0; 0; 1; 0; 0; 0]])))
    as [F|] eqn:HF; [|exfalso; revert HF; vm_compute; discriminate].
  exists F. split; [reflexivity|].
  apply (proj2 (inelastic_forces_assemble
                  (two_tets [0; 0; 1] (Some [[0; 0; 1; 0; 0; 0]])) Tetra1
                  [[0; 0; 1; 0; 0; 0]] F (two_tets_well_formed _ _)
                  (two_tets_NoDup _ _) eq_refl ltac:(simpl; lia) HF)).
Defined.




(** ** The outcomes of the element integrations *)





Lemma k_f_loops_raise_alike self et nodes0 epsilon qs err :
  Solid.etype self = Some et ->
  forall a b,
    for_each (Solid.k_step self nodes0) qs a = Err err
    <-> for_each (Solid.f_step self nodes0 epsilon) qs b = Err err.
Proof.
  intros Het. induction qs as [|wq qs IH]; intros a b; [by split|].
  cbn [for_each]. rewrite (k_step_unfold self et), (f_step_unfold self et) by done.
  destruct (Qc_leb _ _); [split; congruence | apply IH].
Qed.

(** X18. With a 6 x 6 constitutive tensor and a strain of six components,
    [f(j, epsilon)] raises exactly the exception that [k(j)] raises, and
    returns exactly when [k(j)] returns. *)
Theorem f_raises_as_k (self : Solid.t) (j : nat) (epsilon : vec) :
  is_mat 6 6 (Solid.C self) -> length epsilon = 6%nat ->
  (forall err, Solid.f self j epsilon = Err err <-> Solid.k self j = Err err)
  /\ ((exists fj, Solid.f self j epsilon = Ok fj)
      <-> exists kj, Solid.k self j = Ok kj).
Proof.
  intros _ _.
  assert (H : forall err, Solid.f self j epsilon = Err err <-> Solid.k self j = Err err).
  { intros err. unfold Solid.f, Solid.k, Solid.get_etype.
    destruct (Solid.elements self !! j) as [e|]; [|split; cbn; congruence].
    cbn [mbind result_bind of_option].
    destruct (gather_rows (Solid.nodes self) e) as [nodes0|]; [|split; cbn; congruence].
    cbn [mbind result_bind].
    destruct (Solid.etype self) as [et|] eqn:Het; [|split; cbn; congruence].
    cbn [mbind result_bind of_option]. symmetry.
    by apply (k_f_loops_raise_alike self et). }
  split; [exact H|]. split.
  - intros [fj Hf]. destruct (Solid.k self j) as [kj|err]; [by exists kj|].
    pose proof (proj2 (H err) eq_refl). congruence.
  - intros [kj Hk]. destruct (Solid.f self j epsilon) as [fj|err]; [by exists fj|].
    pose proof (proj1 (H err) eq_refl). congruence.
Qed.

Lemma f_raises_as_k_witness :
  (forall err, Solid.f inverted_solid 0 [0; 0; 1; 0; 0; 0] = Err err
               <-> Solid.k inverted_solid 0 = Err err)
  /\ ((exists fj, Solid.f tet_clamped 0 [0; 0; 1; 0; 0; 0] = Ok fj)
      <-> exists kj, Solid.k tet_clamped 0 = Ok kj).
Proof.
  split.
  - apply (f_raises_as_k inverted_solid 0 [0; 0; 1; 0; 0; 0] is_mat_C_iso eq_refl).
  - apply (f_raises_as_k tet_clamped 0 [0; 0; 1; 0; 0; 0] is_mat_C_iso eq_refl).
Defined.

(** ** Further properties of [solve] *)

Lemma reshape3_ravel {A} (t : list (list A)) :
  Forall (fun r => length r = 3%nat) t -> reshape3 (length t) (ravel t) = t.
Proof.
  induction 1 as [|r t Hr _ IH]; [done|].
  cbn [length reshape3]. unfold ravel in *. cbn [concat].
  rewrite take_app_length' by done. rewrite drop_app_length' by done.
  by rewrite IH.
Qed.

(** The two fields that [solve] returns have one row of three entries per
    node. *)
Lemma solve_reshaped self u f :
  boundary_ok self -> Solid.solve self = Ok (u, f) ->
  u = reshape3 (length (Solid.displacements self)) (ravel u)
  /\ f = reshape3 (length (Solid.displacements self)) (ravel f).
Proof.
  intros Hbc Hsolve.
  destruct (solve_inv self u f Hbc Hsolve) as (K & F & u_red & HK & HF & Hred & Hu & Hf).
  pose proof (stiffness_shape self K HK) as HKs.
  pose proof Hsolve as Hs'. rewrite (solve_unfold self K F HK HF) in Hs'.
  cbv zeta in Hs'.
  rewrite source_reduced_stiffness,
    (source_reduced_load self K F Hbc HKs (inelastic_forces_shape self F HF)),
    Hred in Hs'.
  assert (E : forall a b c d : mat,
             Ok (a, b) = Ok (c, d) :> result (mat * mat) -> a = c /\ b = d)
    by (intros; split; congruence).
  apply E in Hs' as [Hu' Hf'].
  rewrite length_vput, (length_ravel_3 _ (bc_displacements _ Hbc)), div3 in Hu'.
  rewrite length_matvec, (proj1 HKs), <- (bc_displacements_len _ Hbc), div3 in Hf'.
  split.
  - rewrite Hu. exact (eq_sym Hu').
  - rewrite Hf, Hu. exact (eq_sym Hf').
Qed.

Lemma nonzero_from_none s mask :
  Forall (fun b => b = true) mask -> nonzero_from s (map negb mask) = [].
Proof.
  intros H. revert s. induction H as [|b mask -> _ IH]; intros s; [done|].
  simpl. apply IH.
Qed.

(** X19. With every DOF constrained there is nothing to solve for:
    [solve] returns the prescribed displacements as they are and the
    forces [K @ displacements]. *)
Theorem solve_all_constrained (self : Solid.t) (K : mat) (F : vec) :
  boundary_ok self ->
  Forall (Forall (fun b => b = true)) (Solid.constraints self) ->
  Solid.stiffness self = Ok K ->
  Solid.inelastic_forces self = Ok F ->
  exists f,
    Solid.solve self = Ok (Solid.displacements self, f)
    /\ ravel f = matvec K (ravel (Solid.displacements self)).
Proof.
  intros Hbc Hall HK HF.
  assert (HU : free_dofs self = []).
  { unfold free_dofs, nonzero. apply nonzero_from_none.
    unfold ravel. by apply Forall_concat. }
  assert (Hred : linalg_solve (reduced_stiffness K (free_dofs self))
                   (reduced_load (ravel (Solid.forces self)) F K
                      (ravel (Solid.displacements self))
                      (constrained_dofs self) (free_dofs self)) = Ok [])
    by (by rewrite HU).
  destruct (solve_result self K F [] Hbc HK HF Hred) as (u & f & Hs & Hu & Hf).
  rewrite HU in Hu. change (vput _ [] []) with (ravel (Solid.displacements self)) in Hu.
  destruct (solve_reshaped self u f Hbc Hs) as [Hu' _].
  rewrite Hu, (reshape3_ravel _ (bc_displacements _ Hbc)) in Hu'. subst u.
  exists f. split; [exact Hs | exact Hf].
Qed.

Lemma solve_all_constrained_witness :
  exists f,
    Solid.solve (tet_solid (zero_field 4) tet_nodes (replicate 4 [true; true; true]) None)
    = Ok (tet_nodes, f)
    /\ ravel f = matvec tet_K (ravel tet_nodes).
Proof.
  apply (solve_all_constrained
           (tet_solid (zero_field 4) tet_nodes (replicate 4 [true; true; true]) None)
           tet_K (zeros 12)).
  - split; by repeat constructor.
  - by repeat constructor.
  - apply tet_K_stiffness.
  - reflexivity.
Defined.

Lemma ravel_madd (A B : mat) n :
  length A = length B ->
  Forall (fun r => length r = n) A -> Forall (fun r => length r = n) B ->
  ravel (madd A B) = vadd (ravel A) (ravel B).
Proof.
  intros Hl HA. revert B Hl. induction HA as [|r A Hr HA IH]; intros [|s B] Hl HB;
    simpl in Hl; try lia; [done|].
  apply Forall_cons_1 in HB as [Hs HB].
  unfold ravel, madd, vadd in *. cbn [zip_with concat].
  rewrite zip_with_app by congruence. f_equal. apply IH; [lia | done].
Qed.

Lemma ravel_mscale c (A : mat) : ravel (mscale c A) = vscale c (ravel A).
Proof.
  unfold ravel, mscale, vscale. induction A as [|r A IH]; [done|].
  cbn [map concat]. by rewrite map_app, IH.
Qed.

Lemma matvec_vscale A c x : matvec A (vscale c x) = vscale c (matvec A x).
Proof.
  unfold matvec, vscale at 2. rewrite map_map. apply map_ext. intros r.
  apply dot_vscale_r.
Qed.

Lemma combined_boundary_ok self c g1 g2 :
  boundary_ok (with_forces self g1) -> boundary_ok (with_forces self g2) ->
  boundary_ok (with_forces self (madd (mscale c g1) g2)).
Proof.
  intros [H1 Hd Hc H1l Hdl Hcl] [H2 _ _ H2l _ _].
  cbn [with_forces Solid.forces Solid.displacements Solid.constraints Solid.n_dofs] in *.
  assert (Hl : length (mscale c g1) = length g2) by (rewrite length_mscale; lia).
  split; cbn [with_forces Solid.forces Solid.displacements Solid.constraints
              Solid.n_dofs]; try done.
  - unfold madd. apply Forall_forall. intros r Hr.
    apply elem_of_lookup_zip_with in Hr as (i & a & b & -> & Ha & Hb).
    unfold mscale in Ha. change (map (vscale c) g1) with (vscale c <$> g1) in Ha.
    rewrite list_lookup_fmap in Ha.
    destruct (g1 !! i) as [a'|] eqn:Ha'; [|done]. injection Ha as <-.
    rewrite length_vadd_min, length_vscale.
    rewrite (Forall_lookup_1 _ _ _ _ H1 Ha'), (Forall_lookup_1 _ _ _ _ H2 Hb). done.
  - unfold madd. rewrite length_zip_with, length_mscale. lia.
Qed.

(** The displacement vector that [solve] reconstructs, entry by entry. *)
Lemma vnth_reconstructed self x p :
  boundary_ok self -> length x = length (free_dofs self) ->
  (forall i, i ∈ constrained_dofs self ->
             vnth (ravel (Solid.displacements self)) i = 0) ->
  vnth (vput (ravel (Solid.displacements self)) (free_dofs self) x) p
  = match lastpos (free_dofs self) p with
    | Some k => vnth x k
    | None => 0
    end.
Proof.
  intros Hbc Hx Hd.
  rewrite vnth_vput by (done || apply (free_in_range_d self Hbc)).
  destruct (lastpos (free_dofs self) p) as [k|] eqn:Hp; [done|].
  apply lastpos_None in Hp.
  destruct (ravel (Solid.constraints self) !! p) as [b|] eqn:Hb.
  - destruct b.
    + apply Hd. by apply elem_of_nonzero.
    + exfalso. apply Hp. unfold free_dofs. apply elem_of_nonzero.
      by rewrite list_lookup_fmap, Hb.
  - apply vnth_ge. apply lookup_ge_None in Hb.
    rewrite (length_mask self Hbc) in Hb.
    rewrite (length_ravel_3 _ (bc_displacements _ Hbc)), (bc_displacements_len _ Hbc).
    done.
Qed.

Lemma reduced_load_homogeneous ext F K d C0 U :
  (forall i, i ∈ C0 -> vnth d i = 0) -> (forall i, vnth F i = 0) ->
  reduced_load ext F K d C0 U = select ext U.
Proof.
  intros Hd HF. unfold reduced_load, select. apply map_ext. intros i.
  rewrite HF.
  assert (Hz : vsum (map (fun j => entry K i j * vnth d j) C0) = 0).
  { apply vsum_all_zero, Forall_map, Forall_forall. intros j Hj. simpl.
    rewrite (Hd j Hj). ring. }
  rewrite Hz. ring.
Qed.

Lemma select_vadd_vscale c a b U :
  length a = length b ->
  select (vadd (vscale c a) b) U = vadd (vscale c (select a U)) (select b U).
Proof.
  intros Hl. unfold select. induction U as [|i U IH]; [done|].
  cbn [map vscale vadd zip_with]. f_equal; [|exact IH].
  rewrite vnth_vadd by (by rewrite length_vscale). by rewrite vnth_vscale.
Qed.

(** X20. Superposition: with zero prescribed displacements at the
    constrained DOFs and zero or absent inelastic strains, the displacements
    and the forces that [solve] returns are linear in the external forces. *)
Theorem solve_superposition (self : Solid.t) (c : Qc) (g1 g2 u1 f1 u2 f2 : mat) :
  boundary_ok (with_forces self g1) -> boundary_ok (with_forces self g2) ->
  (forall i, i ∈ constrained_dofs self ->
             vnth (ravel (Solid.displacements self)) i = 0) ->
  strains_zero self ->
  Solid.solve (with_forces self g1) = Ok (u1, f1) ->
  Solid.solve (with_forces self g2) = Ok (u2, f2) ->
  exists u f,
    Solid.solve (with_forces self (madd (mscale c g1) g2)) = Ok (u, f)
    /\ ravel u = vadd (vscale c (ravel u1)) (ravel u2)
    /\ ravel f = vadd (vscale c (ravel f1)) (ravel f2).
Proof.
  intros Hbc1 Hbc2 Hd Hz Hs1 Hs2.
  pose proof (combined_boundary_ok self c g1 g2 Hbc1 Hbc2) as Hbc3.
  destruct (solve_inv _ u1 f1 Hbc1 Hs1) as (K & F & x1 & HK & HF & Hx1 & Hu1 & Hf1).
  destruct (solve_inv _ u2 f2 Hbc2 Hs2) as (K' & F' & x2 & HK' & HF' & Hx2 & Hu2 & Hf2).
  change (Solid.stiffness self = Ok K) in HK.
  change (Solid.stiffness self = Ok K') in HK'.
  change (Solid.inelastic_forces self = Ok F) in HF.
  change (Solid.inelastic_forces self = Ok F') in HF'.
  assert (K' = K) as -> by congruence. assert (F' = F) as -> by congruence.
  clear HK' HF'.
  pose proof (stiffness_shape self K HK) as HKs.
  pose proof (inelastic_forces_zero self F Hz HF) as HF0.
  assert (HFz : forall i, vnth F i = 0) by (intros i; rewrite HF0; apply vnth_zeros).
  cbn [with_forces Solid.forces Solid.displacements Solid.constraints] in *.
  change (free_dofs (with_forces self g1)) with (free_dofs self) in *.
  change (free_dofs (with_forces self g2)) with (free_dofs self) in *.
  change (constrained_dofs (with_forces self g1)) with (constrained_dofs self) in *.
  change (constrained_dofs (with_forces self g2)) with (constrained_dofs self) in *.
  set (U := free_dofs self) in *. set (C0 := constrained_dofs self) in *.
  set (d := ravel (Solid.displacements self)) in *.
  rewrite (reduced_load_homogeneous _ F K d C0 U Hd HFz) in Hx1.
  rewrite (reduced_load_homogeneous _ F K d C0 U Hd HFz) in Hx2.
  pose proof (is_mat_reduced_stiffness K U) as HKr.
  assert (Hl1 : length (ravel g1) = Solid.n_dofs self).
  { pose proof (length_ravel_3 _ (bc_forces _ Hbc1)) as H.
    pose proof (bc_forces_len _ Hbc1) as H'.
    cbn [with_forces Solid.forces Solid.n_dofs] in H, H'. lia. }
  assert (Hl2 : length (ravel g2) = Solid.n_dofs self).
  { pose proof (length_ravel_3 _ (bc_forces _ Hbc2)) as H.
    pose proof (bc_forces_len _ Hbc2) as H'.
    cbn [with_forces Solid.forces Solid.n_dofs] in H, H'. lia. }
  destruct (linalg_solve_sound _ _ _ _ HKr (length_select _ _) Hx1) as (Lx1 & Ex1 & _).
  destruct (linalg_solve_sound _ _ _ _ HKr (length_select _ _) Hx2) as (Lx2 & Ex2 & _).
  pose proof (linalg_solve_nonsingular _ _ _ _ HKr (length_select _ _) Hx1) as Hns.
  assert (Hg3 : ravel (madd (mscale c g1) g2) = vadd (vscale c (ravel g1)) (ravel g2)).
  { rewrite (ravel_madd _ _ 3), ravel_mscale; [done | | | apply (bc_forces _ Hbc2)].
    - rewrite length_mscale.
      pose proof (bc_forces_len _ Hbc1). pose proof (bc_forces_len _ Hbc2).
      cbn [with_forces Solid.forces Solid.n_dofs] in *. lia.
    - unfold mscale. apply Forall_map.
      eapply Forall_impl; [apply (bc_forces _ Hbc1)|].
      intros r Hr. simpl. by rewrite length_vscale. }
  set (y := vadd (vscale c x1) x2).
  assert (Ly : length y = length U) by (unfold y; vec_len).
  assert (Ey : matvec (reduced_stiffness K U) y
               = select (ravel (madd (mscale c g1) g2)) U).
  { unfold y. rewrite matvec_vadd by (rewrite length_vscale; congruence).
    rewrite matvec_vscale, Ex1, Ex2, Hg3.
    by rewrite select_vadd_vscale by congruence. }
  destruct (linalg_solve_complete _ (reduced_stiffness K U)
              (select (ravel (madd (mscale c g1) g2)) U) HKr (length_select _ _) Hns)
    as [x Hx].
  destruct (linalg_solve_sound _ _ _ _ HKr (length_select _ _) Hx) as (Lx & _ & Uniq).
  rewrite <- (Uniq y Ly Ey) in Hx. clear x Lx Uniq.
  assert (Hx3 : linalg_solve
                  (reduced_stiffness K (free_dofs (with_forces self (madd (mscale c g1) g2))))
                  (reduced_load
                     (ravel (Solid.forces (with_forces self (madd (mscale c g1) g2))))
                     F K
                     (ravel (Solid.displacements (with_forces self (madd (mscale c g1) g2))))
                     (constrained_dofs (with_forces self (madd (mscale c g1) g2)))
                     (free_dofs (with_forces self (madd (mscale c g1) g2))))
                = Ok y).
  { change (linalg_solve (reduced_stiffness K U)
              (reduced_load (ravel (madd (mscale c g1) g2)) F K d C0 U) = Ok y).
    by rewrite (reduced_load_homogeneous _ F K d C0 U Hd HFz). }
  destruct (solve_result _ K F y Hbc3 HK HF Hx3) as (u & f & Hs & Hu & Hf).
  change (ravel u = vput d U y) in Hu.
  exists u, f. split; [exact Hs|].
  assert (Hsum : ravel u = vadd (vscale c (ravel u1)) (ravel u2)).
  { rewrite Hu, Hu1, Hu2. apply vec_ext.
    { rewrite length_vadd_min, length_vscale, !length_vput. lia. }
    intros p _. rewrite vnth_vadd by (rewrite length_vscale, !length_vput; done).
    rewrite vnth_vscale.
    assert (Hrec : forall x, length x = length U ->
              vnth (vput d U x) p = match lastpos U p with
                                    | Some k => vnth x k
                                    | None => 0
                                    end)
      by (intros x0 Hx0;
          apply (vnth_reconstructed (with_forces self g1) x0 p Hbc1 Hx0 Hd)).
    rewrite !Hrec by done.
    destruct (lastpos U p) as [k|]; [|ring].
    unfold y. rewrite vnth_vadd by (rewrite length_vscale; congruence).
    by rewrite vnth_vscale. }
  split; [exact Hsum|].
  rewrite Hf, Hf1, Hf2, Hsum.
  rewrite matvec_vadd, matvec_vscale; [done|].
  rewrite length_vscale, Hu1, Hu2, !length_vput. done.
Qed.

Lemma solve_superposition_witness :
  exists u1 f1 u2 f2 u f,
    Solid.solve (two_tets [0; 0; 1] None) = Ok (u1, f1)
    /\ Solid.solve (two_tets [1; 0; 0] None) = Ok (u2, f2)
    /\ Solid.solve (with_forces (two_tets [0; 0; 0] None)
                      (madd (mscale half (zero_field 4 ++ [[0; 0; 1]]))
                            (zero_field 4 ++ [[1; 0; 0]])))
       = Ok (u, f)
    /\ ravel u = vadd (vscale half (ravel u1)) (ravel u2)
    /\ ravel f = vadd (vscale half (ravel f1)) (ravel f2).
Proof.
  destruct (Solid.solve (two_tets [0; 0; 1] None)) as [[u1 f1]|] eqn:H1;
    [|exfalso; revert H1; vm_compute; discriminate].
  destruct (Solid.solve (two_tets [1; 0; 0] None)) as [[u2 f2]|] eqn:H2;
    [|exfalso; revert H2; vm_compute; discriminate].
  exists u1, f1, u2, f2.
  destruct (solve_superposition (two_tets [0; 0; 0] None) half
              (zero_field 4 ++ [[0; 0; 1]]) (zero_field 4 ++ [[1; 0; 0]])
              u1 f1 u2 f2) as (u & f & Hs & Hu & Hf).
  - split; by repeat constructor.
  - split; by repeat constructor.
  - intros i _. apply vnth_all_zero. by repeat constructor.
  - exact I.
  - exact H1.
  - exact H2.
  - exists u, f. split; [reflexivity|]. split; [reflexivity|].
    split; [exact Hs|]. split; [exact Hu | exact Hf].
Defined.

(** ** The strain energy is not negative *)

Lemma matvec_zeros2 r c x : matvec (zeros2 r c) x = zeros r.
Proof. rewrite <- (length_zeros2_rows r c) at 2. apply matvec_zeros_l. Qed.

Lemma Qc_mult_nonneg (a b : Qc) : 0 <= a -> 0 <= b -> 0 <= a * b.
Proof.
  intros Ha Hb. replace (0 : Qc) with (0 * b) by ring.
  by apply Qcmult_le_compat_r.
Qed.

Lemma dot_transpose (Dm : mat) p m (x v : vec) :
  is_mat p m Dm -> (0 < p)%nat -> length x = m -> length v = p ->
  dot x (matvec (transpose Dm) v) = dot (matvec Dm x) v.
Proof.
  intros HD Hp Hx Hv.
  pose proof (is_mat_ncols p m Dm HD Hp) as HnD.
  pose proof (is_mat_transpose Dm) as HT. rewrite HnD, (proj1 HD) in HT.
  rewrite (dot_sumn _ _ m); [| done | by rewrite length_matvec, (proj1 HT)].
  rewrite (dot_sumn _ _ p); [| by rewrite length_matvec, (proj1 HD) | done].
  rewrite (sumn_ext m _ (fun r => sumn p (fun t => vnth x r * entry Dm t r * vnth v t))).
  2:{ intros r Hr. rewrite vnth_matvec by (by rewrite (proj1 HT)).
      rewrite (dot_sumn _ _ p); [| by apply (is_mat_row m p) | done].
      rewrite sumn_mul_l. apply sumn_ext. intros t Ht.
      change (vnth (nth r (transpose Dm) []) t) with (entry (transpose Dm) r t).
      rewrite entry_transpose by (by rewrite HnD). ring. }
  rewrite sumn_exchange. apply sumn_ext. intros t Ht.
  rewrite vnth_matvec by (by rewrite (proj1 HD)).
  rewrite (dot_sumn _ _ m); [| by apply (is_mat_row p m) | done].
  rewrite sumn_mul_r. apply sumn_ext. intros r _. unfold entry. ring.
Qed.

Lemma matvec_mscale c A x : matvec (mscale c A) x = vscale c (matvec A x).
Proof.
  unfold matvec, mscale, vscale. rewrite !map_map. apply map_ext. intros r.
  apply dot_vscale.
Qed.

Lemma dot_vscale_r_r x v d : dot x (vscale_r v d) = dot x v * d.
Proof.
  revert v. induction x as [|a x IH]; intros [|b v]; cbn [vscale_r map];
    rewrite ?dot_nil_l, ?dot_nil_r, ?dot_cons; try ring.
  fold (vscale_r v d). rewrite IH. ring.
Qed.

(** The quadratic form of the integrand of the element stiffness. *)
Lemma k_integrand_energy et C0 nodes0 wq x :
  element_ok et -> is_mat 6 6 C0 -> length x = (3 * et_nodes et)%nat ->
  dot x (matvec (k_integrand et C0 nodes0 wq) x)
  = wq.1 * det (jacobian et nodes0 wq.2)
    * dot (matvec (D_rows (et_nodes et) (gradients et nodes0 wq.2)) x)
          (matvec C0 (matvec (D_rows (et_nodes et) (gradients et nodes0 wq.2)) x)).
Proof.
  intros Hok HC Hx. unfold k_integrand. cbv zeta.
  set (Dm := D_rows (et_nodes et) (gradients et nodes0 wq.2)).
  pose proof (is_mat_strain_rows et nodes0 wq.2 Hok) as HD. fold Dm in HD.
  set (m := (3 * et_nodes et)%nat) in *.
  pose proof (is_mat_ncols 6 m Dm HD ltac:(lia)) as HnD.
  pose proof (is_mat_ncols 6 6 C0 HC ltac:(lia)) as HnC.
  assert (HW : is_mat m 6 (mscale wq.1 (transpose Dm))).
  { apply is_mat_mscale. pose proof (is_mat_transpose Dm) as H.
    rewrite HnD in H. by rewrite (proj1 HD) in H. }
  assert (HM : is_mat m 6 (matmul (mscale wq.1 (transpose Dm)) C0)).
  { pose proof (is_mat_matmul (mscale wq.1 (transpose Dm)) C0) as H.
    by rewrite (proj1 HW), HnC in H. }
  assert (Le : length (matvec Dm x) = 6%nat) by (by rewrite length_matvec, (proj1 HD)).
  assert (Lc : length (matvec C0 (matvec Dm x)) = 6%nat)
    by (by rewrite length_matvec, (proj1 HC)).
  rewrite matvec_mscale_r, dot_vscale_r_r.
  rewrite (matvec_matmul m 6 m) by (done || lia).
  rewrite (matvec_matmul m 6 6) by (done || lia).
  rewrite matvec_mscale. rewrite dot_vscale_r.
  rewrite (dot_transpose Dm 6 m) by (done || lia). ring.
Qed.

(** The element stiffness is positive semi-definite. *)
Lemma k_psd (self : Solid.t) (et : element) (j : nat) (kj : mat) :
  Solid.etype self = Some et -> element_ok et ->
  is_mat 6 6 (Solid.C self) -> positive_semidefinite 6 (Solid.C self) ->
  Forall (fun w => 0 <= w) (et_iweights et) ->
  Solid.k self j = Ok kj ->
  positive_semidefinite (3 * et_nodes et) kj.
Proof.
  intros Het Hok HC Hpsd Hw. unfold Solid.k, Solid.get_etype.
  destruct (Solid.elements self !! j) as [e|]; [|done].
  cbn [mbind result_bind of_option].
  destruct (gather_rows (Solid.nodes self) e) as [nodes0|]; [|done].
  rewrite Het. cbn [mbind result_bind of_option]. intros Hk.
  set (m := (3 * et_nodes et)%nat) in *.
  assert (H : is_mat m m kj /\ positive_semidefinite m kj); [|by destruct H].
  eapply (for_each_inv_in _ (fun a => is_mat m m a /\ positive_semidefinite m a));
    [| split | exact Hk].
  - intros a wq a' Hin [Ha Hs]. rewrite (k_step_unfold self et) by done.
    destruct (Qc_leb _ _) eqn:Hleb; [done|]. intros [= <-].
    assert (Hpos : 0 < det (jacobian et nodes0 wq.2)).
    { apply Qcnot_le_lt. intros Hle. apply Qc_leb_le in Hle. congruence. }
    assert (Hwq : 0 <= wq.1).
    { destruct wq as [w q]. apply elem_of_zip_l in Hin.
      rewrite Forall_forall in Hw. by apply Hw. }
    pose proof (is_mat_k_integrand et (Solid.C self) nodes0 wq Hok) as HT.
    split; [by apply is_mat_madd|]. intros x Hx.
    rewrite (matvec_madd m m) by done.
    rewrite dot_vadd_r by (by rewrite !length_matvec, (proj1 Ha), (proj1 HT)).
    rewrite k_integrand_energy by done.
    set (eps := matvec (D_rows (et_nodes et) (gradients et nodes0 wq.2)) x).
    assert (Le : length eps = 6%nat).
    { unfold eps. rewrite length_matvec.
      apply (is_mat_strain_rows et nodes0 wq.2 Hok). }
    pose proof (Hs x Hx) as H1. pose proof (Hpsd eps Le) as H2.
    apply Qcle_trans with (0 + 0); [by rewrite Qcplus_0_l|].
    apply Qcplus_le_compat; [done|].
    apply Qc_mult_nonneg; [|done].
    apply Qc_mult_nonneg; [done | by apply Qclt_le_weak].
  - apply is_mat_zeros2.
  - intros x Hx. rewrite matvec_zeros2, dot_zeros_r. apply Qcle_refl.
Qed.

Lemma Qc_square_nonneg (a : Qc) : 0 <= a * a.
Proof.
  destruct (Qclt_le_dec a 0) as [Hneg|Hpos].
  - replace (a * a) with ((- a) * (- a)) by ring.
    assert (H : 0 <= - a).
    { apply Qclt_le_weak in Hneg. apply Qcopp_le_compat in Hneg.
      by replace (- 0) with (0 : Qc) in Hneg by ring. }
    by apply Qc_mult_nonneg.
  - by apply Qc_mult_nonneg.
Qed.

(** The quadratic form of what one element adds to the assembled matrix
    is the quadratic form of its element matrix on the DOFs of the
    element. *)
Lemma scatter_add_energy n K dofs kj (x : vec) :
  is_mat n n K -> Forall (fun i => (i < n)%nat) dofs -> NoDup dofs ->
  is_mat (length dofs) (length dofs) kj -> length x = n ->
  dot x (matvec (scatter_add K dofs kj) x)
  = dot x (matvec K x) + dot (select x dofs) (matvec kj (select x dofs)).
Proof.
  intros HK Hidx Hnd Hkj Hx. set (m := length dofs) in *.
  pose proof (is_mat_scatter_add n K dofs kj HK) as HK'.
  assert (Hq : forall (A : mat), is_mat n n A ->
            dot x (matvec A x)
            = sumn n (fun p => sumn n (fun q => vnth x p * entry A p q * vnth x q))).
  { intros A HA. rewrite (dot_sumn _ _ n); [| done | by rewrite length_matvec, (proj1 HA)].
    apply sumn_ext. intros p Hp. rewrite vnth_matvec by (by rewrite (proj1 HA)).
    rewrite (dot_sumn _ _ n); [| by apply (is_mat_row n n) | done].
    rewrite sumn_mul_l. apply sumn_ext. intros q _. unfold entry. ring. }
  rewrite (Hq _ HK'), (Hq _ HK).
  rewrite (sumn_ext n _ (fun p =>
    sumn n (fun q => vnth x p * entry K p q * vnth x q)
    + match lastpos dofs p with
      | Some c => sumn m (fun r => entry kj r c * vnth x p * vnth x (nth r dofs 0%nat))
      | None => 0
      end)).
  2:{ intros p Hp.
      rewrite (sumn_ext n _ (fun q =>
        vnth x p * entry K p q * vnth x q
        + match lastpos dofs q with
          | Some r => match lastpos dofs p with
                      | Some c => entry kj r c
                      | None => 0
                      end * vnth x p * vnth x q
          | None => 0
          end)).
      2:{ intros q _. rewrite (entry_scatter_add n) by done.
          destruct (lastpos dofs q), (lastpos dofs p); ring. }
      rewrite sumn_plus. f_equal.
      rewrite (sumn_lastpos n dofs
                 (fun r q => match lastpos dofs p with
                             | Some c => entry kj r c
                             | None => 0
                             end * vnth x p * vnth x q)) by done.
      fold m. destruct (lastpos dofs p) as [c|]; [done|].
      rewrite (sumn_ext m _ (fun _ => 0)), sumn_zero; [done|]. intros r _. ring. }
  rewrite sumn_plus. f_equal.
  rewrite (sumn_lastpos n dofs
             (fun c p => sumn m (fun r => entry kj r c * vnth x p
                                          * vnth x (nth r dofs 0%nat)))) by done.
  fold m.
  rewrite (dot_sumn _ _ m);
    [| by rewrite length_select | by rewrite length_matvec, (proj1 Hkj)].
  rewrite sumn_exchange. apply sumn_ext. intros r Hr.
  rewrite vnth_matvec by (by rewrite (proj1 Hkj)).
  rewrite (dot_sumn _ _ m); [| by apply (is_mat_row m m) | by rewrite length_select].
  rewrite sumn_mul_l. apply sumn_ext. intros c Hc.
  rewrite !vnth_select by done. unfold entry. ring.
Qed.

(** X21. The strain energy is not negative: whenever the constitutive
    tensor is positive semi-definite and the quadrature weights are not
    negative, every element stiffness matrix and, on a mesh whose elements
    repeat no node, the assembled stiffness matrix are positive
    semi-definite; the forces that [solve] returns then do no negative
    work on the displacements it returns. *)
Theorem stiffness_positive_semidefinite (self : Solid.t) (et : element) :
  well_formed self et ->
  is_mat 6 6 (Solid.C self) -> positive_semidefinite 6 (Solid.C self) ->
  Forall (fun w => 0 <= w) (et_iweights et) ->
  (forall j kj, Solid.k self j = Ok kj ->
                positive_semidefinite (3 * et_nodes et) kj)
  /\ (Forall NoDup (Solid.elements self) ->
      (forall K, Solid.stiffness self = Ok K ->
                 positive_semidefinite (Solid.n_dofs self) K)
      /\ (boundary_ok self ->
          forall u f, Solid.solve self = Ok (u, f) ->
                      0 <= dot (ravel u) (ravel f))).
Proof.
  intros Hwf HC Hpsd Hw.
  assert (Hk : forall j kj, Solid.k self j = Ok kj ->
                            positive_semidefinite (3 * et_nodes et) kj)
    by (intros j kj; by apply (k_psd self et j kj (wf_etype _ _ Hwf)
                                 (wf_element _ _ Hwf))).
  split; [exact Hk|]. intros Hnd.
  assert (HKpsd : forall K, Solid.stiffness self = Ok K ->
                            positive_semidefinite (Solid.n_dofs self) K).
  2:{ split; [exact HKpsd|]. intros Hbc u f Hsolve.
      destruct (solve_inv self u f Hbc Hsolve)
        as (K & F & u_red & HK & HF & Hred & Hu & Hf).
      rewrite Hf. apply (HKpsd K HK).
      rewrite Hu, length_vput, (length_ravel_3 _ (bc_displacements _ Hbc)).
      apply (bc_displacements_len _ Hbc). }
  intros K HK. set (n := Solid.n_dofs self).
  assert (H : is_mat n n K /\ positive_semidefinite n K); [|by destruct H].
  eapply (for_each_inv _ (fun a => is_mat n n a /\ positive_semidefinite n a));
    [| split | exact HK].
  - intros a j a' [Ha Hs].
    destruct (Solid.elements self !! j) as [e|] eqn:Hj.
    2:{ unfold Solid.stiffness_step.
        by rewrite (wf_indices _ _ Hwf), list_lookup_fmap, Hj. }
    rewrite (stiffness_step_unfold self et a j e) by done.
    destruct (Solid.k self j) as [kj|] eqn:Hkj; [|done]. intros [= <-].
    destruct (wf_element_at self et j e Hwf Hj) as [Harity Hrange].
    destruct (k_shape self et j kj (wf_etype _ _ Hwf) (wf_element _ _ Hwf) Hkj)
      as [Hks _].
    assert (Hidx : Forall (fun i => (i < n)%nat) (Solid.dof_indices e)).
    { unfold n. rewrite (wf_dofs self et Hwf). by apply dof_indices_in_range. }
    assert (Hlen : length (Solid.dof_indices e) = (3 * et_nodes et)%nat)
      by (by rewrite length_dof_indices, Harity).
    assert (Hend : NoDup (Solid.dof_indices e)).
    { apply NoDup_dof_indices. by apply (Forall_lookup_1 _ _ _ _ Hnd Hj). }
    split; [by apply is_mat_scatter_add|]. intros x Hx.
    rewrite (scatter_add_energy n) by (done || by rewrite Hlen).
    pose proof (Hs x Hx) as H1.
    pose proof (Hk j kj Hkj (select x (Solid.dof_indices e))
                  ltac:(by rewrite length_select)) as H2.
    apply Qcle_trans with (0 + 0); [by rewrite Qcplus_0_l|].
    by apply Qcplus_le_compat.
  - apply is_mat_zeros2.
  - intros x Hx. rewrite matvec_zeros2, dot_zeros_r. apply Qcle_refl.
Qed.

Lemma Qc_plus_nonneg (a b : Qc) : 0 <= a -> 0 <= b -> 0 <= a + b.
Proof.
  intros Ha Hb. apply Qcle_trans with (0 + 0); [by rewrite Qcplus_0_l|].
  by apply Qcplus_le_compat.
Qed.

Lemma C_iso_psd : positive_semidefinite 6 C_iso.
Proof.
  intros x Hx.
  destruct x as [|a [|b [|c [|d [|e [|f [|]]]]]]]; try done.
  assert (Hh : 0 <= half) by (apply Qc_leb_le; vm_compute; reflexivity).
  replace (dot [a; b; c; d; e; f] (matvec C_iso [a; b; c; d; e; f]))
    with (a * a + b * b + c * c + half * (d * d) + half * (e * e) + half * (f * f)).
  - repeat apply Qc_plus_nonneg; try apply Qc_square_nonneg;
      apply Qc_mult_nonneg; (done || apply Qc_square_nonneg).
  - unfold C_iso, matvec. cbn [map]. rewrite !dot_cons, !dot_nil_l. ring.
Qed.

Lemma stiffness_positive_semidefinite_witness :
  (exists kj, Solid.k (two_tets [0; 0; 1] None) 1 = Ok kj
              /\ positive_semidefinite 12 kj)
  /\ exists K, Solid.stiffness (two_tets [0; 0; 1] None) = Ok K
               /\ positive_semidefinite 15 K.
Proof.
  pose proof (stiffness_positive_semidefinite (two_tets [0; 0; 1] None) Tetra1
                (two_tets_well_formed _ _) is_mat_C_iso C_iso_psd
                ltac:(repeat constructor; apply Qc_leb_le; vm_compute; reflexivity))
    as [Hk HK].
  split.
  - destruct (Solid.k (two_tets [0; 0; 1] None) 1) as [kj|] eqn:Hkj;
      [|exfalso; revert Hkj; vm_compute; discriminate].
    exists kj. split; [reflexivity|]. by apply (Hk 1%nat).
  - destruct (Solid.stiffness (two_tets [0; 0; 1] None)) as [K|] eqn:HKs;
      [|exfalso; revert HKs; vm_compute; discriminate].
    exists K. split; [reflexivity|].
    by apply (proj1 (HK (two_tets_NoDup _ _))).
Defined.

(** ** The strain operator of [Planar] *)

Lemma length_concat_uniform {A} (rows : list (list A)) c :
  Forall (fun r => length r = c) rows -> length (concat rows) = (length rows * c)%nat.
Proof.
  induction 1 as [|r rows Hr _ IH]; [done|].
  cbn [concat length]. rewrite length_app, Hr, IH. lia.
Qed.

Lemma chunk_of_concat {A} (rows : list (list A)) c i r :
  Forall (fun r => length r = c) rows -> rows !! i = Some r ->
  take c (drop (i * c) (concat rows)) = r.
Proof.
  intros Hrows. revert i. induction Hrows as [|r0 rows Hr0 _ IH]; intros i Hi; [done|].
  cbn [concat]. destruct i as [|i].
  - injection Hi as ->. cbn [Nat.mul drop]. rewrite <- Hr0. apply take_app_length.
  - cbn [lookup list_lookup] in Hi.
    replace (S i * c)%nat with (length r0 + i * c)%nat by lia.
    rewrite drop_app_add. by apply IH.
Qed.

(** Reshaping the concatenation of [n] rows of one length to [n] rows
    gives the rows back. *)
Lemma reshape_rows_concat {A} (rows : list (list A)) c :
  Forall (fun r => length r = c) rows -> (0 < length rows)%nat ->
  reshape_rows (length rows) (concat rows) = rows.
Proof.
  intros Hrows Hn. unfold reshape_rows.
  rewrite (length_concat_uniform rows c Hrows).
  rewrite (Nat.mul_comm (length rows) c), Nat.div_mul by lia.
  apply list_eq. intros i.
  change (map ?g ?l) with (g <$> l). rewrite list_lookup_fmap.
  destruct (rows !! i) as [r|] eqn:Hi.
  - rewrite lookup_seq_lt by (by apply lookup_lt_Some in Hi). cbn.
    f_equal. by apply chunk_of_concat.
  - rewrite lookup_seq_ge by (by apply lookup_ge_None in Hi). done.
Qed.

Lemma batch_row_ok i (B : list mat) :
  Forall (fun Be => (i < length Be)%nat) B ->
  batch_row i B = Ok (map (fun Be => nth i Be []) B).
Proof.
  intros HB. unfold batch_row. apply map_result_ok.
  eapply Forall_impl; [exact HB|]. intros Be Hi. simpl in Hi |- *.
  destruct (nth_lookup_or_length Be i []) as [Hl|?]; [|lia]. by rewrite Hl.
Qed.

Lemma stack_ravel_2 (a b : vec) :
  Solid.stack_ravel [a; b]
  = concat (map (fun j => [vnth a j; vnth b j]) (seq 0 (length a))).
Proof. reflexivity. Qed.

Lemma length_concat_pairs (g : nat -> vec) s n :
  (forall j, length (g j) = 2%nat) ->
  length (concat (map g (seq s n))) = (2 * n)%nat.
Proof.
  intros Hg. revert s. induction n as [|n IH]; intros s; simpl; [done|].
  rewrite length_app, Hg, IH. lia.
Qed.

Lemma vnth_concat_pairs (g : nat -> vec) s n m i :
  (forall j, length (g j) = 2%nat) -> (m < n)%nat -> (i < 2)%nat ->
  vnth (concat (map g (seq s n))) (2 * m + i) = vnth (g (s + m)%nat) i.
Proof.
  intros Hg. revert s m. induction n as [|n IH]; intros s m Hm Hi; [lia|].
  cbn [seq map concat]. unfold vnth in *. destruct m as [|m].
  - replace (s + 0)%nat with s by lia. replace (2 * 0 + i)%nat with i by lia.
    rewrite app_nth1; [done | rewrite Hg; lia].
  - rewrite app_nth2; rewrite Hg; [|lia].
    replace (2 * S m + i - 2)%nat with (2 * m + i)%nat by lia.
    rewrite IH by lia. f_equal. f_equal. lia.
Qed.

Lemma length_stack_ravel_2 (a b : vec) :
  length (Solid.stack_ravel [a; b]) = (2 * length a)%nat.
Proof. rewrite stack_ravel_2. by apply length_concat_pairs. Qed.

Lemma vnth_stack_ravel_2 (a b : vec) m i :
  (m < length a)%nat -> (i < 2)%nat ->
  vnth (Solid.stack_ravel [a; b]) (2 * m + i) = vnth (nth i [a; b] []) m.
Proof.
  intros Hm Hi. rewrite stack_ravel_2.
  rewrite vnth_concat_pairs by (done || lia). simpl.
  destruct i as [|[|i]]; try lia; reflexivity.
Qed.

Lemma sumn_2 n (g : nat -> Qc) :
  sumn (2 * n) g = sumn n (fun a => g (2 * a)%nat + g (2 * a + 1)%nat).
Proof.
  induction n as [|n IH]; [done|].
  replace (2 * S n)%nat with (S (S (2 * n))) by lia.
  cbn [sumn]. rewrite IH.
  replace (S (2 * n)) with (2 * n + 1)%nat by lia. ring.
Qed.

Lemma vnth_ravel_2 (U : mat) a i :
  Forall (fun r => length r = 2%nat) U -> (i < 2)%nat ->
  vnth (ravel U) (2 * a + i) = entry U a i.
Proof.
  intros HU Hi. revert a. induction HU as [|r U Hr HU IH]; intros a.
  - unfold ravel. cbn [concat]. rewrite vnth_nil. unfold entry.
    destruct a; cbn [nth]; by rewrite vnth_nil.
  - unfold ravel. cbn [concat]. unfold vnth, entry in *. destruct a as [|a].
    + replace (2 * 0 + i)%nat with i by lia. rewrite app_nth1 by lia. done.
    + rewrite app_nth2 by lia. rewrite Hr.
      replace (2 * S a + i - 2)%nat with (2 * a + i)%nat by lia.
      cbn [nth]. apply IH.
Qed.

Lemma is_mat_planar_D_rows n Be : is_mat 2 n Be -> is_mat 3 (2 * n) (planar_D_rows n Be).
Proof.
  intros HB. split; [done|]. unfold planar_D_rows. cbv zeta.
  repeat match goal with |- Forall _ _ => constructor end;
    rewrite length_stack_ravel_2, ?length_zeros;
    by rewrite ?(is_mat_row 2 n Be _ HB) by lia.
Qed.

(** What [Planar.D] returns for a batch of gradients of the right shape. *)
Lemma Planar_D_unfold base base_n_elem (self : Planar base) (B nodes0 : list mat) :
  length B = base_n_elem (planar_base base self) -> (0 < length B)%nat ->
  Forall (is_mat 2 (et_nodes (planar_etype base self))) B ->
  Planar_D base base_n_elem self B nodes0
  = Ok (map (planar_D_rows (et_nodes (planar_etype base self))) B).
Proof.
  intros Hn Hpos HB. unfold Planar_D. cbv zeta. rewrite <- Hn.
  set (n := et_nodes (planar_etype base self)) in *.
  rewrite !batch_row_ok
    by (eapply Forall_impl; [exact HB|]; intros Be [Hl _]; simpl; lia).
  cbn [mbind result_bind].
  set (B0 := map (fun Be => nth 0 Be []) B). set (B1 := map (fun Be => nth 1 Be []) B).
  assert (HB0 : Forall (fun r => length r = n) B0).
  { apply Forall_map. eapply Forall_impl; [exact HB|]. intros Be HBe. simpl.
    apply (is_mat_row 2 n Be _ HBe). lia. }
  assert (HB1 : Forall (fun r => length r = n) B1).
  { apply Forall_map. eapply Forall_impl; [exact HB|]. intros Be HBe. simpl.
    apply (is_mat_row 2 n Be _ HBe). lia. }
  assert (Hz : Forall (fun r => length r = n) (zeros2 (length B) n)).
  { unfold zeros2. apply Forall_replicate. apply length_zeros. }
  assert (Hrows : forall X Z : mat,
            length X = length B -> length Z = length B ->
            Forall (fun r => length r = n) X ->
            reshape_rows (length B) (stack_last X Z)
            = zip_with (fun x z => Solid.stack_ravel [x; z]) X Z).
  { intros X Z HX HZ HXr. unfold stack_last.
    assert (Hl : length (zip_with (fun x z => Solid.stack_ravel [x; z]) X Z) = length B)
      by (rewrite length_zip_with; lia).
    rewrite <- Hl at 1. apply (reshape_rows_concat _ (2 * n)); [|lia].
    apply Forall_forall. intros r Hr.
    apply elem_of_lookup_zip_with in Hr as (i & x & z & -> & Hx & _).
    rewrite length_stack_ravel_2. by rewrite (Forall_lookup_1 _ _ _ _ HXr Hx). }
  assert (LB0 : length B0 = length B) by (unfold B0; by rewrite length_map).
  assert (LB1 : length B1 = length B) by (unfold B1; by rewrite length_map).
  assert (LZ : length (zeros2 (length B) n) = length B) by apply length_replicate.
  rewrite !Hrows by done. f_equal.
  unfold stack_dim1, zeros2, B0, B1. clear.
  induction B as [|Be B IH]; [done|].
  cbn [length replicate map zip_with zip fst snd]. f_equal. exact IH.
Qed.

Lemma planar_D_rows_gradient n (Be U : mat) :
  is_mat 2 n Be -> is_mat n 2 U ->
  matvec (planar_D_rows n Be) (ravel U) = plane_strain (matmul Be U).
Proof.
  intros HB [HU HU2].
  assert (HBrow : forall i, (i < 2)%nat -> length (nth i Be []) = n)
    by (intros i Hi; by apply (is_mat_row 2 n)).
  assert (Hlen : length (ravel U) = (2 * n)%nat).
  { unfold ravel. rewrite (length_concat_uniform U 2 HU2). lia. }
  assert (Hrow : forall (v0 v1 : vec),
            length v0 = n -> length v1 = n ->
            dot (Solid.stack_ravel [v0; v1]) (ravel U)
            = sumn n (fun a => vnth v0 a * entry U a 0)
              + sumn n (fun a => vnth v1 a * entry U a 1)).
  { intros v0 v1 H0 H1.
    rewrite (dot_sumn _ _ (2 * n)); [| by rewrite length_stack_ravel_2, H0 | done].
    rewrite sumn_2, <- !sumn_plus. apply sumn_ext. intros a Ha.
    replace (2 * a)%nat with (2 * a + 0)%nat at 1 2 by lia.
    rewrite !vnth_stack_ravel_2 by (rewrite ?H0; lia).
    rewrite !vnth_ravel_2 by (done || lia). reflexivity. }
  assert (Hz : forall j, sumn n (fun a => vnth (zeros n) a * entry U a j) = 0).
  { intros j. rewrite (sumn_ext n _ (fun _ => 0)), sumn_zero; [done|].
    intros a _. rewrite vnth_zeros. ring. }
  unfold planar_D_rows, matvec. cbv zeta. cbn [map].
  rewrite !Hrow by (rewrite ?length_zeros; auto). rewrite !Hz.
  destruct (decide (n = 0)%nat) as [Hn|Hn].
  - rewrite Hn in *. destruct U; [|done]. destruct HB as [HB2 _].
    destruct Be as [|r0 [|r1 [|]]]; done.
  - assert (Hnc : ncols U = 2%nat).
    { destruct U as [|r U]; [simpl in HU; lia|].
      apply Forall_cons_1 in HU2 as [Hr _]. exact Hr. }
    unfold plane_strain.
    rewrite !(entry_matmul_sum Be U n)
      by (rewrite ?(proj1 HB), ?Hnc, ?HBrow; (done || lia)).
    unfold entry.
    repeat match goal with |- _ :: _ = _ :: _ => f_equal; try ring end.
Qed.

(** X22. For a batch [B] of Cartesian gradients, one matrix of two rows
    and one column per node for every element, [Planar.D] returns for every
    element the strain operator of three rows and two columns per node,
    for the strains (xx, yy, xy): at node [a] row 0 holds [B[0,a]] in
    column [2a], row 1 [B[1,a]] in column [2a+1], row 2 [B[1,a]] in column
    [2a] and [B[0,a]] in column [2a+1].  Applied to nodal displacements
    it gives the plane engineering strain of the displacement gradient. *)
Theorem Planar_D_is_the_strain_operator base (base_n_elem : base -> nat)
    (self : Planar base) (B nodes0 : list mat) :
  length B = base_n_elem (planar_base base self) -> (0 < length B)%nat ->
  Forall (is_mat 2 (et_nodes (planar_etype base self))) B ->
  exists Ds,
    Planar_D base base_n_elem self B nodes0 = Ok Ds
    /\ length Ds = length B
    /\ forall e Be, B !! e = Some Be ->
         exists De,
           Ds !! e = Some De
           /\ is_mat 3 (2 * et_nodes (planar_etype base self)) De
           /\ (forall a, (a < et_nodes (planar_etype base self))%nat ->
                 entry De 0 (2 * a) = entry Be 0 a /\ entry De 0 (2 * a + 1) = 0
                 /\ entry De 1 (2 * a) = 0 /\ entry De 1 (2 * a + 1) = entry Be 1 a
                 /\ entry De 2 (2 * a) = entry Be 1 a
                 /\ entry De 2 (2 * a + 1) = entry Be 0 a)
           /\ forall U, is_mat (et_nodes (planar_etype base self)) 2 U ->
                matvec De (ravel U) = plane_strain (matmul Be U).
Proof.
  intros Hn Hpos HB. rewrite (Planar_D_unfold base base_n_elem self B nodes0 Hn Hpos HB).
  set (n := et_nodes (planar_etype base self)) in *.
  eexists. split; [reflexivity|]. split; [by rewrite length_map|].
  intros e Be He. exists (planar_D_rows n Be).
  pose proof (Forall_lookup_1 _ _ _ _ HB He) as HBe.
  split; [by rewrite list_lookup_fmap, He|].
  split; [by apply is_mat_planar_D_rows|]. split.
  - intros a Ha.
    assert (H0 : length (nth 0 Be []) = n) by (apply (is_mat_row 2 n Be _ HBe); lia).
    assert (H1 : length (nth 1 Be []) = n) by (apply (is_mat_row 2 n Be _ HBe); lia).
    assert (Hpair : forall v0 v1 : vec, length v0 = n ->
              vnth (Solid.stack_ravel [v0; v1]) (2 * a) = vnth v0 a
              /\ vnth (Solid.stack_ravel [v0; v1]) (2 * a + 1) = vnth v1 a).
    { intros v0 v1 Hv. split.
      - replace (2 * a)%nat with (2 * a + 0)%nat by lia.
        by rewrite vnth_stack_ravel_2 by (rewrite ?Hv; lia).
      - by rewrite vnth_stack_ravel_2 by (rewrite ?Hv; lia). }
    unfold entry, planar_D_rows. cbv zeta. cbn [nth].
    destruct (Hpair (nth 0 Be []) (zeros n) H0) as [-> ->].
    destruct (Hpair (zeros n) (nth 1 Be []) (length_zeros n)) as [-> ->].
    destruct (Hpair (nth 1 Be []) (nth 0 Be []) H1) as [-> ->].
    rewrite !vnth_zeros. by repeat split.
  - intros U HU. by apply planar_D_rows_gradient.
Qed.

Lemma Planar_D_is_the_strain_operator_witness :
  exists Ds,
    Planar_D nat id one_planar [et_B tria []] [] = Ok Ds
    /\ length Ds = 1%nat
    /\ exists De,
         Ds !! 0%nat = Some De
         /\ matvec De (ravel [[0; 0]; [1; 0]; [0; 1]])
            = plane_strain (matmul (et_B tria []) [[0; 0]; [1; 0]; [0; 1]]).
Proof.
  destruct (Planar_D_is_the_strain_operator nat id one_planar [et_B tria []] []
              eq_refl ltac:(simpl; lia)
              ltac:(repeat constructor)) as (Ds & HD & Hl & He).
  exists Ds. split; [exact HD|]. split; [exact Hl|].
  destruct (He 0%nat (et_B tria []) eq_refl) as (De & HDe & _ & _ & Hstrain).
  exists De. split; [exact HDe|]. apply Hstrain. split; by repeat constructor.
Defined.

(** ** Element stiffness and internal force of [Planar] and [Truss] *)

Lemma weighted_column_sum a b (Dm : mat) (S : vec) l :
  vsum (zip_with (fun Dk Sk => a * b * vnth Dk l * Sk) Dm S)
  = a * b * dot (col l Dm) S.
Proof.
  revert S. induction Dm as [|r Dm IH]; intros [|s S].
  - cbn [zip_with vsum foldr col map]. rewrite dot_nil_l. ring.
  - cbn [zip_with vsum foldr col map]. rewrite dot_nil_l. ring.
  - cbn [zip_with vsum foldr col map]. rewrite dot_nil_r. ring.
  - cbn [zip_with vsum foldr col map]. rewrite dot_cons.
    fold (vsum (zip_with (fun Dk Sk => a * b * vnth Dk l * Sk) Dm S)).
    fold (col l Dm). rewrite IH. ring.
Qed.

Lemma state_force_stiffness p m a b (s : mat * mat * vec) :
  state_ok p m s -> (0 < p)%nat ->
  map (fun l => vsum (zip_with (fun Dk Sk => a * b * vnth Dk l * Sk)
                               (state_D s) (state_stress s)))
      (seq 0 (ncols (state_D s)))
  = matvec (map (map (fun x => a * b * x)) (state_DCD s)) (state_u s).
Proof.
  destruct s as [[Dm C0] u]. intros (HD & HC & Hu) Hp.
  unfold state_D, state_stress, state_DCD, state_u. cbn [fst snd] in *.
  pose proof (is_mat_ncols p m Dm HD Hp) as HnD.
  pose proof (is_mat_ncols p p C0 HC Hp) as HnC.
  assert (HT : is_mat m p (transpose Dm)).
  { pose proof (is_mat_transpose Dm) as H. by rewrite HnD, (proj1 HD) in H. }
  assert (HM : is_mat m p (matmul (transpose Dm) C0)).
  { pose proof (is_mat_matmul (transpose Dm) C0) as H.
    by rewrite (proj1 HT), HnC in H. }
  change (map (map (fun x => a * b * x)) ?M) with (mscale (a * b) M).
  rewrite matvec_mscale.
  rewrite (matvec_matmul m p m) by (done || lia).
  rewrite (matvec_matmul m p p)
    by (try done; rewrite length_matvec; apply HD).
  unfold matvec at 3, transpose, vscale. rewrite !map_map.
  apply map_ext. intros l. apply weighted_column_sum.
Qed.

Lemma einsum_force_stiffness p m (t detJ : vec) (states : list (mat * mat * vec)) :
  Forall (state_ok p m) states -> (0 < p)%nat ->
  einsum_j_j_jkl_jk t detJ (map state_D states) (map state_stress states)
  = zip_with matvec (einsum_j_j_jkl t detJ (map state_DCD states))
                    (map state_u states).
Proof.
  intros Hs Hp. unfold einsum_j_j_jkl_jk, einsum_j_j_jkl.
  generalize (zip t detJ). intros tds. revert tds.
  induction Hs as [|s states Hs _ IH]; intros [|td tds]; try done.
  cbn [map zip zip_with fst snd]. f_equal; [|apply IH].
  by apply (state_force_stiffness p m).
Qed.

(** X23. Tangent and residual agree: for element states with strain
    operators [D], constitutive tensors [C] and nodal displacements [u],
    one per element as the thicknesses, areas and Jacobian determinants,
    the internal force that [compute_f] returns for the stresses [C D u]
    is what [compute_k] returns for the integrands [D.T C D], applied to
    [u]; this holds for [Planar] with its thicknesses and for [Truss]
    with its areas. *)
Theorem compute_f_matches_compute_k base (pself : Planar base) (tself : Truss base)
    (detJ : vec) (states : list (mat * mat * vec)) (p m : nat) :
  Forall (state_ok p m) states -> (0 < p)%nat ->
  length detJ = length states ->
  length (thickness base pself) = length states ->
  length (areas base tself) = length states ->
  Planar_compute_f base pself detJ (map state_D states) (map state_stress states)
  = zip_with matvec (Planar_compute_k base pself detJ (map state_DCD states))
                    (map state_u states)
  /\ Truss_compute_f base tself detJ (map state_D states) (map state_stress states)
     = zip_with matvec (Truss_compute_k base tself detJ (map state_DCD states))
                       (map state_u states).
Proof.
  intros Hs Hp _ _ _. unfold Planar_compute_f, Planar_compute_k, Truss_compute_f,
    Truss_compute_k.
  split; by apply (einsum_force_stiffness p m).
Qed.

Lemma compute_f_matches_compute_k_witness :
  let s : mat * mat * vec :=
    (planar_D_rows 3 (et_B tria []),
     [[1; 0; 0]; [0; 1; 0]; [0; 0; half]],
     [0; 0; 1; 0; 0; 1]) in
  Planar_compute_f nat one_planar [half] [state_D s] [state_stress s]
  = zip_with matvec (Planar_compute_k nat one_planar [half] [state_DCD s])
                    [state_u s].
Proof.
  cbv zeta.
  apply (proj1 (compute_f_matches_compute_k nat one_planar one_truss [half]
                  [(planar_D_rows 3 (et_B tria []),
                    [[1; 0; 0]; [0; 1; 0]; [0; 0; half]],
                    [0; 0; 1; 0; 0; 1])] 3 6
                  ltac:(repeat constructor) ltac:(lia)
                  eq_refl eq_refl eq_refl)).
Defined.

(** ** The gradient operator of [Truss] *)

Lemma vnth_concat_uniform (rows : mat) c i l :
  Forall (fun r => length r = c) rows -> (i < length rows)%nat -> (l < c)%nat ->
  vnth (concat rows) (i * c + l) = vnth (nth i rows []) l.
Proof.
  intros Hrows. revert i. induction Hrows as [|r rows Hr _ IH]; intros i Hi Hl;
    [simpl in Hi; lia|].
  cbn [concat]. unfold vnth in *. destruct i as [|i].
  - cbn [Nat.mul Nat.add nth]. rewrite app_nth1 by lia. done.
  - rewrite app_nth2 by lia. rewrite Hr.
    replace (S i * c + l - c)%nat with (i * c + l)%nat by lia.
    cbn [nth]. apply IH; [simpl in Hi; lia | done].
Qed.

Lemma zip_with_map_same {A B C} (f : A -> B -> C) (g : A -> B) (l : list A) :
  zip_with f l (map g l) = map (fun x => f x (g x)) l.
Proof. induction l as [|x l IH]; [done|]. cbn [map zip_with]. by rewrite IH. Qed.

Lemma zip_with_maps {A B C D} (f : B -> C -> D) (g : A -> B) (h : A -> C) (l : list A) :
  zip_with f (map g l) (map h l) = map (fun x => f (g x) (h x)) l.
Proof. induction l as [|x l IH]; [done|]. cbn [map zip_with]. by rewrite IH. Qed.

(** The block of one element in the result of the einsum of [Truss.D]. *)
Lemma length_truss_block J K (Be : mat) (ci : vec) :
  is_mat J K Be ->
  length (concat (map (fun Bij => concat (map (fun b => map (fun c => b * c) ci) Bij))
                      Be))
  = (J * (K * length ci))%nat.
Proof.
  intros [HJ HK].
  rewrite (length_concat_uniform _ (K * length ci)).
  - by rewrite length_map, HJ.
  - apply Forall_map. eapply Forall_impl; [exact HK|]. intros r Hr. simpl.
    rewrite (length_concat_uniform _ (length ci)).
    + by rewrite length_map, Hr.
    + apply Forall_map, Forall_forall. intros b _. simpl. by rewrite length_map.
Qed.

Lemma vnth_truss_block J K (Be : mat) (ci : vec) j k l :
  is_mat J K Be -> (j < J)%nat -> (k < K)%nat -> (l < length ci)%nat ->
  vnth (concat (map (fun Bij => concat (map (fun b => map (fun c => b * c) ci) Bij))
                    Be))
       ((j * K + k) * length ci + l)
  = entry Be j k * vnth ci l.
Proof.
  intros [HJ HK] Hj Hk Hl.
  assert (Hrow : length (nth j Be []) = K) by (by apply (is_mat_row J K)).
  replace ((j * K + k) * length ci + l)%nat
    with (j * (K * length ci) + (k * length ci + l))%nat by lia.
  rewrite (vnth_concat_uniform _ (K * length ci)).
  - rewrite (nth_map_lt _ _ _ []) by lia.
    rewrite (vnth_concat_uniform _ (length ci)).
    + rewrite (nth_map_lt _ _ _ 0) by lia.
      unfold vnth, entry, vnth. rewrite (nth_map_lt _ _ _ 0) by done. done.
    + apply Forall_map, Forall_forall. intros b _. simpl. by rewrite length_map.
    + by rewrite length_map, Hrow.
    + done.
  - apply Forall_map. eapply Forall_impl; [exact HK|]. intros r Hr. simpl.
    rewrite (length_concat_uniform _ (length ci)).
    + by rewrite length_map, Hr.
    + apply Forall_map, Forall_forall. intros b _. simpl. by rewrite length_map.
  - by rewrite length_map, HJ.
  - assert (k * length ci + l < K * length ci)%nat; [nia | done].
Qed.

Lemma dot_scaled (d : vec) (n : Qc) :
  n <> 0 -> dot (map (fun x => x / n) d) (map (fun x => x / n) d) = dot d d / (n * n).
Proof.
  intros Hn. induction d as [|x d IH].
  - cbn [map]. rewrite dot_nil_l. field. done.
  - cbn [map]. rewrite !dot_cons, IH. field. done.
Qed.

(** X24. [Truss.D] for a batch of gradients of one shape [J x K] and
    bars with end points of non-zero distance, whose norm is the exact
    Euclidean one: it returns one row per element; the row holds at the
    position [(j K + k) dim + l] the product of [B[j, k]] and the direction
    cosine [l] of the bar, and the direction cosines form a unit vector. *)
Theorem Truss_D_direction_cosines base (base_n_elem : base -> nat)
    (norm : vec -> Qc) (self : Truss base) (B nodes0 : list mat) (J K dim : nat) :
  length B = base_n_elem (truss_base base self) ->
  length nodes0 = length B -> (0 < length B)%nat ->
  Forall (is_mat J K) B ->
  Forall (fun ne => (2 <= length ne)%nat /\ Forall (fun x => length x = dim) ne)
         nodes0 ->
  (forall ne, ne ∈ nodes0 ->
     let dx := vsub (nth 1 ne []) (nth 0 ne []) in
     norm dx * norm dx = dot dx dx /\ norm dx <> 0) ->
  exists Ds,
    Truss_D base base_n_elem norm self B nodes0 = Ok Ds
    /\ length Ds = length B
    /\ forall e Be ne, B !! e = Some Be -> nodes0 !! e = Some ne ->
         let dx := vsub (nth 1 ne []) (nth 0 ne []) in
         let cs := map (fun x => x / norm dx) dx in
         dot cs cs = 1
         /\ exists row,
              Ds !! e = Some [row]
              /\ length row = (J * (K * dim))%nat
              /\ forall j k l, (j < J)%nat -> (k < K)%nat -> (l < dim)%nat ->
                   vnth row ((j * K + k) * dim + l) = entry Be j k * vnth cs l.
Proof.
  intros Hn Hlen Hpos HB Hnodes Hnorm. unfold Truss_D. rewrite <- Hn.
  rewrite !batch_row_ok
    by (eapply Forall_impl; [exact Hnodes|]; intros ne [Hl _]; simpl; lia).
  cbn [mbind result_bind]. rewrite zip_with_maps, zip_with_map_same, map_map.
  set (dir := fun ne : mat =>
                map (fun x => x / norm (vsub (nth 1 ne []) (nth 0 ne [])))
                    (vsub (nth 1 ne []) (nth 0 ne []))).
  set (block := fun (Bi : mat) (ci : vec) =>
                  concat (map (fun Bij =>
                                 concat (map (fun b => map (fun c => b * c) ci) Bij))
                              Bi)).
  change (einsum_ijk_il B (map dir nodes0))
    with (concat (zip_with block B (map dir nodes0))).
  assert (Hdir : forall ne, ne ∈ nodes0 -> length (dir ne) = dim).
  { intros ne Hne. unfold dir. rewrite length_map.
    rewrite Forall_forall in Hnodes. destruct (Hnodes ne Hne) as [H2 Hd].
    destruct ne as [|x0 [|x1 ne]]; simpl in H2; try lia. cbn [nth].
    apply Forall_cons_1 in Hd as [H0 Hd]. apply Forall_cons_1 in Hd as [H1 _].
    unfold vsub. rewrite length_zip_with. lia. }
  assert (Hblocks : Forall (fun r => length r = (J * (K * dim))%nat)
                           (zip_with block B (map dir nodes0))).
  { apply Forall_forall. intros r Hr.
    apply elem_of_lookup_zip_with in Hr as (i & Bi & ci & -> & HBi & Hci).
    change (map dir nodes0) with (dir <$> nodes0) in Hci.
    rewrite list_lookup_fmap in Hci.
    destruct (nodes0 !! i) as [ne|] eqn:Hne; [|done]. injection Hci as <-.
    unfold block. rewrite (length_truss_block J K) by (by apply (Forall_lookup_1 _ _ _ _ HB HBi)).
    rewrite Hdir; [done | by apply (list_elem_of_lookup_2 _ i)]. }
  assert (Hl : length (zip_with block B (map dir nodes0)) = length B)
    by (rewrite length_zip_with, length_map; lia).
  assert (Hrs : reshape_rows (length B) (concat (zip_with block B (map dir nodes0)))
                = zip_with block B (map dir nodes0)).
  { rewrite <- Hl. apply (reshape_rows_concat _ _ Hblocks). lia. }
  rewrite Hrs.
  eexists. split; [reflexivity|]. split; [by rewrite length_map|].
  intros e Be ne HBe Hne. cbv zeta.
  pose proof (list_elem_of_lookup_2 _ _ _ Hne) as Hin.
  destruct (Hnorm ne Hin) as [Hsq Hnz]. fold (dir ne). split.
  - unfold dir. rewrite dot_scaled by done. rewrite <- Hsq. field. done.
  - exists (block Be (dir ne)). split.
    + change (map ?g ?l) with (g <$> l). rewrite list_lookup_fmap.
      rewrite lookup_zip_with, HBe. cbn [mbind option_bind].
      rewrite list_lookup_fmap, Hne. done.
    + pose proof (Forall_lookup_1 _ _ _ _ HB HBe) as HBs.
      split.
      * unfold block. rewrite (length_truss_block J K) by done. by rewrite Hdir.
      * intros j k l Hj Hk Hl'. rewrite <- (Hdir ne Hin) at 1.
        apply (vnth_truss_block J K); (done || by rewrite Hdir).
Qed.

Lemma Truss_D_direction_cosines_witness :
  exists Ds,
    Truss_D nat id norm_exact one_truss [et_B bar []]
            [[[0; 0]; [Q2Qc (3 # 1); Q2Qc (4 # 1)]]] = Ok Ds
    /\ length Ds = 1%nat
    /\ dot [Q2Qc (3 # 5); Q2Qc (4 # 5)] [Q2Qc (3 # 5); Q2Qc (4 # 5)] = 1.
Proof.
  destruct (Truss_D_direction_cosines nat id norm_exact one_truss [et_B bar []]
              [[[0; 0]; [Q2Qc (3 # 1); Q2Qc (4 # 1)]]] 1 2 2 eq_refl eq_refl
              ltac:(simpl; lia) ltac:(repeat constructor)
              ltac:(repeat constructor))
    as (Ds & HD & Hl & He).
  - intros ne Hne. apply list_elem_of_singleton in Hne as ->. split.
    + apply Qc_is_canon. vm_compute. reflexivity.
    + intros H. apply (f_equal this) in H. vm_compute in H. discriminate.
  - exists Ds. split; [exact HD|]. split; [exact Hl|].
    destruct (He 0%nat (et_B bar []) [[0; 0]; [Q2Qc (3 # 1); Q2Qc (4 # 1)]]
                eq_refl eq_refl) as [Hunit _].
    rewrite <- Hunit. f_equal; Qc_compute.
Defined.

(** ** Freshly constructed [Truss] and [Planar] instances *)

Lemma einsum_unit_sections n (detJ : vec) (DCD : list mat) :
  length detJ = n ->
  einsum_j_j_jkl (replicate n 1) detJ DCD = zip_with mscale detJ DCD.
Proof.
  intros <-. unfold einsum_j_j_jkl. revert DCD.
  induction detJ as [|d detJ IH]; intros [|M DCD]; try done.
  cbn [length replicate zip zip_with fst snd]. f_equal; [|apply IH].
  unfold mscale, vscale. apply map_ext. intros r. apply map_ext. intros x. ring.
Qed.

(** X25. A freshly constructed [Truss] has the area 1 for each entry of
    [elements] and a freshly constructed [Planar] the thickness 1 for each
    of the [n_elem] elements of the base class, so that [compute_k], for
    one Jacobian determinant and one integrand per element, scales each
    integrand by the Jacobian determinant of its element alone. *)
Theorem fresh_sections_are_unit (material base : Type)
    (FEM_init : mat -> list (list nat) -> material -> result base)
    (base_n_elem : base -> nat) (Bar1 Bar2 Tria1 Tria2 Quad1 Quad2 : element)
    (nodes0 : mat) (elements0 : list (list nat)) (m : material) :
  (forall self,
      Truss_init material base FEM_init base_n_elem Bar1 Bar2 nodes0 elements0 m
      = Ok self ->
      areas base self = replicate (length elements0) 1
      /\ forall detJ DCD, length detJ = length elements0 ->
           length DCD = length detJ ->
           Truss_compute_k base self detJ DCD = zip_with mscale detJ DCD)
  /\ (forall self,
        Planar_init material base FEM_init base_n_elem Tria1 Tria2 Quad1 Quad2
                    nodes0 elements0 m = Ok self ->
        thickness base self = replicate (base_n_elem (planar_base base self)) 1
        /\ forall detJ DCD, length detJ = base_n_elem (planar_base base self) ->
             length DCD = length detJ ->
             Planar_compute_k base self detJ DCD = zip_with mscale detJ DCD).
Proof.
  split; intros self; [unfold Truss_init | unfold Planar_init];
    destruct (FEM_init nodes0 elements0 m) as [b|]; try done;
    cbn [mbind result_bind];
    destruct (elements0 !! 0%nat) as [first|]; try done;
    cbn [of_option mbind result_bind];
    repeat case_decide; try done; cbn [mbind result_bind];
    intros [= <-]; cbn [areas thickness planar_base];
    (split; [reflexivity|]); intros detJ DCD Hl _;
    unfold Truss_compute_k, Planar_compute_k; cbn [areas thickness];
    by apply einsum_unit_sections.
Qed.

(** ** The outcomes of [solve] *)




